(** * UltimateLinkedList: a shallow embedding of
      src/data-structures/iterator-based-linked-list.js

    The JavaScript objects live in an explicit store: node objects in a heap
    addressed by [addr], list objects and transaction objects in stores of
    their own, so that the aliasing the source relies on (the list and the
    caller both holding the same transaction, two lists sharing nodes after
    [concat], the shallow copies taken by [Transaction.begin]) is the aliasing
    of the model.  Every method is a computation in a small state-and-error
    monad; a JavaScript exception is [Throw], and a loop whose trip count is
    not bounded by its arguments takes fuel. *)

From Stdlib Require Import ZArith Lia.
From stdpp Require Import base tactics option numbers strings pretty sets sorting list.

Set Default Proof Using "Type".
Set Warnings "-clear-no-such-hyp".

(** ** Values *)

(** A JavaScript value type is any type with a distinguished [undefined]. *)
Class JsValue (V : Type) := {
  undefined : V
}.

(** ** Objects *)

(** Addresses of node objects, references to list objects and to
    transaction objects, identities of listeners. *)
Abbreviation addr := nat (only parsing).
Abbreviation lref := nat (only parsing).
Abbreviation tref := nat (only parsing).
Abbreviation listener := nat (only parsing).

(** A reference that may be [null]. *)
Abbreviation ptr := (option nat) (only parsing).

Record Node (V : Type) := mkNode {
  value : V;
  next : ptr;
  prev : ptr;
  skip : ptr;
  _insertionIndex : Z
}.
Arguments mkNode {V}.
Arguments value {V}.
Arguments next {V}.
Arguments prev {V}.
Arguments skip {V}.
Arguments _insertionIndex {V}.

Inductive Event (V : Type) :=
| EvAdd (v : V)
| EvRemove (v : V)
| EvUpdate (index : Z) (oldValue newValue : V)
| EvClear (size : Z)
| EvReverse
| EvConcat (size : Z)
| EvSort
| EvRollback.
Arguments EvAdd {V}.
Arguments EvRemove {V}.
Arguments EvUpdate {V}.
Arguments EvClear {V}.
Arguments EvReverse {V}.
Arguments EvConcat {V}.
Arguments EvSort {V}.
Arguments EvRollback {V}.

(** [Transaction._snapshot]: the two shallow copies [{ ...head }] and
    [{ ...tail }] are objects of their own, so the snapshot holds their
    addresses. *)
Record Snapshot := mkSnapshot {
  snap_head : addr;
  snap_tail : addr;
  snap_size : Z
}.

Record Transaction (V : Type) := mkTransaction {
  _list : lref;
  _snapshot : option Snapshot;
  _active : bool;
  events : list (Event V)
}.
Arguments mkTransaction {V}.
Arguments _list {V}.
Arguments _snapshot {V}.
Arguments _active {V}.
Arguments events {V}.

Record UltimateLinkedList := mkList {
  _head : addr;
  _tail : addr;
  _size : Z;
  _useSkipLinks : bool;
  _observable : bool;
  _listeners : list listener;
  _transaction : option tref;
  _modCount : Z
}.

(** The store.  [delivered] is the trace of listener calls: [(f, e)] is
    appended when listener [f] is called with event [e]. *)
Record Store (V : Type) := mkStore {
  nodes : list (Node V);
  lists : list UltimateLinkedList;
  txns : list (Transaction V);
  delivered : list (listener * Event V)
}.
Arguments mkStore {V}.
Arguments nodes {V}.
Arguments lists {V}.
Arguments txns {V}.
Arguments delivered {V}.

Definition empty_store {V} : Store V := mkStore [] [] [] [].

(** ** The monad *)

Inductive Err := RangeError | TypeError | ConcurrentModification | Dangling.

Inductive result (A : Type) :=
| Ok (a : A)
| Throw (e : Err)
| OutOfFuel.
Arguments Ok {A}.
Arguments Throw {A}.
Arguments OutOfFuel {A}.

Definition M (V A : Type) : Type := Store V → result (A * Store V).

Definition ret {V A} (a : A) : M V A := λ s, Ok (a, s).

Definition bind {V A B} (m : M V A) (f : A → M V B) : M V B :=
  λ s, match m s with
       | Ok (a, s') => f a s'
       | Throw e => Throw e
       | OutOfFuel => OutOfFuel
       end.

Definition throw {V A} (e : Err) : M V A := λ _, Throw e.

Definition out_of_fuel {V A} : M V A := λ _, OutOfFuel.

Declare Scope js_scope.
Delimit Scope js_scope with js.
Notation "x ← y ; z" := (bind y (λ x, z))
  (at level 20, y at level 100, z at level 200, only parsing) : js_scope.
Notation "' x ← y ; z" := (bind y (λ x, z))
  (at level 20, x pattern, y at level 100, z at level 200, only parsing) : js_scope.
Notation "x ;; z" := (bind x (λ _, z))
  (at level 100, z at level 200, only parsing, right associativity) : js_scope.

(** [when c m]: the statement [if (c) { m }]. *)
Definition when {V} (c : bool) (m : M V unit) : M V unit :=
  if c then m else ret tt.

Definition set_value {V} (n : Node V) (v : V) : Node V :=
  mkNode v (next n) (prev n) (skip n) (_insertionIndex n).
Definition set_next {V} (n : Node V) (p : ptr) : Node V :=
  mkNode (value n) p (prev n) (skip n) (_insertionIndex n).
Definition set_prev {V} (n : Node V) (p : ptr) : Node V :=
  mkNode (value n) (next n) p (skip n) (_insertionIndex n).
Definition set_skip {V} (n : Node V) (p : ptr) : Node V :=
  mkNode (value n) (next n) (prev n) p (_insertionIndex n).
Definition set_insertionIndex {V} (n : Node V) (i : Z) : Node V :=
  mkNode (value n) (next n) (prev n) (skip n) i.

Definition set_head (l : UltimateLinkedList) (a : addr) :=
  mkList a (_tail l) (_size l) (_useSkipLinks l) (_observable l)
         (_listeners l) (_transaction l) (_modCount l).
Definition set_tail (l : UltimateLinkedList) (a : addr) :=
  mkList (_head l) a (_size l) (_useSkipLinks l) (_observable l)
         (_listeners l) (_transaction l) (_modCount l).
Definition set_size (l : UltimateLinkedList) (n : Z) :=
  mkList (_head l) (_tail l) n (_useSkipLinks l) (_observable l)
         (_listeners l) (_transaction l) (_modCount l).
Definition set_listeners (l : UltimateLinkedList) (fs : list listener) :=
  mkList (_head l) (_tail l) (_size l) (_useSkipLinks l) (_observable l)
         fs (_transaction l) (_modCount l).
Definition set_transaction (l : UltimateLinkedList) (t : option tref) :=
  mkList (_head l) (_tail l) (_size l) (_useSkipLinks l) (_observable l)
         (_listeners l) t (_modCount l).
Definition set_modCount (l : UltimateLinkedList) (n : Z) :=
  mkList (_head l) (_tail l) (_size l) (_useSkipLinks l) (_observable l)
         (_listeners l) (_transaction l) n.

Section Model.
Context {V : Type} `{JsValue V}.

Local Open Scope js_scope.

(** *** Store access *)

Definition with_nodes (s : Store V) (ns : list (Node V)) : Store V :=
  mkStore ns (lists s) (txns s) (delivered s).
Definition with_lists (s : Store V) (ls : list UltimateLinkedList) : Store V :=
  mkStore (nodes s) ls (txns s) (delivered s).
Definition with_txns (s : Store V) (ts : list (Transaction V)) : Store V :=
  mkStore (nodes s) (lists s) ts (delivered s).
Definition with_delivered (s : Store V) (d : list (listener * Event V)) : Store V :=
  mkStore (nodes s) (lists s) (txns s) d.

(** Reading a field of [null] is a [TypeError]; an address outside the heap
    cannot arise from JavaScript and is reported as [Dangling]. *)
Definition getNode (p : ptr) : M V (Node V) := λ s,
  match p with
  | None => Throw TypeError
  | Some a => match nodes s !! a with
              | Some n => Ok (n, s)
              | None => Throw Dangling
              end
  end.

Definition modNode (p : ptr) (f : Node V → Node V) : M V unit := λ s,
  match p with
  | None => Throw TypeError
  | Some a => match nodes s !! a with
              | Some _ => Ok (tt, with_nodes s (alter f a (nodes s)))
              | None => Throw Dangling
              end
  end.

(** [new Node(...)] and object spread: a fresh object at the next address. *)
Definition allocNode (n : Node V) : M V addr := λ s,
  Ok (length (nodes s), with_nodes s (nodes s ++ [n])).

Definition getList (this : lref) : M V UltimateLinkedList := λ s,
  match lists s !! this with
  | Some l => Ok (l, s)
  | None => Throw Dangling
  end.

Definition modList (this : lref) (f : UltimateLinkedList → UltimateLinkedList)
  : M V unit := λ s,
  match lists s !! this with
  | Some _ => Ok (tt, with_lists s (alter f this (lists s)))
  | None => Throw Dangling
  end.

Definition allocList (l : UltimateLinkedList) : M V lref := λ s,
  Ok (length (lists s), with_lists s (lists s ++ [l])).

Definition getTxn (t : tref) : M V (Transaction V) := λ s,
  match txns s !! t with
  | Some tx => Ok (tx, s)
  | None => Throw Dangling
  end.

Definition modTxn (t : tref) (f : Transaction V → Transaction V) : M V unit := λ s,
  match txns s !! t with
  | Some _ => Ok (tt, with_txns s (alter f t (txns s)))
  | None => Throw Dangling
  end.

Definition allocTxn (tx : Transaction V) : M V tref := λ s,
  Ok (length (txns s), with_txns s (txns s ++ [tx])).

(** A call [listener(event)]. A listener only observes: what it throws is
    caught by the caller's [try]/[catch], and it does not call back into the
    list. *)
Definition call (f : listener) (e : Event V) : M V unit := λ s,
  Ok (tt, with_delivered s (delivered s ++ [(f, e)])).

(** Fuel for the loops that follow [next] until they meet a sentinel: a walk
    that visits more nodes than the heap holds has entered a cycle. *)
Definition getFuel : M V nat := λ s, Ok (S (length (nodes s)), s).

Definition getNext (p : ptr) : M V ptr := n ← getNode p; ret (next n).
Definition getPrev (p : ptr) : M V ptr := n ← getNode p; ret (prev n).
Definition getSkip (p : ptr) : M V ptr := n ← getNode p; ret (skip n).
Definition getValue (p : ptr) : M V V := n ← getNode p; ret (value n).

Definition setNext (p q : ptr) : M V unit := modNode p (λ n, set_next n q).
Definition setPrev (p q : ptr) : M V unit := modNode p (λ n, set_prev n q).
Definition setSkip (p q : ptr) : M V unit := modNode p (λ n, set_skip n q).
Definition setValue (p : ptr) (v : V) : M V unit := modNode p (λ n, set_value n v).

(** [this._modCount++] *)
Definition bumpModCount (this : lref) : M V unit :=
  modList this (λ l, set_modCount l (_modCount l + 1)).

(** [for (const listener of listeners) { try { listener(event) } catch ... }] *)
Fixpoint callAll (fs : list listener) (e : Event V) : M V unit :=
  match fs with
  | [] => ret tt
  | f :: fs' => call f e;; callAll fs' e
  end.

(** *** Private methods of UltimateLinkedList *)

Definition _notify (this : lref) (e : Event V) : M V unit :=
  l ← getList this;
  match _transaction l with
  | Some t => modTxn t (λ tx, mkTransaction (_list tx) (_snapshot tx) (_active tx)
                                            (events tx ++ [e]))
  | None => callAll (_listeners l) e
  end.

Definition _addNodeAfter (this : lref) (prv : ptr) (v : V) : M V ptr :=
  a ← allocNode (mkNode v None None None 0);
  let node := Some a in
  nxt ← getNext prv;
  setPrev node prv;;
  setNext node nxt;;
  setNext prv node;;
  setPrev nxt node;;
  l ← getList this;
  modNode node (λ n, set_insertionIndex n (_modCount l));;
  modList this (λ l, set_size l (_size l + 1));;
  l ← getList this;
  when (_observable l && negb (bool_decide (is_Some (_transaction l))))
       (_notify this (EvAdd v));;
  ret node.

Definition _removeNode (this : lref) (node : ptr) : M V V :=
  prv ← getPrev node;
  nxt ← getNext node;
  setNext prv nxt;;
  setPrev nxt prv;;
  v ← getValue node;
  modList this (λ l, set_size l (_size l - 1));;
  l ← getList this;
  when (_observable l && negb (bool_decide (is_Some (_transaction l))))
       (_notify this (EvRemove v));;
  ret v.

(** The inner loop of [_updateSkipLinks]:
    [for (let i = 0; i < skipDistance && target !== this._tail; i++)
       target = target.next]. *)
Fixpoint skipTarget (tl : addr) (n : nat) (target : ptr) : M V ptr :=
  match n with
  | O => ret target
  | S n' =>
      if bool_decide (target = Some tl) then ret target
      else t ← getNext target; skipTarget tl n' t
  end.

(** The outer loop of [_updateSkipLinks]; the loop neither changes [_tail]
    nor any [next] field. *)
Fixpoint updateSkipLinks_loop (fuel : nat) (tl : addr) (skipDistance : Z)
    (node : ptr) (count : Z) : M V unit :=
  if bool_decide (node = Some tl) then ret tt
  else match fuel with
       | O => out_of_fuel
       | S fuel' =>
           when (Z.rem count skipDistance =? 0)%Z
                (target ← skipTarget tl (Z.to_nat skipDistance) node;
                 setSkip node target);;
           nxt ← getNext node;
           updateSkipLinks_loop fuel' tl skipDistance nxt (count + 1)%Z
       end.

Definition _updateSkipLinks (this : lref) : M V unit :=
  l ← getList this;
  if negb (_useSkipLinks l) || (_size l <? 8)%Z then ret tt
  else
    let skipDistance := Z.max 2 (Z.sqrt (_size l)) in
    node ← getNext (Some (_head l));
    fuel ← getFuel;
    updateSkipLinks_loop fuel (_tail l) skipDistance node 0.

(** [a % b === 0] on integers; [b = 0] gives [NaN], which is not [0]. *)
Definition rem_is_zero (a b : Z) : bool :=
  negb (b =? 0)%Z && (Z.rem a b =? 0)%Z.

(** [n] times [node = node.next] *)
Fixpoint walkNext (n : nat) (node : ptr) : M V ptr :=
  match n with
  | O => ret node
  | S n' => nxt ← getNext node; walkNext n' nxt
  end.

(** [n] times [node = node.prev] *)
Fixpoint walkPrev (n : nat) (node : ptr) : M V ptr :=
  match n with
  | O => ret node
  | S n' => p ← getPrev node; walkPrev n' p
  end.

(** [while (node.skip && idx + Math.floor(Math.sqrt(this._size)) <= index)]:
    every trip adds the skip distance to [idx]. *)
Fixpoint skipForward (fuel : nat) (skipDistance index : Z) (node : ptr) (idx : Z)
  : M V (ptr * Z) :=
  s ← getSkip node;
  if bool_decide (is_Some s) && (idx + skipDistance <=? index)%Z then
    match fuel with
    | O => out_of_fuel
    | S fuel' => skipForward fuel' skipDistance index s (idx + skipDistance)%Z
    end
  else ret (node, idx).

Definition _nodeAt (this : lref) (index : Z) : M V (ptr * Z) :=
  l ← getList this;
  let index := if (index <? 0)%Z then (_size l + index)%Z else index in
  if (index <? 0)%Z || (index >=? _size l)%Z then ret (None, (-1)%Z)
  else if (2 * index <=? _size l)%Z then
    if _useSkipLinks l && (_size l >=? 8)%Z then
      node ← getNext (Some (_head l));
      '(node, idx) ← skipForward (Z.to_nat index) (Z.sqrt (_size l)) index node 0;
      node ← walkNext (Z.to_nat (index - idx)) node;
      ret (node, Z.max idx index)
    else
      node ← getNext (Some (_head l));
      node ← walkNext (Z.to_nat index) node;
      ret (node, index)
  else
    node ← getPrev (Some (_tail l));
    node ← walkPrev (Z.to_nat (_size l - 1 - index)) node;
    ret (node, index).

(** *** Public methods *)

Definition isEmpty (this : lref) : M V bool :=
  l ← getList this; ret (_size l =? 0)%Z.

Definition length_ (this : lref) : M V Z :=
  l ← getList this; ret (_size l).

Definition get (this : lref) (index : Z) : M V V :=
  '(node, _) ← _nodeAt this index;
  if bool_decide (is_Some node) then getValue node else ret undefined.

Definition set (this : lref) (index : Z) (v : V) : M V bool :=
  '(node, _) ← _nodeAt this index;
  if negb (bool_decide (is_Some node)) then ret false
  else
    oldValue ← getValue node;
    setValue node v;;
    l ← getList this;
    when (_observable l) (_notify this (EvUpdate index oldValue v));;
    ret true.

Definition append (this : lref) (v : V) : M V unit :=
  bumpModCount this;;
  l ← getList this;
  last ← getPrev (Some (_tail l));
  _addNodeAfter this last v;;
  l ← getList this;
  when (_useSkipLinks l && rem_is_zero (_size l) (Z.sqrt (_size l)))
       (_updateSkipLinks this).

Definition prepend (this : lref) (v : V) : M V unit :=
  bumpModCount this;;
  l ← getList this;
  _addNodeAfter this (Some (_head l)) v;;
  l ← getList this;
  when (_useSkipLinks l && rem_is_zero (_size l) (Z.sqrt (_size l)))
       (_updateSkipLinks this).

(** *** Transaction *)

(** [{ ...node }]: a shallow copy, a new object with the same fields. *)
Definition spread (a : addr) : M V addr :=
  n ← getNode (Some a); allocNode n.

Definition Transaction_begin (t : tref) : M V unit :=
  tx ← getTxn t;
  if _active tx then ret tt
  else
    modTxn t (λ tx, mkTransaction (_list tx) (_snapshot tx) true (events tx));;
    l ← getList (_list tx);
    h ← spread (_head l);
    tl ← spread (_tail l);
    modTxn t (λ tx, mkTransaction (_list tx) (Some (mkSnapshot h tl (_size l)))
                                  (_active tx) (events tx)).

(** The two nested loops of [commit]. *)
Fixpoint flushEvents (this : lref) (evs : list (Event V)) : M V unit :=
  match evs with
  | [] => ret tt
  | e :: evs' =>
      l ← getList this;
      callAll (_listeners l) e;;
      flushEvents this evs'
  end.

Definition Transaction_commit (t : tref) : M V unit :=
  tx ← getTxn t;
  if negb (_active tx) then ret tt
  else
    modTxn t (λ tx, mkTransaction (_list tx) (_snapshot tx) false (events tx));;
    modList (_list tx) (λ l, set_transaction l None);;
    flushEvents (_list tx) (events tx);;
    modTxn t (λ tx, mkTransaction (_list tx) (_snapshot tx) (_active tx) []).

Definition Transaction_rollback (t : tref) : M V unit :=
  tx ← getTxn t;
  match _active tx, _snapshot tx with
  | true, Some snap =>
      modList (_list tx) (λ l, set_head l (snap_head snap));;
      modList (_list tx) (λ l, set_tail l (snap_tail snap));;
      modList (_list tx) (λ l, set_size l (snap_size snap));;
      modTxn t (λ tx, mkTransaction (_list tx) (_snapshot tx) false (events tx));;
      modList (_list tx) (λ l, set_transaction l None);;
      modTxn t (λ tx, mkTransaction (_list tx) (_snapshot tx) (_active tx) []);;
      l ← getList (_list tx);
      callAll (_listeners l) EvRollback
  | _, _ => ret tt
  end.

Definition beginTransaction (this : lref) : M V tref :=
  l ← getList this;
  match _transaction l with
  | Some t => ret t
  | None =>
      t ← allocTxn (mkTransaction this None false []);
      modList this (λ l, set_transaction l (Some t));;
      ret t
  end.

Definition addChangeListener (this : lref) (f : listener) : M V unit :=
  modList this (λ l, set_listeners l (_listeners l ++ [f])).

(** [if (this._transaction) { this._transaction.begin() }] and the same for
    [commit], as [push] and [unshift] have them. *)
Definition beginIfTransaction (this : lref) : M V unit :=
  l ← getList this;
  match _transaction l with
  | Some t => Transaction_begin t
  | None => ret tt
  end.

Definition commitIfTransaction (this : lref) : M V unit :=
  l ← getList this;
  match _transaction l with
  | Some t => Transaction_commit t
  | None => ret tt
  end.

(** [for (const value of values) this._addNodeAfter(this._tail.prev, value)] *)
Fixpoint push_loop (this : lref) (values : list V) : M V unit :=
  match values with
  | [] => ret tt
  | v :: values' =>
      l ← getList this;
      last ← getPrev (Some (_tail l));
      _addNodeAfter this last v;;
      push_loop this values'
  end.

Definition push (this : lref) (values : list V) : M V Z :=
  bumpModCount this;;
  beginIfTransaction this;;
  push_loop this values;;
  l ← getList this;
  when (_useSkipLinks l && negb (bool_decide (values = [])))
       (_updateSkipLinks this);;
  commitIfTransaction this;;
  l ← getList this;
  ret (_size l).

(** [for (let i = values.length - 1; i >= 0; i--)
       this._addNodeAfter(this._head, values[i])], on the reversed list. *)
Fixpoint unshift_loop (this : lref) (rvalues : list V) : M V unit :=
  match rvalues with
  | [] => ret tt
  | v :: rvalues' =>
      l ← getList this;
      _addNodeAfter this (Some (_head l)) v;;
      unshift_loop this rvalues'
  end.

Definition unshift (this : lref) (values : list V) : M V Z :=
  bumpModCount this;;
  beginIfTransaction this;;
  unshift_loop this (rev values);;
  l ← getList this;
  when (_useSkipLinks l && negb (bool_decide (values = [])))
       (_updateSkipLinks this);;
  commitIfTransaction this;;
  l ← getList this;
  ret (_size l).

Definition pop (this : lref) : M V V :=
  e ← isEmpty this;
  if e then ret undefined
  else
    bumpModCount this;;
    l ← getList this;
    last ← getPrev (Some (_tail l));
    _removeNode this last.

Definition shift (this : lref) : M V V :=
  e ← isEmpty this;
  if e then ret undefined
  else
    bumpModCount this;;
    l ← getList this;
    first ← getNext (Some (_head l));
    _removeNode this first.

(** [insertAt(value, index)]; the call without [index] is
    [insertAt this v (_size this)]. *)
Definition insertAt (this : lref) (v : V) (index : Z) : M V unit :=
  l ← getList this;
  let index := if (index <? 0)%Z then (_size l + index + 1)%Z else index in
  if (index <? 0)%Z || (index >? _size l)%Z then throw RangeError
  else
    bumpModCount this;;
    if (index =? 0)%Z then prepend this v
    else if (index =? _size l)%Z then append this v
    else
      '(node, _) ← _nodeAt this (index - 1);
      _addNodeAfter this node v;;
      l ← getList this;
      when (_useSkipLinks l && rem_is_zero (_size l) (Z.sqrt (_size l)))
           (_updateSkipLinks this).

Definition removeAt (this : lref) (index : Z) : M V V :=
  '(node, _) ← _nodeAt this index;
  if negb (bool_decide (is_Some node)) then ret undefined
  else
    bumpModCount this;;
    v ← _removeNode this node;
    l ← getList this;
    when (_useSkipLinks l && (_size l >? 0)%Z
          && rem_is_zero (_size l) (Z.sqrt (_size l * 2)))
         (_updateSkipLinks this);;
    ret v.

(** The scan of [remove]; [comparator(node.value, value)]. *)
Fixpoint remove_loop (fuel : nat) (this : lref) (tl : addr)
    (comparator : V → V → bool) (v : V) (node : ptr) : M V V :=
  if bool_decide (node = Some tl) then ret undefined
  else match fuel with
       | O => out_of_fuel
       | S fuel' =>
           x ← getValue node;
           if comparator x v then
             bumpModCount this;;
             _removeNode this node
           else
             nxt ← getNext node;
             remove_loop fuel' this tl comparator v nxt
       end.

Definition remove (this : lref) (v : V) (comparator : V → V → bool) : M V V :=
  l ← getList this;
  node ← getNext (Some (_head l));
  fuel ← getFuel;
  remove_loop fuel this (_tail l) comparator v node.

Definition clear (this : lref) : M V unit :=
  e ← isEmpty this;
  if e then ret tt
  else
    bumpModCount this;;
    l ← getList this;
    when (_observable l) (_notify this (EvClear (_size l)));;
    setNext (Some (_head l)) (Some (_tail l));;
    setPrev (Some (_tail l)) (Some (_head l));;
    modList this (λ l, set_size l 0).

(** [while (node !== null) { swap node.next and node.prev; node = temp }] *)
Fixpoint reverse_loop (fuel : nat) (node : ptr) : M V unit :=
  match node with
  | None => ret tt
  | Some _ =>
      match fuel with
      | O => out_of_fuel
      | S fuel' =>
          temp ← getNext node;
          p ← getPrev node;
          setNext node p;;
          setPrev node temp;;
          reverse_loop fuel' temp
      end
  end.

Definition reverse (this : lref) : M V unit :=
  l ← getList this;
  if (_size l <? 2)%Z then ret tt
  else
    bumpModCount this;;
    fuel ← getFuel;
    reverse_loop fuel (Some (_head l));;
    modList this (λ l, set_tail (set_head l (_tail l)) (_head l));;
    l ← getList this;
    when (_useSkipLinks l) (_updateSkipLinks this);;
    when (_observable l) (_notify this EvReverse).

(** The walk of [toArray]. *)
Fixpoint toArray_loop (fuel : nat) (tl : addr) (node : ptr) : M V (list V) :=
  if bool_decide (node = Some tl) then ret []
  else match fuel with
       | O => out_of_fuel
       | S fuel' =>
           v ← getValue node;
           nxt ← getNext node;
           rest ← toArray_loop fuel' tl nxt;
           ret (v :: rest)
       end.

(** [new Array(this._size)] throws on a negative length; slots the walk does
    not reach stay holes, which read as [undefined]. *)
Definition toArray (this : lref) : M V (list V) :=
  l ← getList this;
  if (_size l <? 0)%Z then throw RangeError
  else
    node ← getNext (Some (_head l));
    fuel ← getFuel;
    vs ← toArray_loop fuel (_tail l) node;
    ret (vs ++ replicate (Z.to_nat (_size l) - length vs) undefined).

(** [Array.prototype.sort(cmp)]: a stable sort; [a] stays before [b] when
    [cmp a b <= 0]. *)
Fixpoint sorted_insert {A} (cmp : A → A → Z) (x : A) (l : list A) : list A :=
  match l with
  | [] => [x]
  | y :: l' => if (cmp x y <=? 0)%Z then x :: l else y :: sorted_insert cmp x l'
  end.

Fixpoint Array_sort {A} (cmp : A → A → Z) (l : list A) : list A :=
  match l with
  | [] => []
  | x :: l' => sorted_insert cmp x (Array_sort cmp l')
  end.

Section Sort.

(** [String(a).localeCompare(String(b))], the ordering behind the default
    comparator: a builtin, taken as a parameter. *)
Variable localeCompare : V → V → Z.

(** [compareWithIndex] of [sort], for either branch of [compareFn ? ... : ...]. *)
Definition compareWithIndex (compareFn : option (V → V → Z))
    (a b : V) (idxA idxB : Z) : Z :=
  let result := match compareFn with
                | Some f => f a b
                | None => localeCompare a b
                end in
  if (result =? 0)%Z then (idxA - idxB)%Z else result.

(** The loop of [sort] that collects [{ value, insertionIndex }]. *)
Fixpoint sort_collect (fuel : nat) (tl : addr) (node : ptr) : M V (list (V * Z)) :=
  if bool_decide (node = Some tl) then ret []
  else match fuel with
       | O => out_of_fuel
       | S fuel' =>
           n ← getNode node;
           nxt ← getNext node;
           rest ← sort_collect fuel' tl nxt;
           ret ((value n, _insertionIndex n) :: rest)
       end.

(** [for (const item of nodes) { node.value = item.value; node = node.next }] *)
Fixpoint sort_writeBack (items : list (V * Z)) (node : ptr) : M V unit :=
  match items with
  | [] => ret tt
  | item :: items' =>
      setValue node (fst item);;
      nxt ← getNext node;
      sort_writeBack items' nxt
  end.

Definition sort (this : lref) (compareFn : option (V → V → Z)) : M V unit :=
  l ← getList this;
  if (_size l <=? 1)%Z then ret tt
  else
    bumpModCount this;;
    toArray this;;
    node ← getNext (Some (_head l));
    fuel ← getFuel;
    items ← sort_collect fuel (_tail l) node;
    let sorted :=
      Array_sort (λ a b, compareWithIndex compareFn (fst a) (fst b) (snd a) (snd b))
                 items in
    node ← getNext (Some (_head l));
    sort_writeBack sorted node;;
    when (_observable l) (_notify this EvSort).

End Sort.

(** [concat(other)] for [other instanceof UltimateLinkedList]. *)
Definition concat (this other : lref) : M V unit :=
  e ← isEmpty other;
  if e then ret tt
  else
    bumpModCount this;;
    o ← getList other;
    otherHead ← getNext (Some (_head o));
    otherTail ← getPrev (Some (_tail o));
    l ← getList this;
    thisLast ← getPrev (Some (_tail l));
    setNext thisLast otherHead;;
    setPrev otherHead thisLast;;
    setNext otherTail (Some (_tail l));;
    setPrev (Some (_tail l)) otherTail;;
    o ← getList other;
    modList this (λ l, set_size l (_size l + _size o));;
    o ← getList other;
    setNext (Some (_head o)) (Some (_tail o));;
    setPrev (Some (_tail o)) (Some (_head o));;
    modList other (λ o, set_size o 0);;
    l ← getList this;
    when (_useSkipLinks l) (_updateSkipLinks this);;
    when (_observable l) (_notify this (EvConcat (_size l))).

(** [concat(other)] for any other iterable. *)
Definition concat_iterable (this : lref) (other : list V) : M V unit :=
  push this other;; ret tt.

(** [new UltimateLinkedList(iterable, { skipLinks, observable })] *)
Definition new_UltimateLinkedList (iterable : option (list V))
    (skipLinks observable : bool) : M V lref :=
  h ← allocNode (mkNode undefined None None None 0);
  tl ← allocNode (mkNode undefined None None None 0);
  setNext (Some h) (Some tl);;
  setPrev (Some tl) (Some h);;
  this ← allocList (mkList h tl 0 skipLinks observable [] None 0);
  match iterable with
  | Some values => push this values;; ret tt
  | None => ret tt
  end;;
  when skipLinks (_updateSkipLinks this);;
  ret this.

(** [UltimateLinkedList.of(...items)] *)
Definition UltimateLinkedList_of (items : list V) : M V lref :=
  new_UltimateLinkedList (Some items) true false.

(** *** Native iteration *)

(** The closure returned by [[Symbol.iterator]()]: the list, the captured
    [expectedModCount] and the local [node]. *)
Record ListIterator := mkIterator {
  it_list : lref;
  expectedModCount : Z;
  it_node : ptr
}.

Definition iterator (this : lref) : M V ListIterator :=
  l ← getList this;
  ret (mkIterator this (_modCount l) (Some (_head l))).

(** [next()]: the result [{ done: true }] is [None], [{ done: false, value }]
    is [Some value]; the iterator's own [node] is returned with it. *)
Definition iterator_next (it : ListIterator) : M V (ListIterator * option V) :=
  l ← getList (it_list it);
  if negb (expectedModCount it =? _modCount l)%Z then throw ConcurrentModification
  else
    node ← getNext (it_node it);
    let it' := mkIterator (it_list it) (expectedModCount it) node in
    if bool_decide (node = Some (_tail l)) then ret (it', None)
    else v ← getValue node; ret (it', Some v).

(** [for (const value of list)] collecting what it is given, as [[...list]]
    does. *)
Fixpoint iterate_loop (fuel : nat) (it : ListIterator) : M V (list V) :=
  match fuel with
  | O => out_of_fuel
  | S fuel' =>
      '(it', r) ← iterator_next it;
      match r with
      | None => ret []
      | Some v => rest ← iterate_loop fuel' it'; ret (v :: rest)
      end
  end.

Definition spread_list (this : lref) : M V (list V) :=
  it ← iterator this;
  fuel ← getFuel;
  iterate_loop fuel it.

End Model.

(** ** Queries, cursors, functional methods and views

    The callbacks of the functional methods ([callback], [predicate],
    [comparator]) are pure functions of their arguments, as the comparator
    of [remove] is: a callback that calls back into the list is outside
    this model. *)

(** Numbers among the values, for [range]: [number z] is the double whose
    value is the integer [z]. *)
Class JsNumber (V : Type) := { number : Z → V }.

(** The numbers of JavaScript are IEEE 754 doubles, and [range] adds them.
    A double with an integer value is an integer of magnitude at most
    [2^53], or beyond that a multiple of [2^k] of magnitude between
    [2^(52+k)] and [2^(53+k)].  [round_to_double z] is the double nearest to
    the integer [z], the one with the even significand when two are equally
    near: what [a + b] evaluates to when [z] is the sum of the doubles [a]
    and [b], unless that double would be beyond the largest one. *)
Definition round_to_double (z : Z) : Z :=
  let a := Z.abs z in
  if (a <=? 2 ^ 53)%Z then z
  else
    let k := (Z.log2 a - 52)%Z in
    let q := (a / 2 ^ k)%Z in
    let r := (a mod 2 ^ k)%Z in
    let half := (2 ^ (k - 1))%Z in
    let q' := if (r <? half)%Z then q
              else if (half <? r)%Z then (q + 1)%Z
              else if Z.even q then q else (q + 1)%Z in
    (Z.sgn z * (q' * 2 ^ k))%Z.

(** The largest double is [2^1024 - 2^971]: a sum that rounds to [2^1024]
    or beyond evaluates to [Infinity] or [-Infinity]. *)
Definition overflows (z : Z) : bool := (2 ^ 1024 <=? Z.abs z)%Z.

(** [Cursor]: a cursor is used through one reference at a time, so its
    fields travel with the value. *)
Record Cursor := mkCursor {
  cursor_list : lref;
  _node : ptr;
  _index : Z;
  _direction : Z
}.

(** [ImmutableLinkedList]: a reference to the source list and nothing else. *)
Record ImmutableLinkedList := mkImmutable { _source : lref }.

Section Queries.
Context {V : Type} `{JsValue V}.

Local Open Scope js_scope.

Definition first (this : lref) : M V V :=
  l ← getList this;
  n ← getNext (Some (_head l));
  if bool_decide (n = Some (_tail l)) then ret undefined else getValue n.

Definition last_ (this : lref) : M V V :=
  l ← getList this;
  p ← getPrev (Some (_tail l));
  if bool_decide (p = Some (_head l)) then ret undefined else getValue p.

Definition at_ (this : lref) (index : Z) : M V V := get this index.

(** The scan of [indexOf]. *)
Fixpoint indexOf_loop (fuel : nat) (tl : addr) (comparator : V → V → bool)
    (v : V) (node : ptr) (index : Z) : M V Z :=
  if bool_decide (node = Some tl) then ret (-1)%Z
  else match fuel with
       | O => out_of_fuel
       | S fuel' =>
           x ← getValue node;
           if comparator x v then ret index
           else
             nxt ← getNext node;
             indexOf_loop fuel' tl comparator v nxt (index + 1)%Z
       end.

Definition indexOf (this : lref) (v : V) (comparator : V → V → bool) : M V Z :=
  l ← getList this;
  node ← getNext (Some (_head l));
  fuel ← getFuel;
  indexOf_loop fuel (_tail l) comparator v node 0.

(** The scan of [lastIndexOf], from the tail backwards. *)
Fixpoint lastIndexOf_loop (fuel : nat) (hd : addr) (comparator : V → V → bool)
    (v : V) (node : ptr) (index : Z) : M V Z :=
  if bool_decide (node = Some hd) then ret (-1)%Z
  else match fuel with
       | O => out_of_fuel
       | S fuel' =>
           x ← getValue node;
           if comparator x v then ret index
           else
             p ← getPrev node;
             lastIndexOf_loop fuel' hd comparator v p (index - 1)%Z
       end.

Definition lastIndexOf (this : lref) (v : V) (comparator : V → V → bool) : M V Z :=
  l ← getList this;
  node ← getPrev (Some (_tail l));
  fuel ← getFuel;
  lastIndexOf_loop fuel (_head l) comparator v node (_size l - 1).

Definition includes (this : lref) (v : V) (comparator : V → V → bool) : M V bool :=
  i ← indexOf this v comparator;
  ret (negb (i =? -1)%Z).

Section Join.

(** [result += node.value]: the conversion of a value to a string, a
    builtin, taken as a parameter. *)
Variable ToString : V → string.

(** The loop of [join]. *)
Fixpoint join_loop (fuel : nat) (tl : addr) (separator : string) (node : ptr)
    (result : string) : M V string :=
  if bool_decide (node = Some tl) then ret result
  else match fuel with
       | O => out_of_fuel
       | S fuel' =>
           v ← getValue node;
           let result := (result +:+ ToString v)%string in
           nxt ← getNext node;
           let result := if bool_decide (nxt = Some tl) then result
                         else (result +:+ separator)%string in
           join_loop fuel' tl separator nxt result
       end.

(** [join(separator)]; the call without argument is [join this ","]. *)
Definition join (this : lref) (separator : string) : M V string :=
  e ← isEmpty this;
  if e then ret EmptyString
  else
    l ← getList this;
    node ← getNext (Some (_head l));
    fuel ← getFuel;
    join_loop fuel (_tail l) separator node EmptyString.

End Join.

(** *** Cursor *)

Definition cursor (this : lref) : Cursor := mkCursor this None (-1) 1.

Definition cursorAt (this : lref) (index : Z) : M V Cursor :=
  '(node, actualIndex) ← _nodeAt this index;
  ret (mkCursor this node actualIndex 1).

Definition Cursor_setDirection (c : Cursor) (dir : Z) : Cursor :=
  mkCursor (cursor_list c) (_node c) (_index c) (if (dir =? -1)%Z then (-1)%Z else 1%Z).

Definition Cursor_next (c : Cursor) : M V Cursor :=
  match _node c with
  | None =>
      l ← getList (cursor_list c);
      node ← (if (_direction c =? 1)%Z then getNext (Some (_head l))
              else getPrev (Some (_tail l)));
      l ← getList (cursor_list c);
      ret (mkCursor (cursor_list c) node
                    (if (_direction c =? 1)%Z then 0%Z else (_size l - 1)%Z)
                    (_direction c))
  | Some _ =>
      node ← (if (_direction c =? 1)%Z then getNext (_node c)
              else getPrev (_node c));
      ret (mkCursor (cursor_list c) node (_index c + _direction c)%Z (_direction c))
  end.

(** [this._node?.value] *)
Definition Cursor_value (c : Cursor) : M V V :=
  match _node c with
  | None => ret undefined
  | Some _ => getValue (_node c)
  end.

Definition Cursor_valid (c : Cursor) : M V bool :=
  l ← getList (cursor_list c);
  ret (bool_decide (is_Some (_node c))
       && negb (bool_decide (_node c = Some (_head l)))
       && negb (bool_decide (_node c = Some (_tail l)))).

(** [next()] of the object returned by the cursor's [[Symbol.iterator]()]. *)
Definition Cursor_iterator_next (c : Cursor) : M V (Cursor * option V) :=
  ok ← Cursor_valid c;
  c ← (if ok then ret c else Cursor_next c);
  ok ← Cursor_valid c;
  if negb ok then ret (c, None)
  else
    v ← Cursor_value c;
    c ← Cursor_next c;
    ret (c, Some v).

Definition Cursor_reset (c : Cursor) (toEnd : bool) : M V Cursor :=
  l ← getList (cursor_list c);
  node ← (if toEnd then getPrev (Some (_tail l)) else getNext (Some (_head l)));
  l ← getList (cursor_list c);
  ret (mkCursor (cursor_list c) node (if toEnd then (_size l - 1)%Z else 0%Z)
                (_direction c)).

(** *** Loops over an iterator

    [for (const value of iterable) body]: [step] is the iterator's [next],
    [a] holds the variables the body updates; the body answers [inl a'] to
    go on and [inr r] to leave the method with [return r]. *)
Fixpoint for_of {I A R} (step : I → M V (I * option V))
    (body : A → V → M V (A + R)) (fuel : nat) (it : I) (a : A) : M V (A + R) :=
  match fuel with
  | O => out_of_fuel
  | S fuel' =>
      '(it', r) ← step it;
      match r with
      | None => ret (inl a)
      | Some v =>
          x ← body a v;
          match x with
          | inl a' => for_of step body fuel' it' a'
          | inr r => ret (inr r)
          end
      end
  end.

(** *** Using a cursor *)

(** [n] calls of [cursor.next()] in a row. *)
Fixpoint Cursor_advance (n : nat) (c : Cursor) : M V Cursor :=
  match n with
  | O => ret c
  | S n' => c' ← Cursor_next c; Cursor_advance n' c'
  end.

(** [[...cursor]]: what a [for ... of] loop over the cursor is given. *)
Definition spread_cursor (c : Cursor) : M V (list V) :=
  fuel ← getFuel;
  r ← for_of (R := Empty_set) Cursor_iterator_next
         (λ acc v, ret (inl (acc ++ [v]))) fuel c [];
  match r with
  | inl vs => ret vs
  | inr r => match r with end
  end.

(** *** Functional methods *)

(** The loop of [slice]:
    [while (count-- > 0 && node !== this._tail)]. *)
Fixpoint slice_loop (count : nat) (tl : addr) (result : lref) (node : ptr)
  : M V unit :=
  match count with
  | O => ret tt
  | S count' =>
      if bool_decide (node = Some tl) then ret tt
      else
        v ← getValue node;
        append result v;;
        nxt ← getNext node;
        slice_loop count' tl result nxt
  end.

(** [slice(start, end)]; an argument left out is [None]. *)
Definition slice (this : lref) (start end_ : option Z) : M V lref :=
  l ← getList this;
  let start := default 0%Z start in
  let end_ := default (_size l) end_ in
  let start := if (start <? 0)%Z then (_size l + start)%Z else start in
  let end_ := if (end_ <? 0)%Z then (_size l + end_)%Z else end_ in
  let start := Z.max 0 start in
  let end_ := Z.min (_size l) end_ in
  if (start >=? end_)%Z then new_UltimateLinkedList None true false
  else
    result ← new_UltimateLinkedList None true false;
    '(startNode, _) ← _nodeAt this start;
    l ← getList this;
    slice_loop (Z.to_nat (end_ - start)) (_tail l) result startNode;;
    ret result.

Definition map_ (this : lref) (callback : V → Z → lref → V) : M V lref :=
  result ← new_UltimateLinkedList None true false;
  it ← iterator this;
  fuel ← getFuel;
  for_of (R := Empty_set) iterator_next
    (λ index value,
       append result (callback value index this);;
       ret (inl (index + 1)%Z))
    fuel it 0%Z;;
  ret result.

Definition filter_ (this : lref) (predicate : V → Z → lref → bool) : M V lref :=
  result ← new_UltimateLinkedList None true false;
  it ← iterator this;
  fuel ← getFuel;
  for_of (R := Empty_set) iterator_next
    (λ index value,
       when (predicate value index this) (append result value);;
       ret (inl (index + 1)%Z))
    fuel it 0%Z;;
  ret result.

(** [reduce(callback, initialValue)]; [arguments.length === 1] is
    [initialValue = None]. *)
Definition reduce (this : lref) (callback : V → V → Z → lref → V)
    (initialValue : option V) : M V V :=
  e ← isEmpty this;
  match initialValue with
  | None =>
      if e then throw TypeError
      else
        acc ← first this;
        c ← Cursor_next (cursor this);
        c ← Cursor_next c;
        fuel ← getFuel;
        r ← for_of (R := Empty_set) Cursor_iterator_next
               (λ '(acc, index) value,
                  ret (inl (callback acc value index this, (index + 1)%Z)))
               fuel c (acc, 1%Z);
        match r with
        | inl (acc, _) => ret acc
        | inr r => match r with end
        end
  | Some initialValue =>
      it ← iterator this;
      fuel ← getFuel;
      r ← for_of (R := Empty_set) iterator_next
             (λ '(acc, index) value,
                ret (inl (callback acc value index this, (index + 1)%Z)))
             fuel it (initialValue, 0%Z);
      match r with
      | inl (acc, _) => ret acc
      | inr r => match r with end
      end
  end.

Definition every (this : lref) (predicate : V → Z → lref → bool) : M V bool :=
  it ← iterator this;
  fuel ← getFuel;
  r ← for_of iterator_next
         (λ index value,
            if negb (predicate value index this) then ret (inr false)
            else ret (inl (index + 1)%Z))
         fuel it 0%Z;
  match r with
  | inl _ => ret true
  | inr b => ret b
  end.

Definition some (this : lref) (predicate : V → Z → lref → bool) : M V bool :=
  it ← iterator this;
  fuel ← getFuel;
  r ← for_of iterator_next
         (λ index value,
            if predicate value index this then ret (inr true)
            else ret (inl (index + 1)%Z))
         fuel it 0%Z;
  match r with
  | inl _ => ret false
  | inr b => ret b
  end.

Definition find_ (this : lref) (predicate : V → Z → lref → bool) : M V V :=
  it ← iterator this;
  fuel ← getFuel;
  r ← for_of iterator_next
         (λ index value,
            if predicate value index this then ret (inr value)
            else ret (inl (index + 1)%Z))
         fuel it 0%Z;
  match r with
  | inl _ => ret undefined
  | inr v => ret v
  end.

Definition findIndex (this : lref) (predicate : V → Z → lref → bool) : M V Z :=
  it ← iterator this;
  fuel ← getFuel;
  r ← for_of iterator_next
         (λ index value,
            if predicate value index this then ret (inr index)
            else ret (inl (index + 1)%Z))
         fuel it 0%Z;
  match r with
  | inl _ => ret (-1)%Z
  | inr i => ret i
  end.

(** The function returned by [addChangeListener(listener)]. *)
Definition removeChangeListener (this : lref) (f : listener) : M V unit :=
  l ← getList this;
  match list_find (λ g, g = f) (_listeners l) with
  | Some (index, _) =>
      modList this (λ l, set_listeners l (delete index (_listeners l)))
  | None => ret tt
  end.

(** *** Static methods *)

Definition UltimateLinkedList_from (iterable : list V) : M V lref :=
  new_UltimateLinkedList (Some iterable) true false.

Definition UltimateLinkedList_empty : M V lref :=
  new_UltimateLinkedList None true false.

(** The loop of [range]:
    [for (let i = start; step > 0 ? i < end : i > end; i += step)].
    Once [i] is [Infinity] or [-Infinity] the test fails.  The values of [i]
    are integers that move in the direction of [step], so a loop that is
    to end does so within [|end - start|] trips: that is the fuel, and a
    run that uses it up is one where [i + step] rounds back to [i] and the
    source loops for ever. *)
Fixpoint range_loop `{JsNumber V} (fuel : nat) (list : lref) (end_ step i : Z)
  : M V unit :=
  if (if (step >? 0)%Z then (i <? end_)%Z else (i >? end_)%Z) then
    match fuel with
    | O => out_of_fuel
    | S fuel' =>
        append list (number i);;
        let i' := round_to_double (i + step) in
        if overflows i' then ret tt
        else range_loop fuel' list end_ step i'
    end
  else ret tt.

(** [range(start, end, step)] for doubles with integer values; the call
    without [step] is [UltimateLinkedList_range start end_ 1]. *)
Definition UltimateLinkedList_range `{JsNumber V} (start end_ step : Z) : M V lref :=
  list ← new_UltimateLinkedList None true false;
  if (step =? 0)%Z then throw RangeError
  else if ((step >? 0)%Z && (start >=? end_)%Z)
          || ((step <? 0)%Z && (start <=? end_)%Z) then ret list
  else
    range_loop (Z.to_nat (Z.abs (end_ - start))) list end_ step start;;
    ret list.

(** *** ImmutableLinkedList *)

Definition immutable (this : lref) : ImmutableLinkedList := mkImmutable this.

Definition Immutable_length (im : ImmutableLinkedList) : M V Z := length_ (_source im).
Definition Immutable_get (im : ImmutableLinkedList) (index : Z) : M V V :=
  get (_source im) index.
Definition Immutable_at (im : ImmutableLinkedList) (index : Z) : M V V :=
  at_ (_source im) index.
Definition Immutable_isEmpty (im : ImmutableLinkedList) : M V bool := isEmpty (_source im).
Definition Immutable_first (im : ImmutableLinkedList) : M V V := first (_source im).
Definition Immutable_last (im : ImmutableLinkedList) : M V V := last_ (_source im).
Definition Immutable_toArray (im : ImmutableLinkedList) : M V (list V) :=
  toArray (_source im).
Definition Immutable_iterator (im : ImmutableLinkedList) : M V ListIterator :=
  iterator (_source im).

(** [toMutable()] is [new UltimateLinkedList(this)]: the constructor spreads
    the view, that is the source's native iteration, into [push]. *)
Definition Immutable_toMutable (im : ImmutableLinkedList) : M V lref :=
  values ← spread_list (_source im);
  new_UltimateLinkedList (Some values) true false.

End Queries.

(** ** Mutations as data

    One constructor per mutating method, so that a statement can range over
    "every mutation". *)

Inductive Mutation (V : Type) :=
| MAppend (v : V)
| MPrepend (v : V)
| MPush (values : list V)
| MUnshift (values : list V)
| MInsertAt (v : V) (index : Z)
| MPop
| MShift
| MRemoveAt (index : Z)
| MRemove (v : V) (comparator : V → V → bool)
| MClear
| MReverse
| MSort (compareFn : option (V → V → Z))
| MConcat (other : lref)
| MConcatIterable (values : list V)
| MSet (index : Z) (v : V).
Arguments MAppend {V}.
Arguments MPrepend {V}.
Arguments MPush {V}.
Arguments MUnshift {V}.
Arguments MInsertAt {V}.
Arguments MPop {V}.
Arguments MShift {V}.
Arguments MRemoveAt {V}.
Arguments MRemove {V}.
Arguments MClear {V}.
Arguments MReverse {V}.
Arguments MSort {V}.
Arguments MConcat {V}.
Arguments MConcatIterable {V}.
Arguments MSet {V}.

Section Invariant.
Context {V : Type} `{JsValue V}.
Variable localeCompare : V → V → Z.

Local Open Scope js_scope.

(** The method call a [Mutation] stands for, its return value dropped. *)
Definition perform (this : lref) (m : Mutation V) : M V unit :=
  match m with
  | MAppend v => append this v
  | MPrepend v => prepend this v
  | MPush values => push this values;; ret tt
  | MUnshift values => unshift this values;; ret tt
  | MInsertAt v index => insertAt this v index
  | MPop => pop this;; ret tt
  | MShift => shift this;; ret tt
  | MRemoveAt index => removeAt this index;; ret tt
  | MRemove v comparator => remove this v comparator;; ret tt
  | MClear => clear this
  | MReverse => reverse this
  | MSort compareFn => sort localeCompare this compareFn
  | MConcat other => concat this other
  | MConcatIterable values => concat_iterable this values
  | MSet index v => set this index v;; ret tt
  end.

(** [index] resolved the way [_nodeAt] does it, for a list of [n] elements. *)
Definition resolve (n index : Z) : Z :=
  if (index <? 0)%Z then (n + index)%Z else index.

Definition in_range (n index : Z) : bool :=
  (0 <=? resolve n index)%Z && (resolve n index <? n)%Z.

(** [index] resolved the way [insertAt] does it. *)
Definition resolve_insert (n index : Z) : Z :=
  if (index <? 0)%Z then (n + index + 1)%Z else index.

(** The calls that get past the guard at the head of their method and reach
    [this._modCount++]: [vs] are the elements of the list, [other_size] the
    size of the argument of [concat].  [set] has no such statement. *)
Definition bumps_modCount (vs : list V) (other_size : Z) (m : Mutation V) : bool :=
  match m with
  | MAppend _ | MPrepend _ | MPush _ | MUnshift _ | MInsertAt _ _
  | MConcatIterable _ => true
  | MPop | MShift | MClear => negb (bool_decide (vs = []))
  | MRemoveAt index => in_range (Z.of_nat (length vs)) index
  | MRemove v comparator => existsb (λ x, comparator x v) vs
  | MReverse | MSort _ => (2 <=? Z.of_nat (length vs))%Z
  | MConcat _ => negb (other_size =? 0)%Z
  | MSet _ _ => false
  end.

(** The size of the donor of a [concat]. *)
Definition other_size (s : Store V) (m : Mutation V) : Z :=
  match m with
  | MConcat other => default 0%Z (_size <$> lists s !! other)
  | _ => 0%Z
  end.

(** The mutations that look a node up by index. *)
Definition seeks (m : Mutation V) : bool :=
  match m with
  | MInsertAt _ _ | MRemoveAt _ | MSet _ _ => true
  | _ => false
  end.

(** *** Views of the heap *)

Definition fld {B} (f : Node V → B) (h : list (Node V)) (a : addr) : option B :=
  f <$> h !! a.

Definition nxt := fld next.
Definition prv := fld prev.
Definition val := fld value.

(** [linked h a b]: [a.next] is [b] and [b.prev] is [a]. *)
Definition linked (h : list (Node V)) (a b : addr) : Prop :=
  nxt h a = Some (Some b) ∧ prv h b = Some (Some a).

(** [links h l]: [l] is a doubly linked chain, each node's [next] the node
    after it and each node's [prev] the node before it. *)
Fixpoint links (h : list (Node V)) (l : list addr) : Prop :=
  match l with
  | [] => True
  | a :: l' =>
      match l' with
      | [] => True
      | b :: _ => linked h a b ∧ links h l'
      end
  end.

(** [wf_list h l xs]: in heap [h] the nodes strictly between the sentinels
    of the list object [l] are exactly [xs], in order, and [_size] counts
    them. *)
Record wf_list (h : list (Node V)) (l : UltimateLinkedList) (xs : list addr)
  : Prop := {
  wf_links : links h (_head l :: xs ++ [_tail l]);
  wf_nodup : NoDup (_head l :: xs ++ [_tail l]);
  wf_valid : Forall (λ a, a < length h) (_head l :: xs ++ [_tail l]);
  wf_size : _size l = Z.of_nat (length xs);
  wf_head_prev : prv h (_head l) = Some None;
  wf_tail_next : nxt h (_tail l) = Some None
}.

(** The transaction a list refers to exists and is bound to that list. *)
Definition txn_ok (s : Store V) (this : lref) (l : UltimateLinkedList) : Prop :=
  ∀ t, _transaction l = Some t → ∃ tx, txns s !! t = Some tx ∧ _list tx = this.

Definition wf (s : Store V) (this : lref) (xs : list addr) : Prop :=
  ∃ l, lists s !! this = Some l ∧ wf_list (nodes s) l xs ∧ txn_ok s this l.

(** Transactions are never dropped and never change the list they are
    bound to. *)
Definition txns_ext (s s' : Store V) : Prop :=
  ∀ t tx, txns s !! t = Some tx → ∃ tx', txns s' !! t = Some tx' ∧ _list tx' = _list tx.

(** [s'] differs from [s] at most in transactions and in the trace. *)
Definition same_heap (s s' : Store V) : Prop :=
  nodes s' = nodes s ∧ lists s' = lists s ∧ txns_ext s s'.

(** [inserted h h' p a q v]: [h'] is [h] with the new node [a], holding [v],
    linked between [p] and [q]. *)
Record inserted (h h' : list (Node V)) (p a q : addr) (v : V) : Prop := {
  ins_length : length h' = S (length h);
  ins_nxt : ∀ x, nxt h' x = if decide (x = p) then Some (Some a)
                            else if decide (x = a) then Some (Some q) else nxt h x;
  ins_prv : ∀ x, prv h' x = if decide (x = q) then Some (Some a)
                            else if decide (x = a) then Some (Some p) else prv h x;
  ins_val : ∀ x, val h' x = if decide (x = a) then Some v else val h x
}.

(** [removed h h' p q]: [h'] is [h] with [p] and [q] linked to each other,
    bypassing what was between them. *)
Record removed (h h' : list (Node V)) (p q : addr) : Prop := {
  rem_length : length h' = length h;
  rem_nxt : ∀ x, nxt h' x = if decide (x = p) then Some (Some q) else nxt h x;
  rem_prv : ∀ x, prv h' x = if decide (x = q) then Some (Some p) else prv h x;
  rem_val : ∀ x, val h' x = val h x
}.

(** [skip_only h h']: the heaps agree except on [skip] fields. *)
Definition skip_only (h h' : list (Node V)) : Prop :=
  length h' = length h ∧
  ∀ x, nxt h' x = nxt h x ∧ prv h' x = prv h x ∧ val h' x = val h x.

(** [s'] is [s] with some skip links rewritten. *)
Definition skip_rebuilt (s s' : Store V) : Prop :=
  skip_only (nodes s) (nodes s') ∧ lists s' = lists s ∧ txns s' = txns s.

(** [updated s' this l l' xs']: after a method of the list [this], whose
    object was [l], the object is [l'], it is well formed with nodes [xs'],
    and its configuration is what it was. *)
Record updated (s' : Store V) (this : lref) (l l' : UltimateLinkedList)
    (xs' : list addr) : Prop := {
  upd_list : lists s' !! this = Some l';
  upd_wf : wf_list (nodes s') l' xs';
  upd_txn : txn_ok s' this l';
  upd_skip : _useSkipLinks l' = _useSkipLinks l;
  upd_obs : _observable l' = _observable l;
  upd_listeners : _listeners l' = _listeners l
}.

(** [_nodeAt] takes the linear path: skip links are off or the list has
    fewer than eight elements. *)
Definition linear_seek (l : UltimateLinkedList) : Prop :=
  _useSkipLinks l && (_size l >=? 8)%Z = false.

(** [swapped h h' c]: [h'] is [h] with [next] and [prev] exchanged in every
    node of [c]. *)
Record swapped (h h' : list (Node V)) (c : list addr) : Prop := {
  sw_length : length h' = length h;
  sw_in : ∀ y, y ∈ c → nxt h' y = prv h y ∧ prv h' y = nxt h y;
  sw_out : ∀ y, y ∉ c → nxt h' y = nxt h y ∧ prv h' y = prv h y;
  sw_val : ∀ y, val h' y = val h y
}.

(** [values_only s s']: the stores agree except on [value] fields (and
    fields that no invariant reads). *)
Definition values_only (s s' : Store V) : Prop :=
  lists s' = lists s ∧ txns s' = txns s ∧
  length (nodes s') = length (nodes s) ∧
  ∀ y, nxt (nodes s') y = nxt (nodes s) y ∧ prv (nodes s') y = prv (nodes s) y.

(** [spliced h h' p y1 yn tA hB tB]: [h'] is [h] after the pointer surgery
    of [concat]: the donor's chain [y1 .. yn] linked between [p] and the
    receiver's tail [tA], the donor's sentinels [hB], [tB] linked to each
    other. *)
Record spliced (h h' : list (Node V)) (p y1 yn tA hB tB : addr) : Prop := {
  spl_length : length h' = length h;
  spl_nxt : ∀ z, nxt h' z = if decide (z = hB) then Some (Some tB)
                            else if decide (z = yn) then Some (Some tA)
                            else if decide (z = p) then Some (Some y1)
                            else nxt h z;
  spl_prv : ∀ z, prv h' z = if decide (z = tB) then Some (Some hB)
                            else if decide (z = tA) then Some (Some yn)
                            else if decide (z = y1) then Some (Some p)
                            else prv h z;
  spl_val : ∀ z, val h' z = val h z
}.

(** The argument of [concat] is another well-formed list, sharing no node
    with the receiver. *)
Definition concat_ok (s : Store V) (this : lref) (l : UltimateLinkedList)
    (xs : list addr) (m : Mutation V) : Prop :=
  match m with
  | MConcat other =>
      other ≠ this ∧
      ∃ o ys, lists s !! other = Some o ∧ wf_list (nodes s) o ys ∧
              ∀ x, x ∈ _head l :: xs ++ [_tail l] → x ∉ _head o :: ys ++ [_tail o]
  | _ => True
  end.

(** The index of an [insertAt] resolves into [0, size]. *)
Definition insert_ok (l : UltimateLinkedList) (m : Mutation V) : Prop :=
  match m with
  | MInsertAt _ index => (0 ≤ resolve_insert (_size l) index ≤ _size l)%Z
  | _ => True
  end.

(** The values held by the nodes [xs]. *)
Definition contents (h : list (Node V)) (xs : list addr) : list V :=
  (λ a, default undefined (val h a)) <$> xs.

(** [wp m Q s]: run from [s], [m] returns normally, with a result and a
    store that satisfy [Q]. *)
Definition wp {A} (m : M V A) (Q : A → Store V → Prop) (s : Store V) : Prop :=
  match m s with
  | Ok (a, s') => Q a s'
  | _ => False
  end.

End Invariant.

(** ** What a list holds

    The properties of the methods are stated on the values a list holds,
    in order, and on the positions of the iterators and cursors over it. *)

Section Abstraction.
Context {V : Type} `{JsValue V}.

(** [represents s this vs]: in the store [s] the container [this] is a
    well-formed doubly linked list, and the nodes between its sentinels
    hold the values [vs], in order. *)
Definition represents (s : Store V) (this : lref) (vs : list V) : Prop :=
  ∃ l xs, lists s !! this = Some l ∧ wf_list (nodes s) l xs ∧ txn_ok s this l ∧
          contents (nodes s) xs = vs.

(** [_nodeAt] takes its linear path on the container [this]. *)
Definition seeks_linearly (s : Store V) (this : lref) : Prop :=
  ∃ l, lists s !! this = Some l ∧ linear_seek l.

(** [apart s s' this c]: from [s] to [s'] a method of the list [this],
    whose sentinels and elements were [c], has left every other list
    object as it was, and with it the [next], [prev] and [value] of every
    node of [s] outside [c]. *)
Record apart (s s' : Store V) (this : lref) (c : list addr) : Prop := {
  ap_length : length (nodes s) ≤ length (nodes s');
  ap_nodes : ∀ x, x ∉ c → x < length (nodes s) →
             nxt (nodes s') x = nxt (nodes s) x ∧
             prv (nodes s') x = prv (nodes s) x ∧
             val (nodes s') x = val (nodes s) x;
  ap_lists : ∀ o, o ≠ this → lists s' !! o = lists s !! o;
  ap_txns : txns_ext s s'
}.

(** The invariant of the loops that read the list [this] and append to a
    new list [r]: the nodes of [this] are those the heap had at [n0], the
    nodes of [r] came later. *)
Definition reading_into (n0 : nat) (this : lref) (l : UltimateLinkedList)
    (xs : list addr) (vs : list V) (r : lref) (ws : list V) (s : Store V) : Prop :=
  r ≠ this ∧
  lists s !! this = Some l ∧ wf_list (nodes s) l xs ∧ txn_ok s this l ∧
  contents (nodes s) xs = vs ∧
  (∀ x, x ∈ _head l :: xs ++ [_tail l] → x < n0) ∧
  n0 ≤ length (nodes s) ∧
  ∃ lr ys, lists s !! r = Some lr ∧ wf_list (nodes s) lr ys ∧ txn_ok s r lr ∧
           contents (nodes s) ys = ws ∧ _transaction lr = None ∧
           ∀ x, x ∈ _head lr :: ys ++ [_tail lr] → n0 ≤ x.

(** The position of a native iterator: it has yielded [k] values of the
    list [this], whose modification counter it still agrees with. *)
Definition it_at (this : lref) (l : UltimateLinkedList) (xs : list addr)
    (k : nat) (it : ListIterator) : Prop :=
  it_list it = this ∧ expectedModCount it = _modCount l ∧
  it_node it = (_head l :: xs) !! k.

(** A forward cursor standing on position [k] of the list: on the element
    [k], or on the tail sentinel when [k] is the length. *)
Definition cur_at (this : lref) (l : UltimateLinkedList) (xs : list addr)
    (k : nat) (c : Cursor) : Prop :=
  cursor_list c = this ∧ _direction c = 1%Z ∧
  _node c = (xs ++ [_tail l]) !! k ∧ k ≤ length xs ∧ _index c = Z.of_nat k.

(** A backward cursor standing [k] elements from the end, or on the head
    sentinel when [k] is the length. *)
Definition cur_back (this : lref) (l : UltimateLinkedList) (xs : list addr)
    (k : nat) (c : Cursor) : Prop :=
  cursor_list c = this ∧ _direction c = (-1)%Z ∧
  _node c = (rev xs ++ [_head l]) !! k ∧ k ≤ length xs ∧
  _index c = (Z.of_nat (length xs) - 1 - Z.of_nat k)%Z.

(** The position of a cursor used as an iterator: fresh, or on position
    [k]. *)
Definition cur_pos (this : lref) (l : UltimateLinkedList) (xs : list addr)
    (k : nat) (c : Cursor) : Prop :=
  cur_at this l xs k c ∨
  (k = 0 ∧ cursor_list c = this ∧ _direction c = 1%Z ∧ _node c = None).

(** A loop over the native iterator whose body leaves the store alone
    computes a fold with early exit. *)
Fixpoint fold_until {A R} (f : A → V → A + R) (a : A) (vs : list V) : A + R :=
  match vs with
  | [] => inl a
  | v :: vs' =>
      match f a v with
      | inl a' => fold_until f a' vs'
      | inr r => inr r
      end
  end.

(** The first element that [predicate] accepts when the head of [vs] has
    index [index]. *)
Fixpoint find_from (predicate : V → Z → lref → bool) (this : lref) (index : Z)
    (vs : list V) : option (Z * V) :=
  match vs with
  | [] => None
  | v :: vs' =>
      if predicate v index this then Some (index, v)
      else find_from predicate this (index + 1) vs'
  end.

(** What the listeners [fs] are called with when the events [evs] are
    flushed: event by event, each to every listener in registration
    order. *)
Definition deliveries (fs : list listener) (evs : list (Event V))
  : list (listener * Event V) :=
  flat_map (λ e, map (λ f, (f, e)) fs) evs.

(** The calls that get past the guard of their method and reach
    [this._modCount++], whatever the skip links are: [removeAt] does when
    [_nodeAt] has found it a node, the others as [bumps_modCount] says. *)
Definition gets_past_guard (s : Store V) (this : lref) (vs : list V)
    (m : Mutation V) : bool :=
  match m with
  | MRemoveAt index =>
      match _nodeAt this index s with
      | Ok ((Some _, _), _) => true
      | _ => false
      end
  | _ => bumps_modCount vs (other_size s m) m
  end.

(** [counter_moves P this s s']: the list [this] of [s] is a list of [s'],
    and its modification counter has gone from [c] to a [c'] with
    [P c c']. *)
Definition counter_moves (P : relation Z) (this : lref) (s s' : Store V) : Prop :=
  ∀ l, lists s !! this = Some l →
       ∃ l', lists s' !! this = Some l' ∧ P (_modCount l) (_modCount l').

(** [moves_counter P this m]: that is what [m] does to the counter of
    [this] whenever it returns. *)
Definition moves_counter {A} (P : relation Z) (this : lref) (m : M V A) : Prop :=
  ∀ s r s', m s = Ok (r, s') → counter_moves P this s s'.

(** [reads m]: [m] leaves the store as it is. *)
Definition reads {A} (m : M V A) : Prop :=
  ∀ s r s', m s = Ok (r, s') → s' = s.

End Abstraction.

(** * Concrete runs

    JavaScript values for the examples: [undefined], numbers, and objects
    [{ k, tag }]. *)

Inductive JsVal :=
| JUndefined
| JNum (n : Z)
| JObj (k : Z) (tag : string).

#[export] Instance JsVal_JsValue : JsValue JsVal := {| undefined := JUndefined |}.

(** Numbers: the integers. *)
#[export] Instance JsVal_JsNumber : JsNumber JsVal := {| number := JNum |}.

Section Examples.

Local Open Scope js_scope.
Local Open Scope Z_scope.

(** What a script returns when run from the empty store. *)
Definition run {A} (m : M JsVal A) : result A :=
  match m empty_store with
  | Ok (a, _) => Ok a
  | Throw e => Throw e
  | OutOfFuel => OutOfFuel
  end.

(** The store a script leaves behind. *)
Definition store_after {A} (m : M JsVal A) : Store JsVal :=
  match m empty_store with
  | Ok (_, s) => s
  | _ => empty_store
  end.

Definition nums (l : list Z) : list JsVal := map JNum l.

(** The listeners' trace so far. *)
Definition getDelivered : M JsVal (list (nat * Event JsVal)) :=
  λ s, Ok (delivered s, s).

Definition getModCount (this : nat) : M JsVal Z :=
  l ← getList this; ret (_modCount l).

(** [(a, b) => a.k - b.k]: a comparator that ignores [tag]. *)
Definition byKey (a b : JsVal) : Z :=
  match a, b with
  | JObj k _, JObj k' _ => k - k'
  | _, _ => 0
  end.

(** [String(a).localeCompare(String(b))] where both are plain objects:
    both strings are [[object Object]]. *)
Definition objectLocaleCompare (a b : JsVal) : Z := 0.

(** [const list = UltimateLinkedList.of(10, 20, 30)] *)
Definition list_10_20_30 : Store JsVal :=
  Eval vm_compute in store_after (UltimateLinkedList_of (nums [10; 20; 30])).

(** The list object of [list_10_20_30] and the addresses of its three
    nodes. *)
Definition object_10_20_30 : UltimateLinkedList :=
  mkList 0 1 3 true false [] None 1.

Definition chain_10_20_30 : list nat := [2; 3; 4]%nat.

(** [const a = UltimateLinkedList.of(1, 2); const b = UltimateLinkedList.of(3)]:
    list [0] and list [1] of this store. *)
Definition lists_1_2_and_3 : Store JsVal :=
  Eval vm_compute in
    store_after (a ← UltimateLinkedList_of (nums [1; 2]);
                 b ← UltimateLinkedList_of (nums [3]);
                 ret (a, b)).

(** The two list objects of [lists_1_2_and_3]. *)
Definition object_1_2 : UltimateLinkedList := mkList 0 1 2 true false [] None 1.
Definition object_3 : UltimateLinkedList := mkList 4 5 1 true false [] None 1.

(** An iterator over [list_10_20_30] that has not yet taken a step. *)
Definition iterator_10_20_30 : ListIterator := mkIterator 0 1 (Some 0%nat).

(** [new UltimateLinkedList(null, { observable: true })] *)
Definition empty_observable_list : Store JsVal :=
  Eval vm_compute in store_after (new_UltimateLinkedList None true true).

(** The example of the specification: [beginTransaction()], [begin()],
    [push(40)], [removeAt(0)], [rollback()], then [toArray()]. *)
Definition rollback_after_push : M JsVal (list JsVal) :=
  l ← UltimateLinkedList_of (nums [10; 20; 30]);
  t ← beginTransaction l;
  Transaction_begin t;;
  push l (nums [40]);;
  removeAt l 0;;
  Transaction_rollback t;;
  toArray l.

(** The same with [append(40)] in place of [push(40)]. *)
Definition rollback_after_append : M JsVal (list JsVal) :=
  l ← UltimateLinkedList_of (nums [10; 20; 30]);
  t ← beginTransaction l;
  Transaction_begin t;;
  append l (JNum 40);;
  removeAt l 0;;
  Transaction_rollback t;;
  toArray l.

(** [begin()] and [rollback()] with nothing in between. *)
Definition rollback_at_once : M JsVal (list JsVal) :=
  l ← UltimateLinkedList_of (nums [10; 20; 30]);
  t ← beginTransaction l;
  Transaction_begin t;;
  Transaction_rollback t;;
  toArray l.

(** An observable list with listener [0] and an active transaction. *)
Definition observed_in_transaction : M JsVal (nat * nat) :=
  l ← new_UltimateLinkedList (Some (nums [10; 20; 30])) true true;
  addChangeListener l 0%nat;;
  t ← beginTransaction l;
  Transaction_begin t;;
  ret (l, t).

(** [set(0, 99)], [push(40)]: the trace before the caller commits, and
    after. *)
Definition trace_set_push : M JsVal (list (nat * Event JsVal) * list (nat * Event JsVal)) :=
  '(l, t) ← observed_in_transaction;
  set l 0 (JNum 99);;
  push l (nums [40]);;
  before ← getDelivered;
  Transaction_commit t;;
  after ← getDelivered;
  ret (before, after).

(** [set(0, 99)], [append(40)], [removeAt(1)]: the trace before the caller
    commits, and after. *)
Definition trace_set_append_removeAt
  : M JsVal (list (nat * Event JsVal) * list (nat * Event JsVal)) :=
  '(l, t) ← observed_in_transaction;
  set l 0 (JNum 99);;
  append l (JNum 40);;
  removeAt l 1;;
  before ← getDelivered;
  Transaction_commit t;;
  after ← getDelivered;
  ret (before, after).

(** Nine elements, [insertAt(99, 1)], then [get(3)] next to [toArray()]. *)
Definition get_after_insert (skipLinks : bool) : M JsVal (JsVal * list JsVal) :=
  l ← new_UltimateLinkedList (Some (nums [0; 1; 2; 3; 4; 5; 6; 7; 8])) skipLinks false;
  insertAt l (JNum 99) 1;;
  x ← get l 3;
  arr ← toArray l;
  ret (x, arr).

(** Ten elements, [removeAt(3)], [insertAt(99, 4)]: the size next to what a
    forward walk finds. *)
Definition insert_after_remove (skipLinks : bool) : M JsVal (Z * list JsVal) :=
  l ← new_UltimateLinkedList
         (Some (nums [0; 1; 2; 3; 4; 5; 6; 7; 8; 9])) skipLinks false;
  removeAt l 3;;
  insertAt l (JNum 99) 4;;
  n ← length_ l;
  vs ← spread_list l;
  ret (n, vs).

(** [set(0, 5)] on the list [[10]]: the modification counter before and
    after. *)
Definition modCount_around_set : M JsVal (Z * Z) :=
  l ← UltimateLinkedList_of (nums [10]);
  before ← getModCount l;
  set l 0 (JNum 5);;
  after ← getModCount l;
  ret (before, after).

Definition insertAt_example (index : Z) : M JsVal (list JsVal) :=
  l ← UltimateLinkedList_of (nums [10; 20; 30]);
  insertAt l (JNum 99) index;;
  toArray l.

(** [append({k: 1, tag: "a"})], [prepend({k: 1, tag: "b"})], then
    [sort((a, b) => a.k - b.k)]: the list before and after. *)
Definition sort_equal_keys : M JsVal (list JsVal * list JsVal) :=
  l ← new_UltimateLinkedList None true false;
  append l (JObj 1 "a");;
  prepend l (JObj 1 "b");;
  before ← toArray l;
  sort objectLocaleCompare l (Some byKey);;
  after ← toArray l;
  ret (before, after).

(** One step of an iteration, [set(1, 99)], and the next step. *)
Definition set_during_iteration : M JsVal (option JsVal * option JsVal) :=
  l ← UltimateLinkedList_of (nums [10; 20; 30]);
  it ← iterator l;
  '(it, first) ← iterator_next it;
  set l 1 (JNum 99);;
  '(_, second) ← iterator_next it;
  ret (first, second).


(** [const list = new UltimateLinkedList([10, 20, 30], { observable: true })]
    with the listeners [7] and [8] added in that order. *)
Definition observed_10_20_30 : Store JsVal :=
  Eval vm_compute in
    store_after (l ← new_UltimateLinkedList (Some (nums [10; 20; 30])) true true;
                 addChangeListener l 7%nat;;
                 addChangeListener l 8%nat).

(** The list object of [observed_10_20_30]. *)
Definition observed_object_10_20_30 : UltimateLinkedList :=
  mkList 0 1 3 true true [7; 8]%nat None 1.

(** The same list inside a transaction that has buffered one update:
    [const t = list.beginTransaction(); t.begin(); list.set(1, 21)]. *)
Definition in_transaction_10_21_30 : Store JsVal :=
  Eval vm_compute in
    store_after (l ← new_UltimateLinkedList (Some (nums [10; 20; 30])) true true;
                 addChangeListener l 7%nat;;
                 addChangeListener l 8%nat;;
                 t ← beginTransaction l;
                 Transaction_begin t;;
                 set l 1 (JNum 21)).

(** The list object and the transaction of [in_transaction_10_21_30]. *)
Definition object_in_transaction : UltimateLinkedList :=
  mkList 0 1 3 true true [7; 8]%nat (Some 0%nat) 1.

Definition transaction_with_update : Transaction JsVal :=
  mkTransaction 0%nat (Some (mkSnapshot 5 6 3)) true [EvUpdate 1 (JNum 20) (JNum 21)].

(** [(a, b) => a === b] on numbers. *)
Definition sameNumber (a b : JsVal) : bool :=
  match a, b with
  | JNum m, JNum n => m =? n
  | _, _ => false
  end.

(** [(value) => value > n] *)
Definition above (n : Z) (value : JsVal) (index : Z) (list : nat) : bool :=
  match value with
  | JNum m => n <? m
  | _ => false
  end.

(** [(value, index) => value + index] on numbers. *)
Definition plusIndex (value : JsVal) (index : Z) (list : nat) : JsVal :=
  match value with
  | JNum m => JNum (m + index)
  | _ => value
  end.

(** [(acc, value) => acc + value] on numbers. *)
Definition plus (acc value : JsVal) (index : Z) (list : nat) : JsVal :=
  match acc, value with
  | JNum m, JNum n => JNum (m + n)
  | _, _ => JUndefined
  end.

(** [String(value)] for [undefined] and the numbers. *)
Definition numberToString (value : JsVal) : string :=
  match value with
  | JNum n => pretty n
  | _ => "undefined"
  end.

(** [(a, b) => a - b], where a number stands for itself, an object for its
    [k] and [undefined] for [0]. *)
Definition ascending (a b : JsVal) : Z :=
  let rank v := match v with JNum n => n | JObj k _ => k | JUndefined => 0 end in
  rank a - rank b.


(** [UltimateLinkedList.of(0, 1, ..., 9)]: a list with the default options,
    long enough for [_nodeAt] to use its skip links. *)
Definition list_0_to_9 : Store JsVal :=
  Eval vm_compute in
    store_after (UltimateLinkedList_of (nums [0; 1; 2; 3; 4; 5; 6; 7; 8; 9])).

(** The list object of [list_0_to_9], the addresses of its ten nodes, and an
    iterator over it that has taken one step. *)
Definition object_0_to_9 : UltimateLinkedList :=
  mkList 0 1 10 true false [] None 1.
Definition chain_0_to_9 : list nat := [2; 3; 4; 5; 6; 7; 8; 9; 10; 11]%nat.
Definition iterator_0_to_9 : ListIterator := mkIterator 0 1 (Some 2%nat).

(** [list_0_to_9] after [removeAt(3)]. *)
Definition list_0_to_9_without_3 : Store JsVal :=
  Eval vm_compute in
    match removeAt 0%nat 3 list_0_to_9 with
    | Ok (_, s) => s
    | _ => empty_store
    end.

(** [UltimateLinkedList.range(start, end, step).toArray()] *)
Definition range_then_toArray (start end_ step : Z) : M JsVal (list JsVal) :=
  l ← UltimateLinkedList_range start end_ step;
  toArray l.

(** Eighteen elements, [reverse()], [shift()], then [removeAt(4)]. *)
Definition removeAt_after_reverse_and_shift (skipLinks : bool) : M JsVal JsVal :=
  l ← new_UltimateLinkedList
         (Some (nums [0; 1; 2; 3; 4; 5; 6; 7; 8; 9; 10; 11; 12; 13; 14; 15; 16; 17]))
         skipLinks false;
  reverse l;;
  shift l;;
  removeAt l 4.

End Examples.

(** * Proofs *)

Section Logic.
Context {V : Type} `{JsValue V}.

Local Open Scope js_scope.

Implicit Types (s : Store V) (h : list (Node V)) (a b : nat).
Implicit Types (l : UltimateLinkedList).

(** ** Rules for [wp] *)

Lemma wp_elim {A} (m : M V A) Q s :
  wp m Q s → ∃ r s', m s = Ok (r, s') ∧ Q r s'.
Proof.
  unfold wp. destruct (m s) as [[r s']| |]; try done. eauto.
Qed.

Lemma wp_intro {A} (m : M V A) (Q : A → Store V → Prop) s r s' :
  m s = Ok (r, s') → Q r s' → wp m Q s.
Proof. unfold wp. by intros ->. Qed.

Lemma wp_ret {A} (x : A) (Q : A → Store V → Prop) s : Q x s → wp (ret x) Q s.
Proof. done. Qed.

Lemma wp_bind {A B} (m : M V A) (f : A → M V B) Q s :
  wp m (λ r s', wp (f r) Q s') s → wp (bind m f) Q s.
Proof.
  unfold wp, bind. destruct (m s) as [[r s']| |]; done.
Qed.

Lemma wp_mono {A} (m : M V A) (Q Q' : A → Store V → Prop) s :
  wp m Q s → (∀ r s', Q r s' → Q' r s') → wp m Q' s.
Proof.
  unfold wp. destruct (m s) as [[r s']| |]; try done. intros HQ HQ'. by apply HQ'.
Qed.

Lemma wp_when (c : bool) (m : M V unit) Q s :
  (c = true → wp m Q s) → (c = false → Q tt s) → wp (when c m) Q s.
Proof. destruct c; intros H1 H2; unfold when; [by apply H1 | apply wp_ret; by apply H2]. Qed.

(** ** The heap under [alter] and allocation *)

Lemma fld_alter {B} (g : Node V → B) h a f x :
  fld g (alter f a h) x = if decide (x = a) then fld (g ∘ f) h a else fld g h x.
Proof.
  unfold fld. case_decide as Hx.
  - subst x. rewrite list_lookup_alter_eq. by rewrite <- option_fmap_compose.
  - by rewrite list_lookup_alter_ne.
Qed.

Lemma fld_alloc {B} (g : Node V → B) h n x :
  fld g (h ++ [n]) x = if decide (x = length h) then Some (g n) else fld g h x.
Proof.
  unfold fld. case_decide as Hx.
  - subst x. by rewrite lookup_app_r, Nat.sub_diag.
  - destruct (decide (x < length h)) as [Hlt|Hge].
    + by rewrite lookup_app_l.
    + rewrite !lookup_ge_None_2; [done | lia |].
      rewrite length_app; simpl; lia.
Qed.

Lemma fld_app_l {B} (g : Node V → B) h h' x :
  x < length h → fld g (h ++ h') x = fld g h x.
Proof. intros Hx. unfold fld. by rewrite lookup_app_l. Qed.

Lemma fld_valid {B} (g : Node V → B) h a :
  a < length h → ∃ n, h !! a = Some n ∧ fld g h a = Some (g n).
Proof.
  intros Ha. destruct (lookup_lt_is_Some_2 _ _ Ha) as [n Hn].
  exists n. unfold fld. by rewrite Hn.
Qed.

Lemma fld_Some_valid {B} (g : Node V → B) h a x :
  fld g h a = Some x → a < length h.
Proof.
  unfold fld. intros Hf. apply lookup_lt_is_Some.
  destruct (h !! a); [eauto | done].
Qed.

Lemma nxt_set_next h a q x :
  a < length h →
  nxt (alter (λ n, set_next n q) a h) x = if decide (x = a) then Some q else nxt h x.
Proof.
  intros Ha. unfold nxt. rewrite fld_alter. case_decide; [|done].
  by destruct (fld_valid (next ∘ (λ n, set_next n q)) h a Ha) as (? & _ & ->).
Qed.

Lemma prv_set_prev h a q x :
  a < length h →
  prv (alter (λ n, set_prev n q) a h) x = if decide (x = a) then Some q else prv h x.
Proof.
  intros Ha. unfold prv. rewrite fld_alter. case_decide; [|done].
  by destruct (fld_valid (prev ∘ (λ n, set_prev n q)) h a Ha) as (? & _ & ->).
Qed.

Lemma val_set_value h a v x :
  a < length h →
  val (alter (λ n, set_value n v) a h) x = if decide (x = a) then Some v else val h x.
Proof.
  intros Ha. unfold val. rewrite fld_alter. case_decide; [|done].
  by destruct (fld_valid (value ∘ (λ n, set_value n v)) h a Ha) as (? & _ & ->).
Qed.

Lemma fld_alter_same {B} (g : Node V → B) h a f x :
  (∀ n, g (f n) = g n) → fld g (alter f a h) x = fld g h x.
Proof.
  intros Hg. rewrite fld_alter. case_decide; [subst x|done].
  unfold fld. destruct (h !! a); simpl; [by rewrite Hg | done].
Qed.

Lemma nxt_set_prev h a q x : nxt (alter (λ n, set_prev n q) a h) x = nxt h x.
Proof. by apply fld_alter_same. Qed.
Lemma nxt_set_value h a v x : nxt (alter (λ n, set_value n v) a h) x = nxt h x.
Proof. by apply fld_alter_same. Qed.
Lemma nxt_set_skip h a q x : nxt (alter (λ n, set_skip n q) a h) x = nxt h x.
Proof. by apply fld_alter_same. Qed.
Lemma nxt_set_insertionIndex h a i x :
  nxt (alter (λ n, set_insertionIndex n i) a h) x = nxt h x.
Proof. by apply fld_alter_same. Qed.
Lemma prv_set_next h a q x : prv (alter (λ n, set_next n q) a h) x = prv h x.
Proof. by apply fld_alter_same. Qed.
Lemma prv_set_value h a v x : prv (alter (λ n, set_value n v) a h) x = prv h x.
Proof. by apply fld_alter_same. Qed.
Lemma prv_set_skip h a q x : prv (alter (λ n, set_skip n q) a h) x = prv h x.
Proof. by apply fld_alter_same. Qed.
Lemma prv_set_insertionIndex h a i x :
  prv (alter (λ n, set_insertionIndex n i) a h) x = prv h x.
Proof. by apply fld_alter_same. Qed.
Lemma val_set_next h a q x : val (alter (λ n, set_next n q) a h) x = val h x.
Proof. by apply fld_alter_same. Qed.
Lemma val_set_prev h a q x : val (alter (λ n, set_prev n q) a h) x = val h x.
Proof. by apply fld_alter_same. Qed.
Lemma val_set_skip h a q x : val (alter (λ n, set_skip n q) a h) x = val h x.
Proof. by apply fld_alter_same. Qed.
Lemma val_set_insertionIndex h a i x :
  val (alter (λ n, set_insertionIndex n i) a h) x = val h x.
Proof. by apply fld_alter_same. Qed.

Lemma nxt_alloc h n x :
  nxt (h ++ [n]) x = if decide (x = length h) then Some (next n) else nxt h x.
Proof. apply fld_alloc. Qed.
Lemma prv_alloc h n x :
  prv (h ++ [n]) x = if decide (x = length h) then Some (prev n) else prv h x.
Proof. apply fld_alloc. Qed.
Lemma val_alloc h n x :
  val (h ++ [n]) x = if decide (x = length h) then Some (value n) else val h x.
Proof. apply fld_alloc. Qed.

Lemma wp_getNode s a n (Q : Node V → Store V → Prop) :
  nodes s !! a = Some n → Q n s → wp (getNode (Some a)) Q s.
Proof. unfold wp, getNode. by intros ->. Qed.

Lemma wp_getNext s a p (Q : option nat → Store V → Prop) :
  nxt (nodes s) a = Some p → Q p s → wp (getNext (Some a)) Q s.
Proof.
  unfold nxt, fld, wp, getNext, bind, getNode, ret.
  destruct (nodes s !! a); simpl; [|done]. by intros [= ->].
Qed.

Lemma wp_getPrev s a p (Q : option nat → Store V → Prop) :
  prv (nodes s) a = Some p → Q p s → wp (getPrev (Some a)) Q s.
Proof.
  unfold prv, fld, wp, getPrev, bind, getNode, ret.
  destruct (nodes s !! a); simpl; [|done]. by intros [= ->].
Qed.

Lemma wp_getValue s a v (Q : V → Store V → Prop) :
  val (nodes s) a = Some v → Q v s → wp (getValue (Some a)) Q s.
Proof.
  unfold val, fld, wp, getValue, bind, getNode, ret.
  destruct (nodes s !! a); simpl; [|done]. by intros [= ->].
Qed.

Lemma wp_modNode s a f (Q : unit → Store V → Prop) :
  a < length (nodes s) →
  Q tt (with_nodes s (alter f a (nodes s))) →
  wp (modNode (Some a) f) Q s.
Proof.
  intros Ha HQ. unfold wp, modNode.
  destruct (lookup_lt_is_Some_2 _ _ Ha) as [n ->]. done.
Qed.

Lemma wp_allocNode s n (Q : nat → Store V → Prop) :
  Q (length (nodes s)) (with_nodes s (nodes s ++ [n])) → wp (allocNode n) Q s.
Proof. done. Qed.

Lemma wp_getList s this l (Q : UltimateLinkedList → Store V → Prop) :
  lists s !! this = Some l → Q l s → wp (getList this) Q s.
Proof. unfold wp, getList. by intros ->. Qed.

Lemma wp_modList s this l f (Q : unit → Store V → Prop) :
  lists s !! this = Some l →
  Q tt (with_lists s (alter f this (lists s))) →
  wp (modList this f) Q s.
Proof. unfold wp, modList. by intros ->. Qed.

Lemma wp_getTxn s t tx (Q : Transaction V → Store V → Prop) :
  txns s !! t = Some tx → Q tx s → wp (getTxn t) Q s.
Proof. unfold wp, getTxn. by intros ->. Qed.

Lemma wp_modTxn s t tx f (Q : unit → Store V → Prop) :
  txns s !! t = Some tx →
  Q tt (with_txns s (alter f t (txns s))) →
  wp (modTxn t f) Q s.
Proof. unfold wp, modTxn. by intros ->. Qed.

Lemma wp_getFuel s (Q : nat → Store V → Prop) :
  Q (S (length (nodes s))) s → wp getFuel Q s.
Proof. done. Qed.

Lemma wp_setNext s a q (Q : unit → Store V → Prop) :
  a < length (nodes s) →
  Q tt (with_nodes s (alter (λ n, set_next n q) a (nodes s))) →
  wp (setNext (Some a) q) Q s.
Proof. apply wp_modNode. Qed.

Lemma wp_setPrev s a q (Q : unit → Store V → Prop) :
  a < length (nodes s) →
  Q tt (with_nodes s (alter (λ n, set_prev n q) a (nodes s))) →
  wp (setPrev (Some a) q) Q s.
Proof. apply wp_modNode. Qed.

Lemma wp_setValue s a v (Q : unit → Store V → Prop) :
  a < length (nodes s) →
  Q tt (with_nodes s (alter (λ n, set_value n v) a (nodes s))) →
  wp (setValue (Some a) v) Q s.
Proof. apply wp_modNode. Qed.

Lemma wp_setSkip s a q (Q : unit → Store V → Prop) :
  a < length (nodes s) →
  Q tt (with_nodes s (alter (λ n, set_skip n q) a (nodes s))) →
  wp (setSkip (Some a) q) Q s.
Proof. apply wp_modNode. Qed.

Lemma wp_bumpModCount s this l (Q : unit → Store V → Prop) :
  lists s !! this = Some l →
  Q tt (with_lists s (alter (λ l, set_modCount l (_modCount l + 1)) this (lists s))) →
  wp (bumpModCount this) Q s.
Proof. apply wp_modList. Qed.

(** ** Transactions and notification leave the heap alone *)

Lemma txns_ext_refl s : txns_ext s s.
Proof. intros t tx Ht. eauto. Qed.

Lemma txns_ext_trans s1 s2 s3 : txns_ext s1 s2 → txns_ext s2 s3 → txns_ext s1 s3.
Proof.
  intros H12 H23 t tx Ht. destruct (H12 t tx Ht) as (tx2 & Ht2 & E2).
  destruct (H23 t tx2 Ht2) as (tx3 & Ht3 & E3). exists tx3. split; [done|congruence].
Qed.

Lemma txns_ext_eq s s' : txns s' = txns s → txns_ext s s'.
Proof. intros E t tx Ht. rewrite E. eauto. Qed.

Lemma txns_ext_alter s t f :
  (∀ tx, _list (f tx) = _list tx) →
  txns_ext s (with_txns s (alter f t (txns s))).
Proof.
  intros Hf t' tx Ht. simpl. destruct (decide (t' = t)) as [->|Hne].
  - rewrite list_lookup_alter_eq, Ht. simpl. eauto.
  - rewrite list_lookup_alter_ne by done. eauto.
Qed.

Lemma txn_ok_ext s s' this l : txns_ext s s' → txn_ok s this l → txn_ok s' this l.
Proof.
  intros Hext Hok t Ht. destruct (Hok t Ht) as (tx & Htx & E).
  destruct (Hext t tx Htx) as (tx' & Htx' & E'). exists tx'. split; [done|congruence].
Qed.

Lemma same_heap_refl s : same_heap s s.
Proof. split_and!; [done..|apply txns_ext_refl]. Qed.

Lemma same_heap_trans s1 s2 s3 : same_heap s1 s2 → same_heap s2 s3 → same_heap s1 s3.
Proof.
  intros (N1 & L1 & T1) (N2 & L2 & T2).
  split_and!; [congruence..|by eapply txns_ext_trans].
Qed.

Lemma callAll_spec fs (e : Event V) s :
  callAll fs e s = Ok (tt, with_delivered s (delivered s ++ map (λ f, (f, e)) fs)).
Proof.
  revert s. induction fs as [|f fs IH]; intros s; simpl.
  - unfold ret. rewrite app_nil_r. by destruct s.
  - unfold bind, call. rewrite IH. simpl. by rewrite <- app_assoc.
Qed.

Lemma wp_callAll fs (e : Event V) s (Q : unit → Store V → Prop) :
  Q tt (with_delivered s (delivered s ++ map (λ f, (f, e)) fs)) →
  wp (callAll fs e) Q s.
Proof. intros HQ. eapply wp_intro; [apply callAll_spec | done]. Qed.

Lemma wp_notify s this l e (Q : unit → Store V → Prop) :
  lists s !! this = Some l →
  txn_ok s this l →
  (∀ s', same_heap s s' → Q tt s') →
  wp (_notify this e) Q s.
Proof.
  intros Hl Hok HQ. unfold _notify. apply wp_bind. eapply wp_getList; [done|].
  destruct (_transaction l) as [t|] eqn:Ht.
  - destruct (Hok t Ht) as (tx & Htx & _).
    eapply wp_modTxn; [done|]. apply HQ. split_and!; [done..|].
    by apply txns_ext_alter.
  - apply wp_callAll. apply HQ. split_and!; [done..|]. by apply txns_ext_eq.
Qed.

End Logic.

(** Simplification of heap views after writes, and case analysis on the
    addresses involved. *)
Ltac hlen :=
  cbn [nodes lists txns delivered with_nodes with_lists with_txns with_delivered];
  rewrite ?length_alter, ?length_app; simpl; lia.

Ltac hsimpl :=
  cbn [nodes lists txns delivered with_nodes with_lists with_txns with_delivered];
  repeat first
    [ rewrite nxt_set_next by hlen | rewrite prv_set_prev by hlen
    | rewrite val_set_value by hlen
    | rewrite nxt_set_prev | rewrite nxt_set_value | rewrite nxt_set_skip
    | rewrite nxt_set_insertionIndex
    | rewrite prv_set_next | rewrite prv_set_value | rewrite prv_set_skip
    | rewrite prv_set_insertionIndex
    | rewrite val_set_next | rewrite val_set_prev | rewrite val_set_skip
    | rewrite val_set_insertionIndex
    | rewrite nxt_alloc | rewrite prv_alloc | rewrite val_alloc
    | rewrite length_alter | rewrite length_app
    | rewrite list_lookup_alter_eq ].

Ltac hcases := repeat case_decide; simplify_eq; try lia; try done.

Section Nodes.
Context {V : Type} `{JsValue V}.

Local Open Scope js_scope.

Implicit Types (s : Store V) (h : list (Node V)) (a b : nat).
Implicit Types (l : UltimateLinkedList).

Lemma wp_addNodeAfter s this l p q v (Q : option nat → Store V → Prop) :
  lists s !! this = Some l →
  txn_ok s this l →
  nxt (nodes s) p = Some (Some q) →
  q < length (nodes s) →
  (∀ s', inserted (nodes s) (nodes s') p (length (nodes s)) q v →
         lists s' = alter (λ l, set_size l (_size l + 1)) this (lists s) →
         txns_ext s s' →
         Q (Some (length (nodes s))) s') →
  wp (_addNodeAfter this (Some p) v) Q s.
Proof.
  intros Hl Hok Hpq Hq HQ.
  pose proof (fld_Some_valid _ _ _ _ Hpq) as Hp.
  unfold _addNodeAfter.
  apply wp_bind, wp_allocNode.
  apply wp_bind. eapply wp_getNext. { hsimpl. hcases. }
  apply wp_bind, wp_setPrev. { hlen. }
  apply wp_bind, wp_setNext. { hlen. }
  apply wp_bind, wp_setNext. { hlen. }
  apply wp_bind, wp_setPrev. { hlen. }
  apply wp_bind. eapply wp_getList; [done|].
  apply wp_bind, wp_modNode. { hlen. }
  apply wp_bind. eapply wp_modList; [done|].
  apply wp_bind. eapply wp_getList. { hsimpl. by rewrite Hl. }
  set (s1 := with_lists _ _).
  assert (inserted (nodes s) (nodes s1) p (length (nodes s)) q v) as Hins.
  { subst s1. split; intros; hsimpl; hcases. simpl. lia. }
  assert (txns_ext s s1) as Hext by by apply txns_ext_eq.
  apply wp_bind, wp_when.
  - intros _. eapply wp_notify.
    + subst s1. hsimpl. by rewrite Hl.
    + eapply txn_ok_ext; [done|]. intros t. simpl. apply Hok.
    + intros s' (Hn & Hls & Ht). apply wp_ret, HQ.
      * by rewrite Hn.
      * by rewrite Hls.
      * eapply txns_ext_trans; [exact Hext | exact Ht].
  - intros _. by apply wp_ret, HQ.
Qed.

Lemma wp_removeNode s this l x p q v (Q : V → Store V → Prop) :
  lists s !! this = Some l →
  txn_ok s this l →
  prv (nodes s) x = Some (Some p) →
  nxt (nodes s) x = Some (Some q) →
  val (nodes s) x = Some v →
  p < length (nodes s) →
  q < length (nodes s) →
  (∀ s', removed (nodes s) (nodes s') p q →
         lists s' = alter (λ l, set_size l (_size l - 1)) this (lists s) →
         txns_ext s s' →
         Q v s') →
  wp (_removeNode this (Some x)) Q s.
Proof.
  intros Hl Hok Hxp Hxq Hxv Hp Hq HQ.
  unfold _removeNode.
  apply wp_bind. eapply wp_getPrev; [done|].
  apply wp_bind. eapply wp_getNext; [done|].
  apply wp_bind, wp_setNext; [done|].
  apply wp_bind, wp_setPrev. { hlen. }
  apply wp_bind. eapply wp_getValue. { hsimpl. done. }
  apply wp_bind. eapply wp_modList; [done|].
  apply wp_bind. eapply wp_getList. { hsimpl. by rewrite Hl. }
  set (s1 := with_lists _ _).
  assert (removed (nodes s) (nodes s1) p q) as Hrem.
  { subst s1. split; intros; hsimpl; hcases. }
  assert (txns_ext s s1) as Hext by by apply txns_ext_eq.
  apply wp_bind, wp_when.
  - intros _. eapply wp_notify.
    + subst s1. hsimpl. by rewrite Hl.
    + eapply txn_ok_ext; [done|]. intros t. simpl. apply Hok.
    + intros s' (Hn & Hls & Ht). apply wp_ret, HQ.
      * by rewrite Hn.
      * by rewrite Hls.
      * eapply txns_ext_trans; [exact Hext | exact Ht].
  - intros _. by apply wp_ret, HQ.
Qed.

End Nodes.

Section Chains.
Context {V : Type} `{JsValue V}.

Implicit Types (h : list (Node V)) (a b : nat).

(** ** Doubly linked chains *)

Lemma links_cons h a b l :
  links h (a :: b :: l) ↔ linked h a b ∧ links h (b :: l).
Proof. done. Qed.

Lemma links_app h l1 l2 :
  links h (l1 ++ l2) ↔
  links h l1 ∧ links h l2 ∧
  (∀ a b, last l1 = Some a → head l2 = Some b → linked h a b).
Proof.
  induction l1 as [|a [|b l1] IH].
  - simpl. split; [intros Hl; split_and!; [done..|] | tauto]. by intros ?? [=].
  - destruct l2 as [|b l2].
    + simpl. split; [intros _; split_and!; [done..|] | done]. by intros ?? _ [=].
    + change ([a] ++ b :: l2) with (a :: b :: l2). rewrite links_cons. simpl.
      split.
      * intros [Hab Hl]. split_and!; [done..|]. by intros ?? [= <-] [= <-].
      * intros (_ & Hl & Hj). split; [|done]. by apply Hj.
  - change ((a :: b :: l1) ++ l2) with (a :: b :: (l1 ++ l2)).
    rewrite !links_cons.
    change (b :: l1 ++ l2) with ((b :: l1) ++ l2). rewrite IH.
    change (last (a :: b :: l1)) with (last (b :: l1)). tauto.
Qed.

Lemma links_ext h h' l :
  links h l →
  (∀ x, x ∈ removelast l → nxt h' x = nxt h x) →
  (∀ x, x ∈ tail l → prv h' x = prv h x) →
  links h' l.
Proof.
  induction l as [|a [|b l] IH]; [done..|].
  rewrite !links_cons. intros [[Hn Hp] Hl] Hnx Hpv. split.
  - split.
    + rewrite Hnx; [done|]. simpl. left.
    + rewrite Hpv; [done|]. simpl. left.
  - apply IH; [done|..].
    + intros x Hx. apply Hnx. change (removelast (a :: b :: l)) with (a :: removelast (b :: l)).
      by right.
    + intros x Hx. apply Hpv. simpl in *. by right.
Qed.

Lemma elem_of_removelast (l : list nat) x : x ∈ removelast l → x ∈ l.
Proof.
  induction l as [|a [|b l] IH]; intros Hx; [by inversion Hx..|].
  change (removelast (a :: b :: l)) with (a :: removelast (b :: l)) in Hx.
  apply elem_of_cons in Hx as [->|Hx]; [left | right; by apply IH].
Qed.

Lemma links_frame h h' l :
  links h l →
  (∀ x, x ∈ l → nxt h' x = nxt h x ∧ prv h' x = prv h x) →
  links h' l.
Proof.
  intros Hl Hf. apply (links_ext h); [done|..].
  - intros x Hx. by apply Hf, elem_of_removelast.
  - intros x Hx. apply Hf. destruct l; [by inversion Hx|]. by right.
Qed.

Lemma links_rev h h' l :
  links h l →
  (∀ x, x ∈ l → nxt h' x = prv h x ∧ prv h' x = nxt h x) →
  links h' (rev l).
Proof.
  induction l as [|a l IH]; [done|].
  intros Hl Hsw. simpl. apply links_app. split_and!.
  - apply IH.
    + destruct l; [done|]. by apply links_cons in Hl as [_ ?].
    + intros x Hx. apply Hsw. by right.
  - done.
  - intros b c Hb [= <-]. destruct l as [|d l]; [done|].
    apply links_cons in Hl as [[Hn Hp] _].
    assert (b = d) as ->.
    { change (d :: l) with ([d] ++ l) in Hb. rewrite rev_app_distr in Hb.
      simpl in Hb. rewrite last_snoc in Hb. congruence. }
    split.
    + destruct (Hsw d) as [-> _]; [right; left | done].
    + destruct (Hsw a) as [_ ->]; [left | done].
Qed.

Lemma links_lookup h l i a b :
  links h l → l !! i = Some a → l !! S i = Some b → linked h a b.
Proof.
  revert i. induction l as [|x [|y l] IH]; intros i Hl Ha Hb; [done| by destruct i|].
  apply links_cons in Hl as [Hxy Hl]. destruct i as [|i].
  - simpl in *. by simplify_eq.
  - by apply (IH i).
Qed.

Lemma links_insert h h' l1 l2 p q a v :
  links h (l1 ++ p :: q :: l2) →
  NoDup (l1 ++ p :: q :: l2) →
  a ∉ l1 ++ p :: q :: l2 →
  inserted h h' p a q v →
  links h' (l1 ++ p :: a :: q :: l2).
Proof.
  intros Hl Hnd Ha [_ Hn Hp _].
  apply NoDup_app in Hnd as (Hnd1 & Hdisj & Hnd2).
  apply NoDup_cons in Hnd2 as [Hp2 Hnd2]. apply NoDup_cons in Hnd2 as [Hq2 _].
  change (l1 ++ p :: q :: l2) with (l1 ++ [p] ++ q :: l2) in Hl.
  rewrite (assoc_L (++)) in Hl. apply links_app in Hl as (Hl1 & Hl2 & _).
  change (l1 ++ p :: a :: q :: l2) with (l1 ++ [p] ++ a :: q :: l2).
  rewrite (assoc_L (++)). apply links_app. split_and!.
  - apply (links_ext h); [done|..].
    + intros x Hx. rewrite removelast_last in Hx. rewrite Hn.
      hcases; [apply Hdisj in Hx; set_solver | set_solver].
    + intros x Hx. rewrite Hp.
      assert (x ∈ l1 ++ [p]) as Hx' by (destruct l1; [by inversion Hx | by right]).
      hcases; [|set_solver]. apply elem_of_app in Hx' as [Hx'|Hx']; [|set_solver].
      apply Hdisj in Hx'. set_solver.
  - apply links_cons. split.
    + split; [rewrite Hn | rewrite Hp]; hcases; set_solver.
    + apply (links_ext h); [done|..].
      * intros x Hx%elem_of_removelast. rewrite Hn. hcases; set_solver.
      * intros x Hx. simpl in Hx. rewrite Hp. hcases; set_solver.
  - intros x y Hx [= <-]. rewrite last_snoc in Hx. simplify_eq.
    split; [rewrite Hn | rewrite Hp]; hcases; set_solver.
Qed.

Lemma links_remove h h' l1 l2 p x q :
  links h (l1 ++ p :: x :: q :: l2) →
  NoDup (l1 ++ p :: x :: q :: l2) →
  removed h h' p q →
  links h' (l1 ++ p :: q :: l2).
Proof.
  intros Hl Hnd [_ Hn Hp _].
  apply NoDup_app in Hnd as (Hnd1 & Hdisj & Hnd2).
  apply NoDup_cons in Hnd2 as [Hp2 Hnd2]. apply NoDup_cons in Hnd2 as [Hx2 Hnd2].
  apply NoDup_cons in Hnd2 as [Hq2 _].
  change (l1 ++ p :: x :: q :: l2) with (l1 ++ [p] ++ [x] ++ q :: l2) in Hl.
  rewrite !(assoc_L (++)) in Hl. apply links_app in Hl as (Hl1 & Hl2 & _).
  apply links_app in Hl1 as (Hl1 & _ & _).
  change (l1 ++ p :: q :: l2) with (l1 ++ [p] ++ q :: l2).
  rewrite (assoc_L (++)). apply links_app. split_and!.
  - apply (links_ext h); [done|..].
    + intros y Hy. rewrite removelast_last in Hy. rewrite Hn.
      hcases. apply Hdisj in Hy. set_solver.
    + intros y Hy. rewrite Hp.
      assert (y ∈ l1 ++ [p]) as Hy' by (destruct l1; [by inversion Hy | by right]).
      hcases. apply elem_of_app in Hy' as [Hy'|Hy']; [|set_solver].
      apply Hdisj in Hy'. set_solver.
  - apply (links_ext h); [done|..].
    + intros y Hy%elem_of_removelast. rewrite Hn. hcases. set_solver.
    + intros y Hy. simpl in Hy. rewrite Hp. hcases.
  - intros y z Hy [= <-]. rewrite last_snoc in Hy. simplify_eq.
    split; [rewrite Hn | rewrite Hp]; hcases.
Qed.

Lemma contents_ext h h' xs :
  (∀ x, x ∈ xs → val h' x = val h x) → contents h' xs = contents h xs.
Proof.
  intros Hv. unfold contents. apply list_fmap_ext. intros i x Hx.
  rewrite Hv; [done|]. by eapply list_elem_of_lookup_2.
Qed.

Lemma contents_app h xs ys : contents h (xs ++ ys) = contents h xs ++ contents h ys.
Proof. unfold contents. apply fmap_app. Qed.

Lemma contents_take h k xs : contents h (take k xs) = take k (contents h xs).
Proof. unfold contents. apply fmap_take. Qed.

Lemma contents_drop h k xs : contents h (drop k xs) = drop k (contents h xs).
Proof. unfold contents. apply fmap_drop. Qed.

Lemma length_contents h xs : length (contents h xs) = length xs.
Proof. unfold contents. apply length_fmap. Qed.

(** ** Well-formed lists *)

Lemma wf_list_fresh h l xs x :
  wf_list h l xs → x ∈ _head l :: xs ++ [_tail l] → x < length h.
Proof.
  intros Hwf Hx. pose proof (wf_valid _ _ _ Hwf) as Hv.
  rewrite Forall_forall in Hv. by apply Hv.
Qed.

Lemma wf_list_last h l xs :
  wf_list h l xs →
  ∃ p, last (_head l :: xs) = Some p ∧ linked h p (_tail l).
Proof.
  intros Hwf. destruct (last (_head l :: xs)) as [p|] eqn:Hp.
  - exists p. split; [done|].
    pose proof (wf_links _ _ _ Hwf) as Hl.
    change (_head l :: xs ++ [_tail l]) with ((_head l :: xs) ++ [_tail l]) in Hl.
    apply links_app in Hl as (_ & _ & Hj). by apply Hj.
  - by apply last_None in Hp.
Qed.

Lemma wf_list_first h l xs :
  wf_list h l xs →
  ∃ q, head (xs ++ [_tail l]) = Some q ∧ linked h (_head l) q.
Proof.
  intros Hwf. pose proof (wf_links _ _ _ Hwf) as Hl.
  destruct (xs ++ [_tail l]) as [|q r] eqn:E.
  - by destruct xs.
  - exists q. split; [done|]. by apply links_cons in Hl as [? _].
Qed.

Lemma wf_list_split h l xs1 xs2 :
  wf_list h l (xs1 ++ xs2) →
  ∃ l1 l2 p q,
    _head l :: xs1 = l1 ++ [p] ∧ xs2 ++ [_tail l] = q :: l2 ∧
    _head l :: (xs1 ++ xs2) ++ [_tail l] = l1 ++ p :: q :: l2 ∧
    linked h p q.
Proof.
  intros Hwf.
  destruct (last (_head l :: xs1)) as [p|] eqn:Hp; [|by apply last_None in Hp].
  apply last_Some in Hp as [l1 Hl1].
  destruct (xs2 ++ [_tail l]) as [|q l2] eqn:Hl2; [by destruct xs2|].
  exists l1, l2, p, q.
  assert (_head l :: (xs1 ++ xs2) ++ [_tail l] = l1 ++ p :: q :: l2) as E.
  { rewrite <- (assoc_L (++)), Hl2.
    change (_head l :: xs1 ++ q :: l2) with ((_head l :: xs1) ++ q :: l2).
    rewrite Hl1. by rewrite <- (assoc_L (++)). }
  split_and!; [done..|].
  pose proof (wf_links _ _ _ Hwf) as Hl. rewrite E in Hl.
  change (l1 ++ p :: q :: l2) with (l1 ++ [p] ++ q :: l2) in Hl.
  rewrite (assoc_L (++)) in Hl. apply links_app in Hl as (_ & _ & Hj).
  apply Hj; [by rewrite last_snoc | done].
Qed.

Lemma wf_list_insert h h' l xs1 xs2 p q v :
  wf_list h l (xs1 ++ xs2) →
  last (_head l :: xs1) = Some p →
  head (xs2 ++ [_tail l]) = Some q →
  inserted h h' p (length h) q v →
  wf_list h' (set_size l (_size l + 1)) (xs1 ++ length h :: xs2) ∧
  contents h' (xs1 ++ length h :: xs2) = contents h xs1 ++ v :: contents h xs2.
Proof.
  intros Hwf Hp Hq Hins.
  destruct (wf_list_split _ _ _ _ Hwf) as (l1 & l2 & p' & q' & E1 & E2 & E & _).
  rewrite E1, last_snoc in Hp. rewrite E2 in Hq. simpl in Hq. simplify_eq.
  assert (∀ x, x ∈ l1 ++ p :: q :: l2 → x < length h) as Hfresh.
  { intros x Hx. rewrite <- E in Hx. by eapply wf_list_fresh. }
  assert (length h ∉ l1 ++ p :: q :: l2) as Ha.
  { intros Hx%Hfresh. lia. }
  assert (_head l :: (xs1 ++ length h :: xs2) ++ [_tail l]
          = l1 ++ p :: length h :: q :: l2) as E'.
  { rewrite <- (assoc_L (++)). simpl. rewrite E2.
    change (_head l :: xs1 ++ length h :: q :: l2)
      with ((_head l :: xs1) ++ length h :: q :: l2).
    rewrite E1. by rewrite <- (assoc_L (++)). }
  pose proof (wf_nodup _ _ _ Hwf) as Hnd. rewrite E in Hnd.
  assert (∀ x, x ∈ l1 ++ [p] → x ∉ q :: l2) as Hdisj.
  { change (l1 ++ p :: q :: l2) with (l1 ++ [p] ++ q :: l2) in Hnd.
    rewrite (assoc_L (++)) in Hnd. by apply NoDup_app in Hnd as (_ & ? & _). }
  assert (_head l ∈ l1 ++ [p]) as Hhead by (rewrite <- E1; left).
  assert (_tail l ∈ q :: l2) as Htail by (rewrite <- E2; set_solver).
  destruct Hwf as [Hl _ Hv Hsz Hhp Htn]. rewrite E in Hl.
  pose proof Hins as [Hlen Hn Hpv Hvl].
  split.
  - split; cbn [_head _tail _size set_size].
    + rewrite E'. by eapply links_insert.
    + rewrite E'.
      assert (l1 ++ p :: length h :: q :: l2 ≡ₚ length h :: l1 ++ p :: q :: l2) as ->.
      { change (l1 ++ p :: length h :: q :: l2) with (l1 ++ [p] ++ length h :: q :: l2).
        rewrite (assoc_L (++)). rewrite <- Permutation_middle.
        by rewrite <- (assoc_L (++)). }
      by apply NoDup_cons.
    + rewrite E', Forall_forall. intros x Hx. rewrite Hlen.
      assert (x = length h ∨ x ∈ l1 ++ p :: q :: l2) as [->|Hx'%Hfresh] by set_solver; lia.
    + rewrite !length_app in *. simpl. lia.
    + rewrite Hpv.
      assert (_head l ∈ l1 ++ p :: q :: l2) as Hh by (rewrite <- E; left).
      apply Hfresh in Hh.
      rewrite decide_False, decide_False; [done | lia |].
      intros E0. apply (Hdisj (_head l)); [done | rewrite E0; left].
    + rewrite Hn.
      assert (_tail l ∈ l1 ++ p :: q :: l2) as Ht by (rewrite <- E; set_solver).
      apply Hfresh in Ht.
      rewrite decide_False, decide_False; [done | lia |].
      intros E0. apply (Hdisj (_tail l)); [rewrite E0; set_solver | done].
  - rewrite contents_app. simpl.
    assert (∀ ys, (∀ x, x ∈ ys → x < length h) → contents h' ys = contents h ys) as Hc.
    { intros ys Hys. apply contents_ext. intros x Hx%Hys. rewrite Hvl. hcases. }
    assert (∀ x, x ∈ xs1 ++ xs2 → x < length h) as Hxs.
    { intros x Hx. apply Hfresh. rewrite <- E. set_solver. }
    rewrite !Hc by (intros; apply Hxs; set_solver).
    unfold contents at 2. simpl. rewrite Hvl. by rewrite decide_True.
Qed.

Lemma wf_list_remove h h' l xs1 x xs2 p q :
  wf_list h l (xs1 ++ x :: xs2) →
  last (_head l :: xs1) = Some p →
  head (xs2 ++ [_tail l]) = Some q →
  removed h h' p q →
  wf_list h' (set_size l (_size l - 1)) (xs1 ++ xs2) ∧
  contents h' (xs1 ++ xs2) = contents h xs1 ++ contents h xs2.
Proof.
  intros Hwf Hp Hq Hrem.
  apply last_Some in Hp as [l1 E1].
  destruct (xs2 ++ [_tail l]) as [|q' l2] eqn:E2; simplify_eq/=.
  assert (_head l :: (xs1 ++ x :: xs2) ++ [_tail l] = l1 ++ p :: x :: q :: l2) as E.
  { rewrite <- (assoc_L (++)). simpl. rewrite E2.
    change (_head l :: xs1 ++ x :: q :: l2) with ((_head l :: xs1) ++ x :: q :: l2).
    rewrite E1. by rewrite <- (assoc_L (++)). }
  assert (_head l :: (xs1 ++ xs2) ++ [_tail l] = l1 ++ p :: q :: l2) as E'.
  { rewrite <- (assoc_L (++)), E2.
    change (_head l :: xs1 ++ q :: l2) with ((_head l :: xs1) ++ q :: l2).
    rewrite E1. by rewrite <- (assoc_L (++)). }
  destruct Hwf as [Hl Hnd Hv Hsz Hhp Htn]. rewrite E in Hl, Hnd, Hv.
  assert (∀ y, y ∈ l1 ++ [p] → y ∉ x :: q :: l2) as Hdisj.
  { change (l1 ++ p :: x :: q :: l2) with (l1 ++ [p] ++ x :: q :: l2) in Hnd.
    rewrite (assoc_L (++)) in Hnd. by apply NoDup_app in Hnd as (_ & ? & _). }
  assert (_head l ∈ l1 ++ [p]) as Hhead by (rewrite <- E1; left).
  assert (_tail l ∈ q :: l2) as Htail by (rewrite <- E2; set_solver).
  pose proof Hrem as [Hlen Hn Hpv Hvl].
  assert (l1 ++ p :: q :: l2 ⊆ l1 ++ p :: x :: q :: l2) as Hsub by set_solver.
  split.
  - split; cbn [_head _tail _size set_size].
    + rewrite E'. by eapply links_remove.
    + rewrite E'. apply (sublist_NoDup (l1 ++ p :: q :: l2) (l1 ++ p :: x :: q :: l2)); [exact Hnd|].
      apply sublist_app; [reflexivity|]. apply sublist_skip, sublist_cons. reflexivity.
    + rewrite E', Hlen. rewrite Forall_forall in *. intros y Hy. by apply Hv, Hsub.
    + rewrite !length_app in *. simpl in *. lia.
    + rewrite Hpv, decide_False; [done|].
      intros E0. apply (Hdisj (_head l)); [done | rewrite E0; set_solver].
    + rewrite Hn, decide_False; [done|].
      intros E0. apply (Hdisj (_tail l)); [rewrite E0; set_solver | set_solver].
  - rewrite contents_app. f_equal; apply contents_ext; intros; apply Hvl.
Qed.

(** A list is not disturbed by writes elsewhere, nor by a growing heap. *)
Lemma wf_list_frame h h' l l' xs :
  wf_list h l xs →
  length h ≤ length h' →
  (∀ x, x ∈ _head l :: xs ++ [_tail l] → nxt h' x = nxt h x ∧ prv h' x = prv h x) →
  _head l' = _head l → _tail l' = _tail l → _size l' = _size l →
  wf_list h' l' xs.
Proof.
  intros [Hl Hnd Hv Hsz Hhp Htn] Hlen Hf Eh Et Es.
  split; rewrite ?Eh, ?Et, ?Es; try done.
  - by apply (links_frame h).
  - eapply Forall_impl; [done|]. simpl. intros; lia.
  - destruct (Hf (_head l)) as [_ ->]; [left | done].
  - destruct (Hf (_tail l)) as [-> _]; [set_solver | done].
Qed.

(** A chain without repetition fits in the heap. *)
Lemma NoDup_valid_length (n : nat) (l : list nat) :
  NoDup l → Forall (λ a, a < n) l → length l ≤ n.
Proof.
  intros Hnd Hv.
  assert (l ⊆ seq 0 n) as Hsub.
  { intros x Hx. rewrite Forall_forall in Hv. apply elem_of_seq. specialize (Hv x Hx). lia. }
  pose proof (submseteq_length l (seq 0 n)) as Hlen.
  rewrite length_seq in Hlen. apply Hlen.
  by apply NoDup_submseteq.
Qed.

End Chains.

Section SkipLinks.
Context {V : Type} `{JsValue V}.

Local Open Scope js_scope.

Implicit Types (s : Store V) (h : list (Node V)) (a b : nat).
Implicit Types (l : UltimateLinkedList).

(** ** [_updateSkipLinks] writes [skip] fields only, and returns *)

Lemma skip_only_refl h : skip_only h h.
Proof. by split. Qed.

Lemma skip_only_trans h1 h2 h3 : skip_only h1 h2 → skip_only h2 h3 → skip_only h1 h3.
Proof.
  intros [L1 F1] [L2 F2]. split; [congruence|]. intros x.
  destruct (F1 x) as (? & ? & ?), (F2 x) as (? & ? & ?). split_and!; congruence.
Qed.

Lemma skip_rebuilt_refl s : skip_rebuilt s s.
Proof. split_and!; [apply skip_only_refl | done..]. Qed.

Lemma skip_rebuilt_trans s1 s2 s3 :
  skip_rebuilt s1 s2 → skip_rebuilt s2 s3 → skip_rebuilt s1 s3.
Proof.
  intros (S1 & L1 & T1) (S2 & L2 & T2).
  split_and!; [by eapply skip_only_trans | congruence..].
Qed.

Lemma wf_list_skip_only h h' l xs :
  wf_list h l xs → skip_only h h' → wf_list h' l xs.
Proof.
  intros Hwf [Hlen Hf]. eapply wf_list_frame; [done| lia | | done..].
  intros x _. destruct (Hf x) as (? & ? & ?). done.
Qed.

Lemma contents_skip_only h h' xs : skip_only h h' → contents h' xs = contents h xs.
Proof. intros [_ Hf]. apply contents_ext. intros x _. apply Hf. Qed.

Lemma links_skip_only h h' c : links h c → skip_only h h' → links h' c.
Proof.
  intros Hl [_ Hf]. apply (links_frame h); [done|]. intros x _.
  destruct (Hf x) as (? & ? & ?). done.
Qed.

(** A chain that does not start at its last node has a second node. *)
Lemma chain_step h x c tl :
  links h (x :: c) → last (x :: c) = Some tl → x ≠ tl →
  ∃ y c', c = y :: c' ∧ linked h x y ∧ links h (y :: c') ∧ last (y :: c') = Some tl.
Proof.
  intros Hl Hlast Hne. destruct c as [|y c'].
  - simpl in Hlast. congruence.
  - exists y, c'. apply links_cons in Hl as [? ?]. by rewrite last_cons_cons in Hlast.
Qed.

Lemma skipTarget_spec tl n s x c (Q : option nat → Store V → Prop) :
  links (nodes s) (x :: c) → last (x :: c) = Some tl →
  (∀ y, Q (Some y) s) →
  wp (skipTarget tl n (Some x)) Q s.
Proof.
  revert x c. induction n as [|n IH]; intros x c Hl Hlast HQ; simpl.
  - by apply wp_ret.
  - case_bool_decide as Hx; [by apply wp_ret|].
    assert (x ≠ tl) as Hne by congruence.
    destruct (chain_step _ _ _ _ Hl Hlast Hne) as (y & c' & -> & [Hn _] & Hl' & Hlast').
    apply wp_bind. eapply wp_getNext; [done|]. by eapply IH.
Qed.

Lemma updateSkipLinks_loop_spec tl sd c fuel x count s (Q : unit → Store V → Prop) :
  links (nodes s) (x :: c) → last (x :: c) = Some tl → length c ≤ fuel →
  (∀ s', skip_rebuilt s s' → Q tt s') →
  wp (updateSkipLinks_loop fuel tl sd (Some x) count) Q s.
Proof.
  revert fuel x count s Q. induction c as [|y c IH]; intros fuel x count s Q Hl Hlast Hfuel HQ.
  - simpl in Hlast. simplify_eq. destruct fuel; simpl; rewrite bool_decide_true by done;
      apply wp_ret, HQ, skip_rebuilt_refl.
  - destruct fuel as [|fuel]; [simpl in Hfuel; lia|]. simpl.
    case_bool_decide as Hx; [apply wp_ret, HQ, skip_rebuilt_refl|].
    apply links_cons in Hl as [[Hn Hp] Hl'].
    rewrite last_cons_cons in Hlast.
    pose proof (fld_Some_valid _ _ _ _ Hn) as Hxv.
    assert (∀ s1, skip_rebuilt s s1 →
              wp (nxt ← getNext (Some x);
                  updateSkipLinks_loop fuel tl sd nxt (count + 1)%Z) Q s1) as Hrest.
    { intros s1 Hs1. pose proof Hs1 as (Hso & _ & _).
      apply wp_bind. eapply wp_getNext.
      { destruct Hso as [_ Hf]. destruct (Hf x) as (-> & _). done. }
      eapply IH; [by eapply links_skip_only | done | simpl in Hfuel; lia |].
      intros s' Hs'. apply HQ. by eapply skip_rebuilt_trans. }
    apply wp_bind, wp_when.
    + intros _. apply wp_bind.
      eapply (skipTarget_spec _ _ _ x (y :: c)).
      { by apply links_cons. }
      { by rewrite last_cons_cons. }
      intros t. apply wp_setSkip; [done|]. apply Hrest.
      split_and!; [|done..]. split; hsimpl; [done|]. intros z. hsimpl. done.
    + intros _. apply Hrest, skip_rebuilt_refl.
Qed.

Lemma wp_updateSkipLinks s this l xs (Q : unit → Store V → Prop) :
  lists s !! this = Some l →
  wf_list (nodes s) l xs →
  (∀ s', skip_rebuilt s s' → Q tt s') →
  wp (_updateSkipLinks this) Q s.
Proof.
  intros Hls Hwf HQ. unfold _updateSkipLinks.
  apply wp_bind. eapply wp_getList; [done|].
  destruct (negb (_useSkipLinks l) || (_size l <? 8)%Z); [apply wp_ret, HQ, skip_rebuilt_refl|].
  destruct (wf_list_first _ _ _ Hwf) as (q & Hq & [Hn _]).
  apply wp_bind. eapply wp_getNext; [done|].
  apply wp_bind, wp_getFuel.
  destruct (xs ++ [_tail l]) as [|q' c] eqn:E; [done|]. simpl in Hq. simplify_eq.
  pose proof (wf_links _ _ _ Hwf) as Hl. rewrite E in Hl.
  apply links_cons in Hl as [_ Hl].
  eapply updateSkipLinks_loop_spec; [done| | |done].
  - rewrite <- (last_cons_cons (_head l)), <- E.
    change (_head l :: xs ++ [_tail l]) with ((_head l :: xs) ++ [_tail l]).
    apply last_snoc.
  - pose proof (NoDup_valid_length _ _ (wf_nodup _ _ _ Hwf) (wf_valid _ _ _ Hwf)) as Hlen.
    rewrite E in Hlen. simpl in Hlen. lia.
Qed.

End SkipLinks.

Section Insertion.
Context {V : Type} `{JsValue V}.

Local Open Scope js_scope.

Implicit Types (s : Store V) (h : list (Node V)) (a b : nat).
Implicit Types (l : UltimateLinkedList).

(** ** [append], [prepend], [push], [unshift] *)

Lemma wf_list_record h l l' xs :
  wf_list h l xs →
  _head l' = _head l → _tail l' = _tail l → _size l' = _size l →
  wf_list h l' xs.
Proof. intros Hwf Eh Et Es. by apply (wf_list_frame h h l l' xs). Qed.

Lemma updated_skip_rebuilt s s' this l l' xs :
  updated s this l l' xs → skip_rebuilt s s' →
  updated s' this l l' xs ∧ contents (nodes s') xs = contents (nodes s) xs.
Proof.
  intros [Hls Hwf Hok ? ? ?] (Hso & Hl & Ht). split.
  - split; try done.
    + by rewrite Hl.
    + by eapply wf_list_skip_only.
    + intros t Hlt. rewrite Ht. by apply Hok.
  - by apply contents_skip_only.
Qed.

Lemma wp_when_updateSkipLinks (c : bool) s this l0 l xs (Q : unit → Store V → Prop) :
  updated s this l0 l xs →
  (∀ s', updated s' this l0 l xs →
         contents (nodes s') xs = contents (nodes s) xs → Q tt s') →
  wp (when c (_updateSkipLinks this)) Q s.
Proof.
  intros Hup HQ. apply wp_when.
  - intros _. eapply wp_updateSkipLinks; [apply Hup | apply Hup |].
    intros s' Hs'. destruct (updated_skip_rebuilt _ _ _ _ _ _ Hup Hs'). by apply HQ.
  - intros _. by apply HQ.
Qed.

Lemma txn_ok_lists s s' this l l' :
  txn_ok s this l → txns s' = txns s → _transaction l' = _transaction l →
  txn_ok s' this l'.
Proof. intros Hok Ht Hl t. rewrite Ht, Hl. apply Hok. Qed.

(** What [_addNodeAfter] does to a well-formed list: the new node stands
    between [xs1] and [xs2]. *)
Lemma wp_addNodeAfter_wf s this l xs1 xs2 p v (Q : option nat → Store V → Prop) :
  lists s !! this = Some l →
  wf_list (nodes s) l (xs1 ++ xs2) →
  txn_ok s this l →
  last (_head l :: xs1) = Some p →
  (∀ s', updated s' this l (set_size l (_size l + 1)) (xs1 ++ length (nodes s) :: xs2) →
         contents (nodes s') (xs1 ++ length (nodes s) :: xs2)
         = contents (nodes s) xs1 ++ v :: contents (nodes s) xs2 →
         Q (Some (length (nodes s))) s') →
  wp (_addNodeAfter this (Some p) v) Q s.
Proof.
  intros Hls Hwf Hok Hp HQ.
  destruct (wf_list_split _ _ _ _ Hwf) as (l1 & l2 & p' & q & E1 & E2 & E & [Hn _]).
  rewrite E1, last_snoc in Hp. simplify_eq.
  assert (q < length (nodes s)) as Hq.
  { eapply wf_list_fresh; [done|]. rewrite E. set_solver. }
  eapply wp_addNodeAfter; [done..|].
  intros s' Hins Hls' Hext.
  destruct (wf_list_insert (nodes s) (nodes s') l xs1 xs2 p q v Hwf) as [Hwf' Hc];
    [|by rewrite E2|done|].
  { by rewrite E1, last_snoc. }
  apply HQ; [|done]. split; try done.
  - rewrite Hls'. hsimpl. by rewrite Hls.
  - eapply txn_ok_ext; [done|]. intros t. apply Hok.
Qed.

Lemma wp_append s this l xs v (Q : unit → Store V → Prop) :
  lists s !! this = Some l →
  wf_list (nodes s) l xs →
  txn_ok s this l →
  (∀ s' l', updated s' this l l' (xs ++ [length (nodes s)]) →
            _modCount l' = (_modCount l + 1)%Z →
            contents (nodes s') (xs ++ [length (nodes s)]) = contents (nodes s) xs ++ [v] →
            Q tt s') →
  wp (append this v) Q s.
Proof.
  intros Hls Hwf Hok HQ. unfold append.
  apply wp_bind. eapply wp_bumpModCount; [done|].
  apply wp_bind. eapply wp_getList. { hsimpl. by rewrite Hls. }
  set (l1 := set_modCount l (_modCount l + 1)).
  assert (wf_list (nodes s) l1 (xs ++ [])) as Hwf1.
  { rewrite app_nil_r. by eapply wf_list_record. }
  destruct (wf_list_last _ _ _ Hwf) as (p & Hp & [_ Hpt]).
  apply wp_bind. eapply wp_getPrev; [done|].
  apply wp_bind. eapply (wp_addNodeAfter_wf _ this l1 xs [] p); [|done| |done|].
  { hsimpl. by rewrite Hls. }
  { by eapply txn_ok_lists. }
  intros s' Hup Hc. cbn [nodes with_lists] in *.
  apply wp_bind. eapply wp_getList; [apply Hup|].
  eapply wp_when_updateSkipLinks; [done|].
  intros s'' Hup' Hc'. eapply HQ.
  - destruct Hup' as [? ? ? ? ? ?]. split; try done.
  - done.
  - exact (eq_trans Hc' Hc).
Qed.

Lemma wp_prepend s this l xs v (Q : unit → Store V → Prop) :
  lists s !! this = Some l →
  wf_list (nodes s) l xs →
  txn_ok s this l →
  (∀ s' l', updated s' this l l' (length (nodes s) :: xs) →
            _modCount l' = (_modCount l + 1)%Z →
            contents (nodes s') (length (nodes s) :: xs) = v :: contents (nodes s) xs →
            Q tt s') →
  wp (prepend this v) Q s.
Proof.
  intros Hls Hwf Hok HQ. unfold prepend.
  apply wp_bind. eapply wp_bumpModCount; [done|].
  apply wp_bind. eapply wp_getList. { hsimpl. by rewrite Hls. }
  set (l1 := set_modCount l (_modCount l + 1)).
  assert (wf_list (nodes s) l1 ([] ++ xs)) as Hwf1 by by eapply wf_list_record.
  apply wp_bind. eapply (wp_addNodeAfter_wf _ this l1 [] xs (_head l)); [|done| |done|].
  { hsimpl. by rewrite Hls. }
  { by eapply txn_ok_lists. }
  intros s' Hup Hc. cbn [nodes with_lists] in *.
  apply wp_bind. eapply wp_getList; [apply Hup|].
  eapply wp_when_updateSkipLinks; [done|].
  intros s'' Hup' Hc'. eapply HQ.
  - destruct Hup' as [? ? ? ? ? ?]. split; try done.
  - done.
  - exact (eq_trans Hc' Hc).
Qed.

Lemma updated_from s' this l0 l1 l' xs :
  updated s' this l1 l' xs →
  _useSkipLinks l1 = _useSkipLinks l0 →
  _observable l1 = _observable l0 →
  _listeners l1 = _listeners l0 →
  updated s' this l0 l' xs.
Proof. intros [? ? ? ? ? ?] ? ? ?. split; first [done | congruence]. Qed.

Lemma wf_list_extend h extra l xs :
  wf_list h l xs →
  wf_list (h ++ extra) l xs ∧ contents (h ++ extra) xs = contents h xs.
Proof.
  intros Hwf. split.
  - eapply wf_list_frame; [done| rewrite length_app; lia | | done..].
    intros x Hx. pose proof (wf_list_fresh _ _ _ _ Hwf Hx).
    unfold nxt, prv. by rewrite !fld_app_l.
  - apply contents_ext. intros x Hx. unfold val. rewrite fld_app_l; [done|].
    eapply wf_list_fresh; [done|]. set_solver.
Qed.

(** [Transaction.begin] may allocate the two copies of the sentinels. *)
Lemma wp_Transaction_begin s this l xs t tx (Q : unit → Store V → Prop) :
  lists s !! this = Some l →
  wf_list (nodes s) l xs →
  txns s !! t = Some tx → _list tx = this →
  (∀ s' extra, nodes s' = nodes s ++ extra → lists s' = lists s → txns_ext s s' →
               Q tt s') →
  wp (Transaction_begin t) Q s.
Proof.
  intros Hls Hwf Ht Htl HQ. unfold Transaction_begin.
  apply wp_bind. eapply wp_getTxn; [done|].
  destruct (_active tx).
  { apply wp_ret. apply (HQ s []); [by rewrite app_nil_r | done | apply txns_ext_refl]. }
  apply wp_bind. eapply wp_modTxn; [done|].
  apply wp_bind. eapply wp_getList. { rewrite Htl. done. }
  assert (_head l < length (nodes s)) as Hh.
  { eapply wf_list_fresh; [done|left]. }
  assert (_tail l < length (nodes s)) as Htv.
  { eapply wf_list_fresh; [done|set_solver]. }
  destruct (lookup_lt_is_Some_2 _ _ Hh) as [nh Hnh].
  destruct (lookup_lt_is_Some_2 _ _ Htv) as [nt Hnt].
  apply wp_bind. unfold spread.
  apply wp_bind. eapply wp_getNode; [done|]. apply wp_allocNode.
  apply wp_bind. apply wp_bind. eapply wp_getNode.
  { hsimpl. by rewrite lookup_app_l. }
  apply wp_allocNode.
  eapply wp_modTxn. { hsimpl. by rewrite Ht. }
  apply (HQ _ [nh; nt]); hsimpl.
  - by rewrite <- (assoc_L (++)).
  - done.
  - intros t' tx' Ht'. hsimpl. destruct (decide (t' = t)) as [->|Hne].
    + rewrite !list_lookup_alter_eq, Ht'. simpl. eauto.
    + rewrite !list_lookup_alter_ne by done. eauto.
Qed.

Lemma wp_beginIfTransaction s this l xs (Q : unit → Store V → Prop) :
  lists s !! this = Some l →
  wf_list (nodes s) l xs →
  txn_ok s this l →
  (∀ s' extra, nodes s' = nodes s ++ extra → lists s' = lists s → txns_ext s s' →
               Q tt s') →
  wp (beginIfTransaction this) Q s.
Proof.
  intros Hls Hwf Hok HQ. unfold beginIfTransaction.
  apply wp_bind. eapply wp_getList; [done|].
  destruct (_transaction l) as [t|] eqn:Ht.
  - destruct (Hok t Ht) as (tx & Htx & Htl). by eapply wp_Transaction_begin.
  - apply wp_ret. apply (HQ s []); [by rewrite app_nil_r | done | apply txns_ext_refl].
Qed.

Lemma wp_flushEvents s this l evs (Q : unit → Store V → Prop) :
  lists s !! this = Some l →
  (∀ s', nodes s' = nodes s → lists s' = lists s → txns s' = txns s → Q tt s') →
  wp (flushEvents this evs) Q s.
Proof.
  revert s. induction evs as [|e evs IH]; intros s Hls HQ; simpl.
  - by apply wp_ret, HQ.
  - apply wp_bind. eapply wp_getList; [done|].
    apply wp_bind, wp_callAll. apply IH; [done|].
    intros s' Hn Hl Ht. by apply HQ.
Qed.

(** [Transaction.commit] detaches the transaction from the list and leaves
    everything else of the list as it is. *)
Lemma wp_commitIfTransaction s this l (Q : unit → Store V → Prop) :
  lists s !! this = Some l →
  txn_ok s this l →
  (∀ s' ot, nodes s' = nodes s →
            lists s' !! this = Some (set_transaction l ot) →
            txn_ok s' this (set_transaction l ot) →
            Q tt s') →
  wp (commitIfTransaction this) Q s.
Proof.
  intros Hls Hok HQ. unfold commitIfTransaction.
  assert (set_transaction l (_transaction l) = l) as El by by destruct l.
  apply wp_bind. eapply wp_getList; [done|].
  destruct (_transaction l) as [t|] eqn:Ht.
  - destruct (Hok t Ht) as (tx & Htx & Htl). unfold Transaction_commit.
    apply wp_bind. eapply wp_getTxn; [done|].
    destruct (_active tx); simpl.
    + apply wp_bind. eapply wp_modTxn; [done|].
      apply wp_bind. eapply wp_modList. { rewrite Htl. done. }
      eapply wp_bind, wp_flushEvents.
      { rewrite Htl. hsimpl. by rewrite Hls. }
      intros s' Hn Hl Htx'.
      eapply wp_modTxn.
      { rewrite Htx'. hsimpl. by rewrite Htx. }
      apply (HQ _ None); hsimpl.
      * done.
      * rewrite Hl, Htl. hsimpl. by rewrite Hls.
      * intros t' [=].
    + apply wp_ret. apply (HQ s (Some t)); rewrite ?El; done.
  - apply wp_ret. apply (HQ s None); rewrite ?El; done.
Qed.

Lemma updated_commit s s' this l0 l xs ot :
  updated s this l0 l xs →
  nodes s' = nodes s →
  lists s' !! this = Some (set_transaction l ot) →
  txn_ok s' this (set_transaction l ot) →
  updated s' this l0 (set_transaction l ot) xs.
Proof.
  intros [? ? ? ? ? ?] Hn Hl Hok. split; try done.
  rewrite Hn. by eapply wf_list_record.
Qed.

Lemma wp_push_loop this values s l xs (Q : unit → Store V → Prop) :
  lists s !! this = Some l →
  wf_list (nodes s) l xs →
  txn_ok s this l →
  (∀ s' l' ys, updated s' this l l' (xs ++ ys) →
               length ys = length values →
               _modCount l' = _modCount l →
               contents (nodes s') (xs ++ ys) = contents (nodes s) xs ++ values →
               Q tt s') →
  wp (push_loop this values) Q s.
Proof.
  revert s l xs Q. induction values as [|v values IH]; intros s l xs Q Hls Hwf Hok HQ; simpl.
  - apply wp_ret. by apply (HQ s l []); rewrite ?app_nil_r.
  - destruct (wf_list_last _ _ _ Hwf) as (p & Hp & [_ Hpt]).
    apply wp_bind. eapply wp_getList; [done|].
    apply wp_bind. eapply wp_getPrev; [done|].
    apply wp_bind. eapply (wp_addNodeAfter_wf _ this l xs [] p); [done| |done..|].
    { by rewrite app_nil_r. }
    intros s1 Hup Hc.
    eapply IH; [apply Hup..|].
    intros s' l' ys Hup' Hlen Hmc Hc'.
    apply (HQ s' l' (length (nodes s) :: ys)).
    + rewrite <- (assoc_L (++)) in Hup'. by eapply updated_from.
    + simpl. by rewrite Hlen.
    + done.
    + change (xs ++ length (nodes s) :: ys) with (xs ++ [length (nodes s)] ++ ys).
      rewrite (assoc_L (++)), Hc', Hc, <- (assoc_L (++)). done.
Qed.

Lemma wp_push s this l xs values (Q : Z → Store V → Prop) :
  lists s !! this = Some l →
  wf_list (nodes s) l xs →
  txn_ok s this l →
  (∀ s' l' ys, updated s' this l l' (xs ++ ys) →
               length ys = length values →
               _modCount l' = (_modCount l + 1)%Z →
               contents (nodes s') (xs ++ ys) = contents (nodes s) xs ++ values →
               Q (_size l') s') →
  wp (push this values) Q s.
Proof.
  intros Hls Hwf Hok HQ. unfold push.
  apply wp_bind. eapply wp_bumpModCount; [done|].
  set (l1 := set_modCount l (_modCount l + 1)).
  assert (wf_list (nodes s) l1 xs) as Hwf1 by by eapply wf_list_record.
  apply wp_bind. eapply (wp_beginIfTransaction _ this l1 xs); [|done| |].
  { hsimpl. by rewrite Hls. }
  { by eapply txn_ok_lists. }
  intros s1 extra Hn1 Hl1 Hext1. cbn [nodes lists with_lists] in *.
  destruct (wf_list_extend _ extra _ _ Hwf1) as [Hwf1' Hc1]. rewrite <- Hn1 in Hwf1', Hc1.
  assert (lists s1 !! this = Some l1) as Hls1.
  { rewrite Hl1. hsimpl. by rewrite Hls. }
  apply wp_bind. eapply wp_push_loop; [done..| |].
  { eapply txn_ok_ext; [done|]. by eapply txn_ok_lists. }
  intros s2 l2 ys Hup2 Hlen Hmc2 Hc2.
  apply wp_bind. eapply wp_getList; [apply Hup2|].
  apply wp_bind. eapply wp_when_updateSkipLinks; [done|].
  intros s3 Hup3 Hc3.
  apply wp_bind. eapply wp_commitIfTransaction; [apply Hup3..|].
  intros s4 ot Hn4 Hl4 Hok4.
  apply wp_bind. eapply wp_getList; [done|]. apply wp_ret.
  apply (HQ s4 (set_transaction l2 ot) ys).
  - eapply (updated_from _ _ l l1); [|done..]. by eapply updated_commit.
  - done.
  - done.
  - rewrite Hn4, Hc3, Hc2, Hc1. done.
Qed.

Lemma wp_unshift_loop this rvalues s l xs (Q : unit → Store V → Prop) :
  lists s !! this = Some l →
  wf_list (nodes s) l xs →
  txn_ok s this l →
  (∀ s' l' ys, updated s' this l l' (ys ++ xs) →
               length ys = length rvalues →
               _modCount l' = _modCount l →
               contents (nodes s') (ys ++ xs) = rev rvalues ++ contents (nodes s) xs →
               Q tt s') →
  wp (unshift_loop this rvalues) Q s.
Proof.
  revert s l xs Q. induction rvalues as [|v rvalues IH]; intros s l xs Q Hls Hwf Hok HQ; simpl.
  - apply wp_ret. by apply (HQ s l []).
  - apply wp_bind. eapply wp_getList; [done|].
    apply wp_bind. eapply (wp_addNodeAfter_wf _ this l [] xs (_head l)); [done..|].
    intros s1 Hup Hc.
    eapply IH; [apply Hup..|].
    intros s' l' ys Hup' Hlen Hmc Hc'.
    apply (HQ s' l' (ys ++ [length (nodes s)])).
    + rewrite <- (assoc_L (++)). by eapply updated_from.
    + rewrite length_app. simpl. lia.
    + done.
    + rewrite <- (assoc_L (++) ys). etrans; [exact Hc'|]. rewrite Hc.
      cbn [rev]. by rewrite <- (assoc_L (++)).
Qed.

Lemma wp_unshift s this l xs values (Q : Z → Store V → Prop) :
  lists s !! this = Some l →
  wf_list (nodes s) l xs →
  txn_ok s this l →
  (∀ s' l' ys, updated s' this l l' (ys ++ xs) →
               length ys = length values →
               _modCount l' = (_modCount l + 1)%Z →
               contents (nodes s') (ys ++ xs) = values ++ contents (nodes s) xs →
               Q (_size l') s') →
  wp (unshift this values) Q s.
Proof.
  intros Hls Hwf Hok HQ. unfold unshift.
  apply wp_bind. eapply wp_bumpModCount; [done|].
  set (l1 := set_modCount l (_modCount l + 1)).
  assert (wf_list (nodes s) l1 xs) as Hwf1 by by eapply wf_list_record.
  apply wp_bind. eapply (wp_beginIfTransaction _ this l1 xs); [|done| |].
  { hsimpl. by rewrite Hls. }
  { by eapply txn_ok_lists. }
  intros s1 extra Hn1 Hl1 Hext1. cbn [nodes lists with_lists] in *.
  destruct (wf_list_extend _ extra _ _ Hwf1) as [Hwf1' Hc1]. rewrite <- Hn1 in Hwf1', Hc1.
  assert (lists s1 !! this = Some l1) as Hls1.
  { rewrite Hl1. hsimpl. by rewrite Hls. }
  apply wp_bind. eapply wp_unshift_loop; [done..| |].
  { eapply txn_ok_ext; [done|]. by eapply txn_ok_lists. }
  intros s2 l2 ys Hup2 Hlen Hmc2 Hc2.
  apply wp_bind. eapply wp_getList; [apply Hup2|].
  apply wp_bind. eapply wp_when_updateSkipLinks; [done|].
  intros s3 Hup3 Hc3.
  apply wp_bind. eapply wp_commitIfTransaction; [apply Hup3..|].
  intros s4 ot Hn4 Hl4 Hok4.
  apply wp_bind. eapply wp_getList; [done|]. apply wp_ret.
  apply (HQ s4 (set_transaction l2 ot) ys).
  - eapply (updated_from _ _ l l1); [|done..]. by eapply updated_commit.
  - by rewrite Hlen, length_rev.
  - done.
  - rewrite Hn4, Hc3, Hc2, Hc1. by rewrite rev_involutive.
Qed.

End Insertion.

Section Seek.
Context {V : Type} `{JsValue V}.

Local Open Scope js_scope.

Implicit Types (s : Store V) (h : list (Node V)) (a b : nat).
Implicit Types (l : UltimateLinkedList).

(** ** [_nodeAt] on the linear path, [get] and [set] *)

Lemma wp_walkNext s c n j a b (Q : option nat → Store V → Prop) :
  links (nodes s) c → c !! j = Some a → c !! (j + n) = Some b →
  Q (Some b) s → wp (walkNext n (Some a)) Q s.
Proof.
  revert j a. induction n as [|n IH]; intros j a Hl Ha Hb HQ; simpl.
  - rewrite Nat.add_0_r in Hb. simplify_eq. by apply wp_ret.
  - destruct (c !! S j) as [a'|] eqn:Ha'.
    + destruct (links_lookup _ _ _ _ _ Hl Ha Ha') as [Hn _].
      apply wp_bind. eapply wp_getNext; [done|].
      apply (IH (S j)); [done..| |done]. by rewrite <- Nat.add_succ_comm in Hb.
    + apply lookup_ge_None in Ha'. apply lookup_lt_Some in Hb. lia.
Qed.

Lemma wp_walkPrev s c n j a b (Q : option nat → Store V → Prop) :
  links (nodes s) c → c !! (j + n) = Some a → c !! j = Some b →
  Q (Some b) s → wp (walkPrev n (Some a)) Q s.
Proof.
  revert a. induction n as [|n IH]; intros a Hl Ha Hb HQ; simpl.
  - rewrite Nat.add_0_r in Ha. simplify_eq. by apply wp_ret.
  - destruct (c !! (j + n)) as [a'|] eqn:Ha'.
    + rewrite Nat.add_succ_r in Ha.
      destruct (links_lookup _ _ _ _ _ Hl Ha' Ha) as [_ Hp].
      apply wp_bind. eapply wp_getPrev; [done|]. by apply IH.
    + apply lookup_ge_None in Ha'. apply lookup_lt_Some in Ha. lia.
Qed.

Lemma nodeAt_out_of_range s this l index :
  lists s !! this = Some l →
  in_range (_size l) index = false →
  _nodeAt this index s = Ok ((None, (-1)%Z), s).
Proof.
  intros Hls Hr. unfold _nodeAt, bind, getList. rewrite Hls. cbv zeta.
  unfold in_range, resolve in Hr.
  destruct (index <? 0)%Z;
    destruct (Z.ltb_spec (_size l + index) 0), (Z.ltb_spec index 0),
      (Z.leb_spec 0 (_size l + index)), (Z.leb_spec 0 index),
      (Z.ltb_spec (_size l + index) (_size l)), (Z.ltb_spec index (_size l));
    simpl in Hr; try done; try lia;
    unfold Z.geb; simpl;
    repeat match goal with
           | |- context [(?x ?= ?y)%Z] => destruct (Z.compare_spec x y); try lia
           end; done.
Qed.

Lemma lookup_full_elem l (xs : list nat) k x :
  xs !! k = Some x → (_head l :: xs ++ [_tail l]) !! S k = Some x.
Proof. intros Hk. simpl. rewrite lookup_app_l; [done|]. by eapply lookup_lt_Some. Qed.

Lemma wp_nodeAt s this l xs index k x (Q : option nat * Z → Store V → Prop) :
  lists s !! this = Some l →
  wf_list (nodes s) l xs →
  linear_seek l →
  resolve (_size l) index = Z.of_nat k →
  xs !! k = Some x →
  Q (Some x, Z.of_nat k) s →
  wp (_nodeAt this index) Q s.
Proof.
  intros Hls Hwf Hlin Hres Hk HQ. unfold _nodeAt.
  apply wp_bind. eapply wp_getList; [done|]. cbv zeta.
  change (if (index <? 0)%Z then (_size l + index)%Z else index)
    with (resolve (_size l) index).
  rewrite Hres. pose proof (wf_size _ _ _ Hwf) as Hsz.
  pose proof (lookup_lt_Some _ _ _ Hk) as Hlt.
  pose proof (wf_links _ _ _ Hwf) as Hl.
  assert ((_head l :: xs ++ [_tail l]) !! S k = Some x) as Hfx
    by by apply lookup_full_elem.
  destruct (Z.ltb_spec (Z.of_nat k) 0); [lia|].
  rewrite (Z.geb_leb (Z.of_nat k)).
  destruct (Z.leb_spec (_size l) (Z.of_nat k)); [lia|]. simpl.
  destruct (2 * Z.of_nat k <=? _size l)%Z.
  - unfold linear_seek in Hlin. rewrite Hlin.
    destruct (wf_list_first _ _ _ Hwf) as (q & Hq & [Hn _]).
    apply wp_bind. eapply wp_getNext; [done|].
    apply wp_bind. rewrite Nat2Z.id.
    eapply (wp_walkNext _ _ k 1 q x); [done| |done|by apply wp_ret].
    simpl. by rewrite <- head_lookup.
  - destruct (wf_list_last _ _ _ Hwf) as (p & Hp & [_ Hpt]).
    apply wp_bind. eapply wp_getPrev; [done|].
    apply wp_bind.
    eapply (wp_walkPrev _ _ _ (S k) p x); [done| |done|by apply wp_ret].
    replace (S k + Z.to_nat (_size l - 1 - Z.of_nat k)) with (length xs) by lia.
    clear -Hp.
    change (_head l :: xs ++ [_tail l]) with ((_head l :: xs) ++ [_tail l]).
    rewrite lookup_app_l by (simpl; lia).
    rewrite last_lookup in Hp. simpl in Hp. done.
Qed.

Lemma wp_get s this l xs index k x (Q : V → Store V → Prop) :
  lists s !! this = Some l →
  wf_list (nodes s) l xs →
  linear_seek l →
  resolve (_size l) index = Z.of_nat k →
  xs !! k = Some x →
  Q (default undefined (val (nodes s) x)) s →
  wp (get this index) Q s.
Proof.
  intros Hls Hwf Hlin Hres Hk HQ. unfold get.
  apply wp_bind. eapply wp_nodeAt; [done..|].
  rewrite bool_decide_true by eauto.
  assert (x < length (nodes s)) as Hx.
  { eapply wf_list_fresh; [done|]. apply list_elem_of_lookup_2 in Hk. set_solver. }
  destruct (fld_valid value _ _ Hx) as (n & _ & Hv).
  eapply wp_getValue; [done|]. unfold val in HQ. by rewrite Hv in HQ.
Qed.

Lemma wp_set s this l xs index k x v (Q : bool → Store V → Prop) :
  lists s !! this = Some l →
  wf_list (nodes s) l xs →
  txn_ok s this l →
  linear_seek l →
  resolve (_size l) index = Z.of_nat k →
  xs !! k = Some x →
  (∀ s', updated s' this l l xs → Q true s') →
  wp (set this index v) Q s.
Proof.
  intros Hls Hwf Hok Hlin Hres Hk HQ. unfold set.
  apply wp_bind. eapply wp_nodeAt; [done..|].
  rewrite bool_decide_true by eauto. simpl.
  assert (x < length (nodes s)) as Hx.
  { eapply wf_list_fresh; [done|]. apply list_elem_of_lookup_2 in Hk. set_solver. }
  destruct (fld_valid value _ _ Hx) as (n & _ & Hv).
  apply wp_bind. eapply wp_getValue; [done|].
  apply wp_bind, wp_setValue; [done|].
  apply wp_bind. eapply wp_getList; [done|].
  set (s1 := with_nodes _ _).
  assert (wf_list (nodes s1) l xs) as Hwf1.
  { eapply wf_list_frame; [done| subst s1; hlen | | done..].
    intros y _. subst s1. by hsimpl. }
  apply wp_bind, wp_when.
  - intros _. eapply wp_notify; [done..|].
    intros s' (Hn & Hl & Ht). apply wp_ret, HQ. split; try done.
    + by rewrite Hl.
    + by rewrite Hn.
    + by eapply txn_ok_ext.
  - intros _. apply wp_ret, HQ. by split.
Qed.

Lemma wp_insertAt s this l xs v index k (Q : unit → Store V → Prop) :
  lists s !! this = Some l →
  wf_list (nodes s) l xs →
  txn_ok s this l →
  (0 < k < length xs → linear_seek l) →
  resolve_insert (_size l) index = Z.of_nat k →
  k ≤ length xs →
  (∀ s' l',
     updated s' this l l' (take k xs ++ length (nodes s) :: drop k xs) →
     (_modCount l < _modCount l')%Z →
     contents (nodes s') (take k xs ++ length (nodes s) :: drop k xs)
     = take k (contents (nodes s) xs) ++ v :: drop k (contents (nodes s) xs) →
     Q tt s') →
  wp (insertAt this v index) Q s.
Proof.
  intros Hls Hwf Hok Hlin Hres Hk HQ. unfold insertAt.
  apply wp_bind. eapply wp_getList; [done|]. cbv zeta.
  change (if (index <? 0)%Z then (_size l + index + 1)%Z else index)
    with (resolve_insert (_size l) index).
  rewrite Hres. pose proof (wf_size _ _ _ Hwf) as Hsz.
  destruct (Z.ltb_spec (Z.of_nat k) 0); [lia|].
  rewrite Z.gtb_ltb. destruct (Z.ltb_spec (_size l) (Z.of_nat k)); [lia|]. simpl.
  apply wp_bind. eapply wp_bumpModCount; [done|].
  set (l1 := set_modCount l (_modCount l + 1)).
  set (s1 := with_lists _ _).
  assert (lists s1 !! this = Some l1) as Hls1.
  { subst s1. hsimpl. by rewrite Hls. }
  assert (wf_list (nodes s1) l1 xs) as Hwf1 by by eapply wf_list_record.
  assert (txn_ok s1 this l1) as Hok1 by by eapply txn_ok_lists.
  rewrite <- contents_take, <- contents_drop in HQ.
  destruct (Z.eqb_spec (Z.of_nat k) 0) as [E0|E0].
  { assert (k = 0) as -> by lia. eapply wp_prepend; [done..|].
    intros s' l' Hup Hmc Hc. apply (HQ s' l').
    - rewrite take_0, drop_0. by eapply updated_from.
    - rewrite Hmc. simpl. lia.
    - rewrite take_0, drop_0. done. }
  destruct (Z.eqb_spec (Z.of_nat k) (_size l)) as [En|En].
  { assert (k = length xs) as -> by lia. eapply wp_append; [done..|].
    intros s' l' Hup Hmc Hc. apply (HQ s' l').
    - rewrite take_ge, drop_ge by lia. by eapply updated_from.
    - rewrite Hmc. simpl. lia.
    - rewrite take_ge, drop_ge by lia. done. }
  assert (0 < k < length xs) as Hmid by lia.
  destruct (lookup_lt_is_Some_2 xs (k - 1)) as [x Hx]; [lia|].
  apply wp_bind. eapply (wp_nodeAt _ this l1 xs _ (k - 1) x); [done..| by apply Hlin | | done |].
  { unfold resolve. destruct (Z.ltb_spec (Z.of_nat k - 1) 0); lia. }
  assert (wf_list (nodes s1) l1 (take k xs ++ drop k xs)) as Hwf1'
    by by rewrite take_drop.
  apply wp_bind. eapply (wp_addNodeAfter_wf _ this l1 _ _ x); [done..| |].
  { replace k with (S (k - 1)) by lia. rewrite (take_S_r _ _ x) by done.
    change (_head l1 :: take (k - 1) xs ++ [x]) with ((_head l1 :: take (k - 1) xs) ++ [x]).
    apply last_snoc. }
  intros s2 Hup Hc.
  apply wp_bind. eapply wp_getList; [apply Hup|].
  eapply wp_when_updateSkipLinks; [done|].
  intros s3 Hup3 Hc3. apply (HQ s3 (set_size l1 (_size l1 + 1))).
  - by eapply updated_from.
  - simpl. lia.
  - exact (eq_trans Hc3 Hc).
Qed.

End Seek.

Section Lenient.
Context {V : Type} `{JsValue V}.

Implicit Types (s : Store V) (l : UltimateLinkedList).

(** C9.  For a list of size [n] and an index whose resolution ([n + index]
    for a negative index) is outside [0, n-1]: [get] returns [undefined],
    [set] returns [false] and [removeAt] returns [undefined]; none of them
    raises a fault and each leaves the whole store as it was. *)
Theorem out_of_bounds_is_lenient s this l index v :
  lists s !! this = Some l →
  in_range (_size l) index = false →
  get this index s = Ok (undefined, s) ∧
  set this index v s = Ok (false, s) ∧
  removeAt this index s = Ok (undefined, s).
Proof.
  intros Hls Hr. pose proof (nodeAt_out_of_range s this l index Hls Hr) as Hn.
  unfold get, set, removeAt, bind. rewrite Hn. done.
Qed.

(** C10.  On an empty list [pop] and [shift] return [undefined] and leave the
    store as it was: size, modification counter, listeners' trace and
    transaction buffers included. *)
Theorem pop_shift_on_empty s this l :
  lists s !! this = Some l →
  _size l = 0%Z →
  pop this s = Ok (undefined, s) ∧ shift this s = Ok (undefined, s).
Proof.
  intros Hls Hsz. unfold pop, shift, isEmpty, bind, getList, ret.
  rewrite Hls, Hsz. done.
Qed.

End Lenient.

Lemma out_of_bounds_is_lenient_witness :
  get 0 7%Z list_10_20_30 = Ok (JUndefined, list_10_20_30) ∧
  set 0 7%Z (JNum 1) list_10_20_30 = Ok (false, list_10_20_30) ∧
  removeAt 0 7%Z list_10_20_30 = Ok (JUndefined, list_10_20_30).
Proof.
  exact (out_of_bounds_is_lenient list_10_20_30 0 _ 7%Z (JNum 1) eq_refl eq_refl).
Defined.

Lemma pop_shift_on_empty_witness :
  pop 0 empty_observable_list = Ok (JUndefined, empty_observable_list) ∧
  shift 0 empty_observable_list = Ok (JUndefined, empty_observable_list).
Proof.
  exact (pop_shift_on_empty empty_observable_list 0 _ eq_refl eq_refl).
Defined.

(** * What the code does where the specification promises otherwise *)

(** C1.  The container [[10, 20, 30]] after [beginTransaction()], [begin()],
    [push(40)], [removeAt(0)], [rollback()] should again be [[10, 20, 30]].
    It is [[20, 30, 40]]: [push] commits the caller's transaction, so
    [rollback] finds it inactive and returns at once.  Where the transaction
    is still active ([append] in place of [push], or no mutation at all),
    [rollback] installs the shallow copies of the sentinels, which no node
    of the chain points to, and [toArray] walks past the old tail into
    [null]. *)
Theorem rollback_does_not_restore :
  run rollback_after_push = Ok (nums [20; 30; 40]%Z) ∧
  run rollback_after_append = Throw TypeError ∧
  run rollback_at_once = Throw TypeError.
Proof. by vm_compute. Qed.

(** C2.  With an active transaction no listener should hear of a mutation
    before the caller commits, and at the commit every mutation's event
    should be delivered once, in order.  After [set(0, 99)] and [push(40)]
    listener [0] has already received the update event, the caller's
    [commit] delivers nothing, and the add event of [40] is never delivered.
    After [set(0, 99)], [append(40)], [removeAt(1)] the caller's [commit]
    delivers the update event alone: the add and remove events were never
    buffered. *)
Theorem transaction_events_leak_or_vanish :
  run trace_set_push
  = Ok ([(0, EvUpdate 0%Z (JNum 10) (JNum 99))],
        [(0, EvUpdate 0%Z (JNum 10) (JNum 99))]) ∧
  run trace_set_append_removeAt
  = Ok ([], [(0, EvUpdate 0%Z (JNum 10) (JNum 99))]).
Proof. by vm_compute. Qed.

(** C3.  [get(i)] should not depend on whether skip links are enabled.  On
    the list built from [[0..8]] after [insertAt(99, 1)], whose contents are
    [[0, 99, 1, 2, 3, 4, 5, 6, 7, 8]] either way, [get(3)] is [3] with skip
    links and [2] without: the link from the first node, stamped before the
    insertion, still spans three nodes of the old chain. *)
Theorem stale_skip_link_changes_get :
  run (get_after_insert true)
  = Ok (JNum 3, nums [0; 99; 1; 2; 3; 4; 5; 6; 7; 8]%Z) ∧
  run (get_after_insert false)
  = Ok (JNum 2, nums [0; 99; 1; 2; 3; 4; 5; 6; 7; 8]%Z).
Proof. by vm_compute. Qed.

(** The stale link does more than misplace a read.  After [removeAt(3)] on
    [[0..9]] the first node's skip link still points to the removed node;
    [insertAt(99, 4)] seeks through it and links the new node behind the
    removed one.  The size is [10], and the walk from the head finds nine
    values, [99] not among them.  Without skip links the ten values are
    there. *)
Lemma stale_skip_link_loses_an_insertion :
  run (insert_after_remove true)
  = Ok (10%Z, nums [0; 1; 2; 4; 5; 6; 7; 8; 9]%Z) ∧
  run (insert_after_remove false)
  = Ok (10%Z, nums [0; 1; 2; 4; 99; 5; 6; 7; 8; 9]%Z).
Proof. by vm_compute. Qed.

(** A stale link can also stop a call.  [reverse()] turns the old tail
    sentinel into the head and rebuilds the links of every fourth node; the
    node that follows the first keeps its old link, to that sentinel.
    After [shift()] it is the first node: [_nodeAt(4)] follows the link and
    returns the head sentinel, which [removeAt(4)] counts as a modification
    and then cannot unlink.  Without skip links the call returns the
    element. *)
Lemma stale_skip_link_stops_removeAt :
  run (removeAt_after_reverse_and_shift true) = Throw TypeError ∧
  run (removeAt_after_reverse_and_shift false) = Ok (JNum 12).
Proof. by vm_compute. Qed.

(** C6.  [sort] should keep elements that compare equal in their original
    order.  The list [[{k: 1, tag: "b"}, {k: 1, tag: "a"}]], built by an
    [append] followed by a [prepend], is reordered by a comparator that
    looks at [k] only: the tie is broken by [_insertionIndex], the value of
    the modification counter when the node was created, and the node at the
    front is the younger one. *)
Theorem sort_reorders_equal_elements :
  run sort_equal_keys
  = Ok ([JObj 1%Z "b"; JObj 1%Z "a"], [JObj 1%Z "a"; JObj 1%Z "b"]).
Proof. by vm_compute. Qed.

(** Against C4: [set(0, 5)] on [[10]] leaves the modification counter at
    [1]; it does not strictly increase it. *)
Lemma set_does_not_bump_modCount :
  run modCount_around_set = Ok (1%Z, 1%Z) ∧ ¬ (1 < 1)%Z.
Proof. split; [by vm_compute | lia]. Qed.

(** Against C5: on [[10, 20, 30]], [insertAt(99, -1)] does not insert at
    position [3 + (-1) = 2] but at the end, and [insertAt(99, -4)], whose
    index [3 + (-4) = -1] is outside [0, 3], does not fail but inserts at
    the front. *)
Lemma insertAt_negative_index_counterexample :
  run (insertAt_example (-1)%Z) = Ok (nums [10; 20; 30; 99]%Z) ∧
  run (insertAt_example (-1)%Z) ≠ Ok (nums [10; 20; 99; 30]%Z) ∧
  run (insertAt_example (-4)%Z) = Ok (nums [99; 10; 20; 30]%Z) ∧
  run (insertAt_example (-4)%Z) ≠ Throw RangeError.
Proof. by vm_compute. Qed.

(** Against C8: after one step of an iteration over [[10, 20, 30]], the
    mutation [set(1, 99)] is not detected; the next step yields [99]. *)
Lemma set_during_iteration_undetected :
  run set_during_iteration = Ok (Some (JNum 10), Some (JNum 99)) ∧
  run set_during_iteration ≠ Throw ConcurrentModification.
Proof. by vm_compute. Qed.

Section Removal.
Context {V : Type} `{JsValue V}.

Local Open Scope js_scope.

Implicit Types (s : Store V) (h : list (Node V)) (a b : nat).
Implicit Types (l : UltimateLinkedList).

(** ** [pop], [shift], [removeAt], [remove], [clear] *)

(** What [_removeNode] does to a well-formed list. *)
Lemma wp_removeNode_wf s this l xs1 x xs2 (Q : V → Store V → Prop) :
  lists s !! this = Some l →
  wf_list (nodes s) l (xs1 ++ x :: xs2) →
  txn_ok s this l →
  (∀ s', updated s' this l (set_size l (_size l - 1)) (xs1 ++ xs2) →
         contents (nodes s') (xs1 ++ xs2)
         = contents (nodes s) xs1 ++ contents (nodes s) xs2 →
         Q (default undefined (val (nodes s) x)) s') →
  wp (_removeNode this (Some x)) Q s.
Proof.
  intros Hls Hwf Hok HQ.
  destruct (wf_list_split _ _ _ _ Hwf) as (l1 & l2 & p & x' & E1 & E2 & E & [_ Hxp]).
  simpl in E2. injection E2 as E2a E2. subst x'.
  pose proof Hwf as Hwf'. rewrite (cons_middle x xs1 xs2), (assoc_L (++)) in Hwf'.
  destruct (wf_list_split _ _ _ _ Hwf') as (l1' & l2' & x2 & q & E1' & E2' & E' & [Hxq _]).
  assert (x2 = x) as ->.
  { change (_head l :: xs1 ++ [x]) with ((_head l :: xs1) ++ [x]) in E1'.
    by apply app_inj_tail in E1' as [_ ?]. }
  assert (∀ y, y ∈ _head l :: (xs1 ++ x :: xs2) ++ [_tail l] → y < length (nodes s))
    as Hfresh by (intros y; by eapply wf_list_fresh).
  assert (p < length (nodes s)) as Hp.
  { apply Hfresh. rewrite E. set_solver. }
  assert (q < length (nodes s)) as Hq.
  { apply Hfresh. rewrite <- (assoc_L (++)). simpl. rewrite E2'. set_solver. }
  assert (x < length (nodes s)) as Hx.
  { apply Hfresh. set_solver. }
  destruct (fld_valid value _ _ Hx) as (n & _ & Hv).
  eapply wp_removeNode; [done..|].
  intros s' Hrem Hls' Hext.
  destruct (wf_list_remove (nodes s) (nodes s') l xs1 x xs2 p q Hwf) as [Hwf2 Hc];
    [by rewrite E1, last_snoc | by rewrite E2' | done |].
  unfold val in HQ. rewrite Hv in HQ. apply HQ; [|done]. split; try done.
  - rewrite Hls'. hsimpl. by rewrite Hls.
  - eapply txn_ok_ext; [done|]. intros t. apply Hok.
Qed.

Lemma wp_pop s this l xs (Q : V → Store V → Prop) :
  lists s !! this = Some l →
  wf_list (nodes s) l xs →
  txn_ok s this l →
  xs ≠ [] →
  (∀ s' l' r, updated s' this l l' (removelast xs) →
              _modCount l' = (_modCount l + 1)%Z → Q r s') →
  wp (pop this) Q s.
Proof.
  intros Hls Hwf Hok Hne HQ. unfold pop, isEmpty.
  apply wp_bind, wp_bind. eapply wp_getList; [done|]. apply wp_ret.
  pose proof (wf_size _ _ _ Hwf) as Hsz.
  destruct (Z.eqb_spec (_size l) 0) as [E|_]; [destruct xs; simpl in *; [done|lia]|].
  apply wp_bind. eapply wp_bumpModCount; [done|].
  set (l1 := set_modCount l (_modCount l + 1)).
  apply wp_bind. eapply wp_getList. { hsimpl. by rewrite Hls. }
  destruct (wf_list_last _ _ _ Hwf) as (p & Hp & [_ Hpt]).
  apply wp_bind. eapply wp_getPrev; [done|].
  destruct (exists_last Hne) as (xs1 & x & ->).
  assert (p = x) as ->.
  { change (_head l :: xs1 ++ [x]) with ((_head l :: xs1) ++ [x]) in Hp.
    rewrite last_snoc in Hp. congruence. }
  eapply (wp_removeNode_wf _ this l1 xs1 x []); [| |by eapply txn_ok_lists|].
  { hsimpl. by rewrite Hls. }
  { by eapply wf_list_record. }
  intros s' Hup _. apply (HQ s' (set_size l1 (_size l1 - 1))); [|done].
  rewrite removelast_last. rewrite app_nil_r in Hup. by eapply updated_from.
Qed.

Lemma wp_shift s this l xs (Q : V → Store V → Prop) :
  lists s !! this = Some l →
  wf_list (nodes s) l xs →
  txn_ok s this l →
  xs ≠ [] →
  (∀ s' l' r, updated s' this l l' (tail xs) →
              _modCount l' = (_modCount l + 1)%Z → Q r s') →
  wp (shift this) Q s.
Proof.
  intros Hls Hwf Hok Hne HQ. unfold shift, isEmpty.
  apply wp_bind, wp_bind. eapply wp_getList; [done|]. apply wp_ret.
  pose proof (wf_size _ _ _ Hwf) as Hsz.
  destruct xs as [|x xs]; [done|].
  destruct (Z.eqb_spec (_size l) 0) as [E|_]; [simpl in *; lia|].
  apply wp_bind. eapply wp_bumpModCount; [done|].
  set (l1 := set_modCount l (_modCount l + 1)).
  apply wp_bind. eapply wp_getList. { hsimpl. by rewrite Hls. }
  destruct (wf_list_first _ _ _ Hwf) as (q & Hq & [Hn _]). simpl in Hq. simplify_eq.
  apply wp_bind. eapply wp_getNext; [done|].
  eapply (wp_removeNode_wf _ this l1 [] q xs); [| |by eapply txn_ok_lists|].
  { hsimpl. by rewrite Hls. }
  { by eapply wf_list_record. }
  intros s' Hup _. apply (HQ s' (set_size l1 (_size l1 - 1))); [|done].
  by eapply updated_from.
Qed.

Lemma wp_removeAt s this l xs index k x (Q : V → Store V → Prop) :
  lists s !! this = Some l →
  wf_list (nodes s) l xs →
  txn_ok s this l →
  linear_seek l →
  resolve (_size l) index = Z.of_nat k →
  xs !! k = Some x →
  (∀ s' l' r, updated s' this l l' (delete k xs) →
              _modCount l' = (_modCount l + 1)%Z → Q r s') →
  wp (removeAt this index) Q s.
Proof.
  intros Hls Hwf Hok Hlin Hres Hk HQ. unfold removeAt.
  apply wp_bind. eapply wp_nodeAt; [done..|].
  rewrite bool_decide_true by eauto. simpl.
  apply wp_bind. eapply wp_bumpModCount; [done|].
  set (l1 := set_modCount l (_modCount l + 1)).
  pose proof (take_drop_middle _ _ _ Hk) as E.
  assert (wf_list (nodes s) l1 (take k xs ++ x :: drop (S k) xs)) as Hwf1.
  { rewrite E. by eapply wf_list_record. }
  apply wp_bind. eapply (wp_removeNode_wf _ this l1 _ x _); [|done|by eapply txn_ok_lists|].
  { hsimpl. by rewrite Hls. }
  intros s' Hup _.
  apply wp_bind. eapply wp_getList; [apply Hup|].
  apply wp_bind. eapply wp_when_updateSkipLinks; [done|].
  intros s'' Hup' _. apply wp_ret.
  apply (HQ s'' (set_size l1 (_size l1 - 1))); [|done].
  rewrite delete_take_drop. by eapply updated_from.
Qed.

Lemma updated_refl s this l xs :
  lists s !! this = Some l → wf_list (nodes s) l xs → txn_ok s this l →
  updated s this l l xs.
Proof. by split. Qed.

Lemma wf_list_bound h l xs : wf_list h l xs → length xs ≤ length h.
Proof.
  intros Hwf.
  pose proof (NoDup_valid_length _ _ (wf_nodup _ _ _ Hwf) (wf_valid _ _ _ Hwf)) as Hlen.
  simpl in Hlen. rewrite length_app in Hlen. simpl in Hlen. lia.
Qed.

Lemma wf_list_elem_not_tail h l xs x : wf_list h l xs → x ∈ xs → x ≠ _tail l.
Proof.
  intros Hwf Hx ->. pose proof (wf_nodup _ _ _ Hwf) as Hnd.
  apply NoDup_cons in Hnd as [_ Hnd]. apply NoDup_app in Hnd as (_ & Hd & _).
  apply (Hd _ Hx). set_solver.
Qed.

Lemma wp_remove_loop this comparator v xs2 xs1 fuel s l q (Q : V → Store V → Prop) :
  lists s !! this = Some l →
  wf_list (nodes s) l (xs1 ++ xs2) →
  txn_ok s this l →
  head (xs2 ++ [_tail l]) = Some q →
  length xs2 ≤ fuel →
  (∀ s' l' r xs',
     updated s' this l l' xs' →
     _modCount l' = (if existsb (λ x, comparator x v) (contents (nodes s) xs2)
                     then _modCount l + 1 else _modCount l)%Z →
     Q r s') →
  wp (remove_loop fuel this (_tail l) comparator v (Some q)) Q s.
Proof.
  revert xs1 fuel q. induction xs2 as [|x xs2 IH]; intros xs1 fuel q Hls Hwf Hok Hq Hfuel HQ.
  - simpl in Hq. simplify_eq.
    destruct fuel; simpl; rewrite bool_decide_true by done; apply wp_ret;
      apply (HQ s l undefined (xs1 ++ [])); try done; by apply updated_refl.
  - simpl in Hq. simplify_eq.
    destruct fuel as [|fuel]; [simpl in Hfuel; lia|]. simpl.
    rewrite bool_decide_false; last first.
    { intros [= E]. eapply (wf_list_elem_not_tail _ _ _ q); [done| |done]. set_solver. }
    assert (q < length (nodes s)) as Hx.
    { eapply wf_list_fresh; [done|]. set_solver. }
    destruct (fld_valid value _ _ Hx) as (n & _ & Hv).
    apply wp_bind. eapply wp_getValue; [done|].
    unfold contents in HQ. rewrite fmap_cons in HQ. simpl in HQ.
    unfold val in HQ. rewrite Hv in HQ. simpl in HQ.
    destruct (comparator (value n) v) eqn:Hcmp; simpl in HQ.
    + apply wp_bind. eapply wp_bumpModCount; [done|].
      set (l1 := set_modCount l (_modCount l + 1)).
      eapply (wp_removeNode_wf _ this l1 xs1 q xs2); [| |by eapply txn_ok_lists|].
      { hsimpl. by rewrite Hls. }
      { by eapply wf_list_record. }
      intros s' Hup _. apply (HQ s' (set_size l1 (_size l1 - 1)) _ (xs1 ++ xs2)); [|done].
      by eapply updated_from.
    + pose proof Hwf as Hwf'. rewrite (cons_middle q xs1 xs2), (assoc_L (++)) in Hwf'.
      destruct (wf_list_split _ _ _ _ Hwf') as (l1' & l2' & x2 & q' & E1 & E2 & _ & [Hn _]).
      assert (x2 = q) as ->.
      { change (_head l :: xs1 ++ [q]) with ((_head l :: xs1) ++ [q]) in E1.
        by apply app_inj_tail in E1 as [_ ?]. }
      apply wp_bind. eapply wp_getNext; [done|].
      eapply (IH (xs1 ++ [q])); [done..| by rewrite E2 | simpl in Hfuel; lia |].
      intros s' l' r xs' Hup Hmc. by eapply HQ.
Qed.

Lemma wp_remove s this l xs v comparator (Q : V → Store V → Prop) :
  lists s !! this = Some l →
  wf_list (nodes s) l xs →
  txn_ok s this l →
  (∀ s' l' r xs',
     updated s' this l l' xs' →
     _modCount l' = (if existsb (λ x, comparator x v) (contents (nodes s) xs)
                     then _modCount l + 1 else _modCount l)%Z →
     Q r s') →
  wp (remove this v comparator) Q s.
Proof.
  intros Hls Hwf Hok HQ. unfold remove.
  apply wp_bind. eapply wp_getList; [done|].
  destruct (wf_list_first _ _ _ Hwf) as (q & Hq & [Hn _]).
  apply wp_bind. eapply wp_getNext; [done|].
  apply wp_bind, wp_getFuel.
  eapply (wp_remove_loop _ _ _ xs []); [done..| |done].
  pose proof (wf_list_bound _ _ _ Hwf). lia.
Qed.

Lemma wp_clear s this l xs (Q : unit → Store V → Prop) :
  lists s !! this = Some l →
  wf_list (nodes s) l xs →
  txn_ok s this l →
  xs ≠ [] →
  (∀ s' l', updated s' this l l' [] →
            _modCount l' = (_modCount l + 1)%Z → Q tt s') →
  wp (clear this) Q s.
Proof.
  intros Hls Hwf Hok Hne HQ. unfold clear, isEmpty.
  apply wp_bind, wp_bind. eapply wp_getList; [done|]. apply wp_ret.
  pose proof (wf_size _ _ _ Hwf) as Hsz.
  destruct (Z.eqb_spec (_size l) 0) as [E|_]; [destruct xs; simpl in *; [done|lia]|].
  apply wp_bind. eapply wp_bumpModCount; [done|].
  set (l1 := set_modCount l (_modCount l + 1)).
  set (s1 := with_lists _ _).
  assert (lists s1 !! this = Some l1) as Hls1.
  { subst s1. hsimpl. by rewrite Hls. }
  apply wp_bind. eapply wp_getList; [done|].
  assert (_head l < length (nodes s)) as Hh by (eapply wf_list_fresh; [done|left]).
  assert (_tail l < length (nodes s)) as Ht by (eapply wf_list_fresh; [done|set_solver]).
  assert (_head l ≠ _tail l) as Hht.
  { pose proof (wf_nodup _ _ _ Hwf) as Hnd. apply NoDup_cons in Hnd as [Hnd _].
    intros E. apply Hnd. rewrite E. set_solver. }
  assert (∀ s2, same_heap s1 s2 →
    wp (setNext (Some (_head l1)) (Some (_tail l1));;
        setPrev (Some (_tail l1)) (Some (_head l1));;
        modList this (λ l, set_size l 0)) Q s2) as Hrest.
  { intros s2 (Hn2 & Hl2 & Ht2).
    apply wp_bind, wp_setNext. { by rewrite Hn2. }
    apply wp_bind, wp_setPrev. { hsimpl. by rewrite Hn2. }
    eapply wp_modList. { hsimpl. by rewrite Hl2. }
    apply (HQ _ (set_size l1 0)); [|done].
    destruct Hwf as [Hl Hnd Hv _ Hhp Htn].
    split; hsimpl; try done.
    - rewrite Hl2. subst s1. hsimpl. by rewrite Hls.
    - rewrite Hn2. split; cbn [_head _tail _size set_size set_modCount l1]; hsimpl.
      + apply links_cons. split; [|done]. split; hsimpl; hcases.
      + apply NoDup_cons. split; [set_solver | apply NoDup_singleton].
      + repeat constructor; hlen.
      + done.
      + hcases.
      + hcases.
    - eapply txn_ok_ext; [done|]. by eapply txn_ok_lists. }
  apply wp_bind, wp_when.
  - intros _. eapply wp_notify; [done| by eapply txn_ok_lists |].
    intros s2 Hs2. by apply Hrest.
  - intros _. apply Hrest, same_heap_refl.
Qed.

End Removal.

Section Reversal.
Context {V : Type} `{JsValue V}.

Local Open Scope js_scope.

Implicit Types (s : Store V) (h : list (Node V)) (a b : nat).
Implicit Types (l : UltimateLinkedList).

(** ** [reverse] *)

Lemma wp_reverse_loop c x fuel s t (Q : unit → Store V → Prop) :
  links (nodes s) (x :: c) →
  NoDup (x :: c) →
  last (x :: c) = Some t →
  nxt (nodes s) t = Some None →
  length (x :: c) ≤ fuel →
  (∀ s', lists s' = lists s → txns s' = txns s →
         swapped (nodes s) (nodes s') (x :: c) → Q tt s') →
  wp (reverse_loop fuel (Some x)) Q s.
Proof.
  revert x fuel s Q. induction c as [|y c IH]; intros x fuel s Q Hl Hnd Hlast Ht Hfuel HQ.
  - simpl in Hlast. simplify_eq.
    destruct fuel as [|fuel]; [simpl in Hfuel; lia|]. simpl.
    pose proof (fld_Some_valid _ _ _ _ Ht) as Hx.
    destruct (fld_valid prev _ _ Hx) as (n & _ & Hp).
    apply wp_bind. eapply wp_getNext; [done|].
    apply wp_bind. eapply wp_getPrev; [done|].
    apply wp_bind, wp_setNext; [done|].
    apply wp_bind, wp_setPrev; [hlen|].
    assert (reverse_loop fuel None = ret tt) as -> by by destruct fuel.
    apply wp_ret, HQ; [done..|].
    split; hsimpl; [done|..].
    + intros y Hy. assert (y = t) as -> by set_solver. hsimpl. hcases.
    + intros y Hy. assert (y ≠ t) by set_solver. hsimpl. hcases.
    + intros y. by hsimpl.
  - destruct fuel as [|fuel]; [simpl in Hfuel; lia|]. simpl.
    apply links_cons in Hl as [[Hn Hp] Hl].
    rewrite last_cons_cons in Hlast.
    apply NoDup_cons in Hnd as [Hx Hnd].
    pose proof (fld_Some_valid _ _ _ _ Hn) as Hxv.
    destruct (fld_valid prev _ _ Hxv) as (n & _ & Hpx).
    apply wp_bind. eapply wp_getNext; [done|].
    apply wp_bind. eapply wp_getPrev; [done|].
    apply wp_bind, wp_setNext; [done|].
    apply wp_bind, wp_setPrev; [hlen|].
    set (s1 := with_nodes _ _).
    assert (∀ z, z ≠ x → nxt (nodes s1) z = nxt (nodes s) z
                         ∧ prv (nodes s1) z = prv (nodes s) z) as Hframe.
    { intros z Hz. subst s1. hsimpl. hcases. }
    assert (t ≠ x) as Htx.
    { intros ->. apply Hx. apply last_Some in Hlast as [c' ->]. set_solver. }
    eapply (IH y fuel s1); [| done | done | | simpl in *; lia |].
    { apply (links_frame (nodes s)); [done|]. intros z Hz. apply Hframe. set_solver. }
    { destruct (Hframe t Htx) as [-> _]. done. }
    intros s' Hl' Ht' [Hlen Hin Hout Hval]. apply HQ; [done..|].
    split.
    + rewrite Hlen. subst s1. hlen.
    + intros z Hz. apply elem_of_cons in Hz as [->|Hz].
      * destruct (Hout x Hx) as [-> ->]. subst s1. hsimpl. hcases.
      * destruct (Hin z Hz) as [-> ->].
        assert (z ≠ x) as Hzx by set_solver.
        destruct (Hframe z Hzx) as [-> ->]. done.
    + intros z Hz.
      assert (z ∉ y :: c) as Hz' by set_solver.
      assert (z ≠ x) as Hzx by set_solver.
      destruct (Hout z Hz') as [-> ->]. by apply Hframe.
    + intros z. rewrite Hval. subst s1. by hsimpl.
Qed.

Lemma contents_rev h xs : contents h (rev xs) = rev (contents h xs).
Proof.
  unfold contents. induction xs as [|x xs IH]; [done|].
  simpl. by rewrite fmap_app, IH.
Qed.

Lemma wf_list_swapped h h' l l' xs :
  wf_list h l xs →
  swapped h h' (_head l :: xs ++ [_tail l]) →
  _head l' = _tail l → _tail l' = _head l → _size l' = _size l →
  wf_list h' l' (rev xs) ∧ contents h' (rev xs) = rev (contents h xs).
Proof.
  intros [Hl Hnd Hv Hsz Hhp Htn] [Hlen Hin Hout Hval] Eh Et Es.
  assert (_tail l :: rev xs ++ [_head l] = rev (_head l :: xs ++ [_tail l])) as E.
  { simpl. rewrite rev_app_distr. done. }
  split.
  - split; rewrite ?Eh, ?Et, ?Es.
    + rewrite E. by apply (links_rev h).
    + rewrite E. by rewrite <- Permutation_rev.
    + rewrite E, Hlen. by rewrite <- Permutation_rev.
    + by rewrite length_rev.
    + destruct (Hin (_tail l)) as [_ ->]; [set_solver | done].
    + destruct (Hin (_head l)) as [-> _]; [set_solver | done].
  - rewrite contents_rev. f_equal. by apply contents_ext.
Qed.

Lemma wp_reverse s this l xs (Q : unit → Store V → Prop) :
  lists s !! this = Some l →
  wf_list (nodes s) l xs →
  txn_ok s this l →
  2 ≤ length xs →
  (∀ s' l', updated s' this l l' (rev xs) →
            _modCount l' = (_modCount l + 1)%Z →
            contents (nodes s') (rev xs) = rev (contents (nodes s) xs) →
            Q tt s') →
  wp (reverse this) Q s.
Proof.
  intros Hls Hwf Hok Hlen HQ. unfold reverse.
  apply wp_bind. eapply wp_getList; [done|].
  pose proof (wf_size _ _ _ Hwf) as Hsz.
  destruct (Z.ltb_spec (_size l) 2); [lia|].
  apply wp_bind. eapply wp_bumpModCount; [done|].
  set (l1 := set_modCount l (_modCount l + 1)).
  apply wp_bind, wp_getFuel.
  apply wp_bind.
  eapply (wp_reverse_loop (xs ++ [_tail l]) (_head l) _ _ (_tail l));
    [apply Hwf | apply Hwf | | apply Hwf | |].
  { change (_head l :: xs ++ [_tail l]) with ((_head l :: xs) ++ [_tail l]).
    apply last_snoc. }
  { pose proof (NoDup_valid_length _ _ (wf_nodup _ _ _ Hwf) (wf_valid _ _ _ Hwf)).
    cbn [nodes with_lists]. lia. }
  intros s1 Hl1 Ht1 Hsw. cbn [nodes lists txns with_lists] in *.
  apply wp_bind. eapply wp_modList. { rewrite Hl1. hsimpl. by rewrite Hls. }
  set (l2 := set_tail (set_head l1 (_tail l1)) (_head l1)).
  set (s2 := with_lists s1 _).
  assert (lists s2 !! this = Some l2) as Hls2.
  { subst s2. hsimpl. rewrite Hl1. hsimpl. by rewrite Hls. }
  destruct (wf_list_swapped (nodes s) (nodes s2) l l2 xs Hwf Hsw) as [Hwf2 Hc2]; [done..|].
  assert (updated s2 this l l2 (rev xs)) as Hup2.
  { split; try done. intros t. subst s2. cbn. rewrite Ht1. apply Hok. }
  apply wp_bind. eapply wp_getList; [done|].
  apply wp_bind. eapply wp_when_updateSkipLinks; [done|].
  intros s3 Hup3 Hc3.
  apply wp_when.
  - intros _. eapply wp_notify; [apply Hup3..|].
    intros s4 (Hn4 & Hl4 & Ht4). apply (HQ s4 l2); [|done|].
    + destruct Hup3 as [? ? ? ? ? ?]. split; try done.
      * by rewrite Hl4.
      * by rewrite Hn4.
      * by eapply txn_ok_ext.
    + rewrite Hn4, Hc3. done.
  - intros _. apply (HQ s3 l2); [done..|]. by rewrite Hc3.
Qed.

End Reversal.

Section Walks.
Context {V : Type} `{JsValue V}.

Local Open Scope js_scope.

Implicit Types (s : Store V) (h : list (Node V)) (a b : nat).
Implicit Types (l : UltimateLinkedList).

(** ** [toArray] and [sort] *)

Lemma wf_list_next h l xs1 x xs2 :
  wf_list h l (xs1 ++ x :: xs2) →
  ∃ q, head (xs2 ++ [_tail l]) = Some q ∧ nxt h x = Some (Some q).
Proof.
  intros Hwf. rewrite (cons_middle x xs1 xs2), (assoc_L (++)) in Hwf.
  destruct (wf_list_split _ _ _ _ Hwf) as (l1 & l2 & x2 & q & E1 & E2 & _ & [Hn _]).
  assert (x2 = x) as ->.
  { change (_head l :: xs1 ++ [x]) with ((_head l :: xs1) ++ [x]) in E1.
    by apply app_inj_tail in E1 as [_ ?]. }
  exists q. by rewrite E2.
Qed.

Lemma wp_toArray_loop xs2 xs1 fuel s l q (Q : list V → Store V → Prop) :
  wf_list (nodes s) l (xs1 ++ xs2) →
  head (xs2 ++ [_tail l]) = Some q →
  length xs2 ≤ fuel →
  Q (contents (nodes s) xs2) s →
  wp (toArray_loop fuel (_tail l) (Some q)) Q s.
Proof.
  revert xs1 fuel q Q. induction xs2 as [|x xs2 IH]; intros xs1 fuel q Q Hwf Hq Hfuel HQ.
  - simpl in Hq. simplify_eq.
    destruct fuel; simpl; rewrite bool_decide_true by done; by apply wp_ret.
  - simpl in Hq. simplify_eq.
    destruct fuel as [|fuel]; [simpl in Hfuel; lia|]. simpl.
    rewrite bool_decide_false; last first.
    { intros [= E]. eapply (wf_list_elem_not_tail _ _ _ q); [done| |done]. set_solver. }
    assert (q < length (nodes s)) as Hx.
    { eapply wf_list_fresh; [done|]. set_solver. }
    destruct (fld_valid value _ _ Hx) as (n & _ & Hv).
    destruct (wf_list_next _ _ _ _ _ Hwf) as (q' & Hq' & Hn).
    apply wp_bind. eapply wp_getValue; [done|].
    apply wp_bind. eapply wp_getNext; [done|].
    apply wp_bind. eapply (IH (xs1 ++ [q])).
    { by rewrite <- (assoc_L (++)). }
    { done. }
    { simpl in Hfuel. lia. }
    apply wp_ret. unfold contents in *. rewrite fmap_cons in HQ.
    unfold val in HQ at 1. by rewrite Hv in HQ.
Qed.

Lemma toArray_wf s this l xs :
  lists s !! this = Some l →
  wf_list (nodes s) l xs →
  toArray this s = Ok (contents (nodes s) xs, s).
Proof.
  intros Hls Hwf.
  assert (wp (toArray this) (λ r s', r = contents (nodes s) xs ∧ s' = s) s) as Hwp.
  { unfold toArray. apply wp_bind. eapply wp_getList; [done|].
    pose proof (wf_size _ _ _ Hwf) as Hsz.
    destruct (Z.ltb_spec (_size l) 0); [lia|].
    destruct (wf_list_first _ _ _ Hwf) as (q & Hq & [Hn _]).
    apply wp_bind. eapply wp_getNext; [done|].
    apply wp_bind, wp_getFuel.
    apply wp_bind. eapply (wp_toArray_loop xs [] _ s l); [done..| |].
    { pose proof (wf_list_bound _ _ _ Hwf). lia. }
    apply wp_ret. rewrite length_contents, Hsz, Nat2Z.id, Nat.sub_diag.
    simpl. by rewrite app_nil_r. }
  apply wp_elim in Hwp as (r & s' & E & -> & ->). done.
Qed.

Lemma wp_toArray s this l xs (Q : list V → Store V → Prop) :
  lists s !! this = Some l →
  wf_list (nodes s) l xs →
  Q (contents (nodes s) xs) s →
  wp (toArray this) Q s.
Proof. intros Hls Hwf HQ. eapply wp_intro; [by apply (toArray_wf s this l xs) | done]. Qed.

Lemma length_sorted_insert {A} (cmp : A → A → Z) x (l : list A) :
  length (sorted_insert cmp x l) = S (length l).
Proof.
  induction l as [|y l IH]; [done|]. simpl.
  destruct (cmp x y <=? 0)%Z; simpl; [done | by rewrite IH].
Qed.

Lemma length_Array_sort {A} (cmp : A → A → Z) (l : list A) :
  length (Array_sort cmp l) = length l.
Proof.
  induction l as [|x l IH]; [done|]. simpl. by rewrite length_sorted_insert, IH.
Qed.

Lemma wp_sort_collect xs2 xs1 fuel s l q (Q : list (V * Z) → Store V → Prop) :
  wf_list (nodes s) l (xs1 ++ xs2) →
  head (xs2 ++ [_tail l]) = Some q →
  length xs2 ≤ fuel →
  (∀ items, length items = length xs2 → Q items s) →
  wp (sort_collect fuel (_tail l) (Some q)) Q s.
Proof.
  revert xs1 fuel q Q. induction xs2 as [|x xs2 IH]; intros xs1 fuel q Q Hwf Hq Hfuel HQ.
  - simpl in Hq. simplify_eq.
    destruct fuel; simpl; rewrite bool_decide_true by done; by apply wp_ret, HQ.
  - simpl in Hq. simplify_eq.
    destruct fuel as [|fuel]; [simpl in Hfuel; lia|]. simpl.
    rewrite bool_decide_false; last first.
    { intros [= E]. eapply (wf_list_elem_not_tail _ _ _ q); [done| |done]. set_solver. }
    assert (q < length (nodes s)) as Hx.
    { eapply wf_list_fresh; [done|]. set_solver. }
    destruct (lookup_lt_is_Some_2 _ _ Hx) as [n Hn'].
    destruct (wf_list_next _ _ _ _ _ Hwf) as (q' & Hq' & Hn).
    apply wp_bind. eapply wp_getNode; [done|].
    apply wp_bind. eapply wp_getNext; [done|].
    apply wp_bind. eapply (IH (xs1 ++ [q])).
    { by rewrite <- (assoc_L (++)). }
    { done. }
    { simpl in Hfuel. lia. }
    intros items Hlen. apply wp_ret, HQ. simpl. by rewrite Hlen.
Qed.

Lemma values_only_refl s : values_only s s.
Proof. by split_and!. Qed.

Lemma values_only_trans s1 s2 s3 :
  values_only s1 s2 → values_only s2 s3 → values_only s1 s3.
Proof.
  intros (L1 & T1 & N1 & F1) (L2 & T2 & N2 & F2). split_and!; try congruence.
  intros y. destruct (F1 y) as [? ?], (F2 y) as [? ?]. split; congruence.
Qed.

Lemma wp_sort_writeBack c (items : list (V * Z)) q s (Q : unit → Store V → Prop) :
  links (nodes s) (q :: c) →
  length items ≤ length c →
  (∀ s', values_only s s' → Q tt s') →
  wp (sort_writeBack items (Some q)) Q s.
Proof.
  revert c q s Q. induction items as [|item items IH]; intros c q s Q Hl Hlen HQ; simpl.
  - apply wp_ret, HQ, values_only_refl.
  - destruct c as [|y c]; [simpl in Hlen; lia|].
    apply links_cons in Hl as [[Hn Hp] Hl].
    pose proof (fld_Some_valid _ _ _ _ Hn) as Hq.
    apply wp_bind, wp_setValue; [done|].
    apply wp_bind. eapply wp_getNext. { hsimpl. done. }
    set (s1 := with_nodes _ _).
    assert (values_only s s1) as Hs1.
    { subst s1. split_and!; hsimpl; try done. intros z. by hsimpl. }
    eapply (IH c y s1).
    { destruct Hs1 as (_ & _ & _ & Hf). apply (links_frame (nodes s)); [done|].
      intros z _. apply Hf. }
    { simpl in Hlen. lia. }
    intros s' Hs'. apply HQ. by eapply values_only_trans.
Qed.

Lemma wp_sort localeCompare s this l xs compareFn (Q : unit → Store V → Prop) :
  lists s !! this = Some l →
  wf_list (nodes s) l xs →
  txn_ok s this l →
  2 ≤ length xs →
  (∀ s' l', updated s' this l l' xs →
            _modCount l' = (_modCount l + 1)%Z → Q tt s') →
  wp (sort localeCompare this compareFn) Q s.
Proof.
  intros Hls Hwf Hok Hlen HQ. unfold sort.
  apply wp_bind. eapply wp_getList; [done|].
  pose proof (wf_size _ _ _ Hwf) as Hsz.
  destruct (Z.leb_spec (_size l) 1); [lia|].
  apply wp_bind. eapply wp_bumpModCount; [done|].
  set (l1 := set_modCount l (_modCount l + 1)).
  set (s1 := with_lists _ _).
  assert (lists s1 !! this = Some l1) as Hls1.
  { subst s1. hsimpl. by rewrite Hls. }
  assert (wf_list (nodes s1) l1 xs) as Hwf1 by by eapply wf_list_record.
  apply wp_bind. eapply wp_toArray; [done..|].
  destruct (wf_list_first _ _ _ Hwf) as (q & Hq & [Hn _]).
  apply wp_bind. eapply wp_getNext; [done|].
  apply wp_bind, wp_getFuel.
  apply wp_bind. eapply (wp_sort_collect xs [] _ s1 l1); [done..| |].
  { pose proof (wf_list_bound _ _ _ Hwf). subst s1. cbn. lia. }
  intros items Hitems.
  apply wp_bind. eapply wp_getNext; [done|].
  pose proof (wf_links _ _ _ Hwf) as Hl.
  destruct (xs ++ [_tail l]) as [|q' c] eqn:E; [done|]. simpl in Hq. simplify_eq.
  apply links_cons in Hl as [_ Hl].
  apply wp_bind. eapply (wp_sort_writeBack c); [done| |].
  { rewrite length_Array_sort, Hitems.
    apply (f_equal length) in E. rewrite length_app in E. simpl in E. lia. }
  intros s2 (Hl2 & Ht2 & Hn2 & Hf2).
  assert (updated s2 this l l1 xs) as Hup.
  { split; try done.
    - by rewrite Hl2.
    - eapply wf_list_frame; [done| lia | | done..]. intros z _. apply Hf2.
    - intros t. rewrite Ht2. apply Hok. }
  apply wp_when.
  - intros _. eapply wp_notify; [apply Hup..|].
    intros s3 (Hn3 & Hl3 & Ht3). apply (HQ s3 l1); [|done].
    destruct Hup as [? ? ? ? ? ?]. split; try done.
    + by rewrite Hl3.
    + by rewrite Hn3.
    + by eapply txn_ok_ext.
  - intros _. by apply (HQ s2 l1).
Qed.

End Walks.

Section Concatenation.
Context {V : Type} `{JsValue V}.

Local Open Scope js_scope.

Implicit Types (s : Store V) (h : list (Node V)) (a b : nat).
Implicit Types (l o : UltimateLinkedList).

(** ** [concat] *)

Lemma NoDup_last_removelast (c : list nat) p :
  NoDup c → last c = Some p → p ∉ removelast c.
Proof.
  intros Hnd [c' ->]%last_Some. rewrite removelast_last.
  apply NoDup_app in Hnd as (_ & Hd & _). intros Hp. apply (Hd _ Hp). set_solver.
Qed.

Lemma NoDup_head_tail (c : list nat) y :
  NoDup c → head c = Some y → y ∉ tail c.
Proof.
  destruct c as [|y' c]; [done|]. intros Hnd [= ->]. simpl.
  by apply NoDup_cons in Hnd as [? _].
Qed.

Lemma wf_list_spliced h h' l o xs ys p y1 yn :
  wf_list h l xs →
  wf_list h o ys →
  (∀ x, x ∈ _head l :: xs ++ [_tail l] → x ∉ _head o :: ys ++ [_tail o]) →
  last (_head l :: xs) = Some p →
  head ys = Some y1 →
  last ys = Some yn →
  spliced h h' p y1 yn (_tail l) (_head o) (_tail o) →
  wf_list h' (set_size l (_size l + _size o)) (xs ++ ys) ∧
  wf_list h' (set_size o 0) [] ∧
  contents h' (xs ++ ys) = contents h xs ++ contents h ys.
Proof.
  intros [HlA HndA HvA HszA HhpA HtnA] [HlB HndB HvB HszB HhpB HtnB] Hdisj Hp Hy1 Hyn
         [Hlen Hn Hpv Hval].
  set (hA := _head l) in *. set (tA := _tail l) in *.
  set (hB := _head o) in *. set (tB := _tail o) in *.
  assert (p ∈ hA :: xs) as HpA.
  { apply last_Some in Hp as [c ->]. set_solver. }
  assert (y1 ∈ ys) as Hy1B.
  { apply head_Some in Hy1 as [c ->]. set_solver. }
  assert (yn ∈ ys) as HynB.
  { apply last_Some in Hyn as [c ->]. set_solver. }
  assert (NoDup (hA :: xs) ∧ tA ∉ hA :: xs) as [HndA' HtA].
  { change (hA :: xs ++ [tA]) with ((hA :: xs) ++ [tA]) in HndA.
    apply NoDup_app in HndA as (? & Hd & _). split; [done|].
    intros Ht. apply (Hd _ Ht). set_solver. }
  assert (NoDup ys ∧ (hB ∉ ys) ∧ (tB ∉ ys) ∧ hB ≠ tB) as (HndB' & HhB & HtB & HhtB).
  { apply NoDup_cons in HndB as [Hh HndB].
    apply NoDup_app in HndB as (? & Hd & _). split_and!; [done|set_solver..]. }
  assert (∀ x, x ∈ hA :: xs ++ [tA] → x ≠ hB ∧ x ≠ tB ∧ x ∉ ys) as HdA.
  { intros x Hx. specialize (Hdisj x Hx). set_solver. }
  assert (links h (hA :: xs)) as HlA'.
  { change (hA :: xs ++ [tA]) with ((hA :: xs) ++ [tA]) in HlA.
    by apply links_app in HlA as (? & _ & _). }
  assert (links h ys) as HlB'.
  { change (hB :: ys ++ [tB]) with ([hB] ++ ys ++ [tB]) in HlB.
    apply links_app in HlB as (_ & HlB & _). by apply links_app in HlB as (? & _ & _). }
  split_and!.
  - split; cbn [_head _tail _size set_size]; fold hA tA.
    + rewrite <- (assoc_L (++)).
      change (hA :: xs ++ ys ++ [tA]) with ((hA :: xs) ++ ys ++ [tA]).
      apply links_app. split_and!.
      * apply (links_ext h); [done|..].
        -- intros z Hz. pose proof (NoDup_last_removelast _ _ HndA' Hp) as Hpz.
           apply elem_of_removelast in Hz as Hz'.
           destruct (HdA z) as (? & ? & ?); [set_solver|].
           rewrite Hn. hcases; set_solver.
        -- intros z Hz. simpl in Hz.
           destruct (HdA z) as (? & ? & ?); [set_solver|].
           rewrite Hpv. hcases; set_solver.
      * apply links_app. split_and!; [|done|].
        -- apply (links_ext h); [done|..].
           ++ intros z Hz. pose proof (NoDup_last_removelast _ _ HndB' Hyn) as Hynz.
              apply elem_of_removelast in Hz as Hz'.
              destruct (HdA p) as (? & ? & ?); [set_solver|].
              rewrite Hn. hcases; set_solver.
           ++ intros z Hz. pose proof (NoDup_head_tail _ _ HndB' Hy1) as Hy1z.
              assert (z ∈ ys) as Hz' by (destruct ys; [done | by right]).
              destruct (HdA tA) as (? & ? & ?); [set_solver|].
              rewrite Hpv. hcases; set_solver.
        -- intros a b Ha [= <-]. rewrite Hyn in Ha. injection Ha as <-.
           destruct (HdA tA) as (? & ? & ?); [set_solver|].
           split; [rewrite Hn | rewrite Hpv]; hcases; set_solver.
      * intros a b Ha Hb. rewrite Hp in Ha. injection Ha as <-.
        assert (b = y1) as ->.
        { apply head_Some in Hy1 as [c ->]. simpl in Hb. congruence. }
        destruct (HdA p) as (? & ? & ?); [set_solver|].
        destruct (HdA tA) as (? & ? & ?); [set_solver|].
        split; [rewrite Hn | rewrite Hpv]; hcases; set_solver.
    + assert (hA :: (xs ++ ys) ++ [tA] ≡ₚ (hA :: xs ++ [tA]) ++ ys) as ->.
      { simpl. f_equiv. rewrite <- !(assoc_L (++)). f_equiv. apply Permutation_app_comm. }
      apply NoDup_app. split_and!; [done| |done]. intros x Hx. by apply HdA.
    + rewrite Hlen. rewrite Forall_forall in *. intros x Hx.
      assert (x ∈ hA :: xs ++ [tA] ∨ x ∈ ys) as [Hx'|Hx'] by set_solver.
      * by apply HvA.
      * apply HvB. set_solver.
    + rewrite length_app. lia.
    + destruct (HdA hA) as (? & ? & ?); [set_solver|].
      rewrite Hpv. hcases; set_solver.
    + destruct (HdA tA) as (? & ? & ?); [set_solver|].
      rewrite Hn. hcases; set_solver.
  - split; cbn [_head _tail _size set_size]; fold hB tB.
    + apply links_cons. split; [|done].
      split; [rewrite Hn | rewrite Hpv]; hcases.
    + apply NoDup_cons. split; [set_solver | apply NoDup_singleton].
    + rewrite Hlen. rewrite Forall_forall in *. intros x Hx. apply HvB. set_solver.
    + done.
    + destruct (HdA tA) as (? & ? & ?); [set_solver|].
      rewrite Hpv. hcases; set_solver.
    + destruct (HdA p) as (? & ? & ?); [set_solver|].
      rewrite Hn. hcases; set_solver.
  - rewrite contents_app. f_equal; by apply contents_ext.
Qed.

(** The rebuild at the end of [concat] disturbs neither list. *)
Lemma wp_updateSkipWhen (c : bool) s this other l0 l o xs (Q : unit → Store V → Prop) :
  updated s this l0 l xs →
  (∀ s', updated s' this l0 l xs →
         contents (nodes s') xs = contents (nodes s) xs →
         (lists s !! other = Some o → lists s' !! other = Some o) →
         (wf_list (nodes s) o [] → wf_list (nodes s') o []) →
         Q tt s') →
  wp (when c (_updateSkipLinks this)) Q s.
Proof.
  intros Hup HQ. apply wp_when.
  - intros _. eapply wp_updateSkipLinks; [apply Hup | apply Hup |].
    intros s' Hs'. destruct (updated_skip_rebuilt _ _ _ _ _ _ Hup Hs').
    apply HQ; [done..| |].
    + destruct Hs' as (_ & -> & _). done.
    + destruct Hs' as (Hso & _ & _). intros Hwf. by eapply wf_list_skip_only.
  - intros _. by apply HQ.
Qed.

Lemma concat_empty_donor s this other o :
  lists s !! other = Some o → _size o = 0%Z → concat this other s = Ok (tt, s).
Proof.
  intros Ho Hsz. unfold concat, isEmpty, bind, getList, ret. by rewrite Ho, Hsz.
Qed.

Lemma wp_concat s this other l o xs ys (Q : unit → Store V → Prop) :
  this ≠ other →
  lists s !! this = Some l →
  lists s !! other = Some o →
  wf_list (nodes s) l xs →
  wf_list (nodes s) o ys →
  txn_ok s this l →
  (∀ x, x ∈ _head l :: xs ++ [_tail l] → x ∉ _head o :: ys ++ [_tail o]) →
  ys ≠ [] →
  (∀ s' l',
     updated s' this l l' (xs ++ ys) →
     _modCount l' = (_modCount l + 1)%Z →
     contents (nodes s') (xs ++ ys) = contents (nodes s) xs ++ contents (nodes s) ys →
     lists s' !! other = Some (set_size o 0) →
     wf_list (nodes s') (set_size o 0) [] →
     Q tt s') →
  wp (concat this other) Q s.
Proof.
  intros Hne Hls Hlo HwfA HwfB Hok Hdisj Hys HQ. unfold concat, isEmpty.
  apply wp_bind, wp_bind. eapply wp_getList; [done|]. apply wp_ret.
  pose proof (wf_size _ _ _ HwfB) as HszB.
  destruct (Z.eqb_spec (_size o) 0) as [E|_]; [destruct ys; simpl in *; [done|lia]|].
  apply wp_bind. eapply wp_bumpModCount; [done|].
  set (l1 := set_modCount l (_modCount l + 1)).
  apply wp_bind. eapply wp_getList. { hsimpl. by rewrite list_lookup_alter_ne. }
  destruct (wf_list_first _ _ _ HwfB) as (y1 & Hy1 & [Hny1 _]).
  destruct (wf_list_last _ _ _ HwfB) as (yn & Hyn & [_ Hpyn]).
  destruct (wf_list_last _ _ _ HwfA) as (p & Hp & [_ Hpp]).
  assert (head ys = Some y1) as Hy1'.
  { destruct ys; [done|]. by simpl in *. }
  assert (last ys = Some yn) as Hyn'.
  { destruct ys as [|y ys]; [done|]. by rewrite last_cons_cons in Hyn. }
  assert (∀ x, x ∈ _head l :: xs ++ [_tail l] → x < length (nodes s)) as HvA
    by (intros x; by eapply wf_list_fresh).
  assert (∀ x, x ∈ _head o :: ys ++ [_tail o] → x < length (nodes s)) as HvB
    by (intros x; by eapply wf_list_fresh).
  assert (p < length (nodes s)) as Hpv.
  { apply HvA. apply last_Some in Hp as [c Hc].
    change (_head l :: xs ++ [_tail l]) with ((_head l :: xs) ++ [_tail l]).
    rewrite Hc. set_solver. }
  assert (y1 < length (nodes s)) as Hy1v.
  { apply HvB. apply head_Some in Hy1' as [c ->]. set_solver. }
  assert (yn < length (nodes s)) as Hynv.
  { apply HvB. apply last_Some in Hyn' as [c ->]. set_solver. }
  assert (_tail l < length (nodes s)) as HtAv by (apply HvA; set_solver).
  assert (_head o < length (nodes s)) as HhBv by (apply HvB; set_solver).
  assert (_tail o < length (nodes s)) as HtBv by (apply HvB; set_solver).
  apply wp_bind. eapply wp_getNext; [done|].
  apply wp_bind. eapply wp_getPrev; [done|].
  apply wp_bind. eapply wp_getList. { hsimpl. by rewrite Hls. }
  apply wp_bind. eapply wp_getPrev; [done|].
  apply wp_bind, wp_setNext; [done|].
  apply wp_bind, wp_setPrev; [hlen|].
  apply wp_bind, wp_setNext; [hlen|].
  apply wp_bind, wp_setPrev; [hlen|].
  apply wp_bind. eapply wp_getList. { hsimpl. by rewrite list_lookup_alter_ne. }
  apply wp_bind. eapply wp_modList. { hsimpl. by rewrite Hls. }
  apply wp_bind. eapply wp_getList. { hsimpl. by rewrite !list_lookup_alter_ne. }
  apply wp_bind, wp_setNext; [hlen|].
  apply wp_bind, wp_setPrev; [hlen|].
  apply wp_bind. eapply wp_modList. { hsimpl. by rewrite !list_lookup_alter_ne. }
  set (s2 := with_lists _ _).
  set (l2 := set_size l1 (_size l1 + _size o)).
  assert (lists s2 !! this = Some l2) as Hls2.
  { subst s2. hsimpl. rewrite list_lookup_alter_ne by done. hsimpl. by rewrite Hls. }
  assert (lists s2 !! other = Some (set_size o 0)) as Hlo2.
  { subst s2. hsimpl. by rewrite !list_lookup_alter_ne, Hlo. }
  assert (spliced (nodes s) (nodes s2) p y1 yn (_tail l) (_head o) (_tail o)) as Hspl.
  { subst s2. split; intros; hsimpl; hcases. }
  destruct (wf_list_spliced _ _ _ _ _ _ _ _ _ HwfA HwfB Hdisj Hp Hy1' Hyn' Hspl)
    as (HwfA2 & HwfB2 & Hc2).
  assert (updated s2 this l l2 (xs ++ ys)) as Hup2.
  { split; try done. by eapply wf_list_record. }
  apply wp_bind. eapply wp_getList; [done|].
  apply wp_bind. eapply (wp_updateSkipWhen _ _ this other l l2 (set_size o 0)); [done|].
  intros s3 Hup3 Hc3 Hlo3 HwfB3. specialize (Hlo3 Hlo2). specialize (HwfB3 HwfB2).
  apply wp_when.
  - intros _. eapply wp_notify; [apply Hup3..|].
    intros s4 (Hn4 & Hl4 & Ht4). apply (HQ s4 l2).
    + destruct Hup3 as [? ? ? ? ? ?]. split; try done.
      * by rewrite Hl4.
      * by rewrite Hn4.
      * by eapply txn_ok_ext.
    + done.
    + rewrite Hn4, Hc3. done.
    + by rewrite Hl4.
    + by rewrite Hn4.
  - intros _. apply (HQ s3 l2); try done. by rewrite Hc3.
Qed.

End Concatenation.

Section Iteration.
Context {V : Type} `{JsValue V}.

Local Open Scope js_scope.

Implicit Types (s : Store V) (h : list (Node V)) (a b : nat).
Implicit Types (l : UltimateLinkedList).

(** ** Native iteration *)

Lemma iterator_next_stale it s l :
  lists s !! it_list it = Some l →
  expectedModCount it ≠ _modCount l →
  iterator_next it s = Throw ConcurrentModification.
Proof.
  intros Hls Hne. unfold iterator_next, bind, getList. rewrite Hls.
  destruct (Z.eqb_spec (expectedModCount it) (_modCount l)); done.
Qed.

Lemma iterator_next_fresh it s l :
  lists s !! it_list it = Some l →
  expectedModCount it = _modCount l →
  iterator_next it s ≠ Throw ConcurrentModification.
Proof.
  intros Hls He. unfold iterator_next, bind, getList. rewrite Hls, He, Z.eqb_refl. simpl.
  unfold getNext, getValue, bind, getNode, ret.
  destruct (it_node it) as [a|]; [|done].
  destruct (nodes s !! a) as [n|]; [|done].
  destruct (bool_decide _); [done|].
  destruct (next n) as [b|]; [|done].
  by destruct (nodes s !! b).
Qed.

Lemma iterate_loop_wf xs2 xs1 fuel s l it p :
  lists s !! it_list it = Some l →
  wf_list (nodes s) l (xs1 ++ xs2) →
  expectedModCount it = _modCount l →
  last (_head l :: xs1) = Some p →
  it_node it = Some p →
  length xs2 < fuel →
  iterate_loop fuel it s = Ok (contents (nodes s) xs2, s).
Proof.
  revert xs1 fuel it p. induction xs2 as [|x xs2 IH]; intros xs1 fuel it p Hls Hwf He Hp Hn Hfuel.
  - destruct fuel as [|fuel]; [simpl in Hfuel; lia|]. simpl.
    rewrite app_nil_r in Hwf.
    destruct (wf_list_last _ _ _ Hwf) as (p' & Hp' & [Hnt _]).
    assert (p' = p) as -> by congruence.
    unfold bind, iterator_next, bind, getList. rewrite Hls, He, Z.eqb_refl. simpl.
    rewrite Hn. unfold getNext, bind, getNode, ret.
    unfold nxt, fld in Hnt. destruct (nodes s !! p) as [n|]; [|done].
    simpl in Hnt. injection Hnt as ->. by rewrite bool_decide_true.
  - destruct fuel as [|fuel]; [simpl in Hfuel; lia|]. simpl.
    destruct (wf_list_split _ _ _ _ Hwf) as (l1 & l2 & p' & x' & E1 & E2 & _ & [Hnx _]).
    simpl in E2. injection E2 as E2a E2. subst x'.
    assert (p' = p) as ->.
    { rewrite E1, last_snoc in Hp. congruence. }
    assert (x ≠ _tail l) as Hxt.
    { eapply wf_list_elem_not_tail; [done|]. set_solver. }
    assert (x < length (nodes s)) as Hx.
    { eapply wf_list_fresh; [done|]. set_solver. }
    destruct (lookup_lt_is_Some_2 _ _ Hx) as [nx Hnx'].
    unfold bind at 1. unfold iterator_next, bind, getList. rewrite Hls, He, Z.eqb_refl. simpl.
    rewrite Hn. unfold getNext, getValue, bind, getNode, ret.
    unfold nxt, fld in Hnx. destruct (nodes s !! p) as [n|]; [|done].
    simpl in Hnx. injection Hnx as ->.
    rewrite bool_decide_false by congruence. rewrite Hnx'.
    rewrite (IH (xs1 ++ [x]) fuel _ x).
    + unfold val, fld. by rewrite Hnx'.
    + done.
    + by rewrite <- (assoc_L (++)).
    + done.
    + change (_head l :: xs1 ++ [x]) with ((_head l :: xs1) ++ [x]). apply last_snoc.
    + done.
    + simpl in Hfuel. lia.
Qed.

Lemma spread_list_wf s this l xs :
  lists s !! this = Some l →
  wf_list (nodes s) l xs →
  spread_list this s = Ok (contents (nodes s) xs, s).
Proof.
  intros Hls Hwf. unfold spread_list, iterator. unfold bind, getList, getFuel, ret.
  rewrite Hls.
  apply (iterate_loop_wf xs [] _ s l _ (_head l)); try done.
  pose proof (wf_list_bound _ _ _ Hwf). lia.
Qed.

End Iteration.

Section Construction.
Context {V : Type} `{JsValue V}.

Local Open Scope js_scope.
Implicit Types (s : Store V) (l : UltimateLinkedList).

(** ** The constructor *)

(** Two fresh sentinels pointing at each other are an empty list. *)

Lemma wf_list_new (h : list (Node V)) l :
  _tail l = S (_head l) → _size l = 0%Z → _head l = length h →
  let h' := alter (λ n, set_prev n (Some (_head l))) (_tail l)
              (alter (λ n, set_next n (Some (_tail l))) (_head l)
                 ((h ++ [mkNode undefined None None None 0])
                    ++ [mkNode undefined None None None 0])) in
  wf_list h' l [].
Proof.
  intros Et Es Eh h'. subst h'. rewrite Et, Eh. split; simpl.
  - rewrite Et, Eh. split; [|done]. split; hsimpl; hcases.
  - rewrite Et. apply NoDup_cons. split; [set_solver by lia|]. apply NoDup_singleton.
  - rewrite Et, Eh. repeat constructor; hlen.
  - done.
  - rewrite Eh. hsimpl; hcases.
  - rewrite Et, Eh. hsimpl. repeat case_decide; cbn [length] in *; try lia; done.
Qed.

(** What [new UltimateLinkedList(iterable, options)] returns. *)
Lemma wp_new_UltimateLinkedList s iterable skipLinks observable
    (Q : nat → Store V → Prop) :
  (∀ s' this l xs,
     lists s' !! this = Some l → wf_list (nodes s') l xs → txn_ok s' this l →
     _useSkipLinks l = skipLinks → _observable l = observable →
     _listeners l = [] →
     contents (nodes s') xs = default [] iterable →
     Q this s') →
  wp (new_UltimateLinkedList iterable skipLinks observable) Q s.
Proof.
  intros HQ. unfold new_UltimateLinkedList.
  apply wp_bind, wp_allocNode. apply wp_bind, wp_allocNode.
  apply wp_bind, wp_setNext; [hlen|]. apply wp_bind, wp_setPrev; [hlen|].
  apply wp_bind.
  cbn [nodes with_nodes]. rewrite length_app. simpl length. rewrite Nat.add_1_r.
  set (l0 := mkList _ _ _ _ _ _ _ _).
  pose proof (wf_list_new (nodes s) l0 eq_refl eq_refl eq_refl) as Hwf0.
  cbn [_head _tail l0] in Hwf0. fold l0 in Hwf0.
  unfold wp at 1, allocList.
  match goal with |- wp _ _ ?s0 => set (s1 := s0) end.
  cbn [lists with_nodes with_lists].
  set (this := length (lists s)).
  assert (lists s1 !! this = Some l0) as Hls1.
  { subst s1 this. cbn [lists with_nodes with_lists]. by rewrite list_lookup_middle. }
  assert (wf_list (nodes s1) l0 []) as Hwf1 by exact Hwf0.
  assert (txn_ok s1 this l0) as Hok1 by (intros t Ht; done).
  clearbody s1. clear Hwf0.
  destruct iterable as [values|]; simpl.
  - apply wp_bind, wp_bind. eapply wp_push; [done..|].
    intros s2 l2 ys Hup Hlen Hmc Hc. apply wp_ret.
    apply wp_bind. eapply wp_when_updateSkipLinks; [exact Hup|].
    intros s3 [Hls3 Hwf3 Hok3 Hsk Hob Hli] Hc3. apply wp_ret.
    apply (HQ s3 this l2 ys); try done. exact (eq_trans Hc3 Hc).
  - apply wp_bind, wp_ret.
    apply wp_bind. eapply wp_when_updateSkipLinks; [by apply updated_refl|].
    intros s3 [Hls3 Hwf3 Hok3 Hsk Hob Hli] Hc3. apply wp_ret.
    by apply (HQ s3 this l0 []).
Qed.

(** A list built by the constructor is well formed, holds the values it was
    given, in order, and is returned by [toArray] and by native iteration. *)
Lemma new_UltimateLinkedList_wf s iterable skipLinks observable :
  ∃ this s' l xs,
    new_UltimateLinkedList iterable skipLinks observable s = Ok (this, s') ∧
    lists s' !! this = Some l ∧ wf_list (nodes s') l xs ∧ txn_ok s' this l ∧
    _useSkipLinks l = skipLinks ∧ _observable l = observable ∧
    toArray this s' = Ok (default [] iterable, s') ∧
    spread_list this s' = Ok (default [] iterable, s').
Proof.
  pose proof (wp_new_UltimateLinkedList s iterable skipLinks observable
    (λ this s', ∃ l xs, lists s' !! this = Some l ∧ wf_list (nodes s') l xs ∧
       txn_ok s' this l ∧ _useSkipLinks l = skipLinks ∧ _observable l = observable ∧
       toArray this s' = Ok (default [] iterable, s') ∧
       spread_list this s' = Ok (default [] iterable, s'))) as Hwp.
  apply wp_elim in Hwp as (this & s' & E & l & xs & ?); [by exists this, s', l, xs|].
  intros s' this l xs Hls Hwf Hok Hsk Hob _ Hc. exists l, xs. split_and!; try done.
  - rewrite <- Hc. by apply (toArray_wf s' this l xs).
  - rewrite <- Hc. by apply (spread_list_wf s' this l xs).
Qed.

End Construction.

Section Mutations.
Context {V : Type} `{JsValue V}.
Variable localeCompare : V → V → Z.

Local Open Scope js_scope.

Implicit Types (s : Store V) (h : list (Node V)) (a b : nat).
Implicit Types (l : UltimateLinkedList).

(** ** Every mutation *)

Lemma insertAt_out_of_range s this l v index :
  lists s !! this = Some l →
  ¬ (0 ≤ resolve_insert (_size l) index ≤ _size l)%Z →
  insertAt this v index s = Throw RangeError.
Proof.
  intros Hls Hr. unfold insertAt, bind, getList. rewrite Hls. cbv zeta.
  change (if (index <? 0)%Z then (_size l + index + 1)%Z else index)
    with (resolve_insert (_size l) index).
  destruct (Z.ltb_spec (resolve_insert (_size l) index) 0); [done|].
  rewrite Z.gtb_ltb.
  destruct (Z.ltb_spec (_size l) (resolve_insert (_size l) index)); [done|]. lia.
Qed.

Lemma pop_empty s this l :
  lists s !! this = Some l → _size l = 0%Z → pop this s = Ok (undefined, s).
Proof. intros Hls Hsz. unfold pop, isEmpty, bind, getList, ret. by rewrite Hls, Hsz. Qed.

Lemma shift_empty s this l :
  lists s !! this = Some l → _size l = 0%Z → shift this s = Ok (undefined, s).
Proof. intros Hls Hsz. unfold shift, isEmpty, bind, getList, ret. by rewrite Hls, Hsz. Qed.

Lemma clear_empty s this l :
  lists s !! this = Some l → _size l = 0%Z → clear this s = Ok (tt, s).
Proof. intros Hls Hsz. unfold clear, isEmpty, bind, getList, ret. by rewrite Hls, Hsz. Qed.

Lemma reverse_short s this l :
  lists s !! this = Some l → (_size l < 2)%Z → reverse this s = Ok (tt, s).
Proof.
  intros Hls Hsz. unfold reverse, bind, getList, ret. rewrite Hls.
  destruct (Z.ltb_spec (_size l) 2); [done|lia].
Qed.

Lemma sort_short s this l compareFn :
  lists s !! this = Some l → (_size l ≤ 1)%Z →
  sort localeCompare this compareFn s = Ok (tt, s).
Proof.
  intros Hls Hsz. unfold sort, bind, getList, ret. rewrite Hls.
  destruct (Z.leb_spec (_size l) 1); [done|lia].
Qed.

Lemma set_out_of_range s this l index v :
  lists s !! this = Some l → in_range (_size l) index = false →
  set this index v s = Ok (false, s).
Proof.
  intros Hls Hr. unfold set, bind. by rewrite (nodeAt_out_of_range s this l index).
Qed.

Lemma removeAt_out_of_range s this l index :
  lists s !! this = Some l → in_range (_size l) index = false →
  removeAt this index s = Ok (undefined, s).
Proof.
  intros Hls Hr. unfold removeAt, bind. by rewrite (nodeAt_out_of_range s this l index).
Qed.

Lemma get_out_of_range s this l index :
  lists s !! this = Some l → in_range (_size l) index = false →
  get this index s = Ok (undefined, s).
Proof.
  intros Hls Hr. unfold get, bind. by rewrite (nodeAt_out_of_range s this l index).
Qed.

Lemma in_range_lookup (xs : list nat) n index :
  n = Z.of_nat (length xs) →
  in_range n index = true →
  ∃ k x, resolve n index = Z.of_nat k ∧ xs !! k = Some x.
Proof.
  intros -> Hr. unfold in_range in Hr. apply andb_true_iff in Hr as [H0 H1].
  apply Z.leb_le in H0. apply Z.ltb_lt in H1.
  destruct (lookup_lt_is_Some_2 xs (Z.to_nat (resolve (Z.of_nat (length xs)) index)))
    as [x Hx]; [lia|].
  exists (Z.to_nat (resolve (Z.of_nat (length xs)) index)), x. split; [lia|done].
Qed.

Lemma wp_bind_ret_intro {A} (m : M V A) s r s' :
  m s = Ok (r, s') → bind m (λ _, ret tt) s = Ok (tt, s').
Proof. unfold bind, ret. by intros ->. Qed.

Lemma contents_nil_iff h (xs : list nat) : contents h xs = [] ↔ xs = [].
Proof. unfold contents. split; [apply fmap_nil_inv | by intros ->]. Qed.

(** What every mutation does to a well-formed list. *)
Lemma wp_perform s this l xs m (Q : unit → Store V → Prop) :
  lists s !! this = Some l →
  wf_list (nodes s) l xs →
  txn_ok s this l →
  (seeks m = true → linear_seek l) →
  concat_ok s this l xs m →
  insert_ok l m →
  (∀ s' l' xs',
     updated s' this l l' xs' →
     (if bumps_modCount (contents (nodes s) xs) (other_size s m) m
      then (_modCount l < _modCount l')%Z else _modCount l' = _modCount l) →
     Q tt s') →
  wp (perform localeCompare this m) Q s.
Proof.
  intros Hls Hwf Hok Hlin Hcat Hins HQ.
  pose proof (wf_size _ _ _ Hwf) as Hsz.
  pose proof (updated_refl _ _ _ _ Hls Hwf Hok) as Hrefl.
  destruct m as [v|v|values|values|v index| | |index|v comparator| | |compareFn
                |other|values|index v]; simpl in *.
  - eapply wp_append; [done..|]. intros s' l' Hup Hmc _. eapply HQ; [done|]. lia.
  - eapply wp_prepend; [done..|]. intros s' l' Hup Hmc _. eapply HQ; [done|]. lia.
  - apply wp_bind. eapply wp_push; [done..|].
    intros s' l' ys Hup _ Hmc _. apply wp_ret. eapply HQ; [done|]. lia.
  - apply wp_bind. eapply wp_unshift; [done..|].
    intros s' l' ys Hup _ Hmc _. apply wp_ret. eapply HQ; [done|]. lia.
  - eapply (wp_insertAt _ _ _ _ _ _ (Z.to_nat (resolve_insert (_size l) index)));
      [done..| by intros; apply Hlin | lia | lia |].
    intros s' l' Hup Hmc _. by eapply HQ.
  - destruct xs as [|x xs'] eqn:Exs.
    + eapply wp_intro; [eapply wp_bind_ret_intro; by eapply pop_empty|]. by eapply HQ.
    + apply wp_bind. eapply wp_pop; [done..|].
      intros s' l' r Hup Hmc. apply wp_ret. eapply HQ; [done|]. simpl. lia.
  - destruct xs as [|x xs'] eqn:Exs.
    + eapply wp_intro; [eapply wp_bind_ret_intro; by eapply shift_empty|]. by eapply HQ.
    + apply wp_bind. eapply wp_shift; [done..|].
      intros s' l' r Hup Hmc. apply wp_ret. eapply HQ; [done|]. simpl. lia.
  - rewrite length_contents, <- Hsz in HQ.
    destruct (in_range (_size l) index) eqn:Hr.
    + destruct (in_range_lookup xs _ index Hsz Hr) as (k & x & Hk & Hx).
      apply wp_bind. eapply wp_removeAt; [done..| by apply Hlin | done | done |].
      intros s' l' r Hup Hmc. apply wp_ret. eapply HQ; [done|]. lia.
    + eapply wp_intro; [eapply wp_bind_ret_intro; by eapply removeAt_out_of_range|].
      by eapply HQ.
  - apply wp_bind. eapply wp_remove; [done..|].
    intros s' l' r xs' Hup Hmc. apply wp_ret. eapply HQ; [done|].
    destruct (existsb _ _); lia.
  - destruct xs as [|x xs'] eqn:Exs.
    + eapply wp_intro; [by eapply clear_empty|]. by eapply HQ.
    + eapply wp_clear; [done..|]. intros s' l' Hup Hmc. eapply HQ; [done|]. simpl. lia.
  - rewrite length_contents, <- Hsz in HQ.
    destruct (Z.leb_spec 2 (_size l)).
    + eapply wp_reverse; [done..| lia |]. intros s' l' Hup Hmc _. eapply HQ; [done|]. lia.
    + eapply wp_intro; [by eapply reverse_short|]. by eapply HQ.
  - rewrite length_contents, <- Hsz in HQ.
    destruct (Z.leb_spec 2 (_size l)).
    + eapply wp_sort; [done..| lia |]. intros s' l' Hup Hmc. eapply HQ; [done|]. lia.
    + eapply wp_intro; [eapply sort_short; [done|lia]|]. by eapply HQ.
  - destruct Hcat as (Hne & o & ys & Hlo & Hwfo & Hdisj). rewrite Hlo in HQ. simpl in HQ.
    pose proof (wf_size _ _ _ Hwfo) as Hszo.
    destruct ys as [|y ys'] eqn:Eys.
    + eapply wp_intro; [by eapply concat_empty_donor|]. rewrite Hszo in HQ. by eapply HQ.
    + eapply wp_concat; [done..|].
      intros s' l' Hup Hmc _ _ _. eapply HQ; [done|].
      destruct (Z.eqb_spec (_size o) 0); [simpl in *; lia | simpl; lia].
  - unfold concat_iterable. apply wp_bind. eapply wp_push; [done..|].
    intros s' l' ys Hup _ Hmc _. apply wp_ret. eapply HQ; [done|]. lia.
  - destruct (in_range (_size l) index) eqn:Hr.
    + destruct (in_range_lookup xs _ index Hsz Hr) as (k & x & Hk & Hx).
      apply wp_bind. eapply wp_set; [done..| by apply Hlin | done | done |].
      intros s' Hup. apply wp_ret. by eapply HQ.
    + eapply wp_intro; [eapply wp_bind_ret_intro; by eapply set_out_of_range|].
      by eapply HQ.
Qed.

End Mutations.

Section CounterProofs.
Context {V : Type} `{JsValue V}.
Variable this : lref.
Context (P : relation Z) `{!PreOrder P}.

Local Set Default Proof Using "Type*".
Local Open Scope js_scope.
Implicit Types (s : Store V) (l : UltimateLinkedList).

(** ** The modification counter under every method

    What a method does to [_modCount] does not depend on the shape of the
    list or on its skip links. *)

Lemma bind_Ok_inv {A B} (m : M V A) (f : A → M V B) s r s' :
  bind m f s = Ok (r, s') → ∃ a s1, m s = Ok (a, s1) ∧ f a s1 = Ok (r, s').
Proof. unfold bind. destruct (m s) as [[a s1]| |]; [eauto|done..]. Qed.

Lemma reads_ret {A} (a : A) : reads (ret a : M V A).
Proof. intros s r s' [= _ <-]. done. Qed.

Lemma reads_bind {A B} (m : M V A) (f : A → M V B) :
  reads m → (∀ a, reads (f a)) → reads (bind m f).
Proof.
  intros Hm Hf s r s' E. apply bind_Ok_inv in E as (a & s1 & E1 & E2).
  apply Hm in E1 as ->. by apply Hf in E2.
Qed.

Lemma reads_getNode p : reads (getNode p : M V _).
Proof.
  intros s r s'. unfold getNode. destruct p as [a|]; [|done].
  destruct (nodes s !! a); [|done]. by intros [= _ <-].
Qed.

Lemma reads_getList o : reads (getList o : M V _).
Proof. intros s r s'. unfold getList. destruct (lists s !! o); [|done]. by intros [= _ <-]. Qed.

Lemma reads_getNext p : reads (getNext p : M V _).
Proof. apply reads_bind; [apply reads_getNode|intros; apply reads_ret]. Qed.
Lemma reads_getPrev p : reads (getPrev p : M V _).
Proof. apply reads_bind; [apply reads_getNode|intros; apply reads_ret]. Qed.
Lemma reads_getSkip p : reads (getSkip p : M V _).
Proof. apply reads_bind; [apply reads_getNode|intros; apply reads_ret]. Qed.
Lemma reads_getValue p : reads (getValue p : M V _).
Proof. apply reads_bind; [apply reads_getNode|intros; apply reads_ret]. Qed.

Lemma reads_walkNext n p : reads (walkNext n p : M V _).
Proof.
  revert p. induction n as [|n IH]; intros p; simpl; [apply reads_ret|].
  apply reads_bind; [apply reads_getNext|done].
Qed.

Lemma reads_walkPrev n p : reads (walkPrev n p : M V _).
Proof.
  revert p. induction n as [|n IH]; intros p; simpl; [apply reads_ret|].
  apply reads_bind; [apply reads_getPrev|done].
Qed.

Lemma reads_skipForward fuel d index p idx :
  reads (skipForward fuel d index p idx : M V _).
Proof.
  revert p idx. induction fuel as [|fuel IH]; intros p idx; simpl;
    (apply reads_bind; [apply reads_getSkip|]); intros q;
    (destruct (_ && _); [|apply reads_ret]); [by intros ? ? ?|done].
Qed.

Lemma reads_skipTarget tl n p : reads (skipTarget tl n p : M V _).
Proof.
  revert p. induction n as [|n IH]; intros p; simpl; [apply reads_ret|].
  case_bool_decide; [apply reads_ret|].
  apply reads_bind; [apply reads_getNext|done].
Qed.

(** [_nodeAt] only reads, on each of its three paths. *)
Lemma reads_nodeAt o index : reads (_nodeAt o index : M V _).
Proof.
  unfold _nodeAt. apply reads_bind; [apply reads_getList|]. intros l.
  destruct (_ || _); [apply reads_ret|].
  destruct (_ <=? _)%Z; [destruct (_ && _)|].
  - apply reads_bind; [apply reads_getNext|]. intros p.
    apply reads_bind; [apply reads_skipForward|]. intros [q idx].
    apply reads_bind; [apply reads_walkNext|]. intros; apply reads_ret.
  - apply reads_bind; [apply reads_getNext|]. intros p.
    apply reads_bind; [apply reads_walkNext|]. intros; apply reads_ret.
  - apply reads_bind; [apply reads_getPrev|]. intros p.
    apply reads_bind; [apply reads_walkPrev|]. intros; apply reads_ret.
Qed.

Lemma counter_moves_refl s : counter_moves P this s s.
Proof. intros l Hl. by exists l. Qed.

Lemma counter_moves_trans s1 s2 s3 :
  counter_moves P this s1 s2 → counter_moves P this s2 s3 → counter_moves P this s1 s3.
Proof.
  intros H12 H23 l Hl. destruct (H12 l Hl) as (l2 & Hl2 & ?).
  destruct (H23 l2 Hl2) as (l3 & Hl3 & ?). exists l3. split; [done|]. by etrans.
Qed.

(** A step that leaves the list objects alone. *)
Lemma counter_moves_lists s s' : lists s' = lists s → counter_moves P this s s'.
Proof. intros E l Hl. rewrite E. by exists l. Qed.

Lemma moves_reads {A} (m : M V A) : reads m → moves_counter P this m.
Proof. intros Hm s r s' E. apply Hm in E as ->. apply counter_moves_refl. Qed.

Lemma moves_ret {A} (a : A) : moves_counter P this (ret a : M V A).
Proof. apply moves_reads, reads_ret. Qed.

Lemma moves_bind {A B} (m : M V A) (f : A → M V B) :
  moves_counter P this m → (∀ a, moves_counter P this (f a)) →
  moves_counter P this (bind m f).
Proof.
  intros Hm Hf s r s' E. apply bind_Ok_inv in E as (a & s1 & E1 & E2).
  eapply counter_moves_trans; [by eapply Hm | by eapply Hf].
Qed.

Lemma moves_when (c : bool) (m : M V unit) :
  moves_counter P this m → moves_counter P this (when c m).
Proof. intros Hm. destruct c; [done|apply moves_ret]. Qed.

Lemma moves_modNode p f : moves_counter P this (modNode p f : M V _).
Proof.
  intros s r s'. unfold modNode. destruct p as [a|]; [|done].
  destruct (nodes s !! a); [|done]. intros [= _ <-]. by apply counter_moves_lists.
Qed.

Lemma moves_allocNode n : moves_counter P this (allocNode n : M V _).
Proof. intros s r s' [= _ <-]. by apply counter_moves_lists. Qed.

Lemma moves_modTxn t f : moves_counter P this (modTxn t f : M V _).
Proof.
  intros s r s'. unfold modTxn. destruct (txns s !! t); [|done].
  intros [= _ <-]. by apply counter_moves_lists.
Qed.

Lemma moves_callAll fs e : moves_counter P this (callAll fs e : M V _).
Proof.
  induction fs as [|f fs IH]; simpl; [apply moves_ret|].
  apply moves_bind; [|done]. intros s r s' [= _ <-]. by apply counter_moves_lists.
Qed.

(** An assignment to a field of a list object other than [_modCount]. *)
Lemma moves_modList o f :
  (∀ l, P (_modCount l) (_modCount (f l))) → moves_counter P this (modList o f : M V _).
Proof.
  intros Hf s r s'. unfold modList. destruct (lists s !! o) eqn:Ho; [|done].
  intros [= _ <-] l Hl. cbn [lists with_lists].
  destruct (decide (o = this)) as [->|Hne].
  - rewrite list_lookup_alter_eq, Hl. simpl. eauto.
  - rewrite list_lookup_alter_ne by done. by exists l.
Qed.

Lemma moves_notify o e : moves_counter P this (_notify o e : M V _).
Proof.
  unfold _notify. apply moves_bind; [apply moves_reads, reads_getList|]. intros l.
  destruct (_transaction l); [apply moves_modTxn|apply moves_callAll].
Qed.

Lemma moves_addNodeAfter o p v : moves_counter P this (_addNodeAfter o p v : M V _).
Proof.
  unfold _addNodeAfter, setNext, setPrev.
  repeat first
    [ apply moves_ret | apply moves_modNode | apply moves_allocNode | apply moves_notify
    | apply moves_when
    | apply moves_reads; first [apply reads_getNext | apply reads_getList]
    | apply moves_modList; intros; reflexivity
    | apply moves_bind; [|intros] ].
Qed.

Lemma moves_removeNode o p : moves_counter P this (_removeNode o p : M V _).
Proof.
  unfold _removeNode, setNext, setPrev.
  repeat first
    [ apply moves_ret | apply moves_modNode | apply moves_notify | apply moves_when
    | apply moves_reads;
      first [apply reads_getNext | apply reads_getPrev | apply reads_getValue
            | apply reads_getList]
    | apply moves_modList; intros; reflexivity
    | apply moves_bind; [|intros] ].
Qed.

Lemma moves_updateSkipLinks_loop fuel tl d p count :
  moves_counter P this (updateSkipLinks_loop fuel tl d p count : M V _).
Proof.
  revert p count. induction fuel as [|fuel IH]; intros p count; simpl;
    (case_bool_decide; [apply moves_ret|]); [by intros ? ? ?|].
  apply moves_bind.
  - apply moves_when, moves_bind; [apply moves_reads, reads_skipTarget|].
    intros. apply moves_modNode.
  - intros _. apply moves_bind; [apply moves_reads, reads_getNext|]. intros. apply IH.
Qed.

Lemma moves_updateSkipLinks o : moves_counter P this (_updateSkipLinks o : M V _).
Proof.
  unfold _updateSkipLinks. apply moves_bind; [apply moves_reads, reads_getList|]. intros l.
  destruct (_ || _); [apply moves_ret|].
  apply moves_bind; [apply moves_reads, reads_getNext|]. intros p.
  apply moves_bind; [by intros s r s' [= _ <-]; apply counter_moves_refl|]. intros fuel.
  apply moves_updateSkipLinks_loop.
Qed.

(** [set] has no [this._modCount++]. *)
Lemma moves_set o index v : moves_counter P this (set o index v : M V _).
Proof.
  unfold set. apply moves_bind; [apply moves_reads, reads_nodeAt|]. intros [node i].
  destruct (negb _); [apply moves_ret|]. unfold setValue.
  repeat first
    [ apply moves_ret | apply moves_modNode | apply moves_notify | apply moves_when
    | apply moves_reads; first [apply reads_getValue | apply reads_getList]
    | apply moves_bind; [|intros] ].
Qed.

End CounterProofs.

Section CounterUp.
Context {V : Type} `{JsValue V}.
Variable this : lref.

Local Set Default Proof Using "Type*".
Local Open Scope js_scope.
Implicit Types (s : Store V) (l : UltimateLinkedList).

Local Abbreviation rises := (moves_counter Z.le this).

Lemma rises_bumpModCount o : rises (bumpModCount o : M V _).
Proof. apply moves_modList; [apply _|]. intros l. simpl. lia. Qed.

Ltac rises_tac :=
  repeat first
    [ match goal with |- PreOrder _ => apply _ end
    | apply moves_ret
    | apply moves_addNodeAfter
    | apply moves_removeNode
    | apply moves_updateSkipLinks
    | apply moves_when
    | apply rises_bumpModCount
    | apply moves_reads;
      [apply _
      |first [apply reads_getNext | apply reads_getPrev | apply reads_getList
             | apply reads_nodeAt]]
    | apply moves_bind; [apply _| |intros] ].

Lemma rises_append o v : rises (append o v : M V _).
Proof. unfold append. rises_tac. Qed.

Lemma rises_prepend o v : rises (prepend o v : M V _).
Proof. unfold prepend. rises_tac. Qed.

(** After [this._modCount++] the counter of [this] is greater, whatever
    follows. *)
Lemma bumped_then {A} (m : M V A) s l r s' :
  lists s !! this = Some l →
  rises m →
  bind (bumpModCount this) (λ _, m) s = Ok (r, s') →
  ∃ l', lists s' !! this = Some l' ∧ (_modCount l < _modCount l')%Z.
Proof.
  intros Hl Hm E. apply bind_Ok_inv in E as ([] & s1 & E1 & E2).
  unfold bumpModCount, modList in E1. rewrite Hl in E1. injection E1 as <-.
  destruct (Hm _ _ _ E2 (set_modCount l (_modCount l + 1))) as (l' & Hl' & Hle).
  { cbn [lists with_lists]. by rewrite list_lookup_alter_eq, Hl. }
  exists l'. split; [done|]. simpl in Hle. lia.
Qed.

(** [insertAt] that returns has counted, once or twice. *)
Lemma insertAt_counts s l v index s' :
  lists s !! this = Some l →
  insertAt this v index s = Ok (tt, s') →
  ∃ l', lists s' !! this = Some l' ∧ (_modCount l < _modCount l')%Z.
Proof.
  intros Hl E. unfold insertAt in E.
  apply bind_Ok_inv in E as (l0 & s1 & E1 & E).
  pose proof (reads_getList _ _ _ _ E1) as ->.
  unfold getList in E1. rewrite Hl in E1. injection E1 as <-.
  destruct (_ || _); [done|].
  eapply bumped_then; [done| |exact E].
  destruct (_ =? 0)%Z; [apply rises_prepend|].
  destruct (_ =? _)%Z; [apply rises_append|].
  apply moves_bind; [apply _|apply moves_reads; [apply _|apply reads_nodeAt]|].
  intros [node i]. rises_tac.
Qed.

(** [removeAt] counts when [_nodeAt] has found it a node, and otherwise
    returns with the store as it was. *)
Lemma removeAt_counts s l index v s' :
  lists s !! this = Some l →
  removeAt this index s = Ok (v, s') →
  match _nodeAt this index s with
  | Ok ((Some _, _), _) =>
      ∃ l', lists s' !! this = Some l' ∧ (_modCount l < _modCount l')%Z
  | _ => s' = s
  end.
Proof.
  intros Hl E. unfold removeAt in E.
  apply bind_Ok_inv in E as ([node i] & s1 & E1 & E).
  pose proof (reads_nodeAt _ _ _ _ _ E1) as ->. rewrite E1.
  destruct node as [a|]; simpl in E.
  - eapply bumped_then; [done| |exact E]. rises_tac.
  - by injection E as _ <-.
Qed.

End CounterUp.

Section Claims.
Context {V : Type} `{JsValue V}.
Variable localeCompare : V → V → Z.

Implicit Types (s : Store V) (l : UltimateLinkedList).

(** C4, as amended.  On a well-formed container, every mutation that
    returns leaves the element count equal to the number of nodes strictly
    between the sentinels.  The calls that get past the guard of their
    method ([append], [prepend], [push], [unshift], [insertAt], and [pop],
    [shift], [removeAt], [remove], [clear], [reverse], [sort], [concat] when
    they have something to do) strictly increase the modification counter;
    [set], and the calls that return at their guard, leave it unchanged.
    The mutations that seek by index are covered where [_nodeAt] takes its
    linear path. *)
Theorem mutations_keep_size_and_count_changes s this l xs m :
  lists s !! this = Some l →
  wf_list (nodes s) l xs →
  txn_ok s this l →
  (seeks m = true → linear_seek l) →
  concat_ok s this l xs m →
  (insert_ok l m →
   ∃ s' l' xs',
     perform localeCompare this m s = Ok (tt, s') ∧
     lists s' !! this = Some l' ∧
     wf_list (nodes s') l' xs' ∧
     txn_ok s' this l' ∧
     _size l' = Z.of_nat (length xs') ∧
     if bumps_modCount (contents (nodes s) xs) (other_size s m) m
     then (_modCount l < _modCount l')%Z else _modCount l' = _modCount l) ∧
  (¬ insert_ok l m → perform localeCompare this m s = Throw RangeError).
Proof.
  intros Hls Hwf Hok Hlin Hcat. split.
  - intros Hins.
    pose proof (wp_perform localeCompare s this l xs m
      (λ _ s', ∃ l' xs', lists s' !! this = Some l' ∧ wf_list (nodes s') l' xs' ∧
         txn_ok s' this l' ∧ _size l' = Z.of_nat (length xs') ∧
         if bumps_modCount (contents (nodes s) xs) (other_size s m) m
         then (_modCount l < _modCount l')%Z else _modCount l' = _modCount l)
      Hls Hwf Hok Hlin Hcat Hins) as Hwp.
    apply wp_elim in Hwp as ([] & s' & E & l' & xs' & ?); [by exists s', l', xs'|].
    intros s' l' xs' [? Hwf' ? ? ? ?] Hmc. exists l', xs'. split_and!; try done.
    apply Hwf'.
  - intros Hins. destruct m; simpl in *; try (exfalso; by apply Hins).
    exact (insertAt_out_of_range s this l v index Hls Hins).
Qed.

(** C5, as amended.  [insertAt(value, i)] resolves a negative [i] as
    [n + i + 1] and fails with a [RangeError] exactly when the resolved
    index is outside [0, n]; otherwise, on a well-formed container where
    [_nodeAt] takes its linear path, it returns, the size is [n + 1] and
    the value stands at the resolved position. *)
Theorem insertAt_resolves_from_the_end s this l xs v index :
  lists s !! this = Some l →
  wf_list (nodes s) l xs →
  txn_ok s this l →
  linear_seek l →
  let r := resolve_insert (_size l) index in
  let vs := contents (nodes s) xs in
  toArray this s = Ok (vs, s) ∧
  ((0 ≤ r ≤ _size l)%Z →
   ∃ s', insertAt this v index s = Ok (tt, s') ∧
         length_ this s' = Ok ((_size l + 1)%Z, s') ∧
         toArray this s' = Ok (take (Z.to_nat r) vs ++ v :: drop (Z.to_nat r) vs, s')) ∧
  (¬ (0 ≤ r ≤ _size l)%Z → insertAt this v index s = Throw RangeError).
Proof.
  intros Hls Hwf Hok Hlin r vs. split_and!.
  - by apply (toArray_wf s this l xs).
  - intros Hr. pose proof (wf_size _ _ _ Hwf) as Hsz.
    assert (wp (insertAt this v index)
      (λ _ s', length_ this s' = Ok ((_size l + 1)%Z, s') ∧
         toArray this s' = Ok (take (Z.to_nat r) vs ++ v :: drop (Z.to_nat r) vs, s')) s)
      as Hwp.
    { eapply (wp_insertAt _ _ _ _ _ _ (Z.to_nat r)); [done..| by intros | | |].
      { fold r. lia. }
      { lia. }
      intros s' l' [Hls' Hwf' _ _ _ _] _ Hc. split.
      - unfold length_, bind, getList, ret. rewrite Hls'.
        rewrite (wf_size _ _ _ Hwf'), Hsz. do 2 f_equal.
        rewrite length_app, length_take. simpl. rewrite length_drop. lia.
      - rewrite (toArray_wf _ _ _ _ Hls' Hwf'). by rewrite Hc. }
    apply wp_elim in Hwp as ([] & s' & E & ? & ?). by exists s'.
  - intros Hr. exact (insertAt_out_of_range s this l v index Hls Hr).
Qed.

(** C7.  For two containers [A] (of size [m], holding [va]) and [B] (of
    size [n], holding [vb]) that share no node, after [A.concat(B)]:
    [A.length] is [m + n], [B.length] is [0], [A.toArray()] is [va ++ vb]
    and [B.toArray()] is empty. *)
Theorem concat_moves_the_elements s A B la lb xa xb :
  A ≠ B →
  lists s !! A = Some la →
  lists s !! B = Some lb →
  wf_list (nodes s) la xa →
  wf_list (nodes s) lb xb →
  txn_ok s A la →
  (∀ x, x ∈ _head la :: xa ++ [_tail la] → x ∉ _head lb :: xb ++ [_tail lb]) →
  let va := contents (nodes s) xa in
  let vb := contents (nodes s) xb in
  length_ A s = Ok (Z.of_nat (length va), s) ∧
  length_ B s = Ok (Z.of_nat (length vb), s) ∧
  toArray A s = Ok (va, s) ∧
  toArray B s = Ok (vb, s) ∧
  ∃ s', concat A B s = Ok (tt, s') ∧
        length_ A s' = Ok (Z.of_nat (length va + length vb), s') ∧
        length_ B s' = Ok (0%Z, s') ∧
        toArray A s' = Ok (va ++ vb, s') ∧
        toArray B s' = Ok ([], s').
Proof.
  intros Hne HlA HlB HwfA HwfB Hok Hdisj va vb.
  pose proof (wf_size _ _ _ HwfA) as HszA. pose proof (wf_size _ _ _ HwfB) as HszB.
  assert (∀ s0 this l0 xs0, lists s0 !! this = Some l0 → wf_list (nodes s0) l0 xs0 →
            length_ this s0 = Ok (Z.of_nat (length xs0), s0)) as Hlen.
  { intros s0 this l0 xs0 Hl0 Hwf0. unfold length_, bind, getList, ret.
    by rewrite Hl0, (wf_size _ _ _ Hwf0). }
  subst va vb. rewrite !length_contents. split_and!.
  - by eapply Hlen.
  - by eapply Hlen.
  - by apply (toArray_wf s A la xa).
  - by apply (toArray_wf s B lb xb).
  - destruct xb as [|y xb'] eqn:Exb.
    + exists s. split_and!.
      * by eapply concat_empty_donor.
      * rewrite Nat.add_0_r. by eapply Hlen.
      * unfold length_, bind, getList, ret. by rewrite HlB, HszB.
      * rewrite app_nil_r. by apply (toArray_wf s A la xa).
      * by apply (toArray_wf s B lb []).
    + assert (wp (concat A B)
        (λ _ s', length_ A s' = Ok (Z.of_nat (length xa + length (y :: xb')), s') ∧
                 length_ B s' = Ok (0%Z, s') ∧
                 toArray A s' = Ok (contents (nodes s) xa ++ contents (nodes s) (y :: xb'), s') ∧
                 toArray B s' = Ok ([], s')) s) as Hwp.
      { eapply wp_concat; [done..|].
        intros s' l' [Hl' Hwf' _ _ _ _] _ Hc HlB' HwfB'. split_and!.
        - rewrite (Hlen _ _ _ _ Hl' Hwf'). by rewrite length_app.
        - by rewrite (Hlen _ _ _ _ HlB' HwfB').
        - rewrite (toArray_wf _ _ _ _ Hl' Hwf'). by rewrite Hc.
        - by rewrite (toArray_wf _ _ _ _ HlB' HwfB'). }
      apply wp_elim in Hwp as ([] & s' & E & ?). by exists s'.
Qed.

(** C8, as amended.  An iteration over a well-formed container that no
    mutation interrupts yields all its values in forward order.  For an
    iterator whose captured counter is the container's current one:
    every mutation returns, where it seeks by index on the linear path of
    [_nodeAt], and the next step of the iterator then fails with the
    concurrent-modification fault if the mutation got past the guard of
    its method and was not a [set], while after a [set], or a call that
    returned at its guard, the next step does not raise that fault.
    Whatever the skip links are, the same holds of every mutation that
    returns: [insertAt] is detected, [removeAt] is detected when [_nodeAt]
    has found it a node and has changed nothing otherwise, [set] is not
    detected. *)
Theorem iteration_detects_counted_mutations s this l xs m it :
  lists s !! this = Some l →
  wf_list (nodes s) l xs →
  txn_ok s this l →
  concat_ok s this l xs m →
  it_list it = this →
  expectedModCount it = _modCount l →
  spread_list this s = Ok (contents (nodes s) xs, s) ∧
  (insert_ok l m → (seeks m = true → linear_seek l) →
   ∃ s', perform localeCompare this m s = Ok (tt, s') ∧
         if bumps_modCount (contents (nodes s) xs) (other_size s m) m
         then iterator_next it s' = Throw ConcurrentModification
         else iterator_next it s' ≠ Throw ConcurrentModification) ∧
  (∀ s', perform localeCompare this m s = Ok (tt, s') →
         if gets_past_guard s this (contents (nodes s) xs) m
         then iterator_next it s' = Throw ConcurrentModification
         else iterator_next it s' ≠ Throw ConcurrentModification).
Proof.
  intros Hls Hwf Hok Hcat Hit He.
  assert (insert_ok l m → (seeks m = true → linear_seek l) →
          ∃ s', perform localeCompare this m s = Ok (tt, s') ∧
                if bumps_modCount (contents (nodes s) xs) (other_size s m) m
                then iterator_next it s' = Throw ConcurrentModification
                else iterator_next it s' ≠ Throw ConcurrentModification) as Hlinear.
  { intros Hins Hlin.
    pose proof (wp_perform localeCompare s this l xs m
      (λ _ s', if bumps_modCount (contents (nodes s) xs) (other_size s m) m
               then iterator_next it s' = Throw ConcurrentModification
               else iterator_next it s' ≠ Throw ConcurrentModification)
      Hls Hwf Hok Hlin Hcat Hins) as Hwp.
    apply wp_elim in Hwp as ([] & s' & E & ?); [by exists s'|].
    intros s1 l1 xs1 [Hls1 _ _ _ _ _] Hmc. subst this.
    destruct (bumps_modCount _ _ _).
    - eapply iterator_next_stale; [done|]. lia.
    - eapply iterator_next_fresh; [done|]. congruence. }
  split; [by apply (spread_list_wf s this l xs)|]. split; [done|].
  intros s' E.
  assert (∀ l', lists s' !! this = Some l' → (_modCount l < _modCount l')%Z →
                iterator_next it s' = Throw ConcurrentModification) as Hstale.
  { intros l' Hl' Hlt. eapply iterator_next_stale; [by rewrite Hit|]. lia. }
  assert (∀ l', lists s' !! this = Some l' → _modCount l' = _modCount l →
                iterator_next it s' ≠ Throw ConcurrentModification) as Hfresh.
  { intros l' Hl' Heq. eapply iterator_next_fresh; [by rewrite Hit|]. congruence. }
  destruct (decide (seeks m = true)) as [Hseek|Hseek].
  - destruct m as [| | | |v index| | |index| | | | | | |index v]; try done; simpl in E |- *.
    + destruct (insertAt_counts this s l v index s' Hls E) as (l' & Hl' & Hlt). eauto.
    + apply bind_Ok_inv in E as (v & s1 & E & [= <-]).
      pose proof (removeAt_counts this s l index v s1 Hls E) as Hc.
      destruct (_nodeAt this index s) as [[[[a|] i] s2]| |].
      * destruct Hc as (l' & Hl' & Hlt). eauto.
      * subst s1. eauto.
      * subst s1. eauto.
      * subst s1. eauto.
    + apply bind_Ok_inv in E as (b & s1 & E & [= <-]).
      destruct (moves_set this eq this index v s b s1 E l Hls) as (l' & Hl' & Heq). eauto.
  - destruct Hlinear as (s'' & E' & Hdet).
    + by destruct m.
    + done.
    + rewrite E in E'. injection E' as <-. by destruct m.
Qed.

End Claims.

(** * The methods on the values a list holds *)

Section Refinement.
Context {V : Type} `{JsValue V}.

Local Open Scope js_scope.
Implicit Types (s : Store V) (l : UltimateLinkedList).

(** ** The mutating methods *)

Lemma represents_intro s this l xs :
  lists s !! this = Some l → wf_list (nodes s) l xs → txn_ok s this l →
  represents s this (contents (nodes s) xs).
Proof. intros. by exists l, xs. Qed.

Lemma represents_updated s' this l l' xs vs :
  updated s' this l l' xs → contents (nodes s') xs = vs → represents s' this vs.
Proof. intros [? ? ? _ _ _] ?. by exists l', xs. Qed.

Lemma represents_toArray s this vs :
  represents s this vs → toArray this s = Ok (vs, s).
Proof. intros (l & xs & Hls & Hwf & _ & <-). by apply (toArray_wf s this l xs). Qed.

Lemma represents_length s this vs :
  represents s this vs → length_ this s = Ok (Z.of_nat (length vs), s).
Proof.
  intros (l & xs & Hls & Hwf & _ & <-). unfold length_, bind, getList, ret.
  by rewrite Hls, (wf_size _ _ _ Hwf), length_contents.
Qed.

Lemma represents_spread s this vs :
  represents s this vs → spread_list this s = Ok (vs, s).
Proof. intros (l & xs & Hls & Hwf & _ & <-). by apply (spread_list_wf s this l xs). Qed.

(** [pop] with what it returns and what it leaves. *)
Lemma wp_pop_last s this l xs (Q : V → Store V → Prop) :
  lists s !! this = Some l →
  wf_list (nodes s) l xs →
  txn_ok s this l →
  xs ≠ [] →
  (∀ s' l', updated s' this l l' (removelast xs) →
            contents (nodes s') (removelast xs) = removelast (contents (nodes s) xs) →
            Q (default undefined (last (contents (nodes s) xs))) s') →
  wp (pop this) Q s.
Proof.
  intros Hls Hwf Hok Hne HQ. unfold pop, isEmpty.
  apply wp_bind, wp_bind. eapply wp_getList; [done|]. apply wp_ret.
  pose proof (wf_size _ _ _ Hwf) as Hsz.
  destruct (Z.eqb_spec (_size l) 0) as [E|_]; [destruct xs; simpl in *; [done|lia]|].
  apply wp_bind. eapply wp_bumpModCount; [done|].
  set (l1 := set_modCount l (_modCount l + 1)).
  apply wp_bind. eapply wp_getList. { hsimpl. by rewrite Hls. }
  destruct (wf_list_last _ _ _ Hwf) as (p & Hp & [_ Hpt]).
  apply wp_bind. eapply wp_getPrev; [done|].
  destruct (exists_last Hne) as (xs1 & x & ->).
  assert (p = x) as ->.
  { change (_head l :: xs1 ++ [x]) with ((_head l :: xs1) ++ [x]) in Hp.
    rewrite last_snoc in Hp. congruence. }
  eapply (wp_removeNode_wf _ this l1 xs1 x []); [| |by eapply txn_ok_lists|].
  { hsimpl. by rewrite Hls. }
  { by eapply wf_list_record. }
  intros s' Hup Hc. cbn [nodes with_lists] in Hc.
  rewrite contents_app in HQ.
  change (contents (nodes s) [x]) with [default undefined (val (nodes s) x)] in HQ.
  rewrite last_snoc, !removelast_last in HQ. simpl in HQ. rewrite !app_nil_r in *.
  apply (HQ s' (set_size l1 (_size l1 - 1))); [|done].
  by eapply updated_from.
Qed.

(** [shift] with what it returns and what it leaves. *)
Lemma wp_shift_head s this l xs (Q : V → Store V → Prop) :
  lists s !! this = Some l →
  wf_list (nodes s) l xs →
  txn_ok s this l →
  xs ≠ [] →
  (∀ s' l', updated s' this l l' (tail xs) →
            contents (nodes s') (tail xs) = tail (contents (nodes s) xs) →
            Q (default undefined (head (contents (nodes s) xs))) s') →
  wp (shift this) Q s.
Proof.
  intros Hls Hwf Hok Hne HQ. unfold shift, isEmpty.
  apply wp_bind, wp_bind. eapply wp_getList; [done|]. apply wp_ret.
  pose proof (wf_size _ _ _ Hwf) as Hsz.
  destruct xs as [|x xs]; [done|].
  destruct (Z.eqb_spec (_size l) 0) as [E|_]; [simpl in *; lia|].
  apply wp_bind. eapply wp_bumpModCount; [done|].
  set (l1 := set_modCount l (_modCount l + 1)).
  apply wp_bind. eapply wp_getList. { hsimpl. by rewrite Hls. }
  destruct (wf_list_first _ _ _ Hwf) as (q & Hq & [Hn _]). simpl in Hq. simplify_eq.
  apply wp_bind. eapply wp_getNext; [done|].
  eapply (wp_removeNode_wf _ this l1 [] q xs); [| |by eapply txn_ok_lists|].
  { hsimpl. by rewrite Hls. }
  { by eapply wf_list_record. }
  intros s' Hup Hc. apply (HQ s' (set_size l1 (_size l1 - 1))); [|exact Hc].
  by eapply updated_from.
Qed.

Lemma contents_lookup h xs k x :
  xs !! k = Some x → contents h xs !! k = Some (default undefined (val h x)).
Proof. intros Hk. unfold contents. by rewrite list_lookup_fmap, Hk. Qed.

Lemma contents_delete h k xs : contents h (delete k xs) = delete k (contents h xs).
Proof. by rewrite !delete_take_drop, contents_app, contents_take, contents_drop. Qed.

(** [removeAt] with what it returns and what it leaves. *)
Lemma wp_removeAt_value s this l xs index k x (Q : V → Store V → Prop) :
  lists s !! this = Some l →
  wf_list (nodes s) l xs →
  txn_ok s this l →
  linear_seek l →
  resolve (_size l) index = Z.of_nat k →
  xs !! k = Some x →
  (∀ s' l', updated s' this l l' (delete k xs) →
            contents (nodes s') (delete k xs) = delete k (contents (nodes s) xs) →
            Q (default undefined (val (nodes s) x)) s') →
  wp (removeAt this index) Q s.
Proof.
  intros Hls Hwf Hok Hlin Hres Hk HQ. unfold removeAt.
  apply wp_bind. eapply wp_nodeAt; [done..|].
  rewrite bool_decide_true by eauto. simpl.
  apply wp_bind. eapply wp_bumpModCount; [done|].
  set (l1 := set_modCount l (_modCount l + 1)).
  pose proof (take_drop_middle _ _ _ Hk) as E.
  assert (wf_list (nodes s) l1 (take k xs ++ x :: drop (S k) xs)) as Hwf1.
  { rewrite E. by eapply wf_list_record. }
  apply wp_bind. eapply (wp_removeNode_wf _ this l1 _ x _); [|done|by eapply txn_ok_lists|].
  { hsimpl. by rewrite Hls. }
  intros s' Hup Hc. cbn [nodes with_lists] in Hc.
  apply wp_bind. eapply wp_getList; [apply Hup|].
  apply wp_bind. eapply wp_when_updateSkipLinks; [done|].
  intros s'' Hup' Hc'. apply wp_ret.
  apply (HQ s'' (set_size l1 (_size l1 - 1))).
  - rewrite delete_take_drop. by eapply updated_from.
  - rewrite !delete_take_drop, <- contents_take, <- contents_drop.
    exact (eq_trans Hc' Hc).
Qed.

(** [remove] takes out the first element the comparator accepts, and
    touches nothing when there is none. *)
Lemma wp_remove_loop_first this (comparator : V → V → bool) v xs2 xs1 fuel s l q
    (Q : V → Store V → Prop) :
  lists s !! this = Some l →
  wf_list (nodes s) l (xs1 ++ xs2) →
  txn_ok s this l →
  head (xs2 ++ [_tail l]) = Some q →
  length xs2 ≤ fuel →
  (∀ s' l' r xs',
     updated s' this l l' xs' →
     match list_find (λ x, comparator x v) (contents (nodes s) xs2) with
     | Some (i, x) =>
         r = x ∧ contents (nodes s') xs'
                 = contents (nodes s) xs1 ++ delete i (contents (nodes s) xs2)
     | None => r = undefined ∧ s' = s ∧ xs' = xs1 ++ xs2
     end →
     Q r s') →
  wp (remove_loop fuel this (_tail l) comparator v (Some q)) Q s.
Proof.
  revert xs1 fuel q. induction xs2 as [|x xs2 IH]; intros xs1 fuel q Hls Hwf Hok Hq Hfuel HQ.
  - simpl in Hq. simplify_eq.
    destruct fuel; simpl; rewrite bool_decide_true by done; apply wp_ret;
      apply (HQ s l undefined (xs1 ++ [])); try done; by apply updated_refl.
  - simpl in Hq. simplify_eq.
    destruct fuel as [|fuel]; [simpl in Hfuel; lia|]. simpl.
    rewrite bool_decide_false; last first.
    { intros [= E]. eapply (wf_list_elem_not_tail _ _ _ q); [done| |done]. set_solver. }
    assert (q < length (nodes s)) as Hx.
    { eapply wf_list_fresh; [done|]. set_solver. }
    destruct (fld_valid value _ _ Hx) as (n & _ & Hv).
    apply wp_bind. eapply wp_getValue; [done|].
    assert (contents (nodes s) (q :: xs2) = value n :: contents (nodes s) xs2) as Ec.
    { unfold contents. rewrite fmap_cons. unfold val. by rewrite Hv. }
    rewrite Ec in HQ. cbn [list_find] in HQ.
    destruct (comparator (value n) v) eqn:Hcmp.
    + rewrite decide_True in HQ by done.
      apply wp_bind. eapply wp_bumpModCount; [done|].
      set (l1 := set_modCount l (_modCount l + 1)).
      eapply (wp_removeNode_wf _ this l1 xs1 q xs2); [| |by eapply txn_ok_lists|].
      { hsimpl. by rewrite Hls. }
      { by eapply wf_list_record. }
      intros s' Hup Hc. cbn [nodes with_lists] in *. unfold val. rewrite Hv. simpl.
      apply (HQ s' (set_size l1 (_size l1 - 1)) _ (xs1 ++ xs2)).
      * by eapply updated_from.
      * split; [done|]. exact Hc.
    + rewrite decide_False in HQ by exact id.
      pose proof Hwf as Hwf'. rewrite (cons_middle q xs1 xs2), (assoc_L (++)) in Hwf'.
      destruct (wf_list_split _ _ _ _ Hwf') as (l1' & l2' & x2 & q' & E1 & E2 & _ & [Hn _]).
      assert (x2 = q) as ->.
      { change (_head l :: xs1 ++ [q]) with ((_head l :: xs1) ++ [q]) in E1.
        by apply app_inj_tail in E1 as [_ ?]. }
      apply wp_bind. eapply wp_getNext; [done|].
      eapply (IH (xs1 ++ [q])); [done..| by rewrite E2 | simpl in Hfuel; lia |].
      intros s' l' r xs' Hup Hfind. apply (HQ s' l' r xs' Hup).
      destruct (list_find _ (contents (nodes s) xs2)) as [[i y]|]; simpl.
      * destruct Hfind as [-> Hc]. split; [done|]. rewrite Hc, contents_app.
        rewrite <- (assoc_L (++)). do 2 f_equal.
        unfold contents at 1. simpl. unfold val. by rewrite Hv.
      * destruct Hfind as (-> & -> & ->). by rewrite <- (assoc_L (++)).
Qed.

Lemma wp_remove_first s this l xs v (comparator : V → V → bool)
    (Q : V → Store V → Prop) :
  lists s !! this = Some l →
  wf_list (nodes s) l xs →
  txn_ok s this l →
  (∀ s' l' r xs',
     updated s' this l l' xs' →
     match list_find (λ x, comparator x v) (contents (nodes s) xs) with
     | Some (i, x) =>
         r = x ∧ contents (nodes s') xs' = delete i (contents (nodes s) xs)
     | None => r = undefined ∧ s' = s ∧ xs' = xs
     end →
     Q r s') →
  wp (remove this v comparator) Q s.
Proof.
  intros Hls Hwf Hok HQ. unfold remove.
  apply wp_bind. eapply wp_getList; [done|].
  destruct (wf_list_first _ _ _ Hwf) as (q & Hq & [Hn _]).
  apply wp_bind. eapply wp_getNext; [done|].
  apply wp_bind, wp_getFuel.
  eapply (wp_remove_loop_first _ _ _ xs []); [done..| |done].
  pose proof (wf_list_bound _ _ _ Hwf). lia.
Qed.

Lemma contents_insert h h' xs k x v :
  xs !! k = Some x → NoDup xs →
  (∀ y, val h' y = if decide (y = x) then Some v else val h y) →
  contents h' xs = <[k:=v]> (contents h xs).
Proof.
  intros Hk Hnd Hv. apply list_eq. intros i.
  destruct (decide (i = k)) as [->|Hne].
  - rewrite list_lookup_insert_eq by (rewrite length_contents; by eapply lookup_lt_Some).
    rewrite (contents_lookup _ _ _ _ Hk), Hv. by rewrite decide_True.
  - rewrite list_lookup_insert_ne by done.
    unfold contents. rewrite !list_lookup_fmap.
    destruct (xs !! i) as [y|] eqn:Hi; [|done]. simpl. rewrite Hv.
    rewrite decide_False; [done|]. intros ->. apply Hne.
    by eapply NoDup_lookup.
Qed.

(** [set] in range: the element's value is replaced and nothing else
    changes. *)
Lemma wp_set_value s this l xs index k x v (Q : bool → Store V → Prop) :
  lists s !! this = Some l →
  wf_list (nodes s) l xs →
  txn_ok s this l →
  linear_seek l →
  resolve (_size l) index = Z.of_nat k →
  xs !! k = Some x →
  (∀ s', updated s' this l l xs →
         contents (nodes s') xs = <[k:=v]> (contents (nodes s) xs) →
         Q true s') →
  wp (set this index v) Q s.
Proof.
  intros Hls Hwf Hok Hlin Hres Hk HQ. unfold set.
  apply wp_bind. eapply wp_nodeAt; [done..|].
  rewrite bool_decide_true by eauto. simpl.
  assert (x < length (nodes s)) as Hx.
  { eapply wf_list_fresh; [done|]. apply list_elem_of_lookup_2 in Hk. set_solver. }
  destruct (fld_valid value _ _ Hx) as (n & _ & Hv).
  apply wp_bind. eapply wp_getValue; [done|].
  apply wp_bind, wp_setValue; [done|].
  apply wp_bind. eapply wp_getList; [done|].
  set (s1 := with_nodes _ _).
  assert (wf_list (nodes s1) l xs) as Hwf1.
  { eapply wf_list_frame; [done| subst s1; hlen | | done..].
    intros y _. subst s1. by hsimpl. }
  assert (contents (nodes s1) xs = <[k:=v]> (contents (nodes s) xs)) as Hc1.
  { apply (contents_insert _ _ _ _ x); [done| |].
    - pose proof (wf_nodup _ _ _ Hwf) as Hnd. apply NoDup_cons in Hnd as [_ Hnd].
      by apply NoDup_app in Hnd as [? _].
    - intros y. subst s1. by hsimpl. }
  apply wp_bind, wp_when.
  - intros _. eapply wp_notify; [done..|].
    intros s' (Hn & Hl & Ht). apply wp_ret, HQ; [|by rewrite Hn]. split; try done.
    + by rewrite Hl.
    + by rewrite Hn.
    + by eapply txn_ok_ext.
  - intros _. apply wp_ret, HQ; [|done]. by split.
Qed.

Lemma seeks_linearly_updated s s' this l l' xs :
  lists s !! this = Some l → linear_seek l →
  updated s' this l l' xs → _size l' = _size l → seeks_linearly s' this.
Proof.
  intros Hls Hlin [Hls' _ _ Hsk _ _] Hsz. exists l'. split; [done|].
  unfold linear_seek in *. by rewrite Hsk, Hsz.
Qed.

(*THEOREMS*)

(** X1.  [push(...values)] appends the values in the order given and returns
    the new length. *)
Theorem push_appends_in_order s this vs values :
  represents s this vs →
  ∃ s', push this values s = Ok (Z.of_nat (length vs + length values), s') ∧
        represents s' this (vs ++ values) ∧
        toArray this s' = Ok (vs ++ values, s').
Proof.
  intros (l & xs & Hls & Hwf & Hok & Hc).
  assert (wp (push this values)
            (λ r s', r = Z.of_nat (length vs + length values) ∧
                     represents s' this (vs ++ values)) s) as Hwp.
  { eapply wp_push; [done..|]. intros s' l' ys Hup Hlen Hmc Hc'. split.
    - rewrite (wf_size _ _ _ (upd_wf _ _ _ _ _ Hup)), length_app, Hlen.
      by rewrite <- Hc, length_contents.
    - eapply represents_updated; [done|]. by rewrite Hc', Hc. }
  apply wp_elim in Hwp as (r & s' & E & -> & Hrep).
  exists s'. split_and!; [done..|]. by apply represents_toArray.
Qed.

(** X2.  [unshift(...values)] puts the values in front, in the order given,
    and returns the new length. *)
Theorem unshift_prepends_in_order s this vs values :
  represents s this vs →
  ∃ s', unshift this values s = Ok (Z.of_nat (length values + length vs), s') ∧
        represents s' this (values ++ vs) ∧
        toArray this s' = Ok (values ++ vs, s').
Proof.
  intros (l & xs & Hls & Hwf & Hok & Hc).
  assert (wp (unshift this values)
            (λ r s', r = Z.of_nat (length values + length vs) ∧
                     represents s' this (values ++ vs)) s) as Hwp.
  { eapply wp_unshift; [done..|]. intros s' l' ys Hup Hlen Hmc Hc'. split.
    - rewrite (wf_size _ _ _ (upd_wf _ _ _ _ _ Hup)), length_app, Hlen.
      by rewrite <- Hc, length_contents.
    - eapply represents_updated; [done|]. by rewrite Hc', Hc. }
  apply wp_elim in Hwp as (r & s' & E & -> & Hrep).
  exists s'. split_and!; [done..|]. by apply represents_toArray.
Qed.

(** X3.  [pop()] returns the last value and removes it; on an empty list it
    returns [undefined] and the list stays empty. *)
Theorem pop_takes_the_last s this vs :
  represents s this vs →
  ∃ s', pop this s = Ok (default undefined (last vs), s') ∧
        represents s' this (removelast vs) ∧
        toArray this s' = Ok (removelast vs, s').
Proof.
  intros (l & xs & Hls & Hwf & Hok & Hc).
  assert (∃ s', pop this s = Ok (default undefined (last vs), s') ∧
                represents s' this (removelast vs)) as (s' & E & Hrep).
  { destruct (decide (xs = [])) as [->|Hne].
    - subst vs. exists s. split; [|by exists l, []].
      apply (pop_empty s this l Hls). by rewrite (wf_size _ _ _ Hwf).
    - assert (wp (pop this)
                (λ r s', r = default undefined (last vs) ∧
                         represents s' this (removelast vs)) s) as Hwp.
      { eapply wp_pop_last; [done..|]. intros s' l' Hup Hc'. rewrite Hc. split; [done|].
        eapply represents_updated; [done|]. by rewrite Hc', Hc. }
      apply wp_elim in Hwp as (r & s' & E & -> & Hrep). by exists s'. }
  exists s'. split_and!; [done..|]. by apply represents_toArray.
Qed.

(** X4.  [shift()] returns the first value and removes it; on an empty list it
    returns [undefined] and the list stays empty. *)
Theorem shift_takes_the_first s this vs :
  represents s this vs →
  ∃ s', shift this s = Ok (default undefined (head vs), s') ∧
        represents s' this (tail vs) ∧
        toArray this s' = Ok (tail vs, s').
Proof.
  intros (l & xs & Hls & Hwf & Hok & Hc).
  assert (∃ s', shift this s = Ok (default undefined (head vs), s') ∧
                represents s' this (tail vs)) as (s' & E & Hrep).
  { destruct (decide (xs = [])) as [->|Hne].
    - subst vs. exists s. split; [|by exists l, []].
      apply (shift_empty s this l Hls). by rewrite (wf_size _ _ _ Hwf).
    - assert (wp (shift this)
                (λ r s', r = default undefined (head vs) ∧
                         represents s' this (tail vs)) s) as Hwp.
      { eapply wp_shift_head; [done..|]. intros s' l' Hup Hc'. rewrite Hc. split; [done|].
        eapply represents_updated; [done|]. by rewrite Hc', Hc. }
      apply wp_elim in Hwp as (r & s' & E & -> & Hrep). by exists s'. }
  exists s'. split_and!; [done..|]. by apply represents_toArray.
Qed.

(** X5.  [get(index)] and [at(index)] read the element the index resolves to,
    a negative index counting from the end, and leave the store alone. *)
Theorem get_reads_the_element s this vs index k v :
  represents s this vs →
  seeks_linearly s this →
  resolve (Z.of_nat (length vs)) index = Z.of_nat k →
  vs !! k = Some v →
  get this index s = Ok (v, s) ∧ at_ this index s = Ok (v, s).
Proof.
  intros (l & xs & Hls & Hwf & Hok & Hc) (l0 & Hls0 & Hlin) Hres Hk.
  assert (l0 = l) as -> by congruence.
  assert (get this index s = Ok (v, s)) as E; [|done].
  subst vs. rewrite length_contents, <- (wf_size _ _ _ Hwf) in Hres.
  unfold contents in Hk. rewrite list_lookup_fmap in Hk.
  destruct (xs !! k) as [x|] eqn:Hx; [|done]. simpl in Hk. simplify_eq.
  assert (wp (get this index)
            (λ r s', r = default undefined (val (nodes s) x) ∧ s' = s) s) as Hwp.
  { by eapply wp_get. }
  by apply wp_elim in Hwp as (r & s' & E & -> & ->).
Qed.

(** X6.  [set(index, value)] in range replaces that one element and returns
    [true]; a [get] at the same index then reads the value written. *)
Theorem set_then_get s this vs index k value :
  represents s this vs →
  seeks_linearly s this →
  resolve (Z.of_nat (length vs)) index = Z.of_nat k →
  k < length vs →
  ∃ s', set this index value s = Ok (true, s') ∧
        represents s' this (<[k:=value]> vs) ∧
        toArray this s' = Ok (<[k:=value]> vs, s') ∧
        get this index s' = Ok (value, s').
Proof.
  intros (l & xs & Hls & Hwf & Hok & Hc) (l0 & Hls0 & Hlin) Hres Hk.
  assert (l0 = l) as -> by congruence.
  rewrite <- Hc, length_contents, <- (wf_size _ _ _ Hwf) in Hres.
  rewrite <- Hc, length_contents in Hk.
  destruct (lookup_lt_is_Some_2 xs k Hk) as [x Hx].
  assert (wp (set this index value)
            (λ r s', r = true ∧ represents s' this (<[k:=value]> vs) ∧
                     get this index s' = Ok (value, s')) s) as Hwp.
  { eapply wp_set_value; [done..|]. intros s' Hup Hc'. split_and!; [done| |].
    - eapply represents_updated; [done|]. by rewrite Hc', Hc.
    - assert (wp (get this index)
                (λ r s'', r = default undefined (val (nodes s') x) ∧ s'' = s') s') as Hg.
      { eapply wp_get; [apply Hup|apply Hup|done..]. }
      apply wp_elim in Hg as (r & s'' & Eg & -> & ->). rewrite Eg. do 2 f_equal.
      apply (f_equal (λ c, c !! k)) in Hc'.
      rewrite list_lookup_insert_eq in Hc' by (by rewrite length_contents).
      unfold contents in Hc'. rewrite list_lookup_fmap, Hx in Hc'. simpl in Hc'.
      by injection Hc'. }
  apply wp_elim in Hwp as (r & s' & E & -> & Hrep & Hget).
  exists s'. split_and!; [done..|by apply represents_toArray|done].
Qed.

(** X7.  [removeAt(index)] in range returns the element at the resolved index
    and closes the gap. *)
Theorem removeAt_takes_the_element s this vs index k v :
  represents s this vs →
  seeks_linearly s this →
  resolve (Z.of_nat (length vs)) index = Z.of_nat k →
  vs !! k = Some v →
  ∃ s', removeAt this index s = Ok (v, s') ∧
        represents s' this (delete k vs) ∧
        toArray this s' = Ok (delete k vs, s').
Proof.
  intros (l & xs & Hls & Hwf & Hok & Hc) (l0 & Hls0 & Hlin) Hres Hk.
  assert (l0 = l) as -> by congruence.
  subst vs. rewrite length_contents, <- (wf_size _ _ _ Hwf) in Hres.
  unfold contents in Hk. rewrite list_lookup_fmap in Hk.
  destruct (xs !! k) as [x|] eqn:Hx; [|done]. simpl in Hk. simplify_eq.
  assert (wp (removeAt this index)
            (λ r s', r = default undefined (val (nodes s) x) ∧
                     represents s' this (delete k (contents (nodes s) xs))) s) as Hwp.
  { eapply wp_removeAt_value; [done..|]. intros s' l' Hup Hc'. split; [done|].
    by eapply represents_updated. }
  apply wp_elim in Hwp as (r & s' & E & -> & Hrep).
  exists s'. split_and!; [done..|]. by apply represents_toArray.
Qed.

(** X8.  [remove(value, comparator)] takes out the first element the
    comparator accepts and returns it; when there is none it returns
    [undefined] and changes nothing, the modification counter included. *)
Theorem remove_takes_the_first_match s this vs value (comparator : V → V → bool) :
  represents s this vs →
  match list_find (λ x, comparator x value) vs with
  | Some (i, x) =>
      ∃ s', remove this value comparator s = Ok (x, s') ∧
            represents s' this (delete i vs) ∧
            toArray this s' = Ok (delete i vs, s')
  | None => remove this value comparator s = Ok (undefined, s)
  end.
Proof.
  intros (l & xs & Hls & Hwf & Hok & Hc).
  assert (wp (remove this value comparator)
            (λ r s', match list_find (λ x, comparator x value) vs with
                     | Some (i, x) => r = x ∧ represents s' this (delete i vs)
                     | None => r = undefined ∧ s' = s
                     end) s) as Hwp.
  { eapply wp_remove_first; [done..|]. intros s' l' r xs' Hup Hfind.
    rewrite Hc in Hfind. destruct (list_find _ vs) as [[i x]|].
    - destruct Hfind as [-> Hc']. split; [done|]. by eapply represents_updated.
    - by destruct Hfind as (-> & -> & _). }
  apply wp_elim in Hwp as (r & s' & E & Hpost).
  destruct (list_find _ vs) as [[i x]|].
  - destruct Hpost as [-> Hrep]. exists s'. split_and!; [done..|].
    by apply represents_toArray.
  - by destruct Hpost as [-> ->].
Qed.

(** X9.  [clear()] leaves an empty list of length [0]. *)
Theorem clear_empties s this vs :
  represents s this vs →
  ∃ s', clear this s = Ok (tt, s') ∧
        represents s' this [] ∧
        toArray this s' = Ok ([], s') ∧
        length_ this s' = Ok (0%Z, s').
Proof.
  intros (l & xs & Hls & Hwf & Hok & Hc).
  assert (∃ s', clear this s = Ok (tt, s') ∧ represents s' this []) as (s' & E & Hrep).
  { destruct (decide (xs = [])) as [->|Hne].
    - exists s. split; [|by exists l, []].
      apply (clear_empty s this l Hls). by rewrite (wf_size _ _ _ Hwf).
    - assert (wp (clear this) (λ _ s', represents s' this []) s) as Hwp.
      { eapply wp_clear; [done..|]. intros s' l' Hup _.
        by eapply represents_updated. }
      apply wp_elim in Hwp as ([] & s' & E & Hrep). by exists s'. }
  exists s'. split_and!; [done..|by apply represents_toArray|].
  by apply (represents_length s' this []).
Qed.

(** X10.  [reverse()] reverses the order of the elements, and a second
    [reverse()] brings the original order back. *)
Theorem reverse_reverses s this vs :
  represents s this vs →
  ∃ s', reverse this s = Ok (tt, s') ∧
        represents s' this (rev vs) ∧
        toArray this s' = Ok (rev vs, s') ∧
        ∃ s'', reverse this s' = Ok (tt, s'') ∧
               represents s'' this vs ∧
               toArray this s'' = Ok (vs, s'').
Proof.
  assert (∀ s vs, represents s this vs →
            ∃ s', reverse this s = Ok (tt, s') ∧ represents s' this (rev vs)) as Hrev.
  { clear s vs. intros s vs (l & xs & Hls & Hwf & Hok & Hc).
    destruct (decide (2 ≤ length xs)) as [Hlen|Hlen].
    - assert (wp (reverse this) (λ _ s', represents s' this (rev vs)) s) as Hwp.
      { eapply wp_reverse; [done..|]. intros s' l' Hup _ Hc'.
        eapply represents_updated; [done|]. by rewrite Hc', Hc. }
      apply wp_elim in Hwp as ([] & s' & E & Hrep). by exists s'.
    - exists s. split.
      + apply (reverse_short s this l Hls). rewrite (wf_size _ _ _ Hwf). lia.
      + exists l, xs. split_and!; [done..|]. subst vs.
        destruct xs as [|x [|y xs]]; [done|done|simpl in Hlen; lia]. }
  intros Hrep. destruct (Hrev s vs Hrep) as (s' & E & Hrep').
  destruct (Hrev s' (rev vs) Hrep') as (s'' & E' & Hrep'').
  rewrite rev_involutive in Hrep''.
  exists s'. split_and!; [done..|by apply represents_toArray|].
  exists s''. split_and!; [done..|]. by apply represents_toArray.
Qed.

End Refinement.

Section Loops.
Context {V : Type} `{JsValue V}.

Local Open Scope js_scope.
Implicit Types (s : Store V) (l : UltimateLinkedList) (h : list (Node V)).

(** ** Loops over an iterator *)

(** A [for ... of] loop over an iterator that is to yield [vs]: [pos k it]
    says that [it] has yielded [k] values, [Inv k a s] is the loop
    invariant after [k] trips. *)
Lemma wp_for_of {I A R} (step : I → M V (I * option V)) (body : A → V → M V (A + R))
    (pos : nat → I → Prop) (Inv : nat → A → Store V → Prop) (vs : list V)
    (Q : A + R → Store V → Prop) :
  (∀ k it a s v, Inv k a s → pos k it → vs !! k = Some v →
     ∃ it', step it s = Ok ((it', Some v), s) ∧ pos (S k) it') →
  (∀ it a s, Inv (length vs) a s → pos (length vs) it →
     ∃ it', step it s = Ok ((it', None), s)) →
  (∀ k a v s, Inv k a s → vs !! k = Some v →
     wp (body a v) (λ r s', match r with
                            | inl a' => Inv (S k) a' s'
                            | inr r => Q (inr r) s'
                            end) s) →
  (∀ a s, Inv (length vs) a s → Q (inl a) s) →
  ∀ fuel k it a s,
    Inv k a s → pos k it → k ≤ length vs → length vs - k < fuel →
    wp (for_of step body fuel it a) Q s.
Proof.
  intros Hsome Hnone Hbody Hend fuel.
  induction fuel as [|fuel IH]; intros k it a s HI Hpos Hle Hfuel; [lia|].
  simpl. apply wp_bind.
  destruct (vs !! k) as [v|] eqn:Hk.
  - destruct (Hsome k it a s v HI Hpos Hk) as (it' & E & Hpos').
    eapply wp_intro; [exact E|]. simpl.
    apply wp_bind. eapply wp_mono; [by apply (Hbody k a v s)|].
    intros [a'|r] s' Hr; simpl.
    + apply lookup_lt_Some in Hk. apply (IH (S k)); [done..|lia|lia].
    + by apply wp_ret.
  - apply lookup_ge_None in Hk. assert (k = length vs) as -> by lia.
    destruct (Hnone it a s HI Hpos) as (it' & E).
    eapply wp_intro; [exact E|]. simpl. apply wp_ret. by apply Hend.
Qed.

(** The node before position [k] of the chain, with its link to the node
    at [k]. *)
Lemma wf_list_step h l xs k q :
  wf_list h l xs → (xs ++ [_tail l]) !! k = Some q →
  ∃ p, (_head l :: xs) !! k = Some p ∧ linked h p q.
Proof.
  intros Hwf Hq.
  assert (k < length (_head l :: xs)) as Hk.
  { apply lookup_lt_Some in Hq. rewrite length_app in Hq. simpl in *. lia. }
  destruct (lookup_lt_is_Some_2 _ _ Hk) as [p Hp]. exists p. split; [done|].
  eapply (links_lookup _ _ k); [apply (wf_links _ _ _ Hwf)| |].
  - change (_head l :: xs ++ [_tail l]) with ((_head l :: xs) ++ [_tail l]).
    by apply lookup_app_l_Some.
  - done.
Qed.

Lemma wf_list_lookup_valid h l xs k x :
  wf_list h l xs → xs !! k = Some x →
  x ≠ _head l ∧ x ≠ _tail l ∧ ∃ n, h !! x = Some n.
Proof.
  intros Hwf Hk. apply list_elem_of_lookup_2 in Hk.
  pose proof (wf_nodup _ _ _ Hwf) as Hnd. apply NoDup_cons in Hnd as [Hh _].
  split_and!.
  - intros ->. apply Hh. set_solver.
  - by eapply wf_list_elem_not_tail.
  - apply lookup_lt_is_Some_2. eapply wf_list_fresh; [done|]. set_solver.
Qed.

Lemma iterator_next_value s this l xs k x it :
  lists s !! this = Some l → wf_list (nodes s) l xs →
  it_at this l xs k it → xs !! k = Some x →
  ∃ it', iterator_next it s = Ok ((it', Some (default undefined (val (nodes s) x))), s) ∧
         it_at this l xs (S k) it'.
Proof.
  intros Hls Hwf (Hit & He & Hn) Hk.
  destruct (wf_list_step _ _ _ k x Hwf) as (p & Hp & [Hnx _]).
  { by apply lookup_app_l_Some. }
  destruct (wf_list_lookup_valid _ _ _ _ _ Hwf Hk) as (_ & Hxt & n & Hnx').
  exists (mkIterator (it_list it) (expectedModCount it) (Some x)).
  split; [|by split_and!].
  unfold iterator_next, bind, getList. rewrite Hit, Hls, He, Z.eqb_refl. simpl.
  rewrite Hn, Hp. unfold getNext, getValue, bind, getNode, ret.
  unfold nxt, fld in Hnx. destruct (nodes s !! p) as [np|]; [|done].
  simpl in Hnx. injection Hnx as ->.
  rewrite bool_decide_false by congruence. rewrite Hnx'.
  unfold val, fld. by rewrite Hnx'.
Qed.

Lemma iterator_next_done s this l xs it :
  lists s !! this = Some l → wf_list (nodes s) l xs →
  it_at this l xs (length xs) it →
  ∃ it', iterator_next it s = Ok ((it', None), s).
Proof.
  intros Hls Hwf (Hit & He & Hn).
  destruct (wf_list_step _ _ _ (length xs) (_tail l) Hwf) as (p & Hp & [Hnx _]).
  { by rewrite lookup_app_r, Nat.sub_diag. }
  eexists.
  unfold iterator_next, bind, getList. rewrite Hit, Hls, He, Z.eqb_refl. simpl.
  rewrite Hn, Hp. unfold getNext, bind, getNode, ret.
  unfold nxt, fld in Hnx. destruct (nodes s !! p) as [np|]; [|done].
  simpl in Hnx. injection Hnx as ->.
  by rewrite bool_decide_true.
Qed.

Lemma it_at_iterator s this l xs :
  lists s !! this = Some l →
  ∃ it, iterator this s = Ok (it, s) ∧ it_at this l xs 0 it.
Proof.
  intros Hls. eexists. unfold iterator, bind, getList, ret. rewrite Hls.
  split; [reflexivity|]. by split_and!.
Qed.

Lemma fold_until_drop {A R} (f : A → V → A + R) (a : A) vs k v :
  vs !! k = Some v →
  fold_until f a (drop k vs)
  = match f a v with
    | inl a' => fold_until f a' (drop (S k) vs)
    | inr r => inr r
    end.
Proof. intros Hk. by rewrite (drop_S _ _ _ Hk). Qed.

Lemma for_of_list_pure {A R B} (body : A → V → M V (A + R)) (f : A → V → A + R)
    (rest : A + R → M V B) s this vs a :
  (∀ a v, body a v = ret (f a v)) →
  represents s this vs →
  (it ← iterator this;
   fuel ← getFuel;
   r ← for_of iterator_next body fuel it a;
   rest r) s
  = rest (fold_until f a vs) s.
Proof.
  intros Hbody (l & xs & Hls & Hwf & Hok & Hc).
  destruct (it_at_iterator s this l xs Hls) as (it & Eit & Hit).
  unfold bind at 1. rewrite Eit. unfold bind at 1, getFuel. unfold bind at 1.
  assert (wp (for_of iterator_next body (S (length (nodes s))) it a)
            (λ r s', r = fold_until f a vs ∧ s' = s) s) as Hwp.
  { eapply (wp_for_of _ _ (it_at this l xs)
              (λ k b s', s' = s ∧ fold_until f b (drop k vs) = fold_until f a vs) vs)
        with (k := 0).
    - intros k it0 b s0 v [-> _] Hpos Hk.
      rewrite <- Hc in Hk. unfold contents in Hk. rewrite list_lookup_fmap in Hk.
      destruct (xs !! k) as [x|] eqn:Hx; [|done]. simpl in Hk. injection Hk as <-.
      by eapply iterator_next_value.
    - intros it0 b s0 [-> _] Hpos. rewrite <- Hc, length_contents in Hpos.
      by eapply iterator_next_done.
    - intros k b v s0 [-> Hf] Hk. rewrite Hbody. apply wp_ret.
      rewrite (fold_until_drop _ _ _ _ _ Hk) in Hf.
      destruct (f b v); [by split|done].
    - intros b s0 [-> Hf]. rewrite drop_all in Hf. done.
    - done.
    - done.
    - lia.
    - rewrite <- Hc, length_contents. pose proof (wf_list_bound _ _ _ Hwf). lia. }
  apply wp_elim in Hwp as (r & s' & E & -> & ->). by rewrite E.
Qed.

Lemma find_from_Some predicate this n (vs : list V) r v :
  find_from predicate this (Z.of_nat n) vs = Some (r, v) ↔
  ∃ i, r = Z.of_nat (n + i) ∧ vs !! i = Some v ∧
       predicate v (Z.of_nat (n + i)) this = true ∧
       ∀ j w, j < i → vs !! j = Some w → predicate w (Z.of_nat (n + j)) this = false.
Proof.
  revert n. induction vs as [|x vs IH]; intros n; simpl.
  - split; [done|]. by intros (i & _ & ? & _).
  - destruct (predicate x (Z.of_nat n) this) eqn:Hp.
    + split.
      * intros [= <- <-]. exists 0. rewrite Nat.add_0_r. split_and!; [done..|]. lia.
      * intros (i & -> & Hi & Hpi & Hmin). destruct i as [|i].
        -- rewrite Nat.add_0_r. simpl in Hi. by simplify_eq.
        -- specialize (Hmin 0 x). rewrite Nat.add_0_r in Hmin.
           rewrite Hmin in Hp; [done|lia|done].
    + replace (Z.of_nat n + 1)%Z with (Z.of_nat (S n)) by lia. rewrite IH. split.
      * intros (i & -> & Hi & Hpi & Hmin). exists (S i).
        replace (n + S i) with (S n + i) by lia. split_and!; [done..|].
        intros [|j] w Hj Hw.
        -- rewrite Nat.add_0_r. simpl in Hw. by simplify_eq.
        -- replace (n + S j) with (S n + j) by lia. apply Hmin; [lia|done].
      * intros (i & -> & Hi & Hpi & Hmin). destruct i as [|i].
        -- rewrite Nat.add_0_r in Hpi. simpl in Hi. simplify_eq. congruence.
        -- exists i. replace (S n + i) with (n + S i) by lia. split_and!; [done..|].
           intros j w Hj Hw. replace (S n + j) with (n + S j) by lia.
           apply Hmin; [lia|done].
Qed.

Lemma find_from_None predicate this n (vs : list V) :
  find_from predicate this (Z.of_nat n) vs = None ↔
  ∀ i v, vs !! i = Some v → predicate v (Z.of_nat (n + i)) this = false.
Proof.
  revert n. induction vs as [|x vs IH]; intros n; simpl.
  - split; [|done]. by intros _ i v.
  - destruct (predicate x (Z.of_nat n) this) eqn:Hp.
    + split; [done|]. intros Hall. specialize (Hall 0 x).
      rewrite Nat.add_0_r in Hall. rewrite Hall in Hp; done.
    + replace (Z.of_nat n + 1)%Z with (Z.of_nat (S n)) by lia. rewrite IH. split.
      * intros Hall [|i] v Hi.
        -- rewrite Nat.add_0_r. simpl in Hi. by simplify_eq.
        -- replace (n + S i) with (S n + i) by lia. by apply Hall.
      * intros Hall i v Hi. replace (S n + i) with (n + S i) by lia. by apply Hall.
Qed.

Lemma fold_until_find {R} (predicate : V → Z → lref → bool) (g : V → Z → R)
    this index vs :
  fold_until (λ index v, if predicate v index this then inr (g v index)
                         else inl (index + 1)%Z) index vs
  = match find_from predicate this index vs with
    | Some (i, v) => inr (g v i)
    | None => inl (index + Z.of_nat (length vs))%Z
    end.
Proof.
  revert index. induction vs as [|x vs IH]; intros index; simpl.
  - f_equal. lia.
  - destruct (predicate x index this); [done|]. rewrite IH.
    destruct (find_from _ _ _ vs) as [[i v]|]; [done|]. f_equal. lia.
Qed.

(** X11.  [find(predicate)] and [findIndex(predicate)] return the first
    element the predicate accepts, and its index; [undefined] and [-1] when it
    accepts none. The predicate is given the value, its index and the list. *)
Theorem find_returns_the_first_match s this vs (predicate : V → Z → lref → bool) :
  represents s this vs →
  ((∀ i v, vs !! i = Some v → predicate v (Z.of_nat i) this = false) ∧
   find_ this predicate s = Ok (undefined, s) ∧
   findIndex this predicate s = Ok ((-1)%Z, s)) ∨
  (∃ i v, vs !! i = Some v ∧ predicate v (Z.of_nat i) this = true ∧
          (∀ j w, j < i → vs !! j = Some w → predicate w (Z.of_nat j) this = false) ∧
          find_ this predicate s = Ok (v, s) ∧
          findIndex this predicate s = Ok (Z.of_nat i, s)).
Proof.
  intros Hrep.
  assert (find_ this predicate s
          = Ok (from_option snd undefined (find_from predicate this 0 vs), s)) as Efind.
  { unfold find_.
    rewrite (for_of_list_pure _
               (λ index v, if predicate v index this then inr v else inl (index + 1)%Z)
               _ s this vs 0%Z); [|by intros a v; destruct (predicate v a this)|done].
    rewrite (fold_until_find predicate (λ v _, v)).
    by destruct (find_from _ _ _ vs) as [[i v]|]. }
  assert (findIndex this predicate s
          = Ok (from_option fst (-1)%Z (find_from predicate this 0 vs), s)) as Eidx.
  { unfold findIndex.
    rewrite (for_of_list_pure _
               (λ index v, if predicate v index this then inr index else inl (index + 1)%Z)
               _ s this vs 0%Z); [|by intros a v; destruct (predicate v a this)|done].
    rewrite (fold_until_find predicate (λ _ i, i)).
    by destruct (find_from _ _ _ vs) as [[i v]|]. }
  rewrite Efind, Eidx.
  destruct (find_from predicate this 0 vs) as [[r v]|] eqn:E.
  - right. apply (find_from_Some predicate this 0) in E as (i & -> & Hi & Hp & Hmin).
    exists i, v. by split_and!.
  - left. split; [|done]. intros i v Hi.
    by apply (proj1 (find_from_None predicate this 0 vs) E i v).
Qed.

(** X12.  [some(predicate)] is [true] exactly when the predicate accepts an
    element, [every(predicate)] exactly when it accepts them all; neither
    changes the store. *)
Theorem some_and_every_decide s this vs (predicate : V → Z → lref → bool) :
  represents s this vs →
  ∃ b c, some this predicate s = Ok (b, s) ∧
         every this predicate s = Ok (c, s) ∧
         (b = true ↔ ∃ i v, vs !! i = Some v ∧ predicate v (Z.of_nat i) this = true) ∧
         (c = true ↔ ∀ i v, vs !! i = Some v → predicate v (Z.of_nat i) this = true).
Proof.
  intros Hrep.
  set (np := λ v i t, negb (predicate v i t)).
  exists (bool_decide (is_Some (find_from predicate this 0 vs))),
         (bool_decide (find_from np this 0 vs = None)).
  split_and!.
  - unfold some.
    rewrite (for_of_list_pure _
               (λ index v, if predicate v index this then inr true else inl (index + 1)%Z)
               _ s this vs 0%Z); [|by intros a v; destruct (predicate v a this)|done].
    rewrite (fold_until_find predicate (λ _ _, true)).
    by destruct (find_from _ _ _ vs) as [[i v]|].
  - unfold every.
    rewrite (for_of_list_pure _
               (λ index v, if np v index this then inr false else inl (index + 1)%Z)
               _ s this vs 0%Z); [|by intros a v; unfold np; destruct (predicate v a this)|done].
    rewrite (fold_until_find np (λ _ _, false)).
    by destruct (find_from _ _ _ vs) as [[i v]|].
  - rewrite bool_decide_eq_true. split.
    + intros [[r v] E].
      apply (find_from_Some predicate this 0) in E as (i & -> & Hi & Hp & _). eauto.
    + intros (i & v & Hi & Hp).
      destruct (find_from predicate this 0 vs) as [rv|] eqn:E; [by eexists|].
      pose proof (proj1 (find_from_None predicate this 0 vs) E i v Hi) as Hn.
      simpl in Hn. congruence.
  - rewrite bool_decide_eq_true, (find_from_None np this 0 vs). unfold np. simpl.
    split; intros Hall i v Hi; specialize (Hall i v Hi).
    + by apply negb_false_iff.
    + by apply negb_false_iff.
Qed.

(** [reduce(callback, initialValue)] folds the callback over the elements
    from the left, handing it the accumulator, the value, the index and the
    list. *)
Lemma fold_until_reduce (callback : V → V → Z → lref → V) this n acc vs :
  fold_until (R := Empty_set)
    (λ '(acc, index) v, inl (callback acc v index this, (index + 1)%Z))
    (acc, Z.of_nat n) vs
  = inl (foldl (λ acc iv, callback acc iv.2 (Z.of_nat iv.1) this) acc
               (imap (λ i v, (n + i, v)) vs),
         Z.of_nat (n + length vs)).
Proof.
  revert n acc. induction vs as [|v vs IH]; intros n acc; simpl.
  - by rewrite Nat.add_0_r.
  - replace (Z.of_nat n + 1)%Z with (Z.of_nat (S n)) by lia.
    rewrite IH, Nat.add_0_r. simpl. do 2 f_equal; [|f_equal; lia].
    f_equal. apply imap_ext. intros i x _. simpl. f_equal. lia.
Qed.

(** ** Cursors *)

Lemma wp_run {A} (m : M V A) s r :
  wp m (λ r' s', r' = r ∧ s' = s) s → m s = Ok (r, s).
Proof. intros Hwp. by apply wp_elim in Hwp as (r' & s' & E & -> & ->). Qed.

Lemma Cursor_next_fresh s this l xs c :
  lists s !! this = Some l → wf_list (nodes s) l xs →
  cursor_list c = this → _direction c = 1%Z → _node c = None →
  ∃ c', Cursor_next c s = Ok (c', s) ∧ cur_at this l xs 0 c'.
Proof.
  intros Hls Hwf Hc Hd Hn.
  destruct (wf_list_first _ _ _ Hwf) as (q & Hq & [Hnx _]).
  exists (mkCursor this (Some q) 0 1). split.
  - apply wp_run. unfold Cursor_next. rewrite Hn, Hc, Hd. simpl.
    apply wp_bind. eapply wp_getList; [done|].
    apply wp_bind. eapply wp_getNext; [done|].
    apply wp_bind. eapply wp_getList; [done|]. by apply wp_ret.
  - split_and!; simpl; [done..| |lia|done].
    by rewrite <- head_lookup.
Qed.

Lemma Cursor_next_forward s this l xs k c :
  lists s !! this = Some l → wf_list (nodes s) l xs →
  cur_at this l xs k c → k < length xs →
  ∃ c', Cursor_next c s = Ok (c', s) ∧ cur_at this l xs (S k) c'.
Proof.
  intros Hls Hwf (Hc & Hd & Hn & _ & Hi) Hk.
  destruct (lookup_lt_is_Some_2 xs k Hk) as [x Hx].
  destruct (lookup_lt_is_Some_2 (xs ++ [_tail l]) (S k)) as [q Hq].
  { rewrite length_app. simpl. lia. }
  destruct (wf_list_step _ _ _ (S k) q Hwf Hq) as (p & Hp & [Hnx _]).
  simpl in Hp. assert (p = x) as -> by congruence.
  rewrite (lookup_app_l_Some _ _ _ _ Hx) in Hn.
  exists (mkCursor this (Some q) (Z.of_nat k + 1) 1). split.
  - apply wp_run. unfold Cursor_next. rewrite Hn, Hc, Hd, Hi. simpl.
    apply wp_bind. eapply wp_getNext; [done|]. by apply wp_ret.
  - split_and!; simpl; [done..| |lia|lia]. done.
Qed.

(** Past the tail sentinel the cursor falls off the list. *)
Lemma Cursor_next_end s this l xs c :
  lists s !! this = Some l → wf_list (nodes s) l xs →
  cur_at this l xs (length xs) c →
  ∃ c', Cursor_next c s = Ok (c', s) ∧ _node c' = None ∧ cursor_list c' = this.
Proof.
  intros Hls Hwf (Hc & Hd & Hn & _ & Hi).
  rewrite lookup_app_r, Nat.sub_diag in Hn by done. simpl in Hn.
  pose proof (wf_tail_next _ _ _ Hwf) as Hnx.
  exists (mkCursor this None (_index c + 1) 1). split; [|done].
  apply wp_run. unfold Cursor_next. rewrite Hn, Hc, Hd. simpl.
  apply wp_bind. eapply wp_getNext; [done|]. by apply wp_ret.
Qed.

Lemma Cursor_valid_at s this l xs k c :
  lists s !! this = Some l → wf_list (nodes s) l xs →
  cur_at this l xs k c →
  Cursor_valid c s = Ok (bool_decide (k < length xs), s).
Proof.
  intros Hls Hwf (Hc & Hd & Hn & Hk & Hi).
  unfold Cursor_valid, bind, getList, ret. rewrite Hc, Hls, Hn. do 2 f_equal.
  destruct (decide (k < length xs)) as [Hlt|Hge].
  - destruct (lookup_lt_is_Some_2 xs k Hlt) as [x Hx].
    rewrite (lookup_app_l_Some _ _ _ _ Hx).
    destruct (wf_list_lookup_valid _ _ _ _ _ Hwf Hx) as (Hxh & Hxt & _).
    rewrite bool_decide_true by eauto.
    rewrite !(bool_decide_false (Some x = _)) by congruence.
    by rewrite bool_decide_true.
  - assert (k = length xs) as -> by lia.
    rewrite lookup_app_r, Nat.sub_diag by done. simpl.
    rewrite (bool_decide_true (Some (_tail l) = Some (_tail l))) by done.
    rewrite (bool_decide_false (length xs < length xs)) by lia.
    by rewrite andb_false_r.
Qed.

Lemma Cursor_value_at s this l xs k x c :
  wf_list (nodes s) l xs →
  cur_at this l xs k c → xs !! k = Some x →
  Cursor_value c s = Ok (default undefined (val (nodes s) x), s).
Proof.
  intros Hwf (Hc & Hd & Hn & Hk & Hi) Hx.
  rewrite (lookup_app_l_Some _ _ _ _ Hx) in Hn.
  destruct (wf_list_lookup_valid _ _ _ _ _ Hwf Hx) as (_ & _ & n & Hnx).
  unfold Cursor_value. rewrite Hn. unfold getValue, bind, getNode, ret.
  rewrite Hnx. unfold val, fld. by rewrite Hnx.
Qed.

Lemma Cursor_valid_fresh s l c :
  lists s !! cursor_list c = Some l → _node c = None →
  Cursor_valid c s = Ok (false, s).
Proof.
  intros Hls Hn. unfold Cursor_valid, bind, getList, ret. rewrite Hls, Hn.
  by rewrite bool_decide_false by (by intros [? ?]).
Qed.

Lemma bind_Ok {A B} (m : M V A) (f : A → M V B) s a s' :
  m s = Ok (a, s') → bind m f s = f a s'.
Proof. unfold bind. by intros ->. Qed.

Lemma Cursor_iterator_next_value s this l xs k x c :
  lists s !! this = Some l → wf_list (nodes s) l xs →
  cur_pos this l xs k c → xs !! k = Some x →
  ∃ c', Cursor_iterator_next c s
        = Ok ((c', Some (default undefined (val (nodes s) x))), s) ∧
        cur_pos this l xs (S k) c'.
Proof.
  intros Hls Hwf Hpos Hx.
  assert (k < length xs) as Hk by (by eapply lookup_lt_Some).
  assert (∀ c, cur_at this l xs k c →
            ∃ c', (ok ← Cursor_valid c;
                   if negb ok then ret (c, None)
                   else v ← Cursor_value c; c ← Cursor_next c; ret (c, Some v)) s
                  = Ok ((c', Some (default undefined (val (nodes s) x))), s) ∧
                  cur_pos this l xs (S k) c') as Hat.
  { intros c0 Hc0.
    destruct (Cursor_next_forward s this l xs k c0 Hls Hwf Hc0 Hk) as (c' & E & Hc').
    exists c'. split; [|by left].
    rewrite (bind_Ok _ _ _ _ _ (Cursor_valid_at s this l xs k c0 Hls Hwf Hc0)).
    rewrite bool_decide_true by done. simpl.
    rewrite (bind_Ok _ _ _ _ _ (Cursor_value_at s this l xs k x c0 Hwf Hc0 Hx)).
    by rewrite (bind_Ok _ _ _ _ _ E). }
  unfold Cursor_iterator_next.
  destruct Hpos as [Hc|(-> & Hc & Hd & Hn)].
  - rewrite (bind_Ok _ _ _ _ _ (Cursor_valid_at s this l xs k c Hls Hwf Hc)).
    rewrite bool_decide_true by done.
    rewrite (bind_Ok (ret c) _ s c s eq_refl). by apply Hat.
  - rewrite <- Hc in Hls.
    rewrite (bind_Ok _ _ _ _ _ (Cursor_valid_fresh s l c Hls Hn)).
    rewrite Hc in Hls.
    destruct (Cursor_next_fresh s this l xs c Hls Hwf Hc Hd Hn) as (c0 & E & Hc0).
    rewrite (bind_Ok _ _ _ _ _ E). by apply Hat.
Qed.

Lemma Cursor_iterator_next_done s this l xs c :
  lists s !! this = Some l → wf_list (nodes s) l xs →
  cur_pos this l xs (length xs) c →
  ∃ c', Cursor_iterator_next c s = Ok ((c', None), s).
Proof.
  intros Hls Hwf Hpos.
  assert (∀ c, cur_at this l xs (length xs) c →
            ∃ c', (ok ← Cursor_valid c;
                   if negb ok then ret (c, None)
                   else v ← Cursor_value c; c ← Cursor_next c; ret (c, Some v)) s
                  = Ok ((c', None), s)) as Hat.
  { intros c0 Hc0. exists c0.
    rewrite (bind_Ok _ _ _ _ _ (Cursor_valid_at s this l xs _ c0 Hls Hwf Hc0)).
    by rewrite bool_decide_false by lia. }
  unfold Cursor_iterator_next.
  destruct Hpos as [Hc|(Hk & Hc & Hd & Hn)].
  - destruct (Cursor_next_end s this l xs c Hls Hwf Hc) as (c1 & E & Hn1 & Hl1).
    exists c1.
    rewrite (bind_Ok _ _ _ _ _ (Cursor_valid_at s this l xs _ c Hls Hwf Hc)).
    rewrite bool_decide_false by lia.
    rewrite (bind_Ok _ _ _ _ _ E).
    rewrite <- Hl1 in Hls.
    by rewrite (bind_Ok _ _ _ _ _ (Cursor_valid_fresh s l c1 Hls Hn1)).
  - destruct xs as [|? ?]; [|done].
    destruct (Cursor_next_fresh s this l [] c Hls Hwf Hc Hd Hn) as (c0 & E & Hc0).
    rewrite <- Hc in Hls.
    rewrite (bind_Ok _ _ _ _ _ (Cursor_valid_fresh s l c Hls Hn)).
    rewrite (bind_Ok _ _ _ _ _ E). rewrite Hc in Hls. by apply (Hat c0).
Qed.

Lemma rev_reverse {A} (l : list A) : rev l = list.reverse l.
Proof. unfold list.reverse. by rewrite rev_alt. Qed.

(** The node after position [k] of the reversed chain, with its link. *)
Lemma wf_list_step_back h l xs k p :
  wf_list h l xs → (rev xs ++ [_head l]) !! k = Some p →
  ∃ q, (_tail l :: rev xs) !! k = Some q ∧ linked h p q.
Proof.
  intros Hwf Hp.
  assert (k ≤ length xs) as Hk.
  { apply lookup_lt_Some in Hp. rewrite length_app, length_rev in Hp. simpl in *. lia. }
  assert ((_head l :: xs) !! (length xs - k) = Some p) as Hp'.
  { change (rev xs ++ [_head l]) with (rev (_head l :: xs)) in Hp.
    rewrite rev_reverse, reverse_lookup in Hp by (simpl; lia).
    simpl in Hp. by replace (S (length xs) - S k) with (length xs - k) in Hp by lia. }
  destruct (lookup_lt_is_Some_2 (xs ++ [_tail l]) (length xs - k)) as [q Hq].
  { rewrite length_app. simpl. lia. }
  destruct (wf_list_step _ _ _ _ _ Hwf Hq) as (p' & Hp'' & Hlink).
  assert (p' = p) as -> by congruence.
  exists q. split; [|done].
  assert (_tail l :: rev xs = list.reverse (xs ++ [_tail l])) as ->.
  { by rewrite reverse_app, reverse_singleton, <- rev_reverse. }
  rewrite reverse_lookup by (rewrite length_app; simpl; lia).
  rewrite length_app. simpl.
  by replace (length xs + 1 - S k) with (length xs - k) by lia.
Qed.

Lemma Cursor_next_fresh_back s this l xs c :
  lists s !! this = Some l → wf_list (nodes s) l xs →
  cursor_list c = this → _direction c = (-1)%Z → _node c = None →
  ∃ c', Cursor_next c s = Ok (c', s) ∧ cur_back this l xs 0 c'.
Proof.
  intros Hls Hwf Hc Hd Hn.
  destruct (lookup_lt_is_Some_2 (rev xs ++ [_head l]) 0) as [p Hp].
  { rewrite length_app. simpl. lia. }
  destruct (wf_list_step_back _ _ _ 0 p Hwf Hp) as (q & Hq & [_ Hpv]).
  simpl in Hq. injection Hq as <-.
  exists (mkCursor this (Some p) (_size l - 1) (-1)). split.
  - apply wp_run. unfold Cursor_next. rewrite Hn, Hc, Hd. simpl.
    apply wp_bind. eapply wp_getList; [done|].
    apply wp_bind. eapply wp_getPrev; [done|].
    apply wp_bind. eapply wp_getList; [done|]. by apply wp_ret.
  - split_and!; simpl; [done..|lia|]. rewrite (wf_size _ _ _ Hwf). lia.
Qed.

Lemma Cursor_next_backward s this l xs k c :
  lists s !! this = Some l → wf_list (nodes s) l xs →
  cur_back this l xs k c → k < length xs →
  ∃ c', Cursor_next c s = Ok (c', s) ∧ cur_back this l xs (S k) c'.
Proof.
  intros Hls Hwf (Hc & Hd & Hn & _ & Hi) Hk.
  destruct (lookup_lt_is_Some_2 (rev xs ++ [_head l]) (S k)) as [p Hp].
  { rewrite length_app, length_rev. simpl. lia. }
  destruct (wf_list_step_back _ _ _ (S k) p Hwf Hp) as (q & Hq & [_ Hpv]).
  simpl in Hq.
  assert (_node c = Some q) as Hn'.
  { rewrite Hn. apply lookup_app_l_Some. done. }
  exists (mkCursor this (Some p) (_index c + -1) (-1)). split.
  - apply wp_run. unfold Cursor_next. rewrite Hn', Hc, Hd. simpl.
    apply wp_bind. eapply wp_getPrev; [done|]. by apply wp_ret.
  - split_and!; simpl; [done..|lia|lia].
Qed.

Lemma Cursor_valid_back s this l xs k c :
  lists s !! this = Some l → wf_list (nodes s) l xs →
  cur_back this l xs k c →
  Cursor_valid c s = Ok (bool_decide (k < length xs), s).
Proof.
  intros Hls Hwf (Hc & Hd & Hn & Hk & Hi).
  unfold Cursor_valid, bind, getList, ret. rewrite Hc, Hls, Hn. do 2 f_equal.
  destruct (decide (k < length xs)) as [Hlt|Hge].
  - destruct (lookup_lt_is_Some_2 (rev xs) k) as [x Hx]; [by rewrite length_rev|].
    rewrite (lookup_app_l_Some _ _ _ _ Hx).
    assert (x ∈ xs) as Hin.
    { apply list_elem_of_lookup_2 in Hx. rewrite rev_reverse in Hx.
      by apply elem_of_reverse. }
    apply list_elem_of_lookup_1 in Hin as [j Hj].
    destruct (wf_list_lookup_valid _ _ _ _ _ Hwf Hj) as (Hxh & Hxt & _).
    rewrite bool_decide_true by eauto.
    rewrite !(bool_decide_false (Some x = _)) by congruence.
    by rewrite bool_decide_true.
  - assert (k = length xs) as -> by lia.
    rewrite lookup_app_r, length_rev, Nat.sub_diag by (by rewrite length_rev). simpl.
    rewrite (bool_decide_true (Some (_head l) = Some (_head l))) by done.
    by rewrite (bool_decide_false (length xs < length xs)) by lia.
Qed.

Lemma Cursor_value_back s this l xs k x c :
  wf_list (nodes s) l xs →
  cur_back this l xs k c → rev xs !! k = Some x →
  Cursor_value c s = Ok (default undefined (val (nodes s) x), s).
Proof.
  intros Hwf (Hc & Hd & Hn & Hk & Hi) Hx.
  rewrite (lookup_app_l_Some _ _ _ _ Hx) in Hn.
  assert (x ∈ xs) as Hin.
  { apply list_elem_of_lookup_2 in Hx. rewrite rev_reverse in Hx.
    by apply elem_of_reverse. }
  apply list_elem_of_lookup_1 in Hin as [j Hj].
  destruct (wf_list_lookup_valid _ _ _ _ _ Hwf Hj) as (_ & _ & n & Hnx).
  unfold Cursor_value. rewrite Hn. unfold getValue, bind, getNode, ret.
  rewrite Hnx. unfold val, fld. by rewrite Hnx.
Qed.

Lemma Cursor_advance_forward s this l xs k :
  lists s !! this = Some l → wf_list (nodes s) l xs → k ≤ length xs →
  ∃ c, Cursor_advance (S k) (cursor this) s = Ok (c, s) ∧ cur_at this l xs k c.
Proof.
  intros Hls Hwf.
  destruct (Cursor_next_fresh s this l xs (cursor this) Hls Hwf) as (c0 & E0 & Hc0);
    [done..|].
  assert (∀ k, k ≤ length xs →
            ∃ c, Cursor_advance k c0 s = Ok (c, s) ∧ cur_at this l xs k c) as Hadv.
  { clear k. intros k.
    assert (∀ j c, cur_at this l xs j c → j + k ≤ length xs →
              ∃ c', Cursor_advance k c s = Ok (c', s) ∧ cur_at this l xs (j + k) c') as Hgen.
    { induction k as [|k IH]; intros j c Hc Hk.
      - exists c. rewrite Nat.add_0_r. by split.
      - destruct (Cursor_next_forward s this l xs j c Hls Hwf Hc) as (c1 & E1 & Hc1); [lia|].
        destruct (IH (S j) c1 Hc1) as (c2 & E2 & Hc2); [lia|].
        exists c2. simpl. rewrite (bind_Ok _ _ _ _ _ E1).
        by replace (j + S k) with (S j + k) by lia. }
    intros Hk. by apply (Hgen 0 c0). }
  intros Hk. destruct (Hadv k Hk) as (c & E & Hc). exists c. split; [|done].
  simpl. by rewrite (bind_Ok _ _ _ _ _ E0).
Qed.

Lemma Cursor_advance_backward s this l xs k :
  lists s !! this = Some l → wf_list (nodes s) l xs → k ≤ length xs →
  ∃ c, Cursor_advance (S k) (Cursor_setDirection (cursor this) (-1)) s = Ok (c, s) ∧
       cur_back this l xs k c.
Proof.
  intros Hls Hwf.
  destruct (Cursor_next_fresh_back s this l xs (Cursor_setDirection (cursor this) (-1))
              Hls Hwf) as (c0 & E0 & Hc0); [done..|].
  assert (∀ k j c, cur_back this l xs j c → j + k ≤ length xs →
            ∃ c', Cursor_advance k c s = Ok (c', s) ∧ cur_back this l xs (j + k) c') as Hgen.
  { clear k. induction k as [|k IH]; intros j c Hc Hk.
    - exists c. rewrite Nat.add_0_r. by split.
    - destruct (Cursor_next_backward s this l xs j c Hls Hwf Hc) as (c1 & E1 & Hc1); [lia|].
      destruct (IH (S j) c1 Hc1) as (c2 & E2 & Hc2); [lia|].
      exists c2. simpl. rewrite (bind_Ok _ _ _ _ _ E1).
      by replace (j + S k) with (S j + k) by lia. }
  intros Hk. destruct (Hgen k 0 c0 Hc0 Hk) as (c & E & Hc). exists c. split; [|done].
  simpl. by rewrite (bind_Ok _ _ _ _ _ E0).
Qed.

(** X13.  A fresh cursor reaches element [k] with [k + 1] calls of [next()],
    and the sentinel behind the last element, where it is no longer valid,
    with one more; going backwards it reaches the elements from the last one
    down. *)
Theorem cursor_walks_the_list s this vs k :
  represents s this vs →
  k ≤ length vs →
  (∃ c, Cursor_advance (S k) (cursor this) s = Ok (c, s) ∧
        Cursor_valid c s = Ok (bool_decide (k < length vs), s) ∧
        _index c = Z.of_nat k ∧
        ∀ v, vs !! k = Some v → Cursor_value c s = Ok (v, s)) ∧
  (∃ c, Cursor_advance (S k) (Cursor_setDirection (cursor this) (-1)) s = Ok (c, s) ∧
        Cursor_valid c s = Ok (bool_decide (k < length vs), s) ∧
        _index c = (Z.of_nat (length vs) - 1 - Z.of_nat k)%Z ∧
        ∀ v, rev vs !! k = Some v → Cursor_value c s = Ok (v, s)).
Proof.
  intros (l & xs & Hls & Hwf & Hok & Hc) Hk. subst vs.
  rewrite length_contents in *. split.
  - destruct (Cursor_advance_forward s this l xs k Hls Hwf Hk) as (c & E & Hat).
    exists c. split_and!; [done|by eapply Cursor_valid_at|apply Hat|].
    intros v Hv. unfold contents in Hv. rewrite list_lookup_fmap in Hv.
    destruct (xs !! k) as [x|] eqn:Hx; [|done]. simpl in Hv. injection Hv as <-.
    by eapply Cursor_value_at.
  - destruct (Cursor_advance_backward s this l xs k Hls Hwf Hk) as (c & E & Hat).
    exists c. split_and!; [done|by eapply Cursor_valid_back|apply Hat|].
    intros v Hv. rewrite <- contents_rev in Hv.
    unfold contents in Hv. rewrite list_lookup_fmap in Hv.
    destruct (rev xs !! k) as [x|] eqn:Hx; [|done]. simpl in Hv. injection Hv as <-.
    by eapply Cursor_value_back.
Qed.

Lemma for_of_pure {I A R} (step : I → M V (I * option V)) (body : A → V → M V (A + R))
    (f : A → V → A + R) (pos : nat → I → Prop) vs s :
  (∀ a v, body a v = ret (f a v)) →
  (∀ k it v, pos k it → vs !! k = Some v →
     ∃ it', step it s = Ok ((it', Some v), s) ∧ pos (S k) it') →
  (∀ it, pos (length vs) it → ∃ it', step it s = Ok ((it', None), s)) →
  ∀ fuel k it a,
    pos k it → k ≤ length vs → length vs - k < fuel →
    for_of step body fuel it a s = Ok (fold_until f a (drop k vs), s).
Proof.
  intros Hbody Hsome Hnone fuel k it a Hpos Hk Hfuel. apply wp_run.
  eapply (wp_for_of step body pos
            (λ j b s', s' = s ∧ fold_until f b (drop j vs) = fold_until f a (drop k vs)) vs)
    with (k := k); [| | | |done|done|done|done].
  - intros j it0 b s0 v [-> _] Hpos0 Hj. by apply Hsome.
  - intros it0 b s0 [-> _] Hpos0. by apply Hnone.
  - intros j b v s0 [-> Hf] Hj. rewrite Hbody. apply wp_ret.
    rewrite (fold_until_drop _ _ _ _ _ Hj) in Hf.
    destruct (f b v); [by split|done].
  - intros b s0 [-> Hf]. rewrite drop_all in Hf. done.
Qed.

Lemma cur_pos_steps s this l xs :
  lists s !! this = Some l → wf_list (nodes s) l xs →
  (∀ k c v, cur_pos this l xs k c → contents (nodes s) xs !! k = Some v →
     ∃ c', Cursor_iterator_next c s = Ok ((c', Some v), s) ∧ cur_pos this l xs (S k) c') ∧
  (∀ c, cur_pos this l xs (length (contents (nodes s) xs)) c →
     ∃ c', Cursor_iterator_next c s = Ok ((c', None), s)).
Proof.
  intros Hls Hwf. split.
  - intros k c v Hpos Hv. unfold contents in Hv. rewrite list_lookup_fmap in Hv.
    destruct (xs !! k) as [x|] eqn:Hx; [|done]. simpl in Hv. injection Hv as <-.
    by eapply Cursor_iterator_next_value.
  - intros c Hpos. rewrite length_contents in Hpos.
    by eapply Cursor_iterator_next_done.
Qed.

(** X14.  Used as an iterable, a cursor yields the elements from its position
    to the end: all of them when it is fresh, those from index [k] on after [k
    + 1] calls of [next()]. *)
Theorem cursor_iterates_the_rest s this vs k :
  represents s this vs →
  k ≤ length vs →
  spread_cursor (cursor this) s = Ok (vs, s) ∧
  ∃ c, Cursor_advance (S k) (cursor this) s = Ok (c, s) ∧
       spread_cursor c s = Ok (drop k vs, s).
Proof.
  intros (l & xs & Hls & Hwf & Hok & Hc) Hk.
  destruct (cur_pos_steps s this l xs Hls Hwf) as [Hsome Hnone]. rewrite Hc in *.
  assert (∀ j c, cur_pos this l xs j c → j ≤ length vs →
            spread_cursor c s = Ok (drop j vs, s)) as Hspread.
  { intros j c Hpos Hj. unfold spread_cursor, bind at 1, getFuel.
    rewrite (bind_Ok _ _ _ _ _
               (for_of_pure Cursor_iterator_next _ (λ acc v, inl (acc ++ [v]))
                  (cur_pos this l xs) vs s (λ _ _, eq_refl) Hsome Hnone
                  (S (length (nodes s))) j c [] Hpos Hj
                  ltac:(rewrite <- Hc, length_contents;
                        pose proof (wf_list_bound _ _ _ Hwf); lia))).
    assert (∀ (acc ws : list V),
              fold_until (R := Empty_set) (λ acc v, inl (acc ++ [v])) acc ws
              = inl (acc ++ ws)) as Hfold.
    { intros acc ws. revert acc. induction ws as [|w ws IH]; intros acc; simpl.
      - by rewrite app_nil_r.
      - by rewrite IH, <- (assoc_L (++)). }
    by rewrite Hfold. }
  split.
  - apply (Hspread 0); [|lia]. right. by split_and!.
  - rewrite <- Hc, length_contents in Hk.
    destruct (Cursor_advance_forward s this l xs k Hls Hwf Hk) as (c & E & Hat).
    exists c. split; [done|]. apply Hspread; [by left|].
    by rewrite <- Hc, length_contents.
Qed.

Lemma first_head s this vs :
  represents s this vs → first this s = Ok (default undefined (head vs), s).
Proof.
  intros (l & xs & Hls & Hwf & Hok & Hc). apply wp_run. unfold first.
  apply wp_bind. eapply wp_getList; [done|].
  destruct (wf_list_first _ _ _ Hwf) as (q & Hq & [Hnx _]).
  apply wp_bind. eapply wp_getNext; [done|].
  destruct xs as [|x xs]; simpl in Hq; injection Hq as <-.
  - rewrite bool_decide_true by done. apply wp_ret. by subst vs.
  - destruct (wf_list_lookup_valid _ _ _ 0 x Hwf eq_refl) as (_ & Hxt & n & Hn).
    rewrite bool_decide_false by congruence.
    eapply wp_getValue; [by unfold val, fld; rewrite Hn|].
    subst vs. simpl. unfold val, fld. by rewrite Hn.
Qed.

Lemma last_last s this vs :
  represents s this vs → last_ this s = Ok (default undefined (last vs), s).
Proof.
  intros (l & xs & Hls & Hwf & Hok & Hc). apply wp_run. unfold last_.
  apply wp_bind. eapply wp_getList; [done|].
  destruct (wf_list_last _ _ _ Hwf) as (p & Hp & [_ Hpv]).
  apply wp_bind. eapply wp_getPrev; [done|].
  destruct (decide (xs = [])) as [->|Hne].
  - simpl in Hp. injection Hp as <-.
    rewrite bool_decide_true by done. apply wp_ret. by subst vs.
  - destruct (exists_last Hne) as (xs1 & x & ->).
    change (_head l :: xs1 ++ [x]) with ((_head l :: xs1) ++ [x]) in Hp.
    rewrite last_snoc in Hp. injection Hp as <-.
    destruct (wf_list_lookup_valid _ _ _ (length xs1) x Hwf) as (Hxh & _ & n & Hn).
    { by rewrite lookup_app_r, Nat.sub_diag. }
    rewrite bool_decide_false by congruence.
    eapply wp_getValue; [by unfold val, fld; rewrite Hn|].
    subst vs. rewrite contents_app.
    change (contents (nodes s) [x]) with [default undefined (val (nodes s) x)].
    rewrite last_snoc. simpl. unfold val, fld. by rewrite Hn.
Qed.

(** [first()] and [last()] read the two ends of the list, [undefined] when
    it is empty, and leave the store alone. *)
Lemma first_and_last_read_the_ends s this vs :
  represents s this vs →
  first this s = Ok (default undefined (head vs), s) ∧
  last_ this s = Ok (default undefined (last vs), s).
Proof. intros Hrep. split; [by apply first_head | by apply last_last]. Qed.

Lemma isEmpty_nil s this vs :
  represents s this vs → isEmpty this s = Ok (bool_decide (vs = []), s).
Proof.
  intros (l & xs & Hls & Hwf & Hok & Hc). unfold isEmpty, bind, getList, ret.
  rewrite Hls, (wf_size _ _ _ Hwf). do 2 f_equal. subst vs.
  by destruct xs.
Qed.

(** X15.  [reduce(callback, initialValue)] folds the callback over the
    elements from the left, handing it the accumulator, the value, the index
    and the list. Without an initial value the first element is the initial
    accumulator and the fold starts at index [1]; on an empty list that call
    fails with a [TypeError]. *)
Theorem reduce_folds_from_the_left s this vs (callback : V → V → Z → lref → V) :
  represents s this vs →
  let step := λ acc (iv : nat * V), callback acc iv.2 (Z.of_nat iv.1) this in
  (∀ initialValue,
     reduce this callback (Some initialValue) s
     = Ok (foldl step initialValue (imap pair vs), s)) ∧
  match vs with
  | [] => reduce this callback None s = Throw TypeError
  | v :: rest =>
      reduce this callback None s
      = Ok (foldl step v (imap (λ i w, (S i, w)) rest), s)
  end.
Proof.
  intros Hrep step. split.
  - intros init. unfold reduce.
    rewrite (bind_Ok _ _ _ _ _ (isEmpty_nil s this vs Hrep)).
    rewrite (for_of_list_pure _
               (λ '(acc, index) v, inl (callback acc v index this, (index + 1)%Z))
               _ s this vs (init, 0%Z)); [|by intros [acc i] v|done].
    change (init, 0%Z) with (init, Z.of_nat 0).
    rewrite (fold_until_reduce callback this 0 init vs).
    unfold ret. do 2 f_equal.
  - destruct vs as [|v rest]; unfold reduce;
      rewrite (bind_Ok _ _ _ _ _ (isEmpty_nil s this _ Hrep)); [done|].
    rewrite bool_decide_false by done.
    rewrite (bind_Ok _ _ _ _ _ (first_head s this _ Hrep)). simpl.
    destruct Hrep as (l & xs & Hls & Hwf & Hok & Hc).
    destruct (cur_pos_steps s this l xs Hls Hwf) as [Hsome Hnone]. rewrite Hc in *.
    assert (1 ≤ length xs) as Hlen.
    { rewrite <- (length_contents (nodes s)), Hc. simpl. lia. }
    destruct (Cursor_advance_forward s this l xs 1 Hls Hwf Hlen) as (c & E & Hat).
    simpl in E. unfold bind at 1 in E.
    destruct (Cursor_next (cursor this) s) as [[c0 s0]| |] eqn:E0; [|done..].
    unfold bind at 1 in E.
    destruct (Cursor_next c0 s0) as [[c1 s1]| |] eqn:E1; [|done..].
    injection E as -> ->.
    rewrite (bind_Ok _ _ _ _ _ E0).
    assert (s0 = s) as ->.
    { destruct (Cursor_next_fresh s this l xs (cursor this) Hls Hwf) as (c' & E' & _);
        [done..|]. congruence. }
    rewrite (bind_Ok _ _ _ _ _ E1). unfold bind at 1, getFuel.
    match goal with |- bind (for_of _ ?b _ _ _) _ _ = _ => set (body := b) end.
    rewrite (bind_Ok _ _ _ _ _
               (for_of_pure Cursor_iterator_next body
                  (λ '(acc, index) w, inl (callback acc w index this, (index + 1)%Z))
                  (cur_pos this l xs) (v :: rest) s
                  (λ '(acc, i) w, eq_refl) Hsome Hnone
                  (S (length (nodes s))) 1 c (v, 1%Z) (or_introl Hat)
                  ltac:(simpl; lia)
                  ltac:(rewrite <- Hc, length_contents;
                        pose proof (wf_list_bound _ _ _ Hwf); lia))).
    change (drop 1 (v :: rest)) with rest. change (v, 1%Z) with (v, Z.of_nat 1).
    rewrite (fold_until_reduce callback this 1 v rest). done.
Qed.

(** ** Searches by value *)

Lemma indexOf_loop_find (comparator : V → V → bool) v this xs2 xs1 fuel s l q index :
  wf_list (nodes s) l (xs1 ++ xs2) →
  head (xs2 ++ [_tail l]) = Some q →
  length xs2 ≤ fuel →
  indexOf_loop fuel (_tail l) comparator v (Some q) index s
  = Ok (from_option fst (-1)%Z
          (find_from (λ x _ _, comparator x v) this index (contents (nodes s) xs2)), s).
Proof.
  revert xs1 fuel q index.
  induction xs2 as [|x xs2 IH]; intros xs1 fuel q index Hwf Hq Hfuel.
  - simpl in Hq. simplify_eq.
    by destruct fuel; simpl; rewrite bool_decide_true by done.
  - simpl in Hq. simplify_eq.
    destruct fuel as [|fuel]; [simpl in Hfuel; lia|]. simpl.
    rewrite bool_decide_false; last first.
    { intros [= E]. eapply (wf_list_elem_not_tail _ _ _ q); [done| |done]. set_solver. }
    destruct (wf_list_lookup_valid _ _ _ (length xs1) q Hwf) as (_ & _ & n & Hn).
    { by rewrite lookup_app_r, Nat.sub_diag. }
    destruct (wf_list_next _ _ _ _ _ Hwf) as (q' & Hq' & Hnx).
    rewrite (bind_Ok _ _ s (value n) s); last first.
    { apply wp_run. eapply wp_getValue; [by unfold val, fld; rewrite Hn|done]. }
    unfold val at 1, fld at 1. rewrite Hn. simpl.
    destruct (comparator (value n) v); [done|].
    rewrite (bind_Ok _ _ s (Some q') s); last first.
    { apply wp_run. by eapply wp_getNext. }
    apply (IH (xs1 ++ [q])); [by rewrite <- (assoc_L (++))|done|simpl in Hfuel; lia].
Qed.

(** X16.  [indexOf(value, comparator)] returns the index of the first element
    the comparator accepts, [-1] when there is none, and [includes] says
    whether there is one. *)
Theorem indexOf_finds_the_first_match s this vs value (comparator : V → V → bool) :
  represents s this vs →
  ((∀ i v, vs !! i = Some v → comparator v value = false) ∧
   indexOf this value comparator s = Ok ((-1)%Z, s) ∧
   includes this value comparator s = Ok (false, s)) ∨
  (∃ i v, vs !! i = Some v ∧ comparator v value = true ∧
          (∀ j w, j < i → vs !! j = Some w → comparator w value = false) ∧
          indexOf this value comparator s = Ok (Z.of_nat i, s) ∧
          includes this value comparator s = Ok (true, s)).
Proof.
  intros (l & xs & Hls & Hwf & Hok & Hc).
  assert (indexOf this value comparator s
          = Ok (from_option fst (-1)%Z
                  (find_from (λ x _ _, comparator x value) this 0 vs), s)) as E.
  { unfold indexOf. rewrite (bind_Ok _ _ s l s) by (by unfold getList; rewrite Hls).
    destruct (wf_list_first _ _ _ Hwf) as (q & Hq & [Hnx _]).
    rewrite (bind_Ok _ _ s (Some q) s) by (apply wp_run; by eapply wp_getNext).
    unfold bind at 1, getFuel. rewrite <- Hc.
    apply (indexOf_loop_find comparator value this xs []); [done..|].
    pose proof (wf_list_bound _ _ _ Hwf). lia. }
  unfold includes. rewrite (bind_Ok _ _ _ _ _ E). rewrite E.
  destruct (find_from _ this 0 vs) as [[r v]|] eqn:Ef; simpl.
  - right.
    apply (find_from_Some (λ x _ _, comparator x value) this 0) in Ef
      as (i & -> & Hi & Hp & Hmin).
    exists i, v. split_and!; [done..| |].
    + done.
    + unfold ret. do 2 f_equal. apply negb_true_iff, Z.eqb_neq. simpl. lia.
  - left. split; [|done]. intros i v Hi.
    by apply (proj1 (find_from_None (λ x _ _, comparator x value) this 0 vs) Ef i v).
Qed.

Lemma lastIndexOf_loop_find (comparator : V → V → bool) v this s l xs :
  wf_list (nodes s) l xs →
  ∀ m k fuel q index c,
    m = length xs - k → k ≤ length xs →
    (rev xs ++ [_head l]) !! k = Some q →
    length xs - k ≤ fuel →
    lastIndexOf_loop fuel (_head l) comparator v (Some q) index s
    = Ok (from_option (λ iv, (index + c - iv.1)%Z) (-1)%Z
            (find_from (λ x _ _, comparator x v) this c
               (drop k (rev (contents (nodes s) xs)))), s).
Proof.
  intros Hwf m. induction m as [|m IH]; intros k fuel q index c Hm Hk Hq Hfuel.
  - assert (k = length xs) as -> by lia.
    rewrite lookup_app_r, length_rev, Nat.sub_diag in Hq by (by rewrite length_rev).
    simpl in Hq. injection Hq as <-.
    rewrite drop_ge by (by rewrite length_rev, length_contents).
    by destruct fuel; simpl; rewrite bool_decide_true by done.
  - assert (k < length xs) as Hk' by lia.
    destruct (lookup_lt_is_Some_2 (rev xs) k) as [y Hy]; [by rewrite length_rev|].
    rewrite (lookup_app_l_Some _ _ _ _ Hy) in Hq. injection Hq as <-.
    assert (y ∈ xs) as Hin.
    { apply list_elem_of_lookup_2 in Hy. rewrite rev_reverse in Hy.
      by apply elem_of_reverse. }
    apply list_elem_of_lookup_1 in Hin as [j Hj].
    destruct (wf_list_lookup_valid _ _ _ _ _ Hwf Hj) as (Hyh & _ & n & Hn).
    destruct fuel as [|fuel]; [lia|]. simpl.
    rewrite bool_decide_false by congruence.
    rewrite (bind_Ok _ _ s (value n) s); last first.
    { apply wp_run. eapply wp_getValue; [by unfold val, fld; rewrite Hn|done]. }
    assert (rev (contents (nodes s) xs) !! k = Some (value n)) as Hv.
    { rewrite <- contents_rev. rewrite (contents_lookup _ _ _ _ Hy).
      unfold val, fld. by rewrite Hn. }
    rewrite (drop_S _ _ _ Hv). simpl.
    destruct (comparator (value n) v); simpl; [unfold ret; do 2 f_equal; lia|].
    destruct (lookup_lt_is_Some_2 (rev xs ++ [_head l]) (S k)) as [p Hp].
    { rewrite length_app, length_rev. simpl. lia. }
    destruct (wf_list_step_back _ _ _ (S k) p Hwf Hp) as (y' & Hy' & [_ Hpv]).
    simpl in Hy'. assert (y' = y) as -> by congruence.
    rewrite (bind_Ok _ _ s (Some p) s) by (apply wp_run; by eapply wp_getPrev).
    rewrite (IH (S k) fuel p (index - 1)%Z (c + 1)%Z); [|lia|lia|done|lia].
    destruct (find_from _ _ _ _) as [[i w]|]; simpl; [|done].
    do 2 f_equal. lia.
Qed.

(** X17.  [lastIndexOf(value, comparator)] returns the index of the last
    element the comparator accepts, [-1] when there is none. *)
Theorem lastIndexOf_finds_the_last_match s this vs value (comparator : V → V → bool) :
  represents s this vs →
  ((∀ i v, vs !! i = Some v → comparator v value = false) ∧
   lastIndexOf this value comparator s = Ok ((-1)%Z, s)) ∨
  (∃ i v, vs !! i = Some v ∧ comparator v value = true ∧
          (∀ j w, i < j → vs !! j = Some w → comparator w value = false) ∧
          lastIndexOf this value comparator s = Ok (Z.of_nat i, s)).
Proof.
  intros (l & xs & Hls & Hwf & Hok & Hc).
  assert (lastIndexOf this value comparator s
          = Ok (from_option (λ iv, (Z.of_nat (length vs) - 1 - iv.1)%Z) (-1)%Z
                  (find_from (λ x _ _, comparator x value) this 0 (rev vs)), s)) as E.
  { unfold lastIndexOf. rewrite (bind_Ok _ _ s l s) by (by unfold getList; rewrite Hls).
    destruct (lookup_lt_is_Some_2 (rev xs ++ [_head l]) 0) as [q Hq].
    { rewrite length_app. simpl. lia. }
    destruct (wf_list_step_back _ _ _ 0 q Hwf Hq) as (t & Ht & [_ Hpv]).
    simpl in Ht. injection Ht as <-.
    rewrite (bind_Ok _ _ s (Some q) s) by (apply wp_run; by eapply wp_getPrev).
    unfold bind at 1, getFuel.
    rewrite (lastIndexOf_loop_find comparator value this s l xs Hwf (length xs) 0
               _ q _ 0%Z); [|lia|lia|done|pose proof (wf_list_bound _ _ _ Hwf); lia].
    rewrite drop_0, Hc, (wf_size _ _ _ Hwf), <- Hc, length_contents.
    destruct (find_from _ _ _ _) as [[i w]|]; simpl; [|done]. do 2 f_equal. lia. }
  rewrite E.
  destruct (find_from _ this 0 (rev vs)) as [[r v]|] eqn:Ef; simpl.
  - right.
    apply (find_from_Some (λ x _ _, comparator x value) this 0) in Ef
      as (i & -> & Hi & Hp & Hmin). simpl in *.
    assert (i < length vs) as Hlt.
    { apply lookup_lt_Some in Hi. by rewrite length_rev in Hi. }
    rewrite rev_reverse, reverse_lookup in Hi by done.
    exists (length vs - S i), v. split_and!; [done..| |].
    + intros j w Hj Hw.
      assert (j < length vs) as Hjl by (by eapply lookup_lt_Some).
      apply (Hmin (length vs - S j) w); [lia|].
      rewrite rev_reverse, reverse_lookup by lia.
      by replace (length vs - S (length vs - S j)) with j by lia.
    + do 2 f_equal. lia.
  - left. split; [|done]. intros i v Hi.
    assert (i < length vs) as Hlt by (by eapply lookup_lt_Some).
    apply (proj1 (find_from_None (λ x _ _, comparator x value) this 0 (rev vs)) Ef
             (length vs - S i) v).
    rewrite rev_reverse, reverse_lookup by lia.
    by replace (length vs - S (length vs - S i)) with i by lia.
Qed.

(** ** [join] *)

Lemma string_app_assoc (a b c : string) : ((a +:+ b) +:+ c = a +:+ (b +:+ c))%string.
Proof.
  induction a as [|ch a IH]; [done|].
  change (String ch ((a +:+ b) +:+ c) = String ch (a +:+ (b +:+ c)))%string.
  by rewrite IH.
Qed.

Lemma join_loop_concat (ToString : V → string) separator xs2 xs1 x fuel s l result :
  wf_list (nodes s) l (xs1 ++ x :: xs2) →
  length (x :: xs2) ≤ fuel →
  join_loop ToString fuel (_tail l) separator (Some x) result s
  = Ok ((result +:+ String.concat separator (ToString <$> contents (nodes s) (x :: xs2)))%string,
        s).
Proof.
  revert xs1 x fuel result.
  induction xs2 as [|y xs2 IH]; intros xs1 x fuel result Hwf Hfuel;
    (destruct fuel as [|fuel]; [simpl in Hfuel; lia|]); cbn [join_loop];
    (rewrite bool_decide_false; last first);
    try (intros [= E]; eapply (wf_list_elem_not_tail _ _ _ x); [done| |done]; set_solver);
    destruct (wf_list_lookup_valid _ _ _ (length xs1) x Hwf) as (_ & _ & n & Hn);
    try (by rewrite lookup_app_r, Nat.sub_diag);
    destruct (wf_list_next _ _ _ _ _ Hwf) as (q' & Hq' & Hnx);
    simpl in Hq'; injection Hq' as <-;
    (rewrite (bind_Ok _ _ s (value n) s); last first);
    try (apply wp_run; eapply wp_getValue; [by unfold val, fld; rewrite Hn|done]).
  - rewrite (bind_Ok _ _ s (Some (_tail l)) s) by (apply wp_run; by eapply wp_getNext).
    rewrite bool_decide_true by done.
    assert (contents (nodes s) [x] = [value n]) as ->.
    { unfold contents. simpl. unfold val, fld. by rewrite Hn. }
    by destruct fuel; cbn [join_loop]; rewrite bool_decide_true by done.
  - rewrite (bind_Ok _ _ s (Some y) s) by (apply wp_run; by eapply wp_getNext).
    rewrite bool_decide_false; last first.
    { intros [= E]. eapply (wf_list_elem_not_tail _ _ _ y); [done| |done]. set_solver. }
    rewrite (IH (xs1 ++ [x]) y fuel); [|by rewrite <- (assoc_L (++))|simpl in *; lia].
    assert (contents (nodes s) (x :: y :: xs2) = value n :: contents (nodes s) (y :: xs2))
      as ->.
    { unfold contents. rewrite fmap_cons. unfold val at 1, fld at 1. by rewrite Hn. }
    do 2 f_equal.
    change (ToString <$> value n :: contents (nodes s) (y :: xs2))
      with (ToString (value n) :: ToString (default undefined (val (nodes s) y))
              :: (ToString <$> contents (nodes s) xs2)).
    change (ToString <$> contents (nodes s) (y :: xs2))
      with (ToString (default undefined (val (nodes s) y))
              :: (ToString <$> contents (nodes s) xs2)).
    cbn [String.concat]. by rewrite !string_app_assoc.
Qed.

(** X18.  [join(separator)] is the elements' strings with the separator
    between them, and the empty string for an empty list. *)
Theorem join_concatenates s this vs (ToString : V → string) separator :
  represents s this vs →
  join ToString this separator s = Ok (String.concat separator (ToString <$> vs), s).
Proof.
  intros Hrep. unfold join.
  rewrite (bind_Ok _ _ _ _ _ (isEmpty_nil s this vs Hrep)).
  destruct Hrep as (l & xs & Hls & Hwf & Hok & Hc).
  destruct xs as [|x xs]; [by subst vs|].
  rewrite bool_decide_false by (by subst vs).
  rewrite (bind_Ok _ _ s l s) by (by unfold getList; rewrite Hls).
  destruct (wf_list_first _ _ _ Hwf) as (q & Hq & [Hnx _]).
  simpl in Hq. injection Hq as <-.
  rewrite (bind_Ok _ _ s (Some x) s) by (apply wp_run; by eapply wp_getNext).
  unfold bind at 1, getFuel.
  rewrite (join_loop_concat ToString separator xs [] x); [by rewrite Hc|done|].
  pose proof (wf_list_bound _ _ _ Hwf). simpl in *. lia.
Qed.

End Loops.

Section TwoLists.
Context {V : Type} `{JsValue V}.

Local Open Scope js_scope.
Implicit Types (s : Store V) (l : UltimateLinkedList) (h : list (Node V)).

(** ** Methods that build a new list *)

Lemma wp_conj {A} (m : M V A) (Q1 Q2 : A → Store V → Prop) s :
  wp m Q1 s → wp m Q2 s → wp m (λ a s', Q1 a s' ∧ Q2 a s') s.
Proof. unfold wp. by destruct (m s) as [[a s']| |]. Qed.

Lemma apart_refl s this c : apart s s this c.
Proof. split; try done. apply txns_ext_refl. Qed.

(** Frames compose: the second step may also touch the nodes that the first
    one created. *)
Lemma apart_trans s1 s2 s3 this c c' :
  apart s1 s2 this c → apart s2 s3 this c' →
  (∀ x, x ∈ c' → x ∈ c ∨ length (nodes s1) ≤ x) →
  apart s1 s3 this c.
Proof.
  intros [Hl1 Hn1 Hls1 Ht1] [Hl2 Hn2 Hls2 Ht2] Hc. split.
  - lia.
  - intros x Hx Hlt.
    destruct (Hn1 x Hx Hlt) as (? & ? & ?).
    destruct (Hn2 x) as (? & ? & ?); [|lia|].
    + intros Hin. destruct (Hc x Hin); [done|lia].
    + split_and!; congruence.
  - intros o Ho. rewrite Hls2, Hls1; done.
  - by eapply txns_ext_trans.
Qed.

(** A list disjoint from the one a method worked on is what it was. *)
Lemma represents_apart s s' this c o vs :
  apart s s' this c → o ≠ this →
  (∃ l xs, lists s !! o = Some l ∧ wf_list (nodes s) l xs ∧ txn_ok s o l ∧
           contents (nodes s) xs = vs ∧
           ∀ x, x ∈ _head l :: xs ++ [_tail l] → x ∉ c) →
  represents s' o vs.
Proof.
  intros [Hlen Hn Hls Ht] Ho (l & xs & Hl & Hwf & Hok & Hc & Hdisj).
  exists l, xs. split_and!.
  - by rewrite Hls.
  - eapply wf_list_frame; [done|done| |done..].
    intros x Hx. destruct (Hn x) as (? & ? & ?); [by apply Hdisj| |done].
    by eapply wf_list_fresh.
  - by eapply txn_ok_ext.
  - rewrite <- Hc. apply contents_ext. intros x Hx.
    destruct (Hn x) as (? & ? & ?); [apply Hdisj; set_solver| |done].
    eapply wf_list_fresh; [done|]. set_solver.
Qed.

Lemma apart_inserted s s' this c p q v f :
  inserted (nodes s) (nodes s') p (length (nodes s)) q v →
  lists s' = alter f this (lists s) →
  txns_ext s s' →
  p ∈ c → q ∈ c →
  apart s s' this c.
Proof.
  intros [Hlen Hn Hp Hv] Hls Ht Hpc Hqc. split.
  - lia.
  - intros x Hx Hlt. rewrite Hn, Hp, Hv.
    rewrite !decide_False; [done|lia|lia|..]; try (intros ->; done); lia.
  - intros o Ho. rewrite Hls. by apply list_lookup_alter_ne.
  - done.
Qed.

Lemma apart_skip_rebuilt s s' this c : skip_rebuilt s s' → apart s s' this c.
Proof.
  intros ([Hlen Hn] & Hl & Ht). split.
  - lia.
  - intros x _ _. apply Hn.
  - intros o _. by rewrite Hl.
  - by apply txns_ext_eq.
Qed.

Lemma apart_lists s this c f : apart s (with_lists s (alter f this (lists s))) this c.
Proof.
  split; cbn [nodes lists txns with_lists].
  - done.
  - done.
  - intros o Ho. by apply list_lookup_alter_ne.
  - by apply txns_ext_eq.
Qed.

(** [append] with its frame. *)
Lemma wp_append_apart s this l xs v (Q : unit → Store V → Prop) :
  lists s !! this = Some l →
  wf_list (nodes s) l xs →
  txn_ok s this l →
  (∀ s' l', updated s' this l l' (xs ++ [length (nodes s)]) →
            contents (nodes s') (xs ++ [length (nodes s)]) = contents (nodes s) xs ++ [v] →
            _head l' = _head l ∧ _tail l' = _tail l ∧ _transaction l' = _transaction l →
            apart s s' this (_head l :: xs ++ [_tail l]) →
            Q tt s') →
  wp (append this v) Q s.
Proof.
  intros Hls Hwf Hok HQ. unfold append.
  apply wp_bind. eapply wp_bumpModCount; [done|].
  apply wp_bind. eapply wp_getList. { hsimpl. by rewrite Hls. }
  set (l1 := set_modCount l (_modCount l + 1)).
  set (s1 := with_lists s _).
  assert (lists s1 !! this = Some l1) as Hls1.
  { subst s1. hsimpl. by rewrite Hls. }
  assert (wf_list (nodes s1) l1 (xs ++ [])) as Hwf1.
  { rewrite app_nil_r. by eapply wf_list_record. }
  assert (txn_ok s1 this l1) as Hok1 by (by eapply txn_ok_lists).
  destruct (wf_list_last _ _ _ Hwf) as (p & Hp & [Hpn Hpt]).
  apply wp_bind. eapply wp_getPrev; [done|].
  apply wp_bind. eapply wp_mono.
  { apply wp_conj.
    - eapply (wp_addNodeAfter_wf s1 this l1 xs [] p v
                (λ r s', updated s' this l1 (set_size l1 (_size l1 + 1))
                           (xs ++ [length (nodes s)]) ∧
                         contents (nodes s') (xs ++ [length (nodes s)])
                         = contents (nodes s) xs ++ [v])); [done..|].
      intros s' Hup Hc. by split.
    - eapply (wp_addNodeAfter s1 this l1 p (_tail l) v
                (λ r s', apart s1 s' this (_head l :: xs ++ [_tail l]))); [done..| |].
      { eapply wf_list_fresh; [done|]. set_solver. }
      intros s' Hins Hl' Ht'. eapply apart_inserted; [done..| |set_solver].
      apply last_Some in Hp as [l0 Hp]. rewrite app_comm_cons, Hp. set_solver. }
  intros r s2 [[Hup Hc] Hap]. simpl.
  apply wp_bind. eapply wp_getList; [apply Hup|].
  pose proof Hup as [Hls2 Hwf2 Hok2 _ _ _].
  assert (apart s s2 this (_head l :: xs ++ [_tail l])) as Hap2.
  { eapply (apart_trans s s1 s2); [apply apart_lists|exact Hap|]. by left. }
  apply wp_when.
  - intros _. eapply wp_updateSkipLinks; [done..|].
    intros s3 Hs3.
    destruct (updated_skip_rebuilt _ _ _ _ _ _ Hup Hs3) as [Hup3 Hc3].
    apply (HQ s3 (set_size l1 (_size l1 + 1))).
    + by eapply updated_from.
    + by rewrite Hc3.
    + done.
    + eapply apart_trans; [exact Hap2|by apply apart_skip_rebuilt|].
      intros x Hx. left. exact Hx.
  - intros _. apply (HQ s2 (set_size l1 (_size l1 + 1))).
    + by eapply updated_from.
    + done.
    + done.
    + done.
Qed.

(** The same list object with the same nodes, after a step that left it
    apart. *)
Lemma wf_apart s s' this c o l xs :
  apart s s' this c → o ≠ this →
  lists s !! o = Some l → wf_list (nodes s) l xs → txn_ok s o l →
  (∀ x, x ∈ _head l :: xs ++ [_tail l] → x ∉ c) →
  lists s' !! o = Some l ∧ wf_list (nodes s') l xs ∧ txn_ok s' o l ∧
  contents (nodes s') xs = contents (nodes s) xs.
Proof.
  intros [Hlen Hn Hls Ht] Ho Hl Hwf Hok Hdisj. split_and!.
  - by rewrite Hls.
  - eapply wf_list_frame; [done|done| |done..].
    intros x Hx. destruct (Hn x) as (? & ? & ?); [by apply Hdisj| |done].
    by eapply wf_list_fresh.
  - by eapply txn_ok_ext.
  - apply contents_ext. intros x Hx.
    destruct (Hn x) as (? & ? & ?); [apply Hdisj; set_solver| |done].
    eapply wf_list_fresh; [done|]. set_solver.
Qed.

(** The loop of [push] with its frame. *)
Lemma wp_push_loop_apart this values s l xs (Q : unit → Store V → Prop) :
  lists s !! this = Some l →
  wf_list (nodes s) l xs →
  txn_ok s this l →
  (∀ s' l' ys, updated s' this l l' (xs ++ ys) →
               contents (nodes s') (xs ++ ys) = contents (nodes s) xs ++ values →
               _head l' = _head l ∧ _tail l' = _tail l ∧
               _transaction l' = _transaction l ∧ _modCount l' = _modCount l →
               (∀ y, y ∈ ys → length (nodes s) ≤ y) →
               apart s s' this (_head l :: xs ++ [_tail l]) →
               Q tt s') →
  wp (push_loop this values) Q s.
Proof.
  revert s l xs Q. induction values as [|v values IH]; intros s l xs Q Hls Hwf Hok HQ; simpl.
  - apply wp_ret. apply (HQ s l []).
    + rewrite app_nil_r. by apply updated_refl.
    + by rewrite !app_nil_r.
    + done.
    + intros y Hy. by apply not_elem_of_nil in Hy.
    + apply apart_refl.
  - destruct (wf_list_last _ _ _ Hwf) as (p & Hp & [Hpn Hpt]).
    apply wp_bind. eapply wp_getList; [done|].
    apply wp_bind. eapply wp_getPrev; [done|].
    assert (wf_list (nodes s) l (xs ++ [])) as Hwf0 by (by rewrite app_nil_r).
    apply wp_bind. eapply wp_mono.
    { apply wp_conj.
      - eapply (wp_addNodeAfter_wf s this l xs [] p v
                  (λ r s', updated s' this l (set_size l (_size l + 1))
                             (xs ++ [length (nodes s)]) ∧
                           contents (nodes s') (xs ++ [length (nodes s)])
                           = contents (nodes s) xs ++ [v])); [done..|].
        intros s' Hup Hc. by split.
      - eapply (wp_addNodeAfter s this l p (_tail l) v
                  (λ r s', apart s s' this (_head l :: xs ++ [_tail l]))); [done..| |].
        { eapply wf_list_fresh; [done|]. set_solver. }
        intros s' Hins Hl' Ht'. eapply apart_inserted; [done..| |set_solver].
        apply last_Some in Hp as [l0 Hp]. rewrite app_comm_cons, Hp. set_solver. }
    intros r s1 [[Hup Hc] Hap]. simpl.
    eapply IH; [apply Hup..|].
    intros s' l' ys Hup' Hc' (Hh' & Ht' & Htr' & Hmc') Hnew Hap'.
    apply (HQ s' l' (length (nodes s) :: ys)).
    + rewrite <- (assoc_L (++)) in Hup'. by eapply updated_from.
    + change (xs ++ length (nodes s) :: ys) with (xs ++ [length (nodes s)] ++ ys).
      rewrite (assoc_L (++)), Hc', Hc, <- (assoc_L (++)). done.
    + done.
    + intros y Hy. apply elem_of_cons in Hy as [->|Hy]; [done|].
      pose proof (ap_length _ _ _ _ Hap). specialize (Hnew y Hy). lia.
    + eapply apart_trans; [exact Hap|exact Hap'|].
      intros x Hx. simpl in Hx. set_solver.
Qed.

(** [push] on a list without a transaction, with its frame. *)
Lemma wp_push_apart s this l xs values (Q : Z → Store V → Prop) :
  lists s !! this = Some l →
  wf_list (nodes s) l xs →
  txn_ok s this l →
  _transaction l = None →
  (∀ s' l' ys, updated s' this l l' (xs ++ ys) →
               contents (nodes s') (xs ++ ys) = contents (nodes s) xs ++ values →
               _head l' = _head l ∧ _tail l' = _tail l ∧ _transaction l' = None →
               (∀ y, y ∈ ys → length (nodes s) ≤ y) →
               apart s s' this (_head l :: xs ++ [_tail l]) →
               Q (_size l') s') →
  wp (push this values) Q s.
Proof.
  intros Hls Hwf Hok Htr HQ. unfold push.
  apply wp_bind. eapply wp_bumpModCount; [done|].
  set (l1 := set_modCount l (_modCount l + 1)).
  set (s1 := with_lists s _).
  assert (lists s1 !! this = Some l1) as Hls1.
  { subst s1. hsimpl. by rewrite Hls. }
  assert (wf_list (nodes s1) l1 xs) as Hwf1 by (by eapply wf_list_record).
  assert (txn_ok s1 this l1) as Hok1 by (by eapply txn_ok_lists).
  apply wp_bind. unfold beginIfTransaction.
  apply wp_bind. eapply wp_getList; [done|].
  cbn [_transaction l1 set_modCount]. rewrite Htr. apply wp_ret.
  apply wp_bind. eapply wp_push_loop_apart; [done..|].
  intros s2 l2 ys Hup2 Hc2 (Hh2 & Ht2 & Htr2 & _) Hnew Hap2.
  apply wp_bind. eapply wp_getList; [apply Hup2|].
  assert (apart s s2 this (_head l :: xs ++ [_tail l])) as Hap2'.
  { eapply (apart_trans s s1 s2); [apply apart_lists|exact Hap2|]. by left. }
  assert (∀ s3, updated s3 this l1 l2 (xs ++ ys) →
            contents (nodes s3) (xs ++ ys) = contents (nodes s) xs ++ values →
            apart s s3 this (_head l :: xs ++ [_tail l]) →
            wp (commitIfTransaction this;; l ← getList this; ret (_size l)) Q s3) as Hrest.
  { intros s3 Hup3 Hc3 Hap3.
    apply wp_bind. unfold commitIfTransaction.
    apply wp_bind. eapply wp_getList; [apply Hup3|].
    rewrite Htr2. cbn [_transaction l1 set_modCount]. rewrite Htr. apply wp_ret.
    apply wp_bind. eapply wp_getList; [apply Hup3|]. apply wp_ret.
    apply (HQ s3 l2 ys); try done.
    - by eapply updated_from.
    - split_and!; [done..|]. rewrite Htr2. done. }
  apply wp_bind, wp_when.
  - intros _. pose proof Hup2 as [Hls2 Hwf2 Hok2 _ _ _].
    eapply wp_updateSkipLinks; [done..|].
    intros s3 Hs3.
    destruct (updated_skip_rebuilt _ _ _ _ _ _ Hup2 Hs3) as [Hup3 Hc3].
    apply Hrest; [done|by rewrite Hc3|].
    eapply apart_trans; [exact Hap2'|by apply apart_skip_rebuilt|].
    intros x Hx. by left.
  - intros _. by apply Hrest.
Qed.

(** [new UltimateLinkedList(iterable, options)] with its frame: a new list
    object on new nodes. *)
Lemma wp_new_apart s iterable skipLinks observable (Q : nat → Store V → Prop) :
  (∀ s' l ys,
     lists s' !! length (lists s) = Some l →
     wf_list (nodes s') l ys → txn_ok s' (length (lists s)) l →
     contents (nodes s') ys = default [] iterable →
     _transaction l = None →
     _useSkipLinks l = skipLinks → _observable l = observable →
     (∀ x, x ∈ _head l :: ys ++ [_tail l] → length (nodes s) ≤ x) →
     apart s s' (length (lists s)) [] →
     Q (length (lists s)) s') →
  wp (new_UltimateLinkedList iterable skipLinks observable) Q s.
Proof.
  intros HQ. unfold new_UltimateLinkedList.
  apply wp_bind, wp_allocNode. apply wp_bind, wp_allocNode.
  apply wp_bind, wp_setNext; [hlen|]. apply wp_bind, wp_setPrev; [hlen|].
  apply wp_bind.
  cbn [nodes with_nodes]. rewrite length_app. simpl length. rewrite Nat.add_1_r.
  set (l0 := mkList _ _ _ _ _ _ _ _).
  pose proof (wf_list_new (nodes s) l0 eq_refl eq_refl eq_refl) as Hwf0.
  cbn [_head _tail l0] in Hwf0. fold l0 in Hwf0.
  unfold wp at 1, allocList.
  match goal with |- wp _ _ ?s0 => set (s1 := s0) end.
  cbn [lists with_nodes with_lists].
  set (this := length (lists s)).
  assert (lists s1 !! this = Some l0) as Hls1.
  { subst s1 this. cbn [lists with_nodes with_lists]. by rewrite list_lookup_middle. }
  assert (wf_list (nodes s1) l0 []) as Hwf1 by exact Hwf0.
  assert (txn_ok s1 this l0) as Hok1 by (intros t Ht; done).
  assert (apart s s1 this []) as Hap.
  { subst s1 this. split; cbn [nodes lists txns with_nodes with_lists].
    - hlen.
    - intros x _ Hx. hsimpl. repeat case_decide; try lia. done.
    - intros o Ho. destruct (decide (o < length (lists s))) as [Hlt|Hge].
      + by rewrite lookup_app_l.
      + rewrite !lookup_ge_None_2; [done|lia|rewrite length_app; simpl; lia].
    - by apply txns_ext_eq. }
  assert (length (nodes s1) = S (S (length (nodes s)))) as Hlen1.
  { subst s1. hlen. }
  clearbody s1. clear Hwf0.
  assert (∀ s2 l2 ys,
            updated s2 this l0 l2 ys →
            contents (nodes s2) ys = default [] iterable →
            _head l2 = _head l0 ∧ _tail l2 = _tail l0 ∧ _transaction l2 = None →
            (∀ y, y ∈ ys → length (nodes s) ≤ y) →
            apart s s2 this [] →
            wp (when skipLinks (_updateSkipLinks this);; ret this) Q s2) as Hrest.
  { intros s2 l2 ys Hup2 Hc2 (Hh2 & Ht2 & Htr2) Hnew Hap2.
    assert (∀ x, x ∈ _head l2 :: ys ++ [_tail l2] → length (nodes s) ≤ x) as Hge.
    { intros x. rewrite Hh2, Ht2. simpl. intros Hx.
      apply elem_of_cons in Hx as [->|Hx]; [lia|].
      apply elem_of_app in Hx as [Hx|Hx]; [by apply Hnew|].
      apply list_elem_of_singleton in Hx as ->. lia. }
    apply wp_bind, wp_when.
    - intros _. pose proof Hup2 as [Hls2 Hwf2 Hok2 _ _ _].
      eapply wp_updateSkipLinks; [done..|].
      intros s3 Hs3. apply wp_ret.
      destruct (updated_skip_rebuilt _ _ _ _ _ _ Hup2 Hs3)
        as [[Hls3 Hwf3 Hok3 Hsk3 Hob3 _] Hc3].
      apply (HQ s3 l2 ys); try done.
      + by rewrite Hc3.
      + eapply apart_trans; [exact Hap2|by apply apart_skip_rebuilt|]. by left.
    - intros _. apply wp_ret. destruct Hup2 as [Hls2 Hwf2 Hok2 Hsk2 Hob2 _].
      by apply (HQ s2 l2 ys). }
  destruct iterable as [values|]; simpl.
  - apply wp_bind, wp_bind. eapply wp_push_apart; [done..|].
    intros s2 l2 ys Hup2 Hc2 Hsame Hnew Hap2. apply wp_ret.
    apply (Hrest s2 l2 ys).
    + by eapply updated_from.
    + exact Hc2.
    + done.
    + intros y Hy. specialize (Hnew y Hy). lia.
    + eapply apart_trans; [exact Hap|exact Hap2|].
      intros x Hx. right. cbn [_head _tail l0] in Hx.
      pose proof (ap_length _ _ _ _ Hap). set_solver by lia.
  - apply wp_bind, wp_ret.
    apply (Hrest s1 l0 []);
      [by apply updated_refl|done|done|intros y Hy; by apply not_elem_of_nil in Hy|done].
Qed.

Lemma reading_into_new s this l xs vs iterable skipLinks observable
    (Q : nat → Store V → Prop) :
  lists s !! this = Some l → wf_list (nodes s) l xs → txn_ok s this l →
  contents (nodes s) xs = vs →
  (∀ r s', reading_into (length (nodes s)) this l xs vs r (default [] iterable) s' →
           Q r s') →
  wp (new_UltimateLinkedList iterable skipLinks observable) Q s.
Proof.
  intros Hls Hwf Hok Hc HQ. apply wp_new_apart.
  intros s' lr ys Hlr Hwfr Hokr Hcr Htr _ _ Hge Hap.
  assert (length (lists s) ≠ this) as Hne.
  { apply lookup_lt_Some in Hls. lia. }
  destruct (wf_apart s s' _ [] this l xs Hap) as (Hls' & Hwf' & Hok' & Hc');
    [done..|by intros x _; apply not_elem_of_nil|].
  apply HQ. split_and!; [done..|by rewrite Hc'| | |].
  - intros x Hx. by eapply wf_list_fresh.
  - apply Hap.
  - by exists lr, ys.
Qed.

Lemma reading_into_append n0 this l xs vs r ws v s (Q : unit → Store V → Prop) :
  reading_into n0 this l xs vs r ws s →
  (∀ s', reading_into n0 this l xs vs r (ws ++ [v]) s' → Q tt s') →
  wp (append r v) Q s.
Proof.
  intros (Hne & Hls & Hwf & Hok & Hc & Hlt & Hn0 & lr & ys & Hlr & Hwfr & Hokr & Hcr
          & Htr & Hge) HQ.
  eapply wp_append_apart; [done..|].
  intros s' lr' [Hlr' Hwfr' Hokr' _ _ _] Hcr' (Hh' & Ht' & Htr') Hap.
  destruct (wf_apart s s' r _ this l xs Hap) as (Hls' & Hwf' & Hok' & Hc'); [done..| |].
  { intros x Hx Hx'. specialize (Hlt x Hx). specialize (Hge x Hx'). lia. }
  apply HQ. split_and!; [done..|by rewrite Hc'|done| |].
  - pose proof (ap_length _ _ _ _ Hap). lia.
  - exists lr', (ys ++ [length (nodes s)]).
    split_and!; [done..|by rewrite Hcr', Hcr|congruence|].
    intros x Hx.
    assert (x ∈ _head lr :: ys ++ [_tail lr] ∨ x = length (nodes s)) as [Hx'| ->].
    { revert Hx. rewrite Hh', Ht'. set_solver. }
    + by apply Hge.
    + done.
Qed.

Lemma imap_take_S {B} (F : nat → V → B) (vs : list V) k v :
  vs !! k = Some v → imap F (take (S k) vs) = imap F (take k vs) ++ [F k v].
Proof.
  intros Hk. rewrite (take_S_r _ _ _ Hk), imap_app. simpl.
  rewrite length_take, Nat.min_l, Nat.add_0_r; [done|].
  apply lookup_lt_Some in Hk. lia.
Qed.

Lemma reading_into_represents n0 this l xs vs r ws s :
  reading_into n0 this l xs vs r ws s →
  r ≠ this ∧ represents s r ws ∧ represents s this vs.
Proof.
  intros (Hne & Hls & Hwf & Hok & Hc & _ & _ & lr & ys & Hlr & Hwfr & Hokr & Hcr & _).
  split_and!; [done|by exists lr, ys|by exists l, xs].
Qed.

Lemma reading_into_steps n0 this l xs vs r :
  (∀ k it s v,
     (∃ ws, reading_into n0 this l xs vs r ws s) → it_at this l xs k it →
     vs !! k = Some v →
     ∃ it', iterator_next it s = Ok ((it', Some v), s) ∧ it_at this l xs (S k) it') ∧
  (∀ it s,
     (∃ ws, reading_into n0 this l xs vs r ws s) → it_at this l xs (length vs) it →
     ∃ it', iterator_next it s = Ok ((it', None), s)).
Proof.
  split.
  - intros k it s v (ws & _ & Hls & Hwf & _ & Hc & _) Hit Hk.
    rewrite <- Hc in Hk. unfold contents in Hk. rewrite list_lookup_fmap in Hk.
    destruct (xs !! k) as [x|] eqn:Hx; [|done]. simpl in Hk. injection Hk as <-.
    by eapply iterator_next_value.
  - intros it s (ws & _ & Hls & Hwf & _ & Hc & _) Hit.
    rewrite <- Hc, length_contents in Hit. by eapply iterator_next_done.
Qed.

(** X19.  [new UltimateLinkedList(iterable, options)], and with it [from],
    [of] and [empty], can be called in any store: it makes a new list object
    that holds the values of the iterable in order, none when there is no
    iterable, and leaves every list there was as it was. *)
Theorem constructor_builds_the_list s (iterable : option (list V)) skipLinks observable :
  ∃ this s', new_UltimateLinkedList iterable skipLinks observable s = Ok (this, s') ∧
             lists s !! this = None ∧
             represents s' this (default [] iterable) ∧
             toArray this s' = Ok (default [] iterable, s') ∧
             spread_list this s' = Ok (default [] iterable, s') ∧
             length_ this s' = Ok (Z.of_nat (length (default [] iterable)), s') ∧
             (skipLinks = false → seeks_linearly s' this) ∧
             ∀ o vs, represents s o vs → represents s' o vs.
Proof.
  assert (wp (new_UltimateLinkedList iterable skipLinks observable)
            (λ this s', this = length (lists s) ∧
                        represents s' this (default [] iterable) ∧
                        (skipLinks = false → seeks_linearly s' this) ∧
                        apart s s' this []) s) as Hwp.
  { apply wp_new_apart. intros s' l ys Hls Hwf Hok Hc Ht Hsk Hob Hfresh Hap.
    split_and!; [done|by exists l, ys| |done].
    intros ->. exists l. split; [done|]. unfold linear_seek. by rewrite Hsk. }
  apply wp_elim in Hwp as (this & s' & E & -> & Hrep & Hlin & Hap).
  exists (length (lists s)), s'. split_and!; [done| |done| | | |done|].
  - by apply lookup_ge_None_2.
  - by apply represents_toArray.
  - by apply represents_spread.
  - by apply represents_length.
  - intros o vs (l & xs & Hl & Hwf & Hok & Hc).
    eapply represents_apart; [done| |].
    + intros ->. apply lookup_lt_Some in Hl. lia.
    + exists l, xs. split_and!; [done..|]. intros x _. apply not_elem_of_nil.
Qed.

(** X20.  [map(callback)] builds a new list of the callback's results, in
    order; the callback is given the value, its index and the list. The list
    mapped over is left as it was. *)
Theorem map_builds_the_image s this vs (callback : V → Z → lref → V) :
  represents s this vs →
  ∃ r s', map_ this callback s = Ok (r, s') ∧
          r ≠ this ∧
          represents s' r (imap (λ i v, callback v (Z.of_nat i) this) vs) ∧
          represents s' this vs.
Proof.
  intros (l & xs & Hls & Hwf & Hok & Hc).
  set (F := λ (i : nat) v, callback v (Z.of_nat i) this).
  assert (wp (map_ this callback)
            (λ r s', r ≠ this ∧ represents s' r (imap F vs) ∧ represents s' this vs) s)
    as Hwp; [|apply wp_elim in Hwp as (r & s' & E & ?); by exists r, s'].
  unfold map_. apply wp_bind.
  eapply reading_into_new; [done..|]. intros r s1 Hinv.
  pose proof Hinv as (_ & Hls1 & Hwf1 & _).
  destruct (it_at_iterator s1 this l xs Hls1) as (it & Eit & Hit).
  apply wp_bind. eapply wp_intro; [exact Eit|].
  apply wp_bind, wp_getFuel. apply wp_bind.
  destruct (reading_into_steps (length (nodes s)) this l xs vs r) as [Hsome Hnone].
  eapply (wp_for_of iterator_next _ (it_at this l xs)
            (λ k index s', index = Z.of_nat k ∧
               reading_into (length (nodes s)) this l xs vs r (imap F (take k vs)) s') vs)
    with (k := 0).
  - intros k it0 a s0 v [_ HI] Hpos Hk. eapply Hsome; eauto.
  - intros it0 a s0 [_ HI] Hpos. eapply Hnone; eauto.
  - intros k a v s0 [-> HI] Hk.
    apply wp_bind. eapply reading_into_append; [done|].
    intros s' HI'. apply wp_ret. split; [lia|].
    by rewrite (imap_take_S F _ _ _ Hk).
  - intros a s0 [-> HI]. rewrite firstn_all in HI. apply wp_ret.
    by eapply reading_into_represents.
  - by split.
  - done.
  - lia.
  - rewrite <- Hc, length_contents. pose proof (wf_list_bound _ _ _ Hwf1). lia.
Qed.

(** X21.  [filter(predicate)] builds a new list of the elements the predicate
    accepts, in their order; the list filtered is left as it was. *)
Theorem filter_keeps_the_accepted s this vs (predicate : V → Z → lref → bool) :
  represents s this vs →
  ∃ r s', filter_ this predicate s = Ok (r, s') ∧
          r ≠ this ∧
          represents s' r
            (snd <$> filter (λ iv, predicate iv.2 (Z.of_nat iv.1) this) (imap pair vs)) ∧
          represents s' this vs.
Proof.
  intros (l & xs & Hls & Hwf & Hok & Hc).
  set (G := λ ws : list V,
         snd <$> filter (λ iv, predicate iv.2 (Z.of_nat iv.1) this) (imap pair ws)).
  assert (wp (filter_ this predicate)
            (λ r s', r ≠ this ∧ represents s' r (G vs) ∧ represents s' this vs) s)
    as Hwp; [|apply wp_elim in Hwp as (r & s' & E & ?); by exists r, s'].
  unfold filter_. apply wp_bind.
  eapply reading_into_new; [done..|]. intros r s1 Hinv.
  pose proof Hinv as (_ & Hls1 & Hwf1 & _).
  destruct (it_at_iterator s1 this l xs Hls1) as (it & Eit & Hit).
  apply wp_bind. eapply wp_intro; [exact Eit|].
  apply wp_bind, wp_getFuel. apply wp_bind.
  destruct (reading_into_steps (length (nodes s)) this l xs vs r) as [Hsome Hnone].
  eapply (wp_for_of iterator_next _ (it_at this l xs)
            (λ k index s', index = Z.of_nat k ∧
               reading_into (length (nodes s)) this l xs vs r (G (take k vs)) s') vs)
    with (k := 0).
  - intros k it0 a s0 v [_ HI] Hpos Hk. eapply Hsome; eauto.
  - intros it0 a s0 [_ HI] Hpos. eapply Hnone; eauto.
  - intros k a v s0 [-> HI] Hk.
    assert (G (take (S k) vs)
            = G (take k vs) ++ if predicate v (Z.of_nat k) this then [v] else []) as EG.
    { unfold G. rewrite (imap_take_S pair _ _ _ Hk), filter_app, fmap_app. f_equal.
      rewrite filter_cons. simpl.
      destruct (predicate v (Z.of_nat k) this); simpl; done. }
    apply wp_bind, wp_when.
    + intros Hp. eapply reading_into_append; [done|].
      intros s' HI'. apply wp_ret. split; [lia|]. by rewrite EG, Hp.
    + intros Hp. apply wp_ret. split; [lia|]. by rewrite EG, Hp, app_nil_r.
  - intros a s0 [-> HI]. rewrite firstn_all in HI. apply wp_ret.
    by eapply reading_into_represents.
  - by split.
  - done.
  - lia.
  - rewrite <- Hc, length_contents. pose proof (wf_list_bound _ _ _ Hwf1). lia.
Qed.

Lemma wp_slice_loop n0 this l xs vs r count :
  ∀ k q ws s (Q : unit → Store V → Prop),
    reading_into n0 this l xs vs r ws s →
    (xs ++ [_tail l]) !! k = Some q →
    (∀ s', reading_into n0 this l xs vs r (ws ++ take count (drop k vs)) s' → Q tt s') →
    wp (slice_loop count (_tail l) r (Some q)) Q s.
Proof.
  induction count as [|count IH]; intros k q ws s Q HI Hq HQ; simpl.
  - apply wp_ret, HQ. by rewrite app_nil_r.
  - pose proof HI as (_ & Hls & Hwf & _ & Hc & _).
    assert (k ≤ length xs) as Hk.
    { apply lookup_lt_Some in Hq. rewrite length_app in Hq. simpl in Hq. lia. }
    destruct (decide (k = length xs)) as [->|Hne].
    + rewrite lookup_app_r, Nat.sub_diag in Hq by done. simpl in Hq. injection Hq as <-.
      rewrite bool_decide_true by done. apply wp_ret, HQ.
      rewrite drop_ge by (rewrite <- Hc, length_contents; lia).
      by rewrite app_nil_r.
    + destruct (lookup_lt_is_Some_2 xs k) as [x Hx]; [lia|].
      rewrite (lookup_app_l_Some _ _ _ _ Hx) in Hq. injection Hq as <-.
      destruct (wf_list_lookup_valid _ _ _ _ _ Hwf Hx) as (_ & Hxt & n & Hn).
      rewrite bool_decide_false by congruence.
      apply wp_bind. eapply wp_getValue; [by unfold val, fld; rewrite Hn|].
      assert (vs !! k = Some (value n)) as Hv.
      { rewrite <- Hc, (contents_lookup _ _ _ _ Hx). unfold val, fld. by rewrite Hn. }
      apply wp_bind. eapply reading_into_append; [done|]. intros s' HI'.
      pose proof HI' as (_ & Hls' & Hwf' & _).
      destruct (lookup_lt_is_Some_2 (xs ++ [_tail l]) (S k)) as [q' Hq'].
      { rewrite length_app. simpl. lia. }
      destruct (wf_list_step _ _ _ (S k) q' Hwf' Hq') as (p & Hp & [Hnx _]).
      simpl in Hp. assert (p = x) as -> by congruence.
      apply wp_bind. eapply wp_getNext; [done|].
      eapply (IH (S k)); [done..|].
      intros s'' HI''. apply HQ.
      by rewrite (drop_S _ _ _ Hv), firstn_cons, cons_middle, (assoc_L (++)).
Qed.

(** X22.  [slice(start, end)] builds a new list of the elements from [start]
    up to, not including, [end]; a negative bound counts from the end of the
    list, and both are clamped to the list. The list sliced is left as it was. *)
Theorem slice_copies_the_range s this vs (start end_ : option Z) :
  represents s this vs →
  seeks_linearly s this →
  let n := Z.of_nat (length vs) in
  let resolved (i : Z) := if (i <? 0)%Z then (n + i)%Z else i in
  let from := Z.max 0 (resolved (default 0%Z start)) in
  let to := Z.min n (resolved (default n end_)) in
  ∃ r s', slice this start end_ s = Ok (r, s') ∧
          r ≠ this ∧
          represents s' r (take (Z.to_nat (to - from)) (drop (Z.to_nat from) vs)) ∧
          represents s' this vs.
Proof.
  intros (l & xs & Hls & Hwf & Hok & Hc) (l0 & Hls0 & Hlin) n resolved from to.
  assert (l0 = l) as -> by congruence.
  assert (_size l = n) as Hsz.
  { subst n. by rewrite (wf_size _ _ _ Hwf), <- Hc, length_contents. }
  assert (wp (slice this start end_)
            (λ r s', r ≠ this ∧
               represents s' r (take (Z.to_nat (to - from)) (drop (Z.to_nat from) vs)) ∧
               represents s' this vs) s)
    as Hwp; [|apply wp_elim in Hwp as (r & s' & E & ?); by exists r, s'].
  unfold slice. apply wp_bind. eapply wp_getList; [done|]. rewrite Hsz.
  fold (resolved (default 0%Z start)). fold (resolved (default n end_)).
  fold from. fold to.
  destruct (Z.geb_spec from to) as [Hge|Hlt].
  - eapply reading_into_new; [done..|]. intros r s1 HI.
    replace (Z.to_nat (to - from)) with 0 by lia. simpl.
    by eapply reading_into_represents.
  - apply wp_bind. eapply reading_into_new; [done..|]. intros r s1 HI.
    pose proof HI as (_ & Hls1 & Hwf1 & _).
    assert (0 ≤ from < n)%Z as Hfrom by (subst from to; lia).
    destruct (lookup_lt_is_Some_2 xs (Z.to_nat from)) as [x Hx].
    { rewrite <- (length_contents (nodes s)), Hc. lia. }
    apply wp_bind. eapply (wp_nodeAt _ _ _ _ _ (Z.to_nat from)); [done..| |done|].
    { unfold resolve. destruct (Z.ltb_spec from 0); lia. }
    apply wp_bind. eapply wp_getList; [done|].
    apply wp_bind. eapply (wp_slice_loop _ _ _ _ _ _ _ (Z.to_nat from)); [done| |].
    { by apply lookup_app_l_Some. }
    intros s' HI'. apply wp_ret. by eapply reading_into_represents.
Qed.

(** ** The immutable view and its mutable copy *)

(** X23.  An [ImmutableLinkedList] is a live view: it reads whatever the
    source holds at the moment, a later [append] to the source included.
    [toMutable()] makes a copy with nodes of its own: it holds the same
    values, and appending to it leaves the source as it was. *)
Theorem immutable_is_a_view_toMutable_a_copy s this vs :
  represents s this vs →
  Immutable_toArray (immutable this) s = Ok (vs, s) ∧
  Immutable_length (immutable this) s = Ok (Z.of_nat (length vs), s) ∧
  (∀ v, ∃ s1, append this v s = Ok (tt, s1) ∧
              Immutable_toArray (immutable this) s1 = Ok (vs ++ [v], s1)) ∧
  ∃ m s', Immutable_toMutable (immutable this) s = Ok (m, s') ∧
          m ≠ this ∧ represents s' m vs ∧ represents s' this vs ∧
          ∀ v, ∃ s2, append m v s' = Ok (tt, s2) ∧
                     represents s2 m (vs ++ [v]) ∧ represents s2 this vs.
Proof.
  intros Hrep. split_and!.
  - by apply represents_toArray.
  - by apply represents_length.
  - intros v. destruct Hrep as (l & xs & Hls & Hwf & Hok & Hc).
    assert (wp (append this v) (λ _ s1, represents s1 this (vs ++ [v])) s) as Hwp.
    { eapply wp_append; [done..|]. intros s1 l1 Hup _ Hc1.
      eapply represents_updated; [done|]. by rewrite Hc1, Hc. }
    apply wp_elim in Hwp as ([] & s1 & E & Hrep1). exists s1. split; [done|].
    by apply represents_toArray.
  - pose proof (represents_spread s this vs Hrep) as Espread.
    destruct Hrep as (l & xs & Hls & Hwf & Hok & Hc).
    assert (wp (Immutable_toMutable (immutable this))
              (λ m s', reading_into (length (nodes s)) this l xs vs m vs s') s) as Hwp.
    { unfold Immutable_toMutable. simpl. apply wp_bind.
      eapply wp_intro; [exact Espread|].
      by eapply (reading_into_new s this l xs vs (Some vs)). }
    apply wp_elim in Hwp as (m & s' & E & HI).
    destruct (reading_into_represents _ _ _ _ _ _ _ _ HI) as (Hne & Hm & Hthis).
    exists m, s'. split_and!; [done..|].
    intros v.
    assert (wp (append m v)
              (λ _ s2, reading_into (length (nodes s)) this l xs vs m (vs ++ [v]) s2) s')
      as Hwp.
    { by eapply reading_into_append. }
    apply wp_elim in Hwp as ([] & s2 & E2 & HI2).
    destruct (reading_into_represents _ _ _ _ _ _ _ _ HI2) as (_ & Hm2 & Hthis2).
    by exists s2.
Qed.

(** ** [range] *)

(** Up to [2^53] every integer is a double: the sum is exact. *)
Lemma round_to_double_exact (z : Z) :
  (Z.abs z ≤ 2 ^ 53)%Z → round_to_double z = z ∧ overflows z = false.
Proof.
  intros Hz. unfold round_to_double, overflows. split.
  - by rewrite (proj2 (Z.leb_le _ _) Hz).
  - apply Z.leb_gt. eapply Z.le_lt_trans; [exact Hz|]. by apply Z.pow_lt_mono_r.
Qed.

Lemma wp_range_loop `{JsNumber V} r (start end_ step : Z) (count : nat) :
  (∀ i : nat, i < count ↔
     if (step >? 0)%Z then (start + Z.of_nat i * step < end_)%Z
     else (start + Z.of_nat i * step > end_)%Z) →
  (∀ i : nat, i ≤ count → (Z.abs (start + Z.of_nat i * step) ≤ 2 ^ 53)%Z) →
  ∀ m j fuel ws s (Q : unit → Store V → Prop),
    m = count - j → j ≤ count → m ≤ fuel →
    represents s r ws →
    (∀ s', represents s' r
             (ws ++ ((λ i : nat, number (start + Z.of_nat i * step)%Z) <$> seq j m)) →
           Q tt s') →
    wp (range_loop fuel r end_ step (start + Z.of_nat j * step)%Z) Q s.
Proof.
  intros Hcount Hsafe m.
  induction m as [|m IH]; intros j fuel ws s Q Hm Hj Hfuel Hrep HQ.
  - assert (j = count) as -> by lia.
    assert ((if (step >? 0)%Z then (start + Z.of_nat count * step <? end_)%Z
             else (start + Z.of_nat count * step >? end_)%Z) = false) as Hcond.
    { pose proof (Hcount count) as Hc.
      destruct (Z.gtb_spec step 0).
      - apply Z.ltb_ge. destruct (Z_lt_dec (start + Z.of_nat count * step) end_); [|lia].
        apply Hc in l. lia.
      - rewrite Z.gtb_ltb. apply Z.ltb_ge.
        destruct (Z_gt_dec (start + Z.of_nat count * step) end_); [|lia].
        apply Hc in g. lia. }
    destruct fuel; cbn [range_loop]; rewrite Hcond; apply wp_ret, HQ; by rewrite app_nil_r.
  - assert ((if (step >? 0)%Z then (start + Z.of_nat j * step <? end_)%Z
             else (start + Z.of_nat j * step >? end_)%Z) = true) as Hcond.
    { pose proof (proj1 (Hcount j)) as Hc.
      destruct (Z.gtb_spec step 0).
      - apply Z.ltb_lt. apply Hc. lia.
      - rewrite Z.gtb_ltb. apply Z.ltb_lt. assert (j < count) as Hlt by lia.
        apply Hc in Hlt. lia. }
    destruct fuel as [|fuel]; [lia|]. cbn [range_loop]. rewrite Hcond.
    destruct Hrep as (lr & ys & Hlr & Hwfr & Hokr & Hcr).
    apply wp_bind. eapply wp_append; [done..|].
    intros s' lr' Hup _ Hc'.
    replace (start + Z.of_nat j * step + step)%Z
      with (start + Z.of_nat (S j) * step)%Z by lia.
    destruct (round_to_double_exact (start + Z.of_nat (S j) * step)) as [-> ->].
    { apply Hsafe. lia. }
    eapply (IH (S j)); [lia|lia|lia| |].
    + eapply represents_updated; [done|]. by rewrite Hc', Hcr.
    + intros s'' Hrep''. apply HQ.
      by rewrite <- (assoc_L (++)) in Hrep''.
Qed.

(** The number of values [range] is to produce: the [i] for which
    [start + i * step] lies before [end]. *)
Lemma range_count (start end_ step : Z) :
  step ≠ 0%Z →
  ∃ count : nat,
    ∀ i : nat, i < count ↔
      if (step >? 0)%Z then (start + Z.of_nat i * step < end_)%Z
      else (start + Z.of_nat i * step > end_)%Z.
Proof.
  intros Hstep. destruct (Z.gtb_spec step 0) as [Hpos|Hneg].
  - exists (Z.to_nat ((end_ - start + step - 1) / step)). intros i. split.
    + intros Hi.
      assert (Z.of_nat i + 1 ≤ (end_ - start + step - 1) / step)%Z as Hle by lia.
      pose proof (Z.mul_div_le (end_ - start + step - 1) step ltac:(lia)). nia.
    + intros Hi.
      assert (Z.of_nat i + 1 ≤ (end_ - start + step - 1) / step)%Z; [|lia].
      apply Z.div_le_lower_bound; [lia|]. nia.
  - exists (Z.to_nat ((start - end_ + - step - 1) / - step)). intros i. split.
    + intros Hi.
      assert (Z.of_nat i + 1 ≤ (start - end_ + - step - 1) / - step)%Z as Hle by lia.
      pose proof (Z.mul_div_le (start - end_ + - step - 1) (- step) ltac:(lia)). nia.
    + intros Hi.
      assert (Z.of_nat i + 1 ≤ (start - end_ + - step - 1) / - step)%Z; [|lia].
      apply Z.div_le_lower_bound; [lia|]. nia.
Qed.

(** X24.  For doubles with integer values of magnitude at most [2^52],
    where every sum the loop forms is exact, [range(start, end, step)]
    builds the list [start], [start + step], ... of the values that lie
    before [end] in the direction of [step]; a [step] of [0] is a
    [RangeError]. *)
Theorem range_enumerates `{JsNumber V} s (start end_ step : Z) :
  step ≠ 0%Z →
  (Z.abs start ≤ 2 ^ 52)%Z → (Z.abs end_ ≤ 2 ^ 52)%Z → (Z.abs step ≤ 2 ^ 52)%Z →
  UltimateLinkedList_range start end_ 0 s = Throw RangeError ∧
  ∃ (count : nat) r s',
    UltimateLinkedList_range start end_ step s = Ok (r, s') ∧
    represents s' r ((λ i : nat, number (start + Z.of_nat i * step)%Z) <$> seq 0 count) ∧
    ∀ i : nat, i < count ↔
      if (step >? 0)%Z then (start + Z.of_nat i * step < end_)%Z
      else (start + Z.of_nat i * step > end_)%Z.
Proof.
  intros Hstep Hbs Hbe Hbp. split.
  { unfold UltimateLinkedList_range.
    assert (wp (new_UltimateLinkedList None true false) (λ _ _, True) s) as Hwp.
    { by apply wp_new_apart. }
    apply wp_elim in Hwp as (r & s' & E & _). by rewrite (bind_Ok _ _ _ _ _ E). }
  destruct (range_count start end_ step Hstep) as [count Hcount].
  exists count.
  assert (2 ^ 53 = 2 * 2 ^ 52)%Z as E53 by done.
  assert (∀ i : nat, i ≤ count → (Z.abs (start + Z.of_nat i * step) ≤ 2 ^ 53)%Z) as Hsafe.
  { intros [|i] Hi; [lia|].
    pose proof (proj1 (Hcount i) ltac:(lia)) as Hc.
    destruct (Z.gtb_spec step 0); nia. }
  assert (wp (UltimateLinkedList_range start end_ step)
            (λ r s', represents s' r
               ((λ i : nat, number (start + Z.of_nat i * step)%Z) <$> seq 0 count)) s)
    as Hwp; [|apply wp_elim in Hwp as (r & s' & E & ?); by exists r, s'].
  unfold UltimateLinkedList_range. apply wp_bind, wp_new_apart.
  intros s1 lr ys Hlr Hwfr Hokr Hcr _ _ _ _ _.
  assert (represents s1 (length (lists s)) []) as Hrep by (by exists lr, ys).
  destruct (Z.eqb_spec step 0) as [|_]; [done|].
  destruct (((step >? 0)%Z && (start >=? end_)%Z) || ((step <? 0)%Z && (start <=? end_)%Z))
    eqn:Hempty.
  - apply wp_ret.
    assert (count = 0) as ->; [|done].
    destruct count as [|count]; [done|]. exfalso.
    pose proof (proj1 (Hcount 0) ltac:(lia)) as Hfirst. simpl in Hfirst.
    destruct (Z.gtb_spec step 0); lia.
  - apply wp_bind.
    replace start with (start + Z.of_nat 0 * step)%Z at 2 by lia.
    eapply (wp_range_loop _ start end_ step count Hcount Hsafe count 0); [lia|lia| |done|].
    + destruct count as [|count]; [lia|].
      pose proof (proj1 (Hcount count) ltac:(lia)) as Hc.
      destruct (Z.gtb_spec step 0); nia.
    + intros s' Hrep'. by apply wp_ret.
Qed.

End TwoLists.

Section Events.
Context {V : Type} `{JsValue V}.

Local Open Scope js_scope.
Implicit Types (s : Store V) (l : UltimateLinkedList) (h : list (Node V)).

(** ** Listeners and transactions *)

Lemma wp_run_to {A} (m : M V A) s r s1 :
  wp m (λ r' s', r' = r ∧ s' = s1) s → m s = Ok (r, s1).
Proof. intros Hwp. by apply wp_elim in Hwp as (r' & s' & E & -> & ->). Qed.

Lemma flushEvents_delivered s this l evs :
  lists s !! this = Some l →
  flushEvents this evs s
  = Ok (tt, with_delivered s (delivered s ++ deliveries (_listeners l) evs)).
Proof.
  revert s. induction evs as [|e evs IH]; intros s Hls; simpl.
  - unfold ret. rewrite app_nil_r. by destruct s.
  - rewrite (bind_Ok _ _ s l s) by (by unfold getList; rewrite Hls).
    rewrite (bind_Ok _ _ _ _ _ (callAll_spec _ e s)).
    rewrite IH by done. cbn [delivered with_delivered].
    by rewrite <- (assoc_L (++)).
Qed.

(** [commit()] on an active transaction. *)
Lemma wp_commit_active s this l t tx (Q : unit → Store V → Prop) :
  lists s !! this = Some l →
  txns s !! t = Some tx →
  _list tx = this →
  _active tx = true →
  (∀ s', delivered s' = delivered s ++ deliveries (_listeners l) (events tx) →
         nodes s' = nodes s →
         lists s' !! this = Some (set_transaction l None) →
         txns s' !! t = Some (mkTransaction this (_snapshot tx) false []) →
         Q tt s') →
  wp (Transaction_commit t) Q s.
Proof.
  intros Hls Htx Hl Hact HQ.
  unfold Transaction_commit. apply wp_bind. eapply wp_getTxn; [done|].
  rewrite Hact. simpl.
  apply wp_bind. eapply wp_modTxn; [done|].
  apply wp_bind. eapply wp_modList; [by rewrite Hl|].
  apply wp_bind.
  match goal with |- wp _ _ ?s0 => set (s1 := s0) end.
  assert (lists s1 !! this = Some (set_transaction l None)) as Hls1.
  { subst s1. hsimpl. rewrite Hl. hsimpl. by rewrite Hls. }
  rewrite Hl. eapply wp_intro; [by apply (flushEvents_delivered s1 this _ _ Hls1)|].
  eapply wp_modTxn.
  { subst s1. hsimpl. by rewrite Htx. }
  apply HQ; subst s1; hsimpl.
  - done.
  - done.
  - done.
  - rewrite Htx. simpl. by rewrite Hl.
Qed.

(** X25.  [commit()] on an active transaction delivers the buffered events, in
    the order they were buffered, each to every listener in registration
    order, detaches the transaction from the list and empties the buffer; the
    nodes are not touched, and a second [commit()] does nothing. *)
Theorem commit_delivers_the_buffer s this l t tx :
  lists s !! this = Some l →
  txns s !! t = Some tx →
  _list tx = this →
  _active tx = true →
  ∃ s', Transaction_commit t s = Ok (tt, s') ∧
        delivered s' = delivered s ++ deliveries (_listeners l) (events tx) ∧
        nodes s' = nodes s ∧
        lists s' !! this = Some (set_transaction l None) ∧
        txns s' !! t = Some (mkTransaction this (_snapshot tx) false []) ∧
        Transaction_commit t s' = Ok (tt, s').
Proof.
  intros Hls Htx Hl Hact.
  assert (wp (Transaction_commit t)
            (λ _ s', delivered s' = delivered s ++ deliveries (_listeners l) (events tx) ∧
                     nodes s' = nodes s ∧
                     lists s' !! this = Some (set_transaction l None) ∧
                     txns s' !! t = Some (mkTransaction this (_snapshot tx) false [])) s)
    as Hwp.
  { eapply wp_commit_active; [done..|]. by intros s' ? ? ? ?. }
  apply wp_elim in Hwp as ([] & s' & E & Hd & Hn & Hls' & Htx').
  exists s'. split_and!; [done..|].
  unfold Transaction_commit, bind, getTxn. by rewrite Htx'.
Qed.

(** [set] in range, with what becomes of its event. *)
Lemma wp_set_event s this l xs index k x v (Q : bool → Store V → Prop) :
  lists s !! this = Some l →
  wf_list (nodes s) l xs →
  txn_ok s this l →
  linear_seek l →
  resolve (_size l) index = Z.of_nat k →
  xs !! k = Some x →
  (∀ s', nodes s' = alter (λ n, set_value n v) x (nodes s) →
         lists s' = lists s →
         (if _observable l then
            match _transaction l with
            | Some t =>
                delivered s' = delivered s ∧
                txns s' = alter (λ tx, mkTransaction (_list tx) (_snapshot tx) (_active tx)
                                   (events tx ++ [EvUpdate index
                                      (default undefined (val (nodes s) x)) v]))
                                t (txns s)
            | None =>
                delivered s'
                = delivered s ++ map (λ f, (f, EvUpdate index
                                      (default undefined (val (nodes s) x)) v))
                                     (_listeners l) ∧
                txns s' = txns s
            end
          else delivered s' = delivered s ∧ txns s' = txns s) →
         Q true s') →
  wp (set this index v) Q s.
Proof.
  intros Hls Hwf Hok Hlin Hres Hk HQ. unfold set.
  apply wp_bind. eapply wp_nodeAt; [done..|].
  rewrite bool_decide_true by eauto. simpl.
  assert (x < length (nodes s)) as Hx.
  { eapply wf_list_fresh; [done|]. apply list_elem_of_lookup_2 in Hk. set_solver. }
  destruct (fld_valid value _ _ Hx) as (n & _ & Hv).
  apply wp_bind. eapply wp_getValue; [done|].
  apply wp_bind, wp_setValue; [done|].
  apply wp_bind. eapply wp_getList; [done|].
  unfold val in HQ. rewrite Hv in HQ. simpl in HQ.
  destruct (_observable l); simpl.
  - apply wp_bind. unfold _notify. apply wp_bind. eapply wp_getList; [done|].
    destruct (_transaction l) as [t|] eqn:Ht.
    + destruct (Hok t Ht) as (tx & Htx & _).
      eapply wp_modTxn; [done|]. apply wp_ret. by apply HQ.
    + eapply wp_intro; [apply callAll_spec|]. apply wp_ret. by apply HQ.
  - apply wp_bind, wp_ret, wp_ret. by apply HQ.
Qed.

(** X26.  [set] on an observable list tells every listener, in registration
    order, of the update with the index, the old and the new value; with a
    transaction attached it tells nobody and adds the event to the
    transaction's buffer. A list that is not observable tells nobody. *)
Theorem set_notifies_or_buffers s this l xs index k x v :
  lists s !! this = Some l →
  wf_list (nodes s) l xs →
  txn_ok s this l →
  linear_seek l →
  resolve (_size l) index = Z.of_nat k →
  xs !! k = Some x →
  let e := EvUpdate index (default undefined (val (nodes s) x)) v in
  ∃ s', set this index v s = Ok (true, s') ∧
        if _observable l then
          match _transaction l with
          | Some t =>
              delivered s' = delivered s ∧
              ∃ tx, txns s !! t = Some tx ∧
                    txns s' !! t = Some (mkTransaction (_list tx) (_snapshot tx)
                                           (_active tx) (events tx ++ [e]))
          | None => delivered s' = delivered s ++ map (λ f, (f, e)) (_listeners l)
          end
        else delivered s' = delivered s ∧ txns s' = txns s.
Proof.
  intros Hls Hwf Hok Hlin Hres Hk e.
  assert (wp (set this index v)
    (λ r s', r = true ∧
       if _observable l then
         match _transaction l with
         | Some t =>
             delivered s' = delivered s ∧
             ∃ tx, txns s !! t = Some tx ∧
                   txns s' !! t = Some (mkTransaction (_list tx) (_snapshot tx)
                                          (_active tx) (events tx ++ [e]))
         | None => delivered s' = delivered s ++ map (λ f, (f, e)) (_listeners l)
         end
       else delivered s' = delivered s ∧ txns s' = txns s) s) as Hwp.
  { eapply wp_set_event; [done..|]. intros s' _ _ Hev. split; [done|].
    destruct (_observable l); [|done].
    destruct (_transaction l) as [t|] eqn:Ht; [|by destruct Hev].
    destruct Hev as [Hd Htx]. split; [done|].
    destruct (Hok t Ht) as (tx & Htx0 & _). exists tx. split; [done|].
    by rewrite Htx, list_lookup_alter_eq, Htx0. }
  apply wp_elim in Hwp as (r & s' & E & -> & Hpost). by exists s'.
Qed.

(** X27.  An update made inside a transaction reaches the listeners at
    [commit()] and not before: after [beginTransaction()], [begin()] and
    [set(index, value)] nothing more has been delivered, and the [commit()]
    that follows delivers the update to every listener. *)
Theorem update_in_transaction_waits_for_commit s this l xs index k x v :
  lists s !! this = Some l →
  wf_list (nodes s) l xs →
  _transaction l = None →
  _observable l = true →
  linear_seek l →
  resolve (_size l) index = Z.of_nat k →
  xs !! k = Some x →
  let e := EvUpdate index (default undefined (val (nodes s) x)) v in
  ∃ t s1 s2 s3 s4,
    beginTransaction this s = Ok (t, s1) ∧
    Transaction_begin t s1 = Ok (tt, s2) ∧
    set this index v s2 = Ok (true, s3) ∧
    delivered s3 = delivered s ∧
    Transaction_commit t s3 = Ok (tt, s4) ∧
    delivered s4 = delivered s ++ map (λ f, (f, e)) (_listeners l).
Proof.
  intros Hls Hwf Htr Hobs Hlin Hres Hk e.
  set (t := length (txns s)).
  set (l1 := set_transaction l (Some t)).
  (* beginTransaction *)
  set (s1 := with_lists (with_txns s (txns s ++ [mkTransaction this None false []]))
               (alter (λ l, set_transaction l (Some t)) this (lists s))).
  assert (beginTransaction this s = Ok (t, s1)) as E1.
  { apply wp_run_to. unfold beginTransaction.
    apply wp_bind. eapply wp_getList; [done|]. rewrite Htr.
    apply wp_bind. unfold wp at 1, allocTxn.
    apply wp_bind. eapply wp_modList; [done|]. by apply wp_ret. }
  assert (lists s1 !! this = Some l1) as Hls1.
  { subst s1. hsimpl. by rewrite Hls. }
  assert (txns s1 !! t = Some (mkTransaction this None false [])) as Htx1.
  { subst s1 t. cbn [txns with_lists with_txns]. by rewrite list_lookup_middle. }
  assert (wf_list (nodes s1) l1 xs) as Hwf1 by (by eapply wf_list_record).
  (* begin *)
  assert (wp (Transaction_begin t)
            (λ _ s2, ∃ extra snap,
               nodes s2 = nodes s ++ extra ∧ lists s2 = lists s1 ∧
               delivered s2 = delivered s ∧
               txns s2 !! t = Some (mkTransaction this (Some snap) true [])) s1) as Hwp2.
  { unfold Transaction_begin. apply wp_bind. eapply wp_getTxn; [done|]. simpl.
    apply wp_bind. eapply wp_modTxn; [done|].
    apply wp_bind. eapply wp_getList; [done|].
    assert (_head l < length (nodes s)) as Hh.
    { eapply wf_list_fresh; [done|left]. }
    assert (_tail l < length (nodes s)) as Htv.
    { eapply wf_list_fresh; [done|set_solver]. }
    destruct (lookup_lt_is_Some_2 _ _ Hh) as [nh Hnh].
    destruct (lookup_lt_is_Some_2 _ _ Htv) as [nt Hnt].
    apply wp_bind. unfold spread.
    apply wp_bind. eapply wp_getNode; [done|]. apply wp_allocNode.
    apply wp_bind. apply wp_bind. eapply wp_getNode.
    { hsimpl. by rewrite lookup_app_l. }
    apply wp_allocNode.
    eapply wp_modTxn. { hsimpl. by rewrite Htx1. }
    eexists [nh; nt], _. hsimpl. split_and!; [by rewrite <- (assoc_L (++))|done|done|].
    rewrite Htx1. simpl. reflexivity. }
  apply wp_elim in Hwp2 as ([] & s2 & E2 & extra & snap & Hn2 & Hl2 & Hd2 & Htx2).
  assert (lists s2 !! this = Some l1) as Hls2 by (by rewrite Hl2).
  destruct (wf_list_extend _ extra _ _ Hwf1) as [Hwf2 Hc2].
  change (nodes s1) with (nodes s) in Hwf2, Hc2. rewrite <- Hn2 in Hwf2, Hc2.
  assert (txn_ok s2 this l1) as Hok2.
  { intros t' [= <-]. eauto. }
  (* set *)
  assert (val (nodes s2) x = val (nodes s) x) as Hval.
  { rewrite Hn2. unfold val. apply fld_app_l.
    eapply wf_list_fresh; [done|]. apply list_elem_of_lookup_2 in Hk. set_solver. }
  assert (wp (set this index v)
            (λ r s3, r = true ∧ delivered s3 = delivered s ∧ lists s3 = lists s2 ∧
               txns s3 !! t = Some (mkTransaction this (Some snap) true [e])) s2) as Hwp3.
  { eapply (wp_set_event s2 this l1 xs index k x); [done..|].
    intros s3 _ Hl3 Hev. cbn [l1 _observable _transaction set_transaction] in Hev.
    rewrite Hobs in Hev. destruct Hev as [Hd3 Htx3]. split_and!; [done|congruence|done|].
    rewrite Htx3, list_lookup_alter_eq, Htx2. simpl. subst e. by rewrite Hval. }
  apply wp_elim in Hwp3 as (r & s3 & E3 & -> & Hd3 & Hl3 & Htx3).
  (* commit *)
  assert (lists s3 !! this = Some l1) as Hls3 by (by rewrite Hl3).
  assert (wp (Transaction_commit t)
            (λ _ s4, delivered s4 = delivered s3 ++ deliveries (_listeners l1) [e]) s3)
    as Hwp4.
  { eapply wp_commit_active; [done..|]. by intros s4 ? _ _ _. }
  apply wp_elim in Hwp4 as ([] & s4 & E4 & Hd4).
  exists t, s1, s2, s3, s4. split_and!; [done..|].
  rewrite Hd4, Hd3. simpl. by rewrite app_nil_r.
Qed.

(** X28.  The function that [addChangeListener(listener)] returns takes the
    listener's first registration out again: the listeners are what they were
    when the listener was new, and when it had been registered before, it is
    the older registration that goes. *)
Theorem remover_takes_the_first_registration s this l f :
  lists s !! this = Some l →
  ∃ s1 s2,
    addChangeListener this f s = Ok (tt, s1) ∧
    lists s1 !! this = Some (set_listeners l (_listeners l ++ [f])) ∧
    removeChangeListener this f s1 = Ok (tt, s2) ∧
    lists s2 !! this
    = Some (set_listeners l
              (match list_find (λ g, g = f) (_listeners l) with
               | Some (i, _) => delete i (_listeners l) ++ [f]
               | None => _listeners l
               end)) ∧
    nodes s2 = nodes s ∧ txns s2 = txns s ∧ delivered s2 = delivered s.
Proof.
  intros Hls.
  set (l1 := set_listeners l (_listeners l ++ [f])).
  set (s1 := with_lists s (alter (λ l, set_listeners l (_listeners l ++ [f])) this (lists s))).
  assert (lists s1 !! this = Some l1) as Hls1.
  { subst s1. hsimpl. by rewrite Hls. }
  assert (addChangeListener this f s = Ok (tt, s1)) as E1.
  { unfold addChangeListener, modList. by rewrite Hls. }
  exists s1.
  assert (∃ i, list_find (λ g, g = f) (_listeners l ++ [f]) = Some (i, f) ∧
               delete i (_listeners l ++ [f])
               = match list_find (λ g, g = f) (_listeners l) with
                 | Some (i, _) => delete i (_listeners l) ++ [f]
                 | None => _listeners l
                 end) as (i & Hfind & Hdel).
  { generalize (_listeners l). intros fs. induction fs as [|g fs IH]; simpl.
    - rewrite decide_True by done. by exists 0.
    - destruct (decide (g = f)) as [->|Hne].
      + by exists 0.
      + destruct IH as (i & -> & Hdel). exists (S i). split; [done|].
        simpl. destruct (list_find _ fs) as [[j y]|]; simpl; by rewrite Hdel. }
  eexists. split_and!; [done|done| | | | |].
  - unfold removeChangeListener.
    rewrite (bind_Ok _ _ s1 l1 s1) by (by unfold getList; rewrite Hls1).
    cbn [l1 _listeners set_listeners]. rewrite Hfind.
    unfold modList. rewrite Hls1. reflexivity.
  - hsimpl. rewrite Hls1. simpl. rewrite <- Hdel. by destruct l.
  - done.
  - done.
  - done.
Qed.

(** ** A list concatenated with itself *)

(** X29.  [list.concat(list)] on a list that is not empty leaves it empty: the
    splice links the last node to the first, and the statements that are to
    empty the donor then empty the list itself. *)
Theorem concat_with_itself_empties s this vs :
  represents s this vs →
  vs ≠ [] →
  ∃ s', concat this this s = Ok (tt, s') ∧
        represents s' this [] ∧
        toArray this s' = Ok ([], s') ∧
        length_ this s' = Ok (0%Z, s').
Proof.
  intros (l & xs & Hls & Hwf & Hok & Hc) Hne.
  assert (xs ≠ []) as Hxs by (intros ->; by subst vs).
  assert (wp (concat this this) (λ _ s', represents s' this []) s) as Hwp.
  { unfold concat, isEmpty.
    apply wp_bind, wp_bind. eapply wp_getList; [done|]. apply wp_ret.
    pose proof (wf_size _ _ _ Hwf) as Hsz.
    destruct (Z.eqb_spec (_size l) 0) as [E|_]; [destruct xs; simpl in *; [done|lia]|].
    apply wp_bind. eapply wp_bumpModCount; [done|].
    set (l1 := set_modCount l (_modCount l + 1)).
    apply wp_bind. eapply wp_getList. { hsimpl. by rewrite Hls. }
    destruct (wf_list_first _ _ _ Hwf) as (y1 & Hy1 & [Hny1 _]).
    destruct (wf_list_last _ _ _ Hwf) as (yn & Hyn & [_ Hpyn]).
    assert (head xs = Some y1) as Hy1'.
    { destruct xs; [done|]. by simpl in *. }
    assert (last xs = Some yn) as Hyn'.
    { destruct xs as [|y ys]; [done|]. by rewrite last_cons_cons in Hyn. }
    assert (∀ x, x ∈ _head l :: xs ++ [_tail l] → x < length (nodes s)) as Hv
      by (intros x; by eapply wf_list_fresh).
    assert (y1 ∈ xs) as Hy1in by (apply head_Some in Hy1' as [c ->]; set_solver).
    assert (yn ∈ xs) as Hynin by (apply last_Some in Hyn' as [c ->]; set_solver).
    assert (y1 < length (nodes s)) as Hy1v by (apply Hv; set_solver).
    assert (yn < length (nodes s)) as Hynv by (apply Hv; set_solver).
    assert (_tail l < length (nodes s)) as Htv by (apply Hv; set_solver).
    assert (_head l < length (nodes s)) as Hhv by (apply Hv; set_solver).
    pose proof (wf_nodup _ _ _ Hwf) as Hnd.
    assert (_head l ≠ _tail l ∧ y1 ≠ _head l ∧ yn ≠ _tail l ∧ y1 ≠ _tail l ∧ yn ≠ _head l)
      as (Hht & Hy1h & Hynt & Hy1t & Hynh).
    { apply NoDup_cons in Hnd as [Hh Hnd]. apply NoDup_app in Hnd as (_ & Ht & _).
      split_and!; try (intros ->; apply Hh; set_solver);
        try (intros E; apply (Ht _ ltac:(eassumption)); rewrite E; set_solver).
      intros E. apply Hh. rewrite E. set_solver. }
    apply wp_bind. eapply wp_getNext; [done|].
    apply wp_bind. eapply wp_getPrev; [done|].
    apply wp_bind. eapply wp_getList. { hsimpl. by rewrite Hls. }
    apply wp_bind. eapply wp_getPrev; [done|].
    apply wp_bind, wp_setNext; [done|].
    apply wp_bind, wp_setPrev; [hlen|].
    apply wp_bind, wp_setNext; [hlen|].
    apply wp_bind, wp_setPrev; [hlen|].
    apply wp_bind. eapply wp_getList. { hsimpl. by rewrite Hls. }
    apply wp_bind. eapply wp_modList. { hsimpl. by rewrite Hls. }
    apply wp_bind. eapply wp_getList. { hsimpl. by rewrite Hls. }
    apply wp_bind, wp_setNext; [hlen|].
    apply wp_bind, wp_setPrev; [hlen|].
    apply wp_bind. eapply wp_modList. { hsimpl. by rewrite Hls. }
    set (s2 := with_lists _ _).
    set (l2 := set_size (set_size l1 (_size l1 + _size l1)) 0).
    assert (lists s2 !! this = Some l2) as Hls2.
    { subst s2. hsimpl. by rewrite Hls. }
    assert (wf_list (nodes s2) l2 []) as Hwf2.
    { destruct Hwf as [_ _ _ _ Hhp Htn].
      subst s2. split; cbn [_head _tail _size set_size set_modCount l1 l2]; hsimpl.
      - apply links_cons. split; [|done]. split; hsimpl; hcases.
      - apply NoDup_cons. split; [set_solver | apply NoDup_singleton].
      - repeat constructor; hlen.
      - done.
      - hcases.
      - hcases. }
    assert (txn_ok s2 this l2) as Hok2.
    { intros t Ht. apply (Hok t Ht). }
    assert (updated s2 this l2 l2 []) as Hup2 by (by split).
    apply wp_bind. eapply wp_getList; [done|].
    apply wp_bind. eapply wp_when_updateSkipLinks; [done|].
    intros s3 [Hls3 Hwf3 Hok3 _ _ _] _.
    apply wp_when.
    - intros _. eapply wp_notify; [done..|].
      intros s4 (Hn4 & Hl4 & Ht4). exists l2, []. split_and!.
      + by rewrite Hl4.
      + by rewrite Hn4.
      + by eapply txn_ok_ext.
      + done.
    - intros _. by exists l2, []. }
  apply wp_elim in Hwp as ([] & s' & E & Hrep).
  exists s'. split_and!; [done..|by apply represents_toArray|].
  by apply (represents_length s' this []).
Qed.

End Events.

Section Sorting.
Context {V : Type} `{JsValue V}.
Variable localeCompare : V → V → Z.

Local Open Scope js_scope.
Implicit Types (s : Store V) (l : UltimateLinkedList) (h : list (Node V)).

(** ** [sort] *)

Lemma sorted_insert_perm {A} (cmp : A → A → Z) x (l : list A) :
  sorted_insert cmp x l ≡ₚ x :: l.
Proof.
  induction l as [|y l IH]; [done|]. simpl.
  destruct (cmp x y <=? 0)%Z; [done|]. rewrite IH. apply Permutation_swap.
Qed.

Lemma Array_sort_perm {A} (cmp : A → A → Z) (l : list A) : Array_sort cmp l ≡ₚ l.
Proof.
  induction l as [|x l IH]; [done|]. simpl. by rewrite sorted_insert_perm, IH.
Qed.

(** What [Array.prototype.sort] returns is in order when the comparison is
    a total preorder on the keys [key p], ties being broken by anything. *)
Lemma sorted_insert_sorted {A B} (cmp : A → A → Z) (key : A → B) (R : B → B → Prop)
    x (l : list A) :
  (∀ a b, (cmp a b <= 0)%Z → R (key a) (key b)) →
  (∀ a b, ¬ (cmp a b <= 0)%Z → R (key b) (key a)) →
  (∀ a b c, R a b → R b c → R a c) →
  StronglySorted (λ p q, R (key p) (key q)) l →
  StronglySorted (λ p q, R (key p) (key q)) (sorted_insert cmp x l).
Proof.
  intros Hle Hgt Htr. induction 1 as [|y l Hs IH Hall]; simpl.
  - repeat constructor.
  - destruct (Z.leb_spec (cmp x y) 0) as [Hc|Hc].
    + constructor; [by constructor|]. constructor; [by apply Hle|].
      eapply Forall_impl; [exact Hall|]. intros z Hz. simpl in Hz.
      eapply Htr; [|exact Hz]. by apply Hle.
    + constructor; [done|].
      rewrite (sorted_insert_perm cmp x l). constructor; [|done].
      apply Hgt. lia.
Qed.

Lemma Array_sort_sorted {A B} (cmp : A → A → Z) (key : A → B) (R : B → B → Prop)
    (l : list A) :
  (∀ a b, (cmp a b <= 0)%Z → R (key a) (key b)) →
  (∀ a b, ¬ (cmp a b <= 0)%Z → R (key b) (key a)) →
  (∀ a b c, R a b → R b c → R a c) →
  StronglySorted (λ p q, R (key p) (key q)) (Array_sort cmp l).
Proof.
  intros Hle Hgt Htr. induction l as [|x l IH]; simpl; [constructor|].
  by apply sorted_insert_sorted.
Qed.

Lemma StronglySorted_fmap {A B} (key : A → B) (R : B → B → Prop) (l : list A) :
  StronglySorted (λ p q, R (key p) (key q)) l → StronglySorted R (key <$> l).
Proof.
  induction 1 as [|x l Hs IH Hall]; simpl; constructor; [done|].
  by apply Forall_fmap.
Qed.

Lemma wp_sort_collect_items xs2 xs1 fuel s l q (Q : list (V * Z) → Store V → Prop) :
  wf_list (nodes s) l (xs1 ++ xs2) →
  head (xs2 ++ [_tail l]) = Some q →
  length xs2 ≤ fuel →
  (∀ items, fst <$> items = contents (nodes s) xs2 → Q items s) →
  wp (sort_collect fuel (_tail l) (Some q)) Q s.
Proof.
  revert xs1 fuel q Q. induction xs2 as [|x xs2 IH]; intros xs1 fuel q Q Hwf Hq Hfuel HQ.
  - simpl in Hq. simplify_eq.
    destruct fuel; simpl; rewrite bool_decide_true by done; by apply wp_ret, HQ.
  - simpl in Hq. simplify_eq.
    destruct fuel as [|fuel]; [simpl in Hfuel; lia|]. simpl.
    rewrite bool_decide_false; last first.
    { intros [= E]. eapply (wf_list_elem_not_tail _ _ _ q); [done| |done]. set_solver. }
    assert (q < length (nodes s)) as Hx.
    { eapply wf_list_fresh; [done|]. set_solver. }
    destruct (lookup_lt_is_Some_2 _ _ Hx) as [n Hn'].
    destruct (wf_list_next _ _ _ _ _ Hwf) as (q' & Hq' & Hn).
    apply wp_bind. eapply wp_getNode; [done|].
    apply wp_bind. eapply wp_getNext; [done|].
    apply wp_bind. eapply (IH (xs1 ++ [q])).
    { by rewrite <- (assoc_L (++)). }
    { done. }
    { simpl in Hfuel. lia. }
    intros items Hitems. apply wp_ret, HQ.
    change (value n :: (fst <$> items) =
            default undefined (val (nodes s) q) :: contents (nodes s) xs2).
    rewrite Hitems. unfold val, fld. by rewrite Hn'.
Qed.

Lemma wp_sort_writeBack_values c (items : list (V * Z)) q s (Q : unit → Store V → Prop) :
  links (nodes s) (q :: c) →
  NoDup (q :: c) →
  length items ≤ length c →
  (∀ s', values_only s s' →
         contents (nodes s') (take (length items) (q :: c)) = fst <$> items →
         (∀ z, z ∉ take (length items) (q :: c) → val (nodes s') z = val (nodes s) z) →
         Q tt s') →
  wp (sort_writeBack items (Some q)) Q s.
Proof.
  revert c q s Q. induction items as [|item items IH]; intros c q s Q Hl Hnd Hlen HQ; simpl.
  - apply wp_ret, HQ; [apply values_only_refl|done..].
  - destruct c as [|y c]; [simpl in Hlen; lia|].
    apply links_cons in Hl as [[Hn Hp] Hl].
    pose proof (fld_Some_valid _ _ _ _ Hn) as Hq.
    apply NoDup_cons in Hnd as [Hqc Hnd].
    apply wp_bind, wp_setValue; [done|].
    apply wp_bind. eapply wp_getNext. { hsimpl. done. }
    set (s1 := with_nodes _ _).
    assert (values_only s s1) as Hs1.
    { subst s1. split_and!; hsimpl; try done. intros z. by hsimpl. }
    eapply (IH c y s1).
    { destruct Hs1 as (_ & _ & _ & Hf). apply (links_frame (nodes s)); [done|].
      intros z _. apply Hf. }
    { done. }
    { simpl in Hlen. lia. }
    intros s' Hs' Hc Hfr. apply HQ.
    + by eapply values_only_trans.
    + change (take (length (item :: items)) (q :: y :: c))
        with (q :: take (length items) (y :: c)).
      change (contents (nodes s') (q :: take (length items) (y :: c)))
        with (default undefined (val (nodes s') q)
              :: contents (nodes s') (take (length items) (y :: c))).
      rewrite Hc. simpl. f_equal.
      rewrite Hfr.
      * subst s1. hsimpl. by rewrite decide_True.
      * intros Hin. apply Hqc. by eapply subseteq_take.
    + intros z Hz.
      change (take (length (item :: items)) (q :: y :: c))
        with (q :: take (length items) (y :: c)) in Hz.
      apply not_elem_of_cons in Hz as [Hzq Hz].
      rewrite Hfr by done. subst s1. hsimpl. by rewrite decide_False.
Qed.

Lemma wp_sort_values s this l xs compareFn (Q : unit → Store V → Prop) :
  lists s !! this = Some l →
  wf_list (nodes s) l xs →
  txn_ok s this l →
  2 ≤ length xs →
  (∀ s' l' items,
     updated s' this l l' xs →
     fst <$> items = contents (nodes s) xs →
     contents (nodes s') xs =
       fst <$> Array_sort
                 (λ a b, compareWithIndex localeCompare compareFn
                           (fst a) (fst b) (snd a) (snd b)) items →
     Q tt s') →
  wp (sort localeCompare this compareFn) Q s.
Proof.
  intros Hls Hwf Hok Hlen HQ. unfold sort.
  apply wp_bind. eapply wp_getList; [done|].
  pose proof (wf_size _ _ _ Hwf) as Hsz.
  destruct (Z.leb_spec (_size l) 1); [lia|].
  apply wp_bind. eapply wp_bumpModCount; [done|].
  set (l1 := set_modCount l (_modCount l + 1)).
  set (s1 := with_lists _ _).
  assert (lists s1 !! this = Some l1) as Hls1.
  { subst s1. hsimpl. by rewrite Hls. }
  assert (wf_list (nodes s1) l1 xs) as Hwf1 by by eapply wf_list_record.
  apply wp_bind. eapply wp_toArray; [done..|].
  destruct (wf_list_first _ _ _ Hwf) as (q & Hq & [Hn _]).
  apply wp_bind. eapply wp_getNext; [done|].
  apply wp_bind, wp_getFuel.
  apply wp_bind. eapply (wp_sort_collect_items xs [] _ s1 l1); [done..| |].
  { pose proof (wf_list_bound _ _ _ Hwf). subst s1. cbn. lia. }
  intros items Hitems.
  apply wp_bind. eapply wp_getNext; [done|].
  pose proof (wf_links _ _ _ Hwf) as Hl.
  pose proof (wf_nodup _ _ _ Hwf) as Hnd.
  destruct (xs ++ [_tail l]) as [|q' c] eqn:E; [done|]. simpl in Hq. simplify_eq.
  apply links_cons in Hl as [_ Hl].
  apply NoDup_cons in Hnd as [_ Hnd].
  assert (length items = length xs) as Hli.
  { apply (f_equal length) in Hitems. unfold contents in Hitems.
    by rewrite !length_fmap in Hitems. }
  apply wp_bind. eapply (wp_sort_writeBack_values c); [done|done| |].
  { rewrite length_Array_sort, Hli.
    apply (f_equal length) in E. rewrite length_app in E. simpl in E. lia. }
  intros s2 (Hl2 & Ht2 & Hn2 & Hf2) Hc2 _.
  rewrite length_Array_sort, Hli, <- E, take_app_length in Hc2.
  assert (updated s2 this l l1 xs) as Hup.
  { split; try done.
    - by rewrite Hl2.
    - eapply wf_list_frame; [done| lia | | done..]. intros z _. apply Hf2.
    - intros t. rewrite Ht2. apply Hok. }
  apply wp_when.
  - intros _. eapply wp_notify; [apply Hup..|].
    intros s3 (Hn3 & Hl3 & Ht3). apply (HQ s3 l1 items); [|done|by rewrite Hn3].
    destruct Hup as [? ? ? ? ? ?]. split; try done.
    + by rewrite Hl3.
    + by rewrite Hn3.
    + by eapply txn_ok_ext.
  - intros _. by apply (HQ s2 l1 items).
Qed.

(** X30.  [sort(compareFn)] rearranges the elements: the list holds a
    permutation of what it held, and that permutation is in order for a
    comparator that is a total preorder ([compareFn], or [localeCompare] on
    the strings when none is given). *)
Theorem sort_permutes_and_orders s this vs compareFn :
  represents s this vs →
  ∃ s' ws, sort localeCompare this compareFn s = Ok (tt, s') ∧
           represents s' this ws ∧
           toArray this s' = Ok (ws, s') ∧
           ws ≡ₚ vs ∧
           let cmp := default localeCompare compareFn in
           ((∀ a b, (0 <= cmp a b)%Z → (cmp b a <= 0)%Z) →
            (∀ a b c, (cmp a b <= 0)%Z → (cmp b c <= 0)%Z → (cmp a c <= 0)%Z) →
            StronglySorted (λ a b, (cmp a b <= 0)%Z) ws).
Proof.
  intros (l & xs & Hls & Hwf & Hok & Hc).
  destruct (decide (2 ≤ length xs)) as [Hlen|Hlen].
  - set (cmp := default localeCompare compareFn).
    set (cmp' := λ a b : V * Z, compareWithIndex localeCompare compareFn
                                  (fst a) (fst b) (snd a) (snd b)).
    assert (∀ a b, cmp' a b = if (cmp (fst a) (fst b) =? 0)%Z
                              then (snd a - snd b)%Z else cmp (fst a) (fst b)) as Hcmp'.
    { intros a b. unfold cmp', cmp, compareWithIndex. by destruct compareFn. }
    assert (wp (sort localeCompare this compareFn)
              (λ _ s', ∃ items, represents s' this (fst <$> Array_sort cmp' items) ∧
                                fst <$> items = vs) s) as Hwp.
    { eapply wp_sort_values; [done..|]. intros s' l' items Hup Hi Hc'.
      exists items. split; [|congruence]. by eapply represents_updated. }
    apply wp_elim in Hwp as ([] & s' & E & items & Hrep & Hi).
    exists s', (fst <$> Array_sort cmp' items).
    split_and!; [done|done|by apply represents_toArray|..].
    + by rewrite Array_sort_perm, Hi.
    + cbv zeta. fold cmp. intros Hanti Htr. apply (StronglySorted_fmap fst (λ a b, (cmp a b <= 0)%Z)).
      apply (Array_sort_sorted cmp' fst (λ a b, (cmp a b <= 0)%Z)).
      * intros a b. rewrite Hcmp'. destruct (Z.eqb_spec (cmp a.1 b.1) 0); lia.
      * intros a b. rewrite Hcmp'. destruct (Z.eqb_spec (cmp a.1 b.1) 0) as [E0|E0].
        -- intros _. apply Hanti. lia.
        -- intros Hgt. apply Hanti. lia.
      * apply Htr.
  - exists s, vs. split_and!.
    + unfold sort, bind. unfold getList. rewrite Hls. simpl.
      rewrite (wf_size _ _ _ Hwf). destruct (Z.leb_spec (Z.of_nat (length xs)) 1); [done|lia].
    + by exists l, xs.
    + apply represents_toArray. by exists l, xs.
    + done.
    + intros cmp _ _. subst vs.
      destruct xs as [|x [|y xs]]; [constructor|repeat constructor|simpl in Hlen; lia].
Qed.

End Sorting.

(** * The theorems at concrete inputs *)

Lemma wf_list_10_20_30 :
  wf_list (nodes list_10_20_30) object_10_20_30 chain_10_20_30.
Proof.
  split.
  - vm_compute. repeat split.
  - apply (bool_decide_unpack _). by vm_compute.
  - apply (bool_decide_unpack _). by vm_compute.
  - reflexivity.
  - reflexivity.
  - reflexivity.
Defined.

Lemma wf_list_1_2 : wf_list (nodes lists_1_2_and_3) object_1_2 [2; 3].
Proof.
  split.
  - vm_compute. repeat split.
  - apply (bool_decide_unpack _). by vm_compute.
  - apply (bool_decide_unpack _). by vm_compute.
  - reflexivity.
  - reflexivity.
  - reflexivity.
Defined.

Lemma wf_list_3 : wf_list (nodes lists_1_2_and_3) object_3 [6].
Proof.
  split.
  - vm_compute. repeat split.
  - apply (bool_decide_unpack _). by vm_compute.
  - apply (bool_decide_unpack _). by vm_compute.
  - reflexivity.
  - reflexivity.
  - reflexivity.
Defined.

Lemma mutations_keep_size_and_count_changes_witness :
  ∃ s' l' xs',
    perform objectLocaleCompare 0 MReverse list_10_20_30 = Ok (tt, s') ∧
    lists s' !! 0 = Some l' ∧
    wf_list (nodes s') l' xs' ∧
    txn_ok s' 0 l' ∧
    _size l' = Z.of_nat (length xs') ∧
    (1 < _modCount l')%Z.
Proof.
  refine (proj1 (mutations_keep_size_and_count_changes objectLocaleCompare
            list_10_20_30 0 object_10_20_30 chain_10_20_30 MReverse
            eq_refl wf_list_10_20_30 _ _ I) I).
  - intros t. discriminate.
  - discriminate.
Defined.

Lemma insertAt_resolves_from_the_end_witness :
  toArray 0 list_10_20_30 = Ok (nums [10; 20; 30]%Z, list_10_20_30) ∧
  ((0 ≤ 3 ≤ 3)%Z →
   ∃ s', insertAt 0 (JNum 99) (-1)%Z list_10_20_30 = Ok (tt, s') ∧
         length_ 0 s' = Ok (4%Z, s') ∧
         toArray 0 s' = Ok (nums [10; 20; 30; 99]%Z, s')) ∧
  (¬ (0 ≤ 3 ≤ 3)%Z → insertAt 0 (JNum 99) (-1)%Z list_10_20_30 = Throw RangeError).
Proof.
  refine (insertAt_resolves_from_the_end list_10_20_30 0 object_10_20_30
            chain_10_20_30 (JNum 99) (-1)%Z eq_refl wf_list_10_20_30 _ eq_refl).
  intros t. discriminate.
Defined.

Lemma concat_moves_the_elements_witness :
  length_ 0 lists_1_2_and_3 = Ok (2%Z, lists_1_2_and_3) ∧
  length_ 1 lists_1_2_and_3 = Ok (1%Z, lists_1_2_and_3) ∧
  toArray 0 lists_1_2_and_3 = Ok (nums [1; 2]%Z, lists_1_2_and_3) ∧
  toArray 1 lists_1_2_and_3 = Ok (nums [3]%Z, lists_1_2_and_3) ∧
  ∃ s', concat 0 1 lists_1_2_and_3 = Ok (tt, s') ∧
        length_ 0 s' = Ok (3%Z, s') ∧
        length_ 1 s' = Ok (0%Z, s') ∧
        toArray 0 s' = Ok (nums [1; 2; 3]%Z, s') ∧
        toArray 1 s' = Ok ([], s').
Proof.
  refine (concat_moves_the_elements lists_1_2_and_3 0 1 object_1_2 object_3
            [2; 3] [6] _ eq_refl eq_refl wf_list_1_2 wf_list_3 _ _).
  - discriminate.
  - intros t. discriminate.
  - intros x Hx Hx'. simpl in Hx, Hx'. set_unfold. lia.
Defined.

Lemma wf_list_0_to_9 : wf_list (nodes list_0_to_9) object_0_to_9 chain_0_to_9.
Proof.
  split.
  - vm_compute. repeat split.
  - apply (bool_decide_unpack _). by vm_compute.
  - apply (bool_decide_unpack _). by vm_compute.
  - reflexivity.
  - reflexivity.
  - reflexivity.
Defined.

Lemma iteration_detects_counted_mutations_witness :
  (spread_list 0 list_10_20_30 = Ok (nums [10; 20; 30]%Z, list_10_20_30) ∧
   ∃ s', perform objectLocaleCompare 0 (MAppend (JNum 40)) list_10_20_30 = Ok (tt, s') ∧
         iterator_next iterator_10_20_30 s' = Throw ConcurrentModification) ∧
  (¬ linear_seek object_0_to_9 ∧
   perform objectLocaleCompare 0 (MRemoveAt 3) list_0_to_9
   = Ok (tt, list_0_to_9_without_3) ∧
   iterator_next iterator_0_to_9 list_0_to_9_without_3 = Throw ConcurrentModification).
Proof.
  split.
  - refine (let '(conj spreads (conj detects _)) :=
              iteration_detects_counted_mutations objectLocaleCompare
                list_10_20_30 0 object_10_20_30 chain_10_20_30 (MAppend (JNum 40))
                iterator_10_20_30 eq_refl wf_list_10_20_30 _ I eq_refl eq_refl
            in conj spreads (detects I _)).
    + intros t. discriminate.
    + discriminate.
  - assert (perform objectLocaleCompare 0 (MRemoveAt 3) list_0_to_9
            = Ok (tt, list_0_to_9_without_3)) as Hreturns by (by vm_compute).
    split; [discriminate|]. split; [exact Hreturns|].
    refine (proj2 (proj2 (iteration_detects_counted_mutations objectLocaleCompare
              list_0_to_9 0 object_0_to_9 chain_0_to_9 (MRemoveAt 3)
              iterator_0_to_9 eq_refl wf_list_0_to_9 _ I eq_refl eq_refl))
              list_0_to_9_without_3 Hreturns).
    intros t. discriminate.
Defined.

Lemma represents_10_20_30 : represents list_10_20_30 0 (nums [10; 20; 30]%Z).
Proof.
  exists object_10_20_30, chain_10_20_30.
  split; [reflexivity|]. split; [exact wf_list_10_20_30|].
  split; [intros t; discriminate | reflexivity].
Defined.

Lemma seeks_linearly_10_20_30 : seeks_linearly list_10_20_30 0.
Proof. exists object_10_20_30. split; reflexivity. Defined.

Lemma wf_observed_10_20_30 :
  wf_list (nodes observed_10_20_30) observed_object_10_20_30 chain_10_20_30.
Proof.
  split.
  - vm_compute. repeat split.
  - apply (bool_decide_unpack _). by vm_compute.
  - apply (bool_decide_unpack _). by vm_compute.
  - reflexivity.
  - reflexivity.
  - reflexivity.
Defined.

Lemma push_appends_in_order_witness :
  ∃ s', push 0 (nums [40; 50]%Z) list_10_20_30 = Ok (5%Z, s') ∧
        represents s' 0 (nums [10; 20; 30; 40; 50]%Z) ∧
        toArray 0 s' = Ok (nums [10; 20; 30; 40; 50]%Z, s').
Proof.
  exact (push_appends_in_order list_10_20_30 0 (nums [10; 20; 30]%Z) (nums [40; 50]%Z)
           represents_10_20_30).
Defined.

Lemma unshift_prepends_in_order_witness :
  ∃ s', unshift 0 (nums [1; 2]%Z) list_10_20_30 = Ok (5%Z, s') ∧
        represents s' 0 (nums [1; 2; 10; 20; 30]%Z) ∧
        toArray 0 s' = Ok (nums [1; 2; 10; 20; 30]%Z, s').
Proof.
  exact (unshift_prepends_in_order list_10_20_30 0 (nums [10; 20; 30]%Z) (nums [1; 2]%Z)
           represents_10_20_30).
Defined.

Lemma pop_takes_the_last_witness :
  ∃ s', pop 0 list_10_20_30 = Ok (JNum 30, s') ∧
        represents s' 0 (nums [10; 20]%Z) ∧
        toArray 0 s' = Ok (nums [10; 20]%Z, s').
Proof.
  exact (pop_takes_the_last list_10_20_30 0 (nums [10; 20; 30]%Z) represents_10_20_30).
Defined.

Lemma shift_takes_the_first_witness :
  ∃ s', shift 0 list_10_20_30 = Ok (JNum 10, s') ∧
        represents s' 0 (nums [20; 30]%Z) ∧
        toArray 0 s' = Ok (nums [20; 30]%Z, s').
Proof.
  exact (shift_takes_the_first list_10_20_30 0 (nums [10; 20; 30]%Z) represents_10_20_30).
Defined.

Lemma get_reads_the_element_witness :
  get 0 (-1)%Z list_10_20_30 = Ok (JNum 30, list_10_20_30) ∧
  at_ 0 (-1)%Z list_10_20_30 = Ok (JNum 30, list_10_20_30).
Proof.
  exact (get_reads_the_element list_10_20_30 0 (nums [10; 20; 30]%Z) (-1)%Z 2 (JNum 30)
           represents_10_20_30 seeks_linearly_10_20_30 eq_refl eq_refl).
Defined.

Lemma set_then_get_witness :
  ∃ s', set 0 (-2)%Z (JNum 21) list_10_20_30 = Ok (true, s') ∧
        represents s' 0 (nums [10; 21; 30]%Z) ∧
        toArray 0 s' = Ok (nums [10; 21; 30]%Z, s') ∧
        get 0 (-2)%Z s' = Ok (JNum 21, s').
Proof.
  refine (set_then_get list_10_20_30 0 (nums [10; 20; 30]%Z) (-2)%Z 1 (JNum 21)
            represents_10_20_30 seeks_linearly_10_20_30 eq_refl _).
  simpl. lia.
Defined.

Lemma removeAt_takes_the_element_witness :
  ∃ s', removeAt 0 1%Z list_10_20_30 = Ok (JNum 20, s') ∧
        represents s' 0 (nums [10; 30]%Z) ∧
        toArray 0 s' = Ok (nums [10; 30]%Z, s').
Proof.
  exact (removeAt_takes_the_element list_10_20_30 0 (nums [10; 20; 30]%Z) 1%Z 1 (JNum 20)
           represents_10_20_30 seeks_linearly_10_20_30 eq_refl eq_refl).
Defined.

Lemma remove_takes_the_first_match_witness :
  (∃ s', remove 0 (JNum 20) sameNumber list_10_20_30 = Ok (JNum 20, s') ∧
         represents s' 0 (nums [10; 30]%Z) ∧
         toArray 0 s' = Ok (nums [10; 30]%Z, s')) ∧
  remove 0 (JNum 99) sameNumber list_10_20_30 = Ok (JUndefined, list_10_20_30).
Proof.
  split.
  - exact (remove_takes_the_first_match list_10_20_30 0 (nums [10; 20; 30]%Z) (JNum 20)
             sameNumber represents_10_20_30).
  - exact (remove_takes_the_first_match list_10_20_30 0 (nums [10; 20; 30]%Z) (JNum 99)
             sameNumber represents_10_20_30).
Defined.

Lemma clear_empties_witness :
  ∃ s', clear 0 list_10_20_30 = Ok (tt, s') ∧
        represents s' 0 [] ∧
        toArray 0 s' = Ok ([], s') ∧
        length_ 0 s' = Ok (0%Z, s').
Proof. exact (clear_empties list_10_20_30 0 (nums [10; 20; 30]%Z) represents_10_20_30). Defined.

Lemma reverse_reverses_witness :
  ∃ s', reverse 0 list_10_20_30 = Ok (tt, s') ∧
        represents s' 0 (nums [30; 20; 10]%Z) ∧
        toArray 0 s' = Ok (nums [30; 20; 10]%Z, s') ∧
        ∃ s'', reverse 0 s' = Ok (tt, s'') ∧
               represents s'' 0 (nums [10; 20; 30]%Z) ∧
               toArray 0 s'' = Ok (nums [10; 20; 30]%Z, s'').
Proof.
  exact (reverse_reverses list_10_20_30 0 (nums [10; 20; 30]%Z) represents_10_20_30).
Defined.

Lemma sort_permutes_and_orders_witness :
  ∃ s' ws, sort objectLocaleCompare 0 (Some ascending) list_10_20_30 = Ok (tt, s') ∧
           represents s' 0 ws ∧
           toArray 0 s' = Ok (ws, s') ∧
           ws ≡ₚ nums [10; 20; 30]%Z ∧
           StronglySorted (λ a b, (ascending a b <= 0)%Z) ws.
Proof.
  destruct (sort_permutes_and_orders objectLocaleCompare list_10_20_30 0
              (nums [10; 20; 30]%Z) (Some ascending) represents_10_20_30)
    as (s' & ws & Hsort & Hrep & Harr & Hperm & Hsorted).
  exists s', ws. repeat split; try assumption.
  apply Hsorted.
  - intros a b. unfold ascending. simpl. lia.
  - intros a b c. unfold ascending. simpl. lia.
Defined.

Lemma indexOf_finds_the_first_match_witness :
  ((∀ i v, nums [10; 20; 30]%Z !! i = Some v → sameNumber v (JNum 20) = false) ∧
   indexOf 0 (JNum 20) sameNumber list_10_20_30 = Ok ((-1)%Z, list_10_20_30) ∧
   includes 0 (JNum 20) sameNumber list_10_20_30 = Ok (false, list_10_20_30)) ∨
  (∃ i v, nums [10; 20; 30]%Z !! i = Some v ∧ sameNumber v (JNum 20) = true ∧
          (∀ j w, j < i → nums [10; 20; 30]%Z !! j = Some w →
                  sameNumber w (JNum 20) = false) ∧
          indexOf 0 (JNum 20) sameNumber list_10_20_30 = Ok (Z.of_nat i, list_10_20_30) ∧
          includes 0 (JNum 20) sameNumber list_10_20_30 = Ok (true, list_10_20_30)).
Proof.
  exact (indexOf_finds_the_first_match list_10_20_30 0 (nums [10; 20; 30]%Z) (JNum 20)
           sameNumber represents_10_20_30).
Defined.

Lemma lastIndexOf_finds_the_last_match_witness :
  ((∀ i v, nums [10; 20; 30]%Z !! i = Some v → sameNumber v (JNum 20) = false) ∧
   lastIndexOf 0 (JNum 20) sameNumber list_10_20_30 = Ok ((-1)%Z, list_10_20_30)) ∨
  (∃ i v, nums [10; 20; 30]%Z !! i = Some v ∧ sameNumber v (JNum 20) = true ∧
          (∀ j w, i < j → nums [10; 20; 30]%Z !! j = Some w →
                  sameNumber w (JNum 20) = false) ∧
          lastIndexOf 0 (JNum 20) sameNumber list_10_20_30
          = Ok (Z.of_nat i, list_10_20_30)).
Proof.
  exact (lastIndexOf_finds_the_last_match list_10_20_30 0 (nums [10; 20; 30]%Z) (JNum 20)
           sameNumber represents_10_20_30).
Defined.

Lemma find_returns_the_first_match_witness :
  ((∀ i v, nums [10; 20; 30]%Z !! i = Some v → above 15 v (Z.of_nat i) 0 = false) ∧
   find_ 0 (above 15) list_10_20_30 = Ok (JUndefined, list_10_20_30) ∧
   findIndex 0 (above 15) list_10_20_30 = Ok ((-1)%Z, list_10_20_30)) ∨
  (∃ i v, nums [10; 20; 30]%Z !! i = Some v ∧ above 15 v (Z.of_nat i) 0 = true ∧
          (∀ j w, j < i → nums [10; 20; 30]%Z !! j = Some w →
                  above 15 w (Z.of_nat j) 0 = false) ∧
          find_ 0 (above 15) list_10_20_30 = Ok (v, list_10_20_30) ∧
          findIndex 0 (above 15) list_10_20_30 = Ok (Z.of_nat i, list_10_20_30)).
Proof.
  exact (find_returns_the_first_match list_10_20_30 0 (nums [10; 20; 30]%Z) (above 15)
           represents_10_20_30).
Defined.

Lemma some_and_every_decide_witness :
  ∃ b c, some 0 (above 15) list_10_20_30 = Ok (b, list_10_20_30) ∧
         every 0 (above 15) list_10_20_30 = Ok (c, list_10_20_30) ∧
         (b = true ↔ ∃ i v, nums [10; 20; 30]%Z !! i = Some v ∧
                            above 15 v (Z.of_nat i) 0 = true) ∧
         (c = true ↔ ∀ i v, nums [10; 20; 30]%Z !! i = Some v →
                            above 15 v (Z.of_nat i) 0 = true).
Proof.
  exact (some_and_every_decide list_10_20_30 0 (nums [10; 20; 30]%Z) (above 15)
           represents_10_20_30).
Defined.

Lemma reduce_folds_from_the_left_witness :
  (∀ initialValue,
     reduce 0 plus (Some initialValue) list_10_20_30
     = Ok (plus (plus (plus initialValue (JNum 10) 0 0) (JNum 20) 1 0) (JNum 30) 2 0,
           list_10_20_30)) ∧
  reduce 0 plus None list_10_20_30 = Ok (JNum 60, list_10_20_30).
Proof.
  exact (reduce_folds_from_the_left list_10_20_30 0 (nums [10; 20; 30]%Z) plus
           represents_10_20_30).
Defined.

Lemma join_concatenates_witness :
  join numberToString 0 ", " list_10_20_30 = Ok ("10, 20, 30"%string, list_10_20_30).
Proof.
  exact (join_concatenates list_10_20_30 0 (nums [10; 20; 30]%Z) numberToString ", "
           represents_10_20_30).
Defined.

Lemma cursor_walks_the_list_witness :
  (∃ c, Cursor_advance 2 (cursor 0) list_10_20_30 = Ok (c, list_10_20_30) ∧
        Cursor_valid c list_10_20_30 = Ok (true, list_10_20_30) ∧
        _index c = 1%Z ∧
        ∀ v, nums [10; 20; 30]%Z !! 1 = Some v →
             Cursor_value c list_10_20_30 = Ok (v, list_10_20_30)) ∧
  (∃ c, Cursor_advance 2 (Cursor_setDirection (cursor 0) (-1)) list_10_20_30
        = Ok (c, list_10_20_30) ∧
        Cursor_valid c list_10_20_30 = Ok (true, list_10_20_30) ∧
        _index c = 1%Z ∧
        ∀ v, nums [30; 20; 10]%Z !! 1 = Some v →
             Cursor_value c list_10_20_30 = Ok (v, list_10_20_30)).
Proof.
  refine (cursor_walks_the_list list_10_20_30 0 (nums [10; 20; 30]%Z) 1
            represents_10_20_30 _).
  simpl. lia.
Defined.

Lemma cursor_iterates_the_rest_witness :
  spread_cursor (cursor 0) list_10_20_30 = Ok (nums [10; 20; 30]%Z, list_10_20_30) ∧
  ∃ c, Cursor_advance 2 (cursor 0) list_10_20_30 = Ok (c, list_10_20_30) ∧
       spread_cursor c list_10_20_30 = Ok (nums [20; 30]%Z, list_10_20_30).
Proof.
  refine (cursor_iterates_the_rest list_10_20_30 0 (nums [10; 20; 30]%Z) 1
            represents_10_20_30 _).
  simpl. lia.
Defined.

Lemma map_builds_the_image_witness :
  ∃ r s', map_ 0 plusIndex list_10_20_30 = Ok (r, s') ∧
          r ≠ 0 ∧
          represents s' r (nums [10; 21; 32]%Z) ∧
          represents s' 0 (nums [10; 20; 30]%Z).
Proof.
  exact (map_builds_the_image list_10_20_30 0 (nums [10; 20; 30]%Z) plusIndex
           represents_10_20_30).
Defined.

Lemma filter_keeps_the_accepted_witness :
  ∃ r s', filter_ 0 (above 15) list_10_20_30 = Ok (r, s') ∧
          r ≠ 0 ∧
          represents s' r (nums [20; 30]%Z) ∧
          represents s' 0 (nums [10; 20; 30]%Z).
Proof.
  exact (filter_keeps_the_accepted list_10_20_30 0 (nums [10; 20; 30]%Z) (above 15)
           represents_10_20_30).
Defined.

Lemma slice_copies_the_range_witness :
  ∃ r s', slice 0 (Some 1%Z) (Some (-1)%Z) list_10_20_30 = Ok (r, s') ∧
          r ≠ 0 ∧
          represents s' r (nums [20]%Z) ∧
          represents s' 0 (nums [10; 20; 30]%Z).
Proof.
  exact (slice_copies_the_range list_10_20_30 0 (nums [10; 20; 30]%Z)
           (Some 1%Z) (Some (-1)%Z) represents_10_20_30 seeks_linearly_10_20_30).
Defined.

Lemma immutable_is_a_view_toMutable_a_copy_witness :
  Immutable_toArray (immutable 0) list_10_20_30
  = Ok (nums [10; 20; 30]%Z, list_10_20_30) ∧
  Immutable_length (immutable 0) list_10_20_30 = Ok (3%Z, list_10_20_30) ∧
  (∀ v, ∃ s1, append 0 v list_10_20_30 = Ok (tt, s1) ∧
              Immutable_toArray (immutable 0) s1 = Ok (nums [10; 20; 30]%Z ++ [v], s1)) ∧
  ∃ m s', Immutable_toMutable (immutable 0) list_10_20_30 = Ok (m, s') ∧
          m ≠ 0 ∧ represents s' m (nums [10; 20; 30]%Z) ∧
          represents s' 0 (nums [10; 20; 30]%Z) ∧
          ∀ v, ∃ s2, append m v s' = Ok (tt, s2) ∧
                     represents s2 m (nums [10; 20; 30]%Z ++ [v]) ∧
                     represents s2 0 (nums [10; 20; 30]%Z).
Proof.
  exact (immutable_is_a_view_toMutable_a_copy list_10_20_30 0 (nums [10; 20; 30]%Z)
           represents_10_20_30).
Defined.

Lemma range_enumerates_witness :
  UltimateLinkedList_range 0 10 0 (empty_store : Store JsVal) = Throw RangeError ∧
  ∃ (count : nat) r s',
    UltimateLinkedList_range 0 10 3 (empty_store : Store JsVal) = Ok (r, s') ∧
    represents s' r ((λ i : nat, JNum (0 + Z.of_nat i * 3)%Z) <$> seq 0 count) ∧
    ∀ i : nat, i < count ↔ (0 + Z.of_nat i * 3 < 10)%Z.
Proof.
  refine (range_enumerates (empty_store : Store JsVal) 0 10 3 _ _ _ _).
  - discriminate.
  - simpl. lia.
  - simpl. lia.
  - simpl. lia.
Defined.

(** Beyond [2^53] the loop of [range] adds as the doubles do:
    [range(2^53, 2^53 + 6, 3)] holds [2^53] and [2^53 + 4], and
    [range(2^53, 2^53 + 2, 1)], where [2^53 + 1] rounds back to [2^53], does
    not end. *)
Lemma range_adds_as_the_doubles_do :
  run (range_then_toArray (2 ^ 53) (2 ^ 53 + 6) 3)
  = Ok [JNum (2 ^ 53); JNum (2 ^ 53 + 4)] ∧
  run (range_then_toArray (2 ^ 53) (2 ^ 53 + 2) 1) = OutOfFuel.
Proof. split; by vm_compute. Qed.

Lemma commit_delivers_the_buffer_witness :
  ∃ s', Transaction_commit 0 in_transaction_10_21_30 = Ok (tt, s') ∧
        delivered s' = [(7, EvUpdate 1%Z (JNum 20) (JNum 21));
                        (8, EvUpdate 1%Z (JNum 20) (JNum 21))] ∧
        nodes s' = nodes in_transaction_10_21_30 ∧
        lists s' !! 0 = Some (set_transaction object_in_transaction None) ∧
        txns s' !! 0 = Some (mkTransaction 0 (Some (mkSnapshot 5 6 3)) false []) ∧
        Transaction_commit 0 s' = Ok (tt, s').
Proof.
  exact (commit_delivers_the_buffer in_transaction_10_21_30 0 object_in_transaction 0
           transaction_with_update eq_refl eq_refl eq_refl eq_refl).
Defined.

Lemma set_notifies_or_buffers_witness :
  ∃ s', set 0 1%Z (JNum 21) observed_10_20_30 = Ok (true, s') ∧
        delivered s' = [(7, EvUpdate 1%Z (JNum 20) (JNum 21));
                        (8, EvUpdate 1%Z (JNum 20) (JNum 21))].
Proof.
  refine (set_notifies_or_buffers observed_10_20_30 0 observed_object_10_20_30
            chain_10_20_30 1%Z 1 3 (JNum 21) eq_refl wf_observed_10_20_30 _
            eq_refl eq_refl eq_refl).
  intros t. discriminate.
Defined.

Lemma update_in_transaction_waits_for_commit_witness :
  ∃ t s1 s2 s3 s4,
    beginTransaction 0 observed_10_20_30 = Ok (t, s1) ∧
    Transaction_begin t s1 = Ok (tt, s2) ∧
    set 0 1%Z (JNum 21) s2 = Ok (true, s3) ∧
    delivered s3 = [] ∧
    Transaction_commit t s3 = Ok (tt, s4) ∧
    delivered s4 = [(7, EvUpdate 1%Z (JNum 20) (JNum 21));
                    (8, EvUpdate 1%Z (JNum 20) (JNum 21))].
Proof.
  exact (update_in_transaction_waits_for_commit observed_10_20_30 0
           observed_object_10_20_30 chain_10_20_30 1%Z 1 3 (JNum 21)
           eq_refl wf_observed_10_20_30 eq_refl eq_refl eq_refl eq_refl eq_refl).
Defined.

Lemma remover_takes_the_first_registration_witness :
  ∃ s1 s2,
    addChangeListener 0 7 observed_10_20_30 = Ok (tt, s1) ∧
    lists s1 !! 0 = Some (set_listeners observed_object_10_20_30 [7; 8; 7]) ∧
    removeChangeListener 0 7 s1 = Ok (tt, s2) ∧
    lists s2 !! 0 = Some (set_listeners observed_object_10_20_30 [8; 7]) ∧
    nodes s2 = nodes observed_10_20_30 ∧ txns s2 = txns observed_10_20_30 ∧
    delivered s2 = delivered observed_10_20_30.
Proof.
  exact (remover_takes_the_first_registration observed_10_20_30 0
           observed_object_10_20_30 7 eq_refl).
Defined.

Lemma concat_with_itself_empties_witness :
  ∃ s', concat 0 0 list_10_20_30 = Ok (tt, s') ∧
        represents s' 0 [] ∧
        toArray 0 s' = Ok ([], s') ∧
        length_ 0 s' = Ok (0%Z, s').
Proof.
  refine (concat_with_itself_empties list_10_20_30 0 (nums [10; 20; 30]%Z)
            represents_10_20_30 _).
  discriminate.
Defined.
